(** * Sprite-atlas packing core: a shallow embedding and its properties

    The development follows the JavaScript sources

    - [js/maxRectanglesPacker.js]  (MaxRectangles packer and its grid search),
    - [js/app.js], second part     (Shelf packer [packImagesInternal] and [packImages]),
    - [js/imageGrouper.js]         (ImageGrouper),
    - [js/smartAlgorithmSelector.js] ([recordResult], [recordHistory]).

    Numbers.  Image dimensions, the padding and the working widths are
    integers in the program (pixel sizes, [parseInt] of the form fields), and
    the MaxRectangles packer only adds, subtracts and compares them, so it is
    modelled over [Z].  The Shelf packer halves differences and weighs its
    scores with decimal constants; there the JavaScript numbers are modelled
    as exact rationals [Q], which is what the program computes for the
    geometry of integer sizes.  The scores of the shelf scan are rounded by
    the program, and the rounding decides between candidates whose exact
    scores are equal or nearly so: the scan is therefore also given with
    binary64 numbers ([ShelfScan]), and the properties of the choice of a
    shelf are stated there.  Canvas creation and drawing are left out: they
    do not influence the geometry that is returned. *)

From Stdlib Require Import ZArith QArith Qround Qminmax Qabs Lqa Lia.
From Stdlib Require Floats.SpecFloat.
From stdpp Require Import base list strings gmap pretty sorting.

Open Scope Z_scope.

(** ** Data model *)

(** An input image ([{name, width, height, img}]); the pixel payload [img] is
    never inspected by the packing code and is omitted. *)
Module Image.
Record t := mk { name : string; width : Z; height : Z }.
End Image.

(** [{x, y, width, height}]: free rectangles, used rectangles, best nodes. *)
Module Rect.
Record t := mk { x : Z; y : Z; width : Z; height : Z }.
End Rect.

(** A placed frame; [num] is [Z] for the MaxRectangles packer and [Q] for
    the Shelf packer. *)
Module Frame.
Record t {num : Type} := mk {
  name : string;
  x : num; y : num;
  width : num; height : num;
  originalWidth : num; originalHeight : num;
  offsetX : num; offsetY : num;
  rotated : bool
}.
Arguments t : clear implicits.
Arguments mk {num}.
End Frame.

(** The value returned by a packing attempt, without its canvas. *)
Module Layout.
Record t {num : Type} := mk { frames : list (Frame.t num); width : num; height : num }.
Arguments t : clear implicits.
Arguments mk {num}.
End Layout.

(** JavaScript's [Infinity] as the initial value of a running minimum. *)
Definition ltInf (a : Z) (b : option Z) : bool :=
  match b with None => true | Some b' => a <? b' end.

Definition eqInf (a : Z) (b : option Z) : bool :=
  match b with None => false | Some b' => a =? b' end.

(** [a < b] on rationals. *)
Definition Qltb (a b : Q) : bool := negb (Qle_bool b a).

(** ** Sorting

    [Array.prototype.sort] is stable; for a comparator that orders by a key
    the result is the one of any stable sort.  [leb a b] stands for
    [cmp(a, b) <= 0]. *)

Fixpoint insertSorted {A : Type} (leb : A -> A -> bool) (a : A) (l : list A)
    : list A :=
  match l with
  | [] => [a]
  | b :: rest => if leb a b then a :: l else b :: insertSorted leb a rest
  end.

Definition stableSort {A : Type} (leb : A -> A -> bool) (l : list A) : list A :=
  foldr (insertSorted leb) [] l.

(** ** Arithmetic of the grid search *)

(** [nextPowerOf2(n) = Math.pow(2, Math.ceil(Math.log2(Math.max(1, n))))]:
    the least power of two that is at least [max(1, n)].  The program takes
    the logarithm in binary64; its ceiling is the exact one for the sizes of
    an atlas and far beyond, but no longer near [2 ^ 49], where the rounded
    logarithm of [2 ^ 49 + 1] is 49. *)
Definition nextPowerOf2 (n : Z) : Z := 2 ^ Z.log2_up (Z.max 1 n).

Definition nextPowerOf2Q (n : Q) : Z := 2 ^ Z.log2_up (Qceiling (Qmax 1 n)).

(** [Math.ceil(Math.sqrt(q))]: the least natural number whose square is at
    least [q]. *)
Definition ceilSqrt (q : Q) : Z := Z.sqrt_up (Qceiling q).

(** The value of a JavaScript division: finite, an infinity or [NaN]. *)
Inductive JsNum : Type :=
| Finite (q : Q)
| PosInfinity
| NegInfinity
| NotANumber.

Definition jsDiv (a b : Q) : JsNum :=
  if Qeq_bool b 0 then
    if Qeq_bool a 0 then NotANumber
    else if Qle_bool 0 a then PosInfinity else NegInfinity
  else Finite (a / b).

(** Addition. *)
Definition jsAdd (a b : JsNum) : JsNum :=
  match a, b with
  | Finite x, Finite y => Finite (x + y)
  | NotANumber, _ | _, NotANumber => NotANumber
  | PosInfinity, NegInfinity | NegInfinity, PosInfinity => NotANumber
  | PosInfinity, _ | _, PosInfinity => PosInfinity
  | NegInfinity, _ | _, NegInfinity => NegInfinity
  end.

(** Multiplication by a positive finite constant. *)
Definition jsScale (v : JsNum) (c : Q) : JsNum :=
  match v with Finite q => Finite (q * c) | other => other end.

(** [a > b] and [a === b] on such values; every comparison with [NaN] is
    false. *)
Definition jsGt (a b : JsNum) : bool :=
  match a, b with
  | Finite x, Finite y => Qltb y x
  | PosInfinity, Finite _ => true
  | PosInfinity, NegInfinity => true
  | Finite _, NegInfinity => true
  | _, _ => false
  end.

Definition jsEq (a b : JsNum) : bool :=
  match a, b with
  | Finite x, Finite y => Qeq_bool x y
  | PosInfinity, PosInfinity => true
  | NegInfinity, NegInfinity => true
  | _, _ => false
  end.

(** [images.reduce((sum, img) => sum + img.width * img.height, 0)]. *)
Definition totalArea (images : list Image.t) : Z :=
  fold_left (fun sum im => sum + Image.width im * Image.height im) images 0.

(** The running best of a grid search: [bestResult], [bestArea] ([None] is
    [Infinity]) and [bestEfficiency].  Both grid searches keep it the same
    way. *)
Record Search (num : Type) := mkSearch {
  bestResult : option (Layout.t num);
  bestArea : option Q;
  bestEfficiency : JsNum
}.
Arguments mkSearch {num}.
Arguments bestResult {num}.
Arguments bestArea {num}.
Arguments bestEfficiency {num}.

Definition initSearch {num : Type} : Search num := mkSearch None None (Finite 0).

Definition ltInfQ (a : Q) (b : option Q) : bool :=
  match b with None => true | Some b' => Qltb a b' end.

(** [efficiency > bestEfficiency || (efficiency === bestEfficiency && area < bestArea)]. *)
Definition improvesSearch {num : Type} (efficiency : JsNum) (area : Q)
    (acc : Search num) : bool :=
  jsGt efficiency (bestEfficiency acc)
  || (jsEq efficiency (bestEfficiency acc) && ltInfQ area (bestArea acc)).

(** [imgUsedArea / area * 100]. *)
Definition efficiencyOf (images : list Image.t) (area : Q) : JsNum :=
  jsScale (jsDiv (inject_Z (totalArea images)) area) 100.

(** [if (!widthOptions.includes(w)) widthOptions.push(w)]. *)
Definition includes (l : list Z) (w : Z) : bool := existsb (Z.eqb w) l.

(** ** MaxRectangles packer ([js/maxRectanglesPacker.js]) *)

Module MaxRects.

Definition zeroNode : Rect.t := Rect.mk 0 0 0 0.

(** One iteration of the loop of [findPositionForNewNodeBestShortSideFit];
    the accumulator is [(bestNode, bestShortSideFit, bestLongSideFit)]. *)
Definition bssfStep (width height : Z)
    (acc : Rect.t * option Z * option Z) (rect : Rect.t)
    : Rect.t * option Z * option Z :=
  let '(bestNode, bestShortSideFit, bestLongSideFit) := acc in
  if (width <=? Rect.width rect) && (height <=? Rect.height rect) then
    let leftoverHoriz := Z.abs (Rect.width rect - width) in
    let leftoverVert := Z.abs (Rect.height rect - height) in
    let shortSideFit := Z.min leftoverHoriz leftoverVert in
    let longSideFit := Z.max leftoverHoriz leftoverVert in
    if ltInf shortSideFit bestShortSideFit
       || (eqInf shortSideFit bestShortSideFit
           && ltInf longSideFit bestLongSideFit)
    then (Rect.mk (Rect.x rect) (Rect.y rect) width height,
          Some shortSideFit, Some longSideFit)
    else acc
  else acc.

Definition findPositionForNewNodeBestShortSideFit
    (freeRectangles : list Rect.t) (width height : Z) : Rect.t :=
  fst (fst (fold_left (bssfStep width height) freeRectangles
                      (zeroNode, None, None))).

(** [isContainedIn a b]: rectangle [a] lies inside rectangle [b]. *)
Definition isContainedIn (a b : Rect.t) : bool :=
  (Rect.x b <=? Rect.x a) && (Rect.y b <=? Rect.y a)
  && (Rect.x a + Rect.width a <=? Rect.x b + Rect.width b)
  && (Rect.y a + Rect.height a <=? Rect.y b + Rect.height b).

(** The early-exit test of [splitFreeRectangle]: the used rectangle does
    not touch the free one. *)
Definition noOverlap (usedRectangle freeRect : Rect.t) : bool :=
  (Rect.x freeRect + Rect.width freeRect <=? Rect.x usedRectangle)
  || (Rect.x usedRectangle + Rect.width usedRectangle <=? Rect.x freeRect)
  || (Rect.y freeRect + Rect.height freeRect <=? Rect.y usedRectangle)
  || (Rect.y usedRectangle + Rect.height usedRectangle <=? Rect.y freeRect).

(** The residual rectangles [splitFreeRectangle] pushes for an overlapping
    free rectangle, in push order: top, bottom, left, right. *)
Definition newNodes (usedRectangle freeRect : Rect.t) : list Rect.t :=
  let ux := Rect.x usedRectangle in
  let uy := Rect.y usedRectangle in
  let uw := Rect.width usedRectangle in
  let uh := Rect.height usedRectangle in
  let fx := Rect.x freeRect in
  let fy := Rect.y freeRect in
  let fw := Rect.width freeRect in
  let fh := Rect.height freeRect in
  (if (ux <? fx + fw) && (fx <? ux + uw) then
     (if (fy <? uy) && (uy <? fy + fh)
      then [Rect.mk fx fy fw (uy - fy)] else [])
     ++ (if uy + uh <? fy + fh
         then [Rect.mk fx (uy + uh) fw (fy + fh - (uy + uh))] else [])
   else [])
  ++ (if (uy <? fy + fh) && (fy <? uy + uh) then
        (if (fx <? ux) && (ux <? fx + fw)
         then [Rect.mk fx fy (ux - fx) fh] else [])
        ++ (if ux + uw <? fx + fw
            then [Rect.mk (ux + uw) fy (fx + fw - (ux + uw)) fh] else [])
      else []).

(** [splitFreeRectangle(freeRectangles, i, usedRectangle)]: the array after
    the pushes, and the returned flag.  The index is always in range at
    the call site; out of range the model leaves the array alone. *)
Definition splitFreeRectangle (freeRectangles : list Rect.t) (i : nat)
    (usedRectangle : Rect.t) : list Rect.t * bool :=
  match freeRectangles !! i with
  | None => (freeRectangles, false)
  | Some freeRect =>
      if noOverlap usedRectangle freeRect then (freeRectangles, false)
      else (freeRectangles ++ newNodes usedRectangle freeRect, true)
  end.

(** The backward loop of [splitFreeRectangles]: [n] is [i + 1], so the
    loop visits [i = n - 1, ..., 0]; a hit is spliced out at [i], the
    pushed nodes sit behind the visited range and are not revisited. *)
Fixpoint splitLoop (n : nat) (freeRectangles : list Rect.t)
    (usedRectangle : Rect.t) : list Rect.t :=
  match n with
  | O => freeRectangles
  | S i =>
      let '(pushed, hit) := splitFreeRectangle freeRectangles i usedRectangle in
      splitLoop i (if hit then delete i pushed else pushed) usedRectangle
  end.

(** Inner loop of [pruneFreeRectangles] at positions [i < j].  The flag
    tells that position [i] itself was spliced out ([break]).  Every
    iteration either advances [j] or shortens the array, so
    [length freeRectangles] iterations always suffice. *)
Fixpoint pruneInner (fuel : nat) (freeRectangles : list Rect.t) (i j : nat)
    : list Rect.t * bool :=
  match fuel with
  | O => (freeRectangles, false)
  | S fuel' =>
      match freeRectangles !! i, freeRectangles !! j with
      | Some a, Some b =>
          if isContainedIn a b then (delete i freeRectangles, true)
          else if isContainedIn b a
               then pruneInner fuel' (delete j freeRectangles) i j
               else pruneInner fuel' freeRectangles i (S j)
      | _, _ => (freeRectangles, false)
      end
  end.

(** Outer loop of [pruneFreeRectangles]; after a [break] the same index is
    visited again ([i--] followed by [i++]). *)
Fixpoint pruneOuter (fuel : nat) (freeRectangles : list Rect.t) (i : nat)
    : list Rect.t :=
  match fuel with
  | O => freeRectangles
  | S fuel' =>
      if decide (i < length freeRectangles)%nat then
        let '(pruned, broke) :=
          pruneInner (length freeRectangles) freeRectangles i (S i) in
        pruneOuter fuel' pruned (if broke then i else S i)
      else freeRectangles
  end.

Definition pruneFreeRectangles (freeRectangles : list Rect.t) : list Rect.t :=
  pruneOuter (length freeRectangles) freeRectangles 0.

Definition splitFreeRectangles (freeRectangles : list Rect.t)
    (usedRectangle : Rect.t) : list Rect.t :=
  pruneFreeRectangles
    (splitLoop (length freeRectangles) freeRectangles usedRectangle).

(** The mutable locals of [maxRectanglesPack]. *)
Record State := mkState {
  usedRectangles : list Rect.t;
  freeRectangles : list Rect.t;
  frames : list (Frame.t Z)
}.

Definition initialState (maxWidth : Z) : State :=
  mkState [] [Rect.mk 0 0 maxWidth 4096] [].

(** The body of the [for (const item of images)] loop; [None] is the
    [return null] of the packer. *)
Definition placeItem (padding : Z) (st : State) (item : Image.t)
    : option State :=
  let w := Image.width item in
  let h := Image.height item in
  let bestNode :=
    findPositionForNewNodeBestShortSideFit (freeRectangles st)
      (w + padding) (h + padding) in
  if Rect.height bestNode =? 0 then
    let bestNode :=
      findPositionForNewNodeBestShortSideFit (freeRectangles st)
        (h + padding) (w + padding) in
    if Rect.height bestNode =? 0 then None
    else
      let frame :=
        Frame.mk (Image.name item) (Rect.x bestNode) (Rect.y bestNode)
                 h w w h 0 0 true in
      let used :=
        Rect.mk (Rect.x bestNode) (Rect.y bestNode) (h + padding) (w + padding) in
      Some (mkState (usedRectangles st ++ [used])
                    (splitFreeRectangles (freeRectangles st) used)
                    (frames st ++ [frame]))
  else
    let frame :=
      Frame.mk (Image.name item) (Rect.x bestNode) (Rect.y bestNode)
               w h w h 0 0 false in
    let used :=
      Rect.mk (Rect.x bestNode) (Rect.y bestNode) (w + padding) (h + padding) in
    Some (mkState (usedRectangles st ++ [used])
                  (splitFreeRectangles (freeRectangles st) used)
                  (frames st ++ [frame])).

Fixpoint placeAll (padding : Z) (st : State) (images : list Image.t)
    : option State :=
  match images with
  | [] => Some st
  | item :: rest =>
      match placeItem padding st item with
      | None => None
      | Some st' => placeAll padding st' rest
      end
  end.

(** The bounds loop: [maxRight] and [maxBottom] start at [padding]. *)
Definition maxRight (padding : Z) (frames : list (Frame.t Z)) : Z :=
  fold_left (fun m frame => Z.max m (Frame.x frame + Frame.width frame + padding))
            frames padding.

Definition maxBottom (padding : Z) (frames : list (Frame.t Z)) : Z :=
  fold_left (fun m frame => Z.max m (Frame.y frame + Frame.height frame + padding))
            frames padding.

Definition maxRectanglesPack (images : list Image.t) (padding maxWidth : Z)
    : option (Layout.t Z) :=
  match placeAll padding (initialState maxWidth) images with
  | None => None
  | Some st =>
      Some (Layout.mk (frames st) (maxRight padding (frames st))
                      (maxBottom padding (frames st)))
  end.

(** *** The grid search [packImagesWithMaxRectangles] *)

Definition areaDesc (a b : Image.t) : bool :=
  Image.width b * Image.height b - Image.width a * Image.height a <=? 0.

Definition maxEdgeDesc (a b : Image.t) : bool :=
  Z.max (Image.width b) (Image.height b)
  - Z.max (Image.width a) (Image.height a) <=? 0.

Definition perimeterDesc (a b : Image.t) : bool :=
  (Image.width b + Image.height b) - (Image.width a + Image.height a) <=? 0.

Definition sortStrategies : list (Image.t -> Image.t -> bool) :=
  [areaDesc; maxEdgeDesc; perimeterDesc].

Definition powerOfTwoWidths (effectiveMaxWidth : Z) : list Z :=
  List.filter (fun w => w <=? effectiveMaxWidth)
              (map (fun pow => 2 ^ pow) [11; 10; 9; 8; 7; 6]).

Definition widthOptions (images : list Image.t) (maxWidth : Z)
    (usePowerOfTwo : bool) : list Z :=
  let effectiveMaxWidth := Z.min maxWidth 2048 in
  let options :=
    if usePowerOfTwo then powerOfTwoWidths effectiveMaxWidth
    else
      let estimatedWidth := ceilSqrt (inject_Z (totalArea images) * (13 # 10)) in
      let alignedWidth := Qceiling (inject_Z estimatedWidth / 16) * 16 in
      let near :=
        if (alignedWidth <=? effectiveMaxWidth) && (256 <=? alignedWidth) then
          fold_left
            (fun opts adjWidth =>
               if (256 <=? adjWidth) && (adjWidth <=? effectiveMaxWidth)
                  && negb (includes opts adjWidth)
               then opts ++ [adjWidth] else opts)
            [alignedWidth - 48; alignedWidth - 16;
             alignedWidth + 16; alignedWidth + 48]
            [alignedWidth]
        else [] in
      if (length near =? 0)%nat then [effectiveMaxWidth] else near in
  stableSort (fun a b => b - a <=? 0) options.

(** The final size of an attempt: rounded up to powers of two and
    rejected above 2048 when [usePowerOfTwo], the used size otherwise. *)
Definition finalSize (usePowerOfTwo : bool) (result : Layout.t Z)
    : option (Z * Z) :=
  if usePowerOfTwo then
    let finalWidth := nextPowerOf2 (Layout.width result) in
    let finalHeight := nextPowerOf2 (Layout.height result) in
    if (2048 <? finalWidth) || (2048 <? finalHeight) then None
    else Some (finalWidth, finalHeight)
  else Some (Layout.width result, Layout.height result).

(** The body of the inner loop for the result of one attempt. *)
Definition consider (images : list Image.t) (usePowerOfTwo : bool)
    (acc : Search Z) (result : option (Layout.t Z)) : Search Z :=
  match result with
  | None => acc
  | Some result =>
      match finalSize usePowerOfTwo result with
      | None => acc
      | Some (finalWidth, finalHeight) =>
          let area := inject_Z (finalWidth * finalHeight) in
          let efficiency := efficiencyOf images area in
          if improvesSearch efficiency area acc
          then mkSearch
                 (Some (Layout.mk (Layout.frames result) finalWidth finalHeight))
                 (Some area) efficiency
          else acc
      end
  end.

(** One attempt of the grid: sort a copy of the images, then pack. *)
Definition attempt (images : list Image.t) (padding : Z) (width : Z)
    (strategy : Image.t -> Image.t -> bool) : option (Layout.t Z) :=
  maxRectanglesPack (stableSort strategy images) padding width.

Definition packImagesWithMaxRectangles (images : list Image.t)
    (padding maxWidth : Z) (usePowerOfTwo : bool) : option (Layout.t Z) :=
  bestResult
    (fold_left
       (fun acc width =>
          fold_left
            (fun acc strategy =>
               consider images usePowerOfTwo acc
                        (attempt images padding width strategy))
            sortStrategies acc)
       (widthOptions images maxWidth usePowerOfTwo) initSearch).

End MaxRects.

(** ** Shelf packer ([packImagesInternal] in [js/app.js]) *)

(** A shelf [{y, height, currentX, maxWidth}].  [heightIsKey] records that
    the [height] property holds an [Object] key (a string) instead of a
    number: [mostCommonHeight] is read off [Object.entries] and may be stored
    as a shelf height. *)
Module ShelfRec.
Record t := mk {
  y : Q; height : Q; heightIsKey : bool; currentX : Q; maxWidth : Q
}.
End ShelfRec.

(** How the body of a loop ends: it goes on, the function returns [null],
    or a string-typed shelf height reaches the [+] that computes [newY]
    (string concatenation, which the numeric model does not follow). *)
Inductive Outcome (A : Type) : Type :=
| Done (a : A)
| ReturnNull
| KeyConcat.
Arguments Done {A} a.
Arguments ReturnNull {A}.
Arguments KeyConcat {A}.

Module ShelfPacker.

Local Open Scope Q_scope.

(** The running best of the shelf scan; [bestFit = None] is [Infinity];
    [bestShelf] is a reference to a shelf object: its position in [shelves]
    together with the object. *)
Record Best := mkBest {
  bestShelf : option (nat * ShelfRec.t);
  bestRotated : bool;
  bestScore : JsNum;
  bestFit : option Q
}.

Definition initBest : Best := mkBest None false NegInfinity None.

(** [score > bestScore || (score === bestScore && waste < bestFit)]. *)
Definition improves (score : JsNum) (waste : Q) (b : Best) : bool :=
  jsGt score (bestScore b)
  || (jsEq score (bestScore b) && ltInfQ waste (bestFit b)).

Definition remainingWidth (padding maxWidth : Q) (shelf : ShelfRec.t) : Q :=
  maxWidth - ShelfRec.currentX shelf - padding.

(** The composite score of placing [placeWidth x placeHeight] on [shelf]:
    [-waste * 2 - widthFit * 0.1 + shelfUtilization * 10 + shelf.y * 0.05].
    The quotient [shelfUtilization] is not a finite number when
    [maxWidth * shelf.height] is zero. *)
Definition shelfScore (padding maxWidth : Q) (shelf : ShelfRec.t)
    (placeWidth placeHeight : Q) : JsNum :=
  let waste := ShelfRec.height shelf - placeHeight in
  let widthFit := remainingWidth padding maxWidth shelf - placeWidth in
  let shelfUtilization :=
    jsDiv (ShelfRec.currentX shelf * ShelfRec.height shelf)
          (maxWidth * ShelfRec.height shelf) in
  jsAdd (jsAdd (Finite (- waste * 2 - widthFit * (1 # 10)))
               (jsScale shelfUtilization 10))
        (Finite (ShelfRec.y shelf * (5 # 100))).

Definition fitsShelf (padding maxWidth : Q) (shelf : ShelfRec.t)
    (placeWidth placeHeight : Q) : bool :=
  Qle_bool placeWidth (remainingWidth padding maxWidth shelf)
  && Qle_bool placeHeight (ShelfRec.height shelf).

Definition tryOrientation (padding maxWidth : Q) (k : nat) (shelf : ShelfRec.t)
    (placeWidth placeHeight : Q) (rot : bool) (b : Best) : Best :=
  if fitsShelf padding maxWidth shelf placeWidth placeHeight then
    let waste := ShelfRec.height shelf - placeHeight in
    let score := shelfScore padding maxWidth shelf placeWidth placeHeight in
    if improves score waste b
    then mkBest (Some (k, shelf)) rot score (Some waste)
    else b
  else b.

(** The body of [for (const shelf of shelves)]: unrotated, then rotated. *)
Definition tryShelf (padding maxWidth width height : Q) (b : Best) (k : nat)
    (shelf : ShelfRec.t) : Best :=
  tryOrientation padding maxWidth k shelf height width true
    (tryOrientation padding maxWidth k shelf width height false b).

Fixpoint scanShelves (padding maxWidth width height : Q) (k : nat)
    (shelves : list ShelfRec.t) (b : Best) : Best :=
  match shelves with
  | [] => b
  | shelf :: rest =>
      scanShelves padding maxWidth width height (S k) rest
        (tryShelf padding maxWidth width height b k shelf)
  end.

(** [Math.round]. *)
Definition roundJs (q : Q) : Z := Qfloor (q + (1 # 2)).

(** [heightCounts[roundedH] = (heightCounts[roundedH] || 0) + 1].  The keys
    are array indices, which [Object.entries] enumerates in ascending
    order, so the object is kept as a list sorted by key. *)
Fixpoint bump (key : Z) (counts : list (Z * nat)) : list (Z * nat) :=
  match counts with
  | [] => [(key, 1%nat)]
  | (key', c) :: rest =>
      if (key =? key')%Z then (key', S c) :: rest
      else if (key <? key')%Z then (key, 1%nat) :: counts
      else (key', c) :: bump key rest
  end.

Definition heightCounts (allHeights : list Z) : list (Z * nat) :=
  fold_left (fun counts h => bump (roundJs (inject_Z h / 8) * 8)%Z counts)
            allHeights [].

(** [Object.entries(heightCounts).sort((a, b) => b[1] - a[1])[0]?.[0] || placeHeight];
    a key is a non-empty string, hence truthy. *)
Definition mostCommonHeight (allHeights : list Z) (placeHeight : Q) : Q * bool :=
  match stableSort (fun a b => (snd b <=? snd a)%nat) (heightCounts allHeights) with
  | (key, _) :: _ => (inject_Z key, true)
  | [] => (placeHeight, false)
  end.

(** [sortedHeights[Math.floor(sortedHeights.length / 2)]]. *)
Definition medianHeight (allHeights : list Z) : Z :=
  let sortedHeights := stableSort Z.leb allHeights in
  default 0%Z (sortedHeights !! (length sortedHeights / 2)%nat).

(** [Math.max(...allHeights)] for a non-empty list. *)
Definition maxHeight (allHeights : list Z) : Z :=
  match allHeights with
  | [] => 0%Z
  | h :: rest => fold_left Z.max rest h
  end.

(** The candidate heights and the loop that scores them; the flag of a
    candidate tells whether it is the [Object] key. *)
Definition viableHeights (placeHeight : Q) (allHeights : list Z)
    : list (Q * bool) :=
  List.filter
    (fun c => Qle_bool placeHeight (fst c) && Qle_bool (fst c) (placeHeight * 2))
    [ (placeHeight, false);
      mostCommonHeight allHeights placeHeight;
      (inject_Z (medianHeight allHeights), false);
      (inject_Z (maxHeight allHeights), false) ].

Definition heightStep (allImages : list Image.t)
    (acc : (Q * bool) * option Q) (testHeight : Q * bool)
    : (Q * bool) * option Q :=
  let canFitCount :=
    length (List.filter
              (fun im => Qle_bool (inject_Z (Image.height im)) (fst testHeight))
              allImages) in
  let score := inject_Z (Z.of_nat canFitCount) * 100 - fst testHeight * (1 # 2) in
  if match snd acc with None => true | Some best => Qltb best score end
  then (testHeight, Some score)
  else acc.

Definition optimalHeight (placeHeight : Q) (allImages : list Image.t)
    : Q * bool :=
  fst (fold_left (heightStep allImages)
         (viableHeights placeHeight (map Image.height allImages))
         ((placeHeight, false), None)).

(** The arrays [frames] and [shelves], shared by all passes. *)
Record State := mkState {
  frames : list (Frame.t Q);
  shelves : list ShelfRec.t
}.

(** The locals of one pass of the [while] loop. *)
Record Pass := mkPass {
  state : State;
  newImages : list Image.t;
  placedThisRound : bool
}.

Definition setCurrentX (shelf : ShelfRec.t) (cx : Q) : ShelfRec.t :=
  ShelfRec.mk (ShelfRec.y shelf) (ShelfRec.height shelf)
              (ShelfRec.heightIsKey shelf) cx (ShelfRec.maxWidth shelf).

Definition mkFrame (item : Image.t) (x y placeWidth placeHeight : Q)
    (rotated : bool) : Frame.t Q :=
  Frame.mk (Image.name item) x y placeWidth placeHeight
           (inject_Z (Image.width item)) (inject_Z (Image.height item))
           0 0 rotated.

(** Step one: put the item on the best existing shelf. *)
Definition placeOnShelf (padding : Q) (st : State) (item : Image.t)
    (k : nat) (shelf : ShelfRec.t) (rotated : bool) : State :=
  let width := inject_Z (Image.width item) in
  let height := inject_Z (Image.height item) in
  let placeWidth := if rotated then height else width in
  let placeHeight := if rotated then width else height in
  mkState
    (frames st ++ [mkFrame item (ShelfRec.currentX shelf) (ShelfRec.y shelf)
                     placeWidth placeHeight rotated])
    (<[k := setCurrentX shelf (ShelfRec.currentX shelf + (placeWidth + padding))]>
       (shelves st)).

(** The re-centring loop of the merge: frames whose [y] equals the shelf's
    [y] are moved down by [yOffset]. *)
Definition shiftFrame (shelfY yOffset : Q) (frame : Frame.t Q) : Frame.t Q :=
  if Qeq_bool (Frame.y frame) shelfY then
    Frame.mk (Frame.name frame) (Frame.x frame) (Frame.y frame + yOffset)
             (Frame.width frame) (Frame.height frame)
             (Frame.originalWidth frame) (Frame.originalHeight frame)
             (Frame.offsetX frame) (Frame.offsetY frame) (Frame.rotated frame)
  else frame.

(** Orientation of an item that opens a shelf. *)
Definition newShelfRotated (padding maxWidth width height : Q) : bool :=
  let widthOverLimit := Qltb maxWidth (width + padding) in
  let heightOverLimit := Qltb maxWidth (height + padding) in
  if widthOverLimit && negb heightOverLimit then true
  else if negb widthOverLimit && heightOverLimit then false
  else if negb widthOverLimit && negb heightOverLimit then
    let areaNormal := width * height in
    let areaRotated := height * width in
    Qltb areaRotated areaNormal
  else false.

(** [newY]: below the last shelf, or [padding] for the first one. *)
Definition newShelfY (padding : Q) (shelves : list ShelfRec.t) : Outcome Q :=
  match last shelves with
  | None => Done padding
  | Some lastShelf =>
      if ShelfRec.heightIsKey lastShelf then KeyConcat
      else Done (ShelfRec.y lastShelf + ShelfRec.height lastShelf + padding)
  end.

(** The merge attempt with the last shelf; [None] when the condition of the
    merge fails (or there is no shelf).  [lastShelf.height] has already
    been overwritten with [mergedHeight] when [yOffset] is computed. *)
Definition mergeIntoLast (padding maxWidth : Q) (st : State) (item : Image.t)
    (rotated : bool) (placeWidth optimalHeight : Q) : option State :=
  let width := inject_Z (Image.width item) in
  let height := inject_Z (Image.height item) in
  match last (shelves st) with
  | None => None
  | Some lastShelf =>
      let heightDiff := Qabs (ShelfRec.height lastShelf - optimalHeight) in
      let mergeThreshold := Qmin (optimalHeight * (25 # 100)) 48 in
      if Qle_bool heightDiff mergeThreshold
         && Qle_bool (ShelfRec.currentX lastShelf + padding + placeWidth) maxWidth
      then
        let mergedHeight := Qmax (ShelfRec.height lastShelf) optimalHeight in
        let yOffset := (mergedHeight - (mergedHeight - heightDiff)) / 2 in
        let placeH := if rotated then width else height in
        let placeW := if rotated then height else width in
        Some (mkState
                (map (shiftFrame (ShelfRec.y lastShelf) yOffset) (frames st)
                 ++ [mkFrame item (ShelfRec.currentX lastShelf)
                       (ShelfRec.y lastShelf + (mergedHeight - placeH) / 2)
                       placeW placeH rotated])
                (<[pred (length (shelves st)) :=
                     ShelfRec.mk (ShelfRec.y lastShelf) mergedHeight false
                       (ShelfRec.currentX lastShelf + (placeW + padding))
                       (ShelfRec.maxWidth lastShelf)]> (shelves st)))
      else None
  end.

(** Step two of the loop body: the item opens a shelf or is merged into
    the last one.  The flag of the result is the local [placed]. *)
Definition openShelf (padding maxWidth : Q) (p : Pass) (item : Image.t)
    : Outcome (State * bool) :=
  let st := state p in
  let width := inject_Z (Image.width item) in
  let height := inject_Z (Image.height item) in
  match newShelfY padding (shelves st) with
  | KeyConcat => KeyConcat
  | ReturnNull => ReturnNull
  | Done newY =>
      if Qltb 4096 newY then ReturnNull
      else
        let rotated := newShelfRotated padding maxWidth width height in
        let placeWidth := if rotated then height else width in
        let placeHeight := if rotated then width else height in
        if Qltb maxWidth (placeWidth + padding) then ReturnNull
        else
          let remainingImages := newImages p in
          let allImages := remainingImages ++ [item] in
          let '(optimal, isKey) := optimalHeight placeHeight allImages in
          match mergeIntoLast padding maxWidth st item rotated placeWidth optimal with
          | Some merged => Done (merged, true)
          | None =>
              let newShelf :=
                ShelfRec.mk newY optimal isKey (padding + placeWidth + padding)
                            maxWidth in
              Done (mkState
                      (frames st
                       ++ [mkFrame item padding (newY + (optimal - placeHeight) / 2)
                             placeWidth placeHeight rotated])
                      (shelves st ++ [newShelf]),
                    true)
          end
  end.

(** The body of [for (const item of images)]. *)
Definition placeItem (padding maxWidth : Q) (p : Pass) (item : Image.t)
    : Outcome Pass :=
  let width := inject_Z (Image.width item) in
  let height := inject_Z (Image.height item) in
  if Qltb maxWidth width && Qltb maxWidth height then ReturnNull
  else
    let best :=
      scanShelves padding maxWidth width height 0 (shelves (state p)) initBest in
    match bestShelf best with
    | Some (k, shelf) =>
        Done (mkPass (placeOnShelf padding (state p) item k shelf (bestRotated best))
                     (newImages p) true)
    | None =>
        match openShelf padding maxWidth p item with
        | KeyConcat => KeyConcat
        | ReturnNull => ReturnNull
        | Done (st', placed) =>
            if placed then Done (mkPass st' (newImages p) true)
            else Done (mkPass st' (newImages p ++ [item]) (placedThisRound p))
        end
    end.

(** One pass over [images]. *)
Fixpoint sweepFrom (padding maxWidth : Q) (p : Pass) (images : list Image.t)
    : Outcome Pass :=
  match images with
  | [] => Done p
  | item :: rest =>
      match placeItem padding maxWidth p item with
      | Done p' => sweepFrom padding maxWidth p' rest
      | ReturnNull => ReturnNull
      | KeyConcat => KeyConcat
      end
  end.

Definition sweep (padding maxWidth : Q) (st : State) (images : list Image.t)
    : Outcome Pass :=
  sweepFrom padding maxWidth (mkPass st [] false) images.

Definition maxAttempts : nat := 3.

Definition minEdgeLeb (a b : Image.t) : bool :=
  (Z.min (Image.width a) (Image.height a)
   - Z.min (Image.width b) (Image.height b) <=? 0)%Z.

Definition perimeterLeb (a b : Image.t) : bool :=
  ((Image.width a + Image.height a)
   - (Image.width b + Image.height b) <=? 0)%Z.

Definition areaLeb (a b : Image.t) : bool :=
  (Image.width a * Image.height a
   - Image.width b * Image.height b <=? 0)%Z.

(** The re-sort at the end of a pass, by the value of [attempt] after its
    increment. *)
Definition resort (attempt : nat) (images : list Image.t) : list Image.t :=
  if (attempt =? 1)%nat then stableSort minEdgeLeb images
  else if (attempt =? 2)%nat then stableSort perimeterLeb images
  else stableSort areaLeb images.

(** The locals [frames]/[shelves], [images] and [attempt] when the [while]
    loop is left. *)
Record Exit := mkExit {
  exitState : State;
  exitImages : list Image.t;
  exitAttempt : nat
}.

(** The [while (images.length > 0 && attempt < maxAttempts)] loop over an
    arbitrary pass body; [todo] is [maxAttempts - attempt]. *)
Fixpoint passLoop (body : State -> list Image.t -> Outcome Pass)
    (todo : nat) (st : State) (images : list Image.t) : Outcome Exit :=
  let attempt := (maxAttempts - todo)%nat in
  match todo with
  | O => Done (mkExit st images attempt)
  | S todo' =>
      match images with
      | [] => Done (mkExit st images attempt)
      | _ :: _ =>
          match body st images with
          | KeyConcat => KeyConcat
          | ReturnNull => ReturnNull
          | Done p =>
              if negb (placedThisRound p)
              then Done (mkExit (state p) (newImages p) attempt)
              else
                let attempt' := S attempt in
                let images' :=
                  if negb (length (newImages p) =? 0)%nat
                     && (attempt' <? maxAttempts)%nat
                  then resort attempt' (newImages p)
                  else newImages p in
                passLoop body todo' (state p) images'
          end
      end
  end.

(** The bounds loop, as in the MaxRectangles packer. *)
Definition maxRight (padding : Q) (frames : list (Frame.t Q)) : Q :=
  fold_left (fun m frame => Qmax m (Frame.x frame + Frame.width frame + padding))
            frames padding.

Definition maxBottom (padding : Q) (frames : list (Frame.t Q)) : Q :=
  fold_left (fun m frame => Qmax m (Frame.y frame + Frame.height frame + padding))
            frames padding.

Definition layoutOf (padding : Q) (e : Exit) : Layout.t Q :=
  Layout.mk (frames (exitState e))
            (maxRight padding (frames (exitState e)))
            (maxBottom padding (frames (exitState e))).

(** [packImagesInternal] over an arbitrary pass body, and the function of
    the source, whose body is [sweep]. *)
Definition packWith (body : State -> list Image.t -> Outcome Pass)
    (sortedImages : list Image.t) (padding : Q) : Outcome (Layout.t Q) :=
  match passLoop body maxAttempts (mkState [] []) sortedImages with
  | KeyConcat => KeyConcat
  | ReturnNull => ReturnNull
  | Done e => Done (layoutOf padding e)
  end.

Definition packImagesInternal (sortedImages : list Image.t)
    (padding maxWidth : Q) : Outcome (Layout.t Q) :=
  packWith (sweep padding maxWidth) sortedImages padding.

(** *** The grid search [packImages] *)

Local Open Scope Z_scope.

Definition byKeyAsc (key : Image.t -> Z) (a b : Image.t) : bool :=
  key a - key b <=? 0.

Definition byKeyDesc (key : Image.t -> Z) (a b : Image.t) : bool :=
  key b - key a <=? 0.

Definition areaKey (im : Image.t) : Z := Image.width im * Image.height im.
Definition maxEdgeKey (im : Image.t) : Z := Z.max (Image.width im) (Image.height im).
Definition minEdgeKey (im : Image.t) : Z := Z.min (Image.width im) (Image.height im).
Definition perimeterKey (im : Image.t) : Z := Image.width im + Image.height im.

Definition aspectOf (im : Image.t) : Q :=
  (inject_Z (Image.width im) / inject_Z (Image.height im))%Q.

Definition aspectDesc (a b : Image.t) : bool :=
  Qle_bool (aspectOf b - aspectOf a) 0.

Definition aspectAsc (a b : Image.t) : bool :=
  Qle_bool (aspectOf a - aspectOf b) 0.

Definition sortStrategies : list (Image.t -> Image.t -> bool) :=
  [ byKeyDesc areaKey; byKeyAsc areaKey;
    byKeyDesc Image.width; byKeyAsc Image.width;
    byKeyDesc Image.height; byKeyAsc Image.height;
    byKeyDesc maxEdgeKey; byKeyAsc maxEdgeKey;
    byKeyDesc minEdgeKey; byKeyAsc minEdgeKey;
    aspectDesc; aspectAsc;
    byKeyDesc perimeterKey; byKeyAsc perimeterKey ].

(** [(a & (a - 1)) === 0]. *)
Definition isPow2 (a : Z) : bool := Z.land a (a - 1) =? 0.

(** The comparator that orders the width options. *)
Definition widthLeb (estimatedWidth : Z) (a b : Z) : bool :=
  let aIsPow2 := isPow2 a in
  let bIsPow2 := isPow2 b in
  if aIsPow2 && bIsPow2 then b - a <=? 0
  else if negb aIsPow2 && negb bIsPow2
       then Z.abs (a - estimatedWidth) - Z.abs (b - estimatedWidth) <=? 0
       else aIsPow2.

Definition widthOptions (images : list Image.t) (maxWidth : Z)
    (usePowerOfTwo : bool) : list Z :=
  let effectiveMaxWidth := Z.min maxWidth 2048 in
  let pow2 :=
    if usePowerOfTwo then MaxRects.powerOfTwoWidths effectiveMaxWidth else [] in
  let estimatedWidth := ceilSqrt (inject_Z (totalArea images) * (13 # 10)) in
  let near :=
    if (estimatedWidth <=? effectiveMaxWidth) && (256 <=? estimatedWidth) then
      let alignedWidth := Qceiling (inject_Z estimatedWidth / 16) * 16 in
      fold_left
        (fun opts adjWidth =>
           if (256 <=? adjWidth) && (adjWidth <=? effectiveMaxWidth)
              && negb (includes opts adjWidth)
           then opts ++ [adjWidth] else opts)
        [alignedWidth - 48; alignedWidth - 16;
         alignedWidth + 16; alignedWidth + 48]
        (if includes pow2 alignedWidth then pow2 else pow2 ++ [alignedWidth])
    else pow2 in
  let options :=
    if (length near =? 0)%nat
    then [if usePowerOfTwo then 1024 else effectiveMaxWidth]
    else near in
  stableSort (widthLeb estimatedWidth) options.

Definition finalSize (usePowerOfTwo : bool) (result : Layout.t Q)
    : option (Q * Q) :=
  if usePowerOfTwo then
    let finalWidth := nextPowerOf2Q (Layout.width result) in
    let finalHeight := nextPowerOf2Q (Layout.height result) in
    if (2048 <? finalWidth) || (2048 <? finalHeight) then None
    else Some (inject_Z finalWidth, inject_Z finalHeight)
  else Some (Layout.width result, Layout.height result).

(** The body of the inner loop for a layout that was returned. *)
Definition consider (images : list Image.t) (usePowerOfTwo : bool)
    (acc : Search Q) (result : Layout.t Q) : Search Q :=
  match finalSize usePowerOfTwo result with
  | None => acc
  | Some (finalWidth, finalHeight) =>
      let area := (finalWidth * finalHeight)%Q in
      let efficiency := efficiencyOf images area in
      if improvesSearch efficiency area acc
      then mkSearch
             (Some (Layout.mk (Layout.frames result) finalWidth finalHeight))
             (Some area) efficiency
      else acc
  end.

Definition attempt (images : list Image.t) (padding : Z) (width : Z)
    (strategy : Image.t -> Image.t -> bool) : Outcome (Layout.t Q) :=
  packImagesInternal (stableSort strategy images) (inject_Z padding)
                     (inject_Z width).

(** The two nested loops over the attempts, in the order they are made;
    [ReturnNull] of an attempt is the [continue] of [if (!result)]. *)
Fixpoint searchRuns (images : list Image.t) (usePowerOfTwo : bool)
    (runs : list (Outcome (Layout.t Q))) (acc : Search Q) : Outcome (Search Q) :=
  match runs with
  | [] => Done acc
  | KeyConcat :: _ => KeyConcat
  | ReturnNull :: rest => searchRuns images usePowerOfTwo rest acc
  | Done result :: rest =>
      searchRuns images usePowerOfTwo rest
                 (consider images usePowerOfTwo acc result)
  end.

Definition runsOf (images : list Image.t) (padding maxWidth : Z)
    (usePowerOfTwo : bool) : list (Outcome (Layout.t Q)) :=
  flat_map
    (fun width => map (attempt images padding width) sortStrategies)
    (widthOptions images maxWidth usePowerOfTwo).

Definition packImages (images : list Image.t) (padding maxWidth : Z)
    (usePowerOfTwo : bool) : Outcome (option (Layout.t Q)) :=
  match searchRuns images usePowerOfTwo
          (runsOf images padding maxWidth usePowerOfTwo) initSearch with
  | Done acc => Done (bestResult acc)
  | ReturnNull => ReturnNull
  | KeyConcat => KeyConcat
  end.

End ShelfPacker.

(** ** Numbers in binary64

    The numbers of JavaScript with the operations of IEEE 754, as the
    standard library specifies them ([SpecFloat], precision 53, exponent
    bound 1024): every operation rounds its exact result to the nearest
    value, ties to even.  [ofZ] is the value of an integer and [decimal n d]
    the value of the decimal literal [n / d], both rounded in the same
    way. *)

Module Double.
Import SpecFloat.

Definition t : Type := spec_float.

Definition prec : Z := 53.
Definition emax : Z := 1024.

Definition ofZ (z : Z) : t := binary_normalize prec emax z 0 false.
Definition decimal (n d : Z) : t := SFdiv prec emax (ofZ n) (ofZ d).

Definition opp : t -> t := SFopp.
Definition add : t -> t -> t := SFadd prec emax.
Definition sub : t -> t -> t := SFsub prec emax.
Definition mul : t -> t -> t := SFmul prec emax.
Definition div : t -> t -> t := SFdiv prec emax.

Definition ltb : t -> t -> bool := SFltb.
Definition leb : t -> t -> bool := SFleb.
Definition eqb : t -> t -> bool := SFeqb.

Definition infinity : t := S754_infinity false.
Definition negInfinity : t := S754_infinity true.
Definition isNaN (x : t) : bool :=
  match x with S754_nan => true | _ => false end.

End Double.

(** ** Shelf packer: the scan of the shelves in binary64

    The first step of the loop body of [packImagesInternal] ([js/app.js],
    lines 565-605), with every number a binary64 value and every operation
    the IEEE operation JavaScript performs.  The scores of two candidates
    often differ by a rounding error only, and the comparison of the rounded
    values decides which shelf is taken. *)

Module ShelfScan.

(** A shelf [{y, height, currentX, maxWidth}]. *)
Record Shelf := mkShelf {
  y : Double.t; height : Double.t; currentX : Double.t; maxWidth : Double.t
}.

(** The locals [bestShelf], [bestRotated], [bestScore] and [bestFit];
    [bestShelf] is a reference to a shelf object: its position in [shelves]
    together with the object. *)
Record Best := mkBest {
  bestShelf : option (nat * Shelf);
  bestRotated : bool;
  bestScore : Double.t;
  bestFit : Double.t
}.

Definition initBest : Best :=
  mkBest None false Double.negInfinity Double.infinity.

(** [score > bestScore || (score === bestScore && waste < bestFit)]. *)
Definition improves (score waste : Double.t) (b : Best) : bool :=
  Double.ltb (bestScore b) score
  || (Double.eqb score (bestScore b) && Double.ltb waste (bestFit b)).

(** [maxWidth - shelf.currentX - padding]. *)
Definition remainingWidth (padding maxWidth : Double.t) (shelf : Shelf)
    : Double.t :=
  Double.sub (Double.sub maxWidth (currentX shelf)) padding.

(** [-waste * 2 - widthFit * 0.1 + shelfUtilization * 10 + shelf.y * 0.05]. *)
Definition shelfScore (padding maxWidth : Double.t) (shelf : Shelf)
    (placeWidth placeHeight : Double.t) : Double.t :=
  let waste := Double.sub (height shelf) placeHeight in
  let widthFit :=
    Double.sub (remainingWidth padding maxWidth shelf) placeWidth in
  let shelfUtilization :=
    Double.div (Double.mul (currentX shelf) (height shelf))
               (Double.mul maxWidth (height shelf)) in
  Double.add
    (Double.add
       (Double.sub (Double.mul (Double.opp waste) (Double.ofZ 2))
                   (Double.mul widthFit (Double.decimal 1 10)))
       (Double.mul shelfUtilization (Double.ofZ 10)))
    (Double.mul (y shelf) (Double.decimal 5 100)).

(** [placeWidth <= remainingWidth && placeHeight <= shelf.height]. *)
Definition fitsShelf (padding maxWidth : Double.t) (shelf : Shelf)
    (placeWidth placeHeight : Double.t) : bool :=
  Double.leb placeWidth (remainingWidth padding maxWidth shelf)
  && Double.leb placeHeight (height shelf).

Definition tryOrientation (padding maxWidth : Double.t) (k : nat)
    (shelf : Shelf) (placeWidth placeHeight : Double.t) (rot : bool)
    (b : Best) : Best :=
  if fitsShelf padding maxWidth shelf placeWidth placeHeight then
    let waste := Double.sub (height shelf) placeHeight in
    let score := shelfScore padding maxWidth shelf placeWidth placeHeight in
    if improves score waste b
    then mkBest (Some (k, shelf)) rot score waste
    else b
  else b.

(** The body of [for (const shelf of shelves)]: unrotated, then rotated. *)
Definition tryShelf (padding maxWidth width height : Double.t) (b : Best)
    (k : nat) (shelf : Shelf) : Best :=
  tryOrientation padding maxWidth k shelf height width true
    (tryOrientation padding maxWidth k shelf width height false b).

Fixpoint scanShelves (padding maxWidth width height : Double.t) (k : nat)
    (shelves : list Shelf) (b : Best) : Best :=
  match shelves with
  | [] => b
  | shelf :: rest =>
      scanShelves padding maxWidth width height (S k) rest
        (tryShelf padding maxWidth width height b k shelf)
  end.

End ShelfScan.

(** ** ImageGrouper ([js/imageGrouper.js]) *)

Module Grouper.

(** [GROUPING_CONFIG]; a bound [None] is [Infinity]. *)
Record Config := mkConfig {
  SIZE_THRESHOLDS : list (option Z * string);
  ASPECT_RATIO_THRESHOLDS : list (option Q * string);
  MAX_IMAGES_PER_GROUP : Z;
  MAX_AREA_PER_GROUP : Z
}.

Definition GROUPING_CONFIG : Config :=
  mkConfig
    [ (Some 25600, "small"); (Some 102400, "medium");
      (Some 409600, "large"); (None, "xlarge") ]
    [ (Some (5 # 10), "tall"); (Some (15 # 10), "normal"); (None, "wide") ]
    50
    (2048 * 1024).

(** A group [{name, items, strategy}]. *)
Record Group := mkGroup {
  name : string;
  items : list Image.t;
  strategy : string
}.

Fixpoint getSizeCategoryFrom (thresholds : list (option Z * string)) (area : Z)
    : string :=
  match thresholds with
  | [] => "xlarge"
  | (maxArea, nm) :: rest =>
      if ltInf area maxArea then nm else getSizeCategoryFrom rest area
  end.

Definition getSizeCategory (cfg : Config) (area : Z) : string :=
  getSizeCategoryFrom (SIZE_THRESHOLDS cfg) area.

(** [ratio < threshold.maxRatio]. *)
Definition ratioBelow (ratio : JsNum) (maxRatio : option Q) : bool :=
  match ratio, maxRatio with
  | Finite r, Some m => Qltb r m
  | Finite _, None => true
  | NegInfinity, _ => true
  | _, _ => false
  end.

Fixpoint getAspectRatioCategoryFrom (thresholds : list (option Q * string))
    (ratio : JsNum) : string :=
  match thresholds with
  | [] => "wide"
  | (maxRatio, nm) :: rest =>
      if ratioBelow ratio maxRatio then nm
      else getAspectRatioCategoryFrom rest ratio
  end.

Definition getAspectRatioCategory (cfg : Config) (width height : Z) : string :=
  let ratio :=
    jsDiv (inject_Z (Z.min width height)) (inject_Z (Z.max width height)) in
  getAspectRatioCategoryFrom (ASPECT_RATIO_THRESHOLDS cfg) ratio.

(** [strategies[sizeName] || 'area']. *)
Definition getStrategyForSize (sizeName : string) : string :=
  if String.eqb sizeName "small" then "maxEdge"
  else if String.eqb sizeName "medium" then "perimeter"
  else if String.eqb sizeName "large" then "area"
  else if String.eqb sizeName "xlarge" then "maxEdge"
  else "area".

Definition mergeStrategies (strategy1 strategy2 : string) : string :=
  if String.eqb strategy1 strategy2 then strategy1 else "area".

(** [if (!groups[key]) groups[key] = []; groups[key].push(img)] on an
    object whose keys are category names: the entries keep the order in
    which the keys were first used. *)
Fixpoint pushTo (key : string) (im : Image.t)
    (groups : list (string * list Image.t)) : list (string * list Image.t) :=
  match groups with
  | [] => [(key, [im])]
  | (key', members) :: rest =>
      if String.eqb key key' then (key', members ++ [im]) :: rest
      else (key', members) :: pushTo key im rest
  end.

Definition groupBySize (cfg : Config) (images : list Image.t) : list Group :=
  let groups :=
    fold_left
      (fun groups im =>
         let area := Image.width im * Image.height im in
         pushTo (getSizeCategory cfg area) im groups)
      images [] in
  map (fun '(nm, members) => mkGroup nm members (getStrategyForSize nm)) groups.

Definition refineGroup (cfg : Config) (group : Group) : list Group :=
  let aspectGroups :=
    fold_left
      (fun aspectGroups im =>
         let aspectCategory :=
           getAspectRatioCategory cfg (Image.width im) (Image.height im) in
         let groupName := name group +:+ "_" +:+ aspectCategory in
         pushTo groupName im aspectGroups)
      (items group) [] in
  map (fun '(nm, members) => mkGroup nm members (strategy group)) aspectGroups.

Definition refineGroupsByAspectRatio (cfg : Config) (sizeGroups : list Group)
    : list Group :=
  flat_map (refineGroup cfg) sizeGroups.

(** The [while (smallGroups.length > 1)] loop: two shifts per iteration. *)
Fixpoint mergePairs (smallGroups : list Group) : list Group * list Group :=
  match smallGroups with
  | group1 :: group2 :: rest =>
      let '(merged, leftover) := mergePairs rest in
      (mkGroup (name group1 +:+ "+" +:+ name group2)
               (items group1 ++ items group2)
               (mergeStrategies (strategy group1) (strategy group2))
         :: merged, leftover)
  | leftover => ([], leftover)
  end.

Definition mergeSmallGroups (groups : list Group) : list Group :=
  let smallGroups := List.filter (fun g => (length (items g) <? 5)%nat) groups in
  let largeGroups :=
    List.filter (fun g => negb (length (items g) <? 5)%nat) groups in
  let '(merged, leftover) := mergePairs smallGroups in
  let mergedGroups := largeGroups ++ merged in
  match leftover with
  | [] => mergedGroups
  | small :: _ =>
      match mergedGroups with
      | first :: others =>
          mkGroup (name first) (items first ++ items small) (strategy first)
            :: others
      | [] => [small]
      end
  end.

(** The accumulators [groups], [currentGroup], [currentArea] of
    [splitByArea]. *)
Definition splitStep (maxArea : Z)
    (acc : list Group * list Image.t * Z) (item : Image.t)
    : list Group * list Image.t * Z :=
  let '(groups, currentGroup, currentArea) := acc in
  let itemArea := Image.width item * Image.height item in
  if (maxArea <? currentArea + itemArea) && (0 <? length currentGroup)%nat
  then (groups ++ [mkGroup "split_group" currentGroup "area"], [item], itemArea)
  else (groups, currentGroup ++ [item], currentArea + itemArea).

Definition splitByArea (members : list Image.t) (maxArea : Z) : list Group :=
  let '(groups, currentGroup, _) :=
    fold_left (splitStep maxArea) members ([], [], 0) in
  if (0 <? length currentGroup)%nat
  then groups ++ [mkGroup "split_group" currentGroup "area"]
  else groups.

(** The [while (remainingItems.length > 0)] loop of [limitGroupSize];
    [splice(0, n)] takes the first [n] items.  With a positive cap every
    iteration removes an item, so [length remainingItems] iterations
    suffice. *)
Fixpoint limitGroup (fuel : nat) (cfg : Config) (group : Group)
    (remainingItems : list Image.t) : list Group :=
  match fuel with
  | O => []
  | S fuel' =>
      match remainingItems with
      | [] => []
      | _ :: _ =>
          let n := Z.to_nat (MAX_IMAGES_PER_GROUP cfg) in
          let batchItems := take n remainingItems in
          let currentArea := totalArea batchItems in
          (if MAX_AREA_PER_GROUP cfg <? currentArea
           then splitByArea batchItems (MAX_AREA_PER_GROUP cfg)
           else [mkGroup (name group) batchItems (strategy group)])
          ++ limitGroup fuel' cfg group (drop n remainingItems)
      end
  end.

Definition limitGroupSize (cfg : Config) (groups : list Group) : list Group :=
  flat_map (fun group => limitGroup (length (items group)) cfg group (items group))
           groups.

Definition groupImages (cfg : Config) (images : list Image.t) : list Group :=
  if (length images =? 0)%nat then []
  else
    let sizeGroups := groupBySize cfg images in
    let refinedGroups := refineGroupsByAspectRatio cfg sizeGroups in
    let mergedGroups := mergeSmallGroups refinedGroups in
    limitGroupSize cfg mergedGroups.

End Grouper.

(** ** AlgorithmSelector ([recordResult], [recordHistory]) *)

Module Selector.

Local Open Scope Q_scope.

(** One entry of [this.statistics]. *)
Record AlgStats := mkStats {
  usage : nat;
  successRate : Q;
  efficiencies : list Q;
  avgEfficiency : Q
}.

(** One entry of [this.history]. *)
Record HistoryRecord := mkRecord {
  algorithm : string;
  success : bool;
  efficiency : Q;
  timestamp : Z
}.

(** The selector object: [statistics] is an object used as a map from the
    algorithm name; [maxHistorySize] is set to 50 by the constructor and
    never assigned again. *)
Record t := mk {
  statistics : gmap string AlgStats;
  history : list HistoryRecord
}.

Definition maxHistorySize : nat := 50.

Definition emptyStats : AlgStats := mkStats 0 0 [] 0.

Definition initial : t :=
  mk (<["maxRectangles" := emptyStats]> (<["shelf" := emptyStats]> ∅)) [].

(** [array.push(v); if (array.length > cap) array.shift()]. *)
Definition pushCapped {A : Type} (cap : nat) (array : list A) (v : A) : list A :=
  let pushed := array ++ [v] in
  if (cap <? length pushed)%nat then drop 1 pushed else pushed.

(** [array.reduce((a, b) => a + b, 0) / array.length]. *)
Definition mean (array : list Q) : Q :=
  fold_left Qplus array 0 / inject_Z (Z.of_nat (length array)).

(** [recordHistory]; [now] is the value of [Date.now()]. *)
Definition recordHistory (now : Z) (sel : t) (alg : string) (ok : bool)
    (eff : Q) : t :=
  mk (statistics sel)
     (pushCapped maxHistorySize (history sel) (mkRecord alg ok eff now)).

(** The update of the entry of the algorithm.  The success rate and the
    mean are exact here; the program rounds each operation. *)
Definition updateStats (s : AlgStats) (ok : bool) (eff : Q) : AlgStats :=
  let usage' := S (usage s) in
  let '(efficiencies', avg') :=
    if ok && Qltb 0 eff then
      let kept := pushCapped 50 (efficiencies s) eff in
      (kept, mean kept)
    else (efficiencies s, avgEfficiency s) in
  let totalUsage := inject_Z (Z.of_nat usage') in
  let currentSuccessRate := successRate s in
  let rate' :=
    if ok then (currentSuccessRate * (totalUsage - 1) + 1) / totalUsage
    else (currentSuccessRate * (totalUsage - 1)) / totalUsage in
  mkStats usage' rate' efficiencies' avg'.

(** [recordResult]; an algorithm that is no key of [statistics] leaves the
    selector as it is.  The test [algorithm in this.statistics] of the
    program also holds for the names every object inherits ([toString],
    [constructor], ...); the model follows the calls for the other names. *)
Definition recordResult (now : Z) (sel : t) (alg : string) (ok : bool)
    (eff : Q) : t :=
  match statistics sel !! alg with
  | Some s =>
      recordHistory now
        (mk (<[alg := updateStats s ok eff]> (statistics sel)) (history sel))
        alg ok eff
  | None => sel
  end.

End Selector.

(** ** Frame validation ([validateFrames]) *)

Module Validate.

(** The four errors [validateFrames] throws, with the name of the frame;
    the coordinates quoted in the message are left out. *)
Inductive FrameError : Type :=
| InvalidPosition (name : string)
| ExceedsWidth (name : string)
| ExceedsHeight (name : string)
| TooLarge (name : string).

Section Generic.
Context {num : Type}.
Variables (ltb : num -> num -> bool) (add : num -> num -> num) (zero : num).

(** The body of the loop for one frame; [None] when no check fires. *)
Definition checkFrame (atlasWidth atlasHeight : num) (frame : Frame.t num)
    : option FrameError :=
  let right := add (Frame.x frame) (Frame.width frame) in
  let bottom := add (Frame.y frame) (Frame.height frame) in
  if ltb (Frame.x frame) zero || ltb (Frame.y frame) zero
  then Some (InvalidPosition (Frame.name frame))
  else if ltb atlasWidth right then Some (ExceedsWidth (Frame.name frame))
  else if ltb atlasHeight bottom then Some (ExceedsHeight (Frame.name frame))
  else if ltb atlasWidth (Frame.width frame)
          || ltb atlasHeight (Frame.height frame)
  then Some (TooLarge (Frame.name frame))
  else None.

(** [validateFrames]: the error thrown, or [None] when the loop ends. *)
Fixpoint validate (frames : list (Frame.t num)) (atlasWidth atlasHeight : num)
    : option FrameError :=
  match frames with
  | [] => None
  | frame :: rest =>
      match checkFrame atlasWidth atlasHeight frame with
      | Some err => Some err
      | None => validate rest atlasWidth atlasHeight
      end
  end.

End Generic.

(** On the integer frames of the MaxRectangles packer and on the rational
    frames of the Shelf packer. *)
Definition validateFrames : list (Frame.t Z) -> Z -> Z -> option FrameError :=
  validate Z.ltb Z.add 0.

Definition validateFramesQ : list (Frame.t Q) -> Q -> Q -> option FrameError :=
  validate Qltb Qplus 0%Q.

End Validate.

(** ** Group statistics ([getGroupStatistics] in [js/imageGrouper.js]) *)

Module GroupStats.

(** [items.reduce((sum, img) => sum + img.width * img.height, 0)]. *)
Definition itemsArea (items : list Image.t) : Z := totalArea items.

(** One row [{name, count, totalArea, avgArea, strategy}]. *)
Record Row := mkRow {
  name : string;
  count : nat;
  totalArea : Z;
  avgArea : JsNum;
  strategy : string
}.

Definition rowOf (group : Grouper.Group) : Row :=
  let total := itemsArea (Grouper.items group) in
  mkRow (Grouper.name group)
        (length (Grouper.items group))
        total
        (jsDiv (inject_Z total)
               (inject_Z (Z.of_nat (length (Grouper.items group)))))
        (Grouper.strategy group).

Definition getGroupStatistics (groups : list Grouper.Group) : list Row :=
  map rowOf groups.

End GroupStats.

(** ** AlgorithmSelector: [resetStatistics] and the entries it leaves

    [resetStatistics] replaces the entries by objects that have only
    [usage] and [successRate].  To follow [recordResult] on such entries
    the two other properties are optional here: [None] is [undefined]. *)

Module SelectorReset.

Local Open Scope Q_scope.

Record Stats := mkStats {
  usage : nat;
  successRate : Q;
  efficiencies : option (list Q);
  avgEfficiency : option Q
}.

Record t := mk {
  statistics : gmap string Stats;
  history : list Selector.HistoryRecord
}.

(** The entries and the selector of the constructor, which sets all four
    properties. *)
Definition ofStats (s : Selector.AlgStats) : Stats :=
  mkStats (Selector.usage s) (Selector.successRate s)
          (Some (Selector.efficiencies s)) (Some (Selector.avgEfficiency s)).

Definition ofSelector (sel : Selector.t) : t :=
  mk (ofStats <$> Selector.statistics sel) (Selector.history sel).

Definition resetStats : Stats := mkStats 0 0 None None.

(** [resetStatistics]: [this.history] is not touched. *)
Definition resetStatistics (sel : t) : t :=
  mk (<["maxRectangles" := resetStats]> (<["shelf" := resetStats]> ∅))
     (history sel).

(** How a call ends: it returns, or [efficiencies.push] is reached on an
    entry without [efficiencies] and throws a [TypeError]; either way with
    the state the object is left in. *)
Inductive Result : Type :=
| Returned (sel : t)
| ThrewTypeError (sel : t).

Definition withRate (s : Stats) (ok : bool) : Stats :=
  let totalUsage := inject_Z (Z.of_nat (usage s)) in
  let currentSuccessRate := successRate s in
  mkStats (usage s)
          (if ok then (currentSuccessRate * (totalUsage - 1) + 1) / totalUsage
           else (currentSuccessRate * (totalUsage - 1)) / totalUsage)
          (efficiencies s) (avgEfficiency s).

Definition recordHistory (now : Z) (sel : t) (alg : string) (ok : bool)
    (eff : Q) : t :=
  mk (statistics sel)
     (Selector.pushCapped Selector.maxHistorySize (history sel)
        (Selector.mkRecord alg ok eff now)).

Definition recordResult (now : Z) (sel : t) (alg : string) (ok : bool)
    (eff : Q) : Result :=
  match statistics sel !! alg with
  | None => Returned sel
  | Some s =>
      let counted :=
        mkStats (S (usage s)) (successRate s) (efficiencies s) (avgEfficiency s) in
      if ok && Qltb 0 eff then
        match efficiencies s with
        | None =>
            ThrewTypeError (mk (<[alg := counted]> (statistics sel)) (history sel))
        | Some array =>
            let kept := Selector.pushCapped 50 array eff in
            let averaged :=
              mkStats (usage counted) (successRate counted) (Some kept)
                      (Some (Selector.mean kept)) in
            Returned
              (recordHistory now
                 (mk (<[alg := withRate averaged ok]> (statistics sel)) (history sel))
                 alg ok eff)
        end
      else
        Returned
          (recordHistory now
             (mk (<[alg := withRate counted ok]> (statistics sel)) (history sel))
             alg ok eff)
  end.

End SelectorReset.

(** ** Result cache ([AlgorithmCache] in [js/imageGrouper.js])

    [this.cache] is a [Map] from key strings to cached results: an
    association list in insertion order, without repeated keys. *)

Module AlgorithmCache.

Section Cache.

(** The cached results, with their truthiness: [get] tests [if (result)]. *)
Context {V : Type}.
Variable truthy : V -> bool.

(** [JSON.stringify({algorithm, padding, maxWidth, usePowerOfTwo})]. *)
Variable stringify : string -> Z -> Z -> bool -> string.

(** The options object [{padding, maxWidth, usePowerOfTwo}]. *)
Record Options := mkOptions {
  padding : Z;
  maxWidth : Z;
  usePowerOfTwo : bool
}.

Record t := mk {
  cache : list (string * V);
  maxSize : Z;
  hits : nat;
  misses : nat
}.

(** [new AlgorithmCache(maxSize)]; the default of [maxSize] is 100. *)
Definition create (maxSize : option Z) : t :=
  mk [] (default 100 maxSize) 0 0.

(** [Map.prototype.get], [delete] and [set]: [set] on a key that is
    present keeps the position of the key. *)
Definition mapGet (key : string) (entries : list (string * V)) : option V :=
  snd <$> List.find (fun e => String.eqb (fst e) key) entries.

Definition mapDelete (key : string) (entries : list (string * V))
    : list (string * V) :=
  List.filter (fun e => negb (String.eqb (fst e) key)) entries.

Fixpoint mapSet (key : string) (value : V) (entries : list (string * V))
    : list (string * V) :=
  match entries with
  | [] => [(key, value)]
  | (k, v) :: rest =>
      if String.eqb k key then (k, value) :: rest
      else (k, v) :: mapSet key value rest
  end.

(** [`${img.width}x${img.height}`]. *)
Definition imageHash (img : Image.t) : string :=
  pretty (Image.width img) +:+ "x" +:+ pretty (Image.height img).

(** [generateKey]: [sort()] without a comparator orders the strings by
    their code units. *)
Definition generateKey (images : list Image.t) (algorithm : string)
    (options : Options) : string :=
  let imageHashes :=
    String.concat "|" (stableSort String.leb (map imageHash images)) in
  let optionsHash :=
    stringify algorithm (padding options) (maxWidth options)
              (usePowerOfTwo options) in
  imageHashes +:+ ":" +:+ optionsHash.

(** [get]: the value returned ([None] is [null]) and the cache after the
    call; a hit moves the entry to the end. *)
Definition get (c : t) (images : list Image.t) (algorithm : string)
    (options : Options) : option V * t :=
  let key := generateKey images algorithm options in
  match mapGet key (cache c) with
  | Some result =>
      if truthy result then
        (Some result,
         mk (mapSet key result (mapDelete key (cache c)))
            (maxSize c) (S (hits c)) (misses c))
      else (None, mk (cache c) (maxSize c) (hits c) (S (misses c)))
  | None => (None, mk (cache c) (maxSize c) (hits c) (S (misses c)))
  end.

(** [set]: a full cache first loses its oldest entry; on an empty map
    [keys().next().value] is [undefined] and nothing is deleted. *)
Definition set (c : t) (images : list Image.t) (algorithm : string)
    (options : Options) (result : V) : t :=
  let key := generateKey images algorithm options in
  let entries :=
    if maxSize c <=? Z.of_nat (length (cache c)) then
      match cache c with
      | [] => []
      | (firstKey, _) :: _ => mapDelete firstKey (cache c)
      end
    else cache c in
  mk (mapSet key result entries) (maxSize c) (hits c) (misses c).

Definition clear (c : t) : t := mk [] (maxSize c) 0 0.

End Cache.

Arguments t : clear implicits.
Arguments mk {V}.
Arguments create {V}.

End AlgorithmCache.

(** ** Multi-atlas packer ([js/multiAtlasPacker.js]) *)

Module MultiAtlas.

(** The [options] object of the constructor; [None] is a missing
    property. *)
Record Options := mkOptions {
  optMaxWidth : option Z;
  optMaxHeight : option Z;
  optPadding : option Z;
  optUsePowerOfTwo : option bool;
  optMaxImagesPerAtlas : option Z;
  optMaxAreaPerAtlas : option Z;
  optPackingAlgorithm : option string
}.

Record t := mk {
  maxWidth : Z;
  maxHeight : Z;
  padding : Z;
  usePowerOfTwo : bool;
  maxImagesPerAtlas : Z;
  maxAreaPerAtlas : Z;
  packingAlgorithm : string
}.

(** [value || fallback] on a number and on a string: 0 and the empty
    string are falsy, like a missing property. *)
Definition orNumber (value : option Z) (fallback : Z) : Z :=
  match value with
  | Some v => if v =? 0 then fallback else v
  | None => fallback
  end.

Definition orString (value : option string) (fallback : string) : string :=
  match value with
  | Some v => if String.eqb v "" then fallback else v
  | None => fallback
  end.

Definition create (options : Options) : t :=
  mk (orNumber (optMaxWidth options) 2048)
     (orNumber (optMaxHeight options) 2048)
     (orNumber (optPadding options) 2)
     (match optUsePowerOfTwo options with Some false => false | _ => true end)
     (orNumber (optMaxImagesPerAtlas options) 100)
     (orNumber (optMaxAreaPerAtlas options) (2048 * 1024))
     (orString (optPackingAlgorithm options) "maxRectangles").

(** What a packer returns: a layout of the MaxRectangles search or one of
    the Shelf search. *)
Inductive Packed : Type :=
| FromMaxRectangles (layout : Layout.t Z)
| FromShelf (layout : Layout.t Q).

(** An atlas of the result, with the [groupName] that [pack] adds for a
    group. *)
Record Atlas := mkAtlas {
  packed : Packed;
  groupName : option string
}.

(** [packSingleAtlas]; the [strategy] argument is not used.  The Shelf
    search always comes to its end ([SearchFacts.packImages_eq]). *)
Definition packSingleAtlas (p : t) (images : list Image.t) (strategy : string)
    : option Packed :=
  if String.eqb (packingAlgorithm p) "maxRectangles" then
    FromMaxRectangles
      <$> MaxRects.packImagesWithMaxRectangles images (padding p) (maxWidth p)
            (usePowerOfTwo p)
  else
    match ShelfPacker.packImages images (padding p) (maxWidth p)
            (usePowerOfTwo p) with
    | Done result => FromShelf <$> result
    | _ => None
    end.

(** [pack]: one atlas for a list of at most [maxImagesPerAtlas] images,
    otherwise one atlas per group of the default grouper; a group that does
    not pack is left out. *)
Definition pack (p : t) (images : list Image.t) : list Atlas :=
  if (length images =? 0)%nat then []
  else if Z.of_nat (length images) <=? maxImagesPerAtlas p then
    match packSingleAtlas p images "area" with
    | Some result => [mkAtlas result None]
    | None => []
    end
  else
    let groups := Grouper.groupImages Grouper.GROUPING_CONFIG images in
    omap
      (fun group =>
         match packSingleAtlas p (Grouper.items group) (Grouper.strategy group) with
         | Some result => Some (mkAtlas result (Some (Grouper.name group)))
         | None => None
         end)
      groups.

End MultiAtlas.

(** * Properties *)

(** ** Generic facts *)

(** A loop invariant for [fold_left] that may mention the elements already
    visited. *)
Lemma fold_left_prefix_inv {A B : Type} (step : B -> A -> B)
    (P : list A -> B -> Prop) (l : list A) (init : B) :
  P [] init ->
  (forall seen acc a, P seen acc -> P (seen ++ [a]) (step acc a)) ->
  P l (fold_left step l init).
Proof.
  intros Hinit Hstep.
  assert (Hgen : forall rest seen acc,
             P seen acc -> P (seen ++ rest) (fold_left step rest acc)).
  { induction rest as [|a rest IH]; intros seen acc Hacc; simpl.
    - by rewrite app_nil_r.
    - replace (seen ++ a :: rest) with ((seen ++ [a]) ++ rest)
        by (by rewrite <- app_assoc).
      apply IH, Hstep, Hacc. }
  apply (Hgen l [] init Hinit).
Qed.

(** Sorting permutes. *)
Lemma insertSorted_Permutation {A : Type} (leb : A -> A -> bool) a l :
  insertSorted leb a l ≡ₚ a :: l.
Proof.
  induction l as [|b l IH]; simpl; [done|].
  destruct (leb a b); [done|].
  rewrite IH. apply Permutation_swap.
Qed.

Lemma stableSort_Permutation {A : Type} (leb : A -> A -> bool) l :
  stableSort leb l ≡ₚ l.
Proof.
  induction l as [|a l IH]; simpl; [done|].
  unfold stableSort in *. simpl. by rewrite insertSorted_Permutation, IH.
Qed.

Lemma insertSorted_not_nil {A : Type} (leb : A -> A -> bool) a l :
  insertSorted leb a l <> [].
Proof. destruct l as [|b l]; simpl; [done|]. by destruct (leb a b). Qed.

Lemma stableSort_cons_not_nil {A : Type} (leb : A -> A -> bool) a l :
  stableSort leb (a :: l) <> [].
Proof. apply insertSorted_not_nil. Qed.

(** The least power of two above a number is above it, and at least one. *)
Lemma nextPowerOf2_ge n : n <= nextPowerOf2 n /\ 1 <= nextPowerOf2 n.
Proof.
  unfold nextPowerOf2.
  destruct (Z.eq_dec (Z.max 1 n) 1) as [Heq|Hne].
  - rewrite Heq. change (2 ^ Z.log2_up 1) with 1. lia.
  - pose proof (Z.log2_up_spec (Z.max 1 n) ltac:(lia)) as [_ Hup]. lia.
Qed.

Lemma nextPowerOf2Q_ge q :
  (q <= inject_Z (nextPowerOf2Q q))%Q /\ 1 <= nextPowerOf2Q q.
Proof.
  unfold nextPowerOf2Q.
  pose proof (Qle_ceiling (Qmax 1 q)) as Hc.
  pose proof (Q.le_max_l 1 q) as H1. pose proof (Q.le_max_r 1 q) as H2.
  assert (Hone : 1 <= Qceiling (Qmax 1 q)).
  { rewrite Zle_Qle. change (inject_Z 1) with 1%Q. lra. }
  assert (Hpow : Qceiling (Qmax 1 q) <= 2 ^ Z.log2_up (Qceiling (Qmax 1 q))).
  { destruct (Z.eq_dec (Qceiling (Qmax 1 q)) 1) as [Heq|Hne].
    - rewrite Heq. change (2 ^ Z.log2_up 1) with 1. lia.
    - pose proof (Z.log2_up_spec (Qceiling (Qmax 1 q)) ltac:(lia)) as [_ Hup].
      lia. }
  split; [|lia].
  rewrite Zle_Qle in Hpow. lra.
Qed.

(** ** MaxRectangles: best short side fit *)

Module MaxRectsFacts.
Import MaxRects.

(** The rectangle [r] can take a node of size [w x h]. *)
Definition fits (w h : Z) (r : Rect.t) : Prop :=
  w <= Rect.width r /\ h <= Rect.height r.

Definition shortSide (w h : Z) (r : Rect.t) : Z :=
  Z.min (Rect.width r - w) (Rect.height r - h).

Definition longSide (w h : Z) (r : Rect.t) : Z :=
  Z.max (Rect.width r - w) (Rect.height r - h).

(** [r] is at least as good as [r'] under best short side fit. *)
Definition bssfLe (w h : Z) (r r' : Rect.t) : Prop :=
  shortSide w h r < shortSide w h r'
  \/ (shortSide w h r = shortSide w h r' /\ longSide w h r <= longSide w h r').

(** [r] is a fitting rectangle of [l] that is minimal for [bssfLe]. *)
Definition bssfBest (w h : Z) (l : list Rect.t) (r : Rect.t) : Prop :=
  r ∈ l /\ fits w h r /\ forall r', r' ∈ l -> fits w h r' -> bssfLe w h r r'.

(** The state of the search after the rectangles [seen]. *)
Definition bssfInv (w h : Z) (seen : list Rect.t)
    (acc : Rect.t * option Z * option Z) : Prop :=
  ((forall r, r ∈ seen -> ~ fits w h r) /\ acc = (zeroNode, None, None))
  \/ (exists r, bssfBest w h seen r
                /\ acc = (Rect.mk (Rect.x r) (Rect.y r) w h,
                          Some (shortSide w h r), Some (longSide w h r))).

Lemma bssfStep_inv w h seen acc r :
  bssfInv w h seen acc -> bssfInv w h (seen ++ [r]) (bssfStep w h acc r).
Proof.
  intros [[Hnone ->]|(b & (Hb & Hfb & Hmin) & ->)]; unfold bssfStep.
  - destruct (w <=? Rect.width r) eqn:Hw, (h <=? Rect.height r) eqn:Hh; simpl.
    + right. exists r. split; [|f_equal; f_equal; f_equal; unfold shortSide, longSide; lia].
      split; [set_solver|]. split; [unfold fits; lia|].
      intros r' [Hr'|Hr']%elem_of_app Hfit.
      * exfalso. eapply Hnone; eauto.
      * apply list_elem_of_singleton in Hr' as ->. right. lia.
    + left. split; [|done]. intros r' [?| ->%list_elem_of_singleton]%elem_of_app;
        [by apply Hnone|unfold fits; lia].
    + left. split; [|done]. intros r' [?| ->%list_elem_of_singleton]%elem_of_app;
        [by apply Hnone|unfold fits; lia].
    + left. split; [|done]. intros r' [?| ->%list_elem_of_singleton]%elem_of_app;
        [by apply Hnone|unfold fits; lia].
  - destruct ((w <=? Rect.width r) && (h <=? Rect.height r)) eqn:Hfit.
    + apply andb_true_iff in Hfit as [Hw%Z.leb_le Hh%Z.leb_le].
      assert (Hs : Z.min (Z.abs (Rect.width r - w)) (Z.abs (Rect.height r - h))
                   = shortSide w h r) by (unfold shortSide; lia).
      assert (Hl : Z.max (Z.abs (Rect.width r - w)) (Z.abs (Rect.height r - h))
                   = longSide w h r) by (unfold longSide; lia).
      cbv zeta. rewrite Hs, Hl. simpl ltInf. simpl eqInf.
      destruct ((shortSide w h r <? shortSide w h b)
                || ((shortSide w h r =? shortSide w h b)
                    && (longSide w h r <? longSide w h b))) eqn:Hbetter.
      * right. exists r. split; [|done].
        split; [set_solver|]. split; [done|].
        intros r' [Hr'| ->%list_elem_of_singleton]%elem_of_app Hfit'.
        -- specialize (Hmin r' Hr' Hfit'). unfold bssfLe in *. lia.
        -- right. lia.
      * right. exists b. split; [|done].
        split; [set_solver|]. split; [done|].
        intros r' [Hr'| ->%list_elem_of_singleton]%elem_of_app Hfit'.
        -- by apply Hmin.
        -- unfold bssfLe. lia.
    + right. exists b. split; [|done].
      split; [set_solver|]. split; [done|].
      intros r' [Hr'| ->%list_elem_of_singleton]%elem_of_app Hfit'.
      * by apply Hmin.
      * unfold fits in Hfit'. lia.
Qed.

Lemma bssf_search w h l :
  ((forall r, r ∈ l -> ~ fits w h r)
   /\ findPositionForNewNodeBestShortSideFit l w h = zeroNode)
  \/ (exists r, bssfBest w h l r
        /\ findPositionForNewNodeBestShortSideFit l w h
           = Rect.mk (Rect.x r) (Rect.y r) w h).
Proof.
  unfold findPositionForNewNodeBestShortSideFit.
  pose proof (fold_left_prefix_inv (bssfStep w h) (bssfInv w h) l
                (zeroNode, None, None)) as H.
  destruct H as [[Hnone ->]|(r & Hbest & ->)].
  - left. split; [|done]. intros r Hr. set_solver.
  - intros seen acc a. apply bssfStep_inv.
  - by left.
  - right. by exists r.
Qed.

(** *** Splitting and pruning *)

(** Two rectangles are separated along one of the axes. *)
Definition separated (a b : Rect.t) : Prop :=
  Rect.x a + Rect.width a <= Rect.x b
  \/ Rect.x b + Rect.width b <= Rect.x a
  \/ Rect.y a + Rect.height a <= Rect.y b
  \/ Rect.y b + Rect.height b <= Rect.y a.

Definition inside (a b : Rect.t) : Prop :=
  Rect.x b <= Rect.x a /\ Rect.y b <= Rect.y a
  /\ Rect.x a + Rect.width a <= Rect.x b + Rect.width b
  /\ Rect.y a + Rect.height a <= Rect.y b + Rect.height b.

Lemma noOverlap_true u fr : noOverlap u fr = true -> separated fr u.
Proof. unfold noOverlap, separated. intros H. lia. Qed.

Lemma newNodes_spec u fr r :
  noOverlap u fr = false -> r ∈ newNodes u fr ->
  inside r fr /\ separated r u.
Proof.
  unfold noOverlap, newNodes, inside, separated. intros Hov Hr.
  cbv zeta in Hr.
  repeat match type of Hr with
         | _ ∈ _ ++ _ => apply elem_of_app in Hr as [Hr|Hr]
         | _ ∈ (if ?c then _ else _) => destruct c eqn:?
         | _ ∈ [_] => apply list_elem_of_singleton in Hr as ->
         | _ ∈ [] => by apply elem_of_nil in Hr
         end; simpl; lia.
Qed.

Lemma splitLoop_elem u n l r :
  (n <= length l)%nat -> r ∈ splitLoop n l u ->
  (exists i, (n <= i)%nat /\ l !! i = Some r)
  \/ (exists i fr, (i < n)%nat /\ l !! i = Some fr
        /\ ((noOverlap u fr = true /\ r = fr)
            \/ (noOverlap u fr = false /\ r ∈ newNodes u fr))).
Proof.
  revert l. induction n as [|i IH]; intros l Hlen Hr; simpl in Hr.
  - apply list_elem_of_lookup in Hr as [j Hj]. left. exists j. split; [lia|done].
  - unfold splitFreeRectangle in Hr.
    destruct (l !! i) as [fr|] eqn:Hi;
      [|apply lookup_ge_None in Hi; lia].
    destruct (noOverlap u fr) eqn:Hov.
    + apply IH in Hr as [(j & Hj & Hlj)|(j & fr' & Hj & Hlj & Hcase)]; [| |lia].
      * destruct (decide (j = i)) as [->|Hne].
        -- right. exists i, fr. split; [lia|]. split; [done|]. left.
           split; [done|]. congruence.
        -- left. exists j. split; [lia|done].
      * right. exists j, fr'. split; [lia|done].
    + assert (Hlen' : (i <= length (delete i (l ++ newNodes u fr)))%nat).
      { rewrite length_delete by (rewrite lookup_app_l; [by rewrite Hi|lia]).
        rewrite length_app. lia. }
      apply (IH _ Hlen') in Hr
        as [(j & Hj & Hlj)|(j & fr' & Hj & Hlj & Hcase)].
      * rewrite list_lookup_delete_ge in Hlj by done.
        apply lookup_app_Some in Hlj as [Hlj|[Hge Hlj]].
        -- left. exists (S j). split; [lia|done].
        -- right. exists i, fr. split; [lia|]. split; [done|]. right.
           split; [done|]. by eapply list_elem_of_lookup_2.
      * rewrite list_lookup_delete_lt in Hlj by done.
        rewrite lookup_app_l in Hlj by lia.
        right. exists j, fr'. split; [lia|done].
Qed.

Lemma pruneInner_subseteq fuel l i j :
  (pruneInner fuel l i j).1 ⊆ l.
Proof.
  revert l j. induction fuel as [|fuel IH]; intros l j; simpl; [done|].
  destruct (l !! i) as [a|]; [|done].
  destruct (l !! j) as [b|]; [|done].
  destruct (isContainedIn a b); simpl.
  - apply list_subseteq_delete.
  - destruct (isContainedIn b a).
    + etrans; [apply IH|apply list_subseteq_delete].
    + apply IH.
Qed.

Lemma pruneOuter_subseteq fuel l i : pruneOuter fuel l i ⊆ l.
Proof.
  revert l i. induction fuel as [|fuel IH]; intros l i; simpl; [done|].
  destruct (decide (i < length l)%nat); [|done].
  pose proof (pruneInner_subseteq (length l) l i (S i)) as Hin.
  destruct (pruneInner (length l) l i (S i)) as [pruned broke]. simpl in Hin.
  etrans; [apply IH|done].
Qed.

(** What a free rectangle can be after a split by [u]. *)
Lemma splitFreeRectangles_elem l u r :
  r ∈ splitFreeRectangles l u ->
  (r ∈ l /\ separated r u)
  \/ (exists fr, fr ∈ l /\ inside r fr /\ separated r u).
Proof.
  unfold splitFreeRectangles, pruneFreeRectangles. intros Hr.
  apply pruneOuter_subseteq in Hr.
  apply splitLoop_elem in Hr as [(i & Hi & Hli)|(i & fr & Hi & Hli & Hcase)];
    [|..|done].
  - apply lookup_lt_Some in Hli. lia.
  - destruct Hcase as [[Hov ->]|[Hov Hnew]].
    + left. split; [by eapply list_elem_of_lookup_2|by apply noOverlap_true].
    + right. exists fr. split; [by eapply list_elem_of_lookup_2|].
      by apply newNodes_spec.
Qed.

(** *** The invariant of the placement loop *)

(** The padded box of a frame: the used rectangle pushed for it. *)
Definition padded (p : Z) (f : Frame.t Z) : Rect.t :=
  Rect.mk (Frame.x f) (Frame.y f) (Frame.width f + p) (Frame.height f + p).

Definition pairwiseSeparated (l : list Rect.t) : Prop :=
  forall i j a b, i ≠ j -> l !! i = Some a -> l !! j = Some b -> separated a b.

Lemma separated_sym a b : separated a b -> separated b a.
Proof. unfold separated. lia. Qed.

Lemma separated_inside a b c : inside a b -> separated b c -> separated a c.
Proof. unfold inside, separated. lia. Qed.

Lemma pairwiseSeparated_snoc l a :
  pairwiseSeparated l -> (forall b, b ∈ l -> separated b a) ->
  pairwiseSeparated (l ++ [a]).
Proof.
  intros Hl Ha i j b c Hij Hi Hj.
  apply lookup_app_Some in Hi as [Hi|[Hgi Hi]];
    apply lookup_app_Some in Hj as [Hj|[Hgj Hj]].
  - by eapply Hl.
  - apply list_lookup_singleton_Some in Hj as [_ <-].
    apply Ha. by eapply list_elem_of_lookup_2.
  - apply list_lookup_singleton_Some in Hi as [_ <-].
    apply separated_sym, Ha. by eapply list_elem_of_lookup_2.
  - apply list_lookup_singleton_Some in Hi as [Hi _].
    apply list_lookup_singleton_Some in Hj as [Hj _]. lia.
Qed.

Record Inv (p : Z) (st : State) : Prop := mkInv {
  inv_used : usedRectangles st = map (padded p) (frames st);
  inv_free_pos :
    forall r, r ∈ freeRectangles st -> 0 <= Rect.x r /\ 0 <= Rect.y r;
  inv_free_sep :
    forall r u, r ∈ freeRectangles st -> u ∈ usedRectangles st -> separated r u;
  inv_used_sep : pairwiseSeparated (usedRectangles st)
}.

Lemma Inv_initial p maxWidth : Inv p (initialState maxWidth).
Proof.
  split; simpl.
  - done.
  - intros r ->%list_elem_of_singleton. simpl. lia.
  - intros r u _ Hu. by apply elem_of_nil in Hu.
  - intros i j a b _ Hi. by rewrite lookup_nil in Hi.
Qed.

(** Placing a node at the origin of a free rectangle that can take it. *)
Lemma Inv_place p st r frame :
  Inv p st -> r ∈ freeRectangles st ->
  Frame.x frame = Rect.x r -> Frame.y frame = Rect.y r ->
  0 <= Frame.width frame + p <= Rect.width r ->
  0 <= Frame.height frame + p <= Rect.height r ->
  Inv p (mkState (usedRectangles st ++ [padded p frame])
                 (splitFreeRectangles (freeRectangles st) (padded p frame))
                 (frames st ++ [frame])).
Proof.
  intros [Hused Hpos Hfree Hsep] Hr Hx Hy Hw Hh.
  assert (Hin : inside (padded p frame) r)
    by (unfold inside, padded; simpl; lia).
  split; simpl.
  - by rewrite map_app, Hused.
  - intros r' [[Hr' _]|(fr & Hfr & Hins & _)]%splitFreeRectangles_elem.
    + by apply Hpos.
    + destruct (Hpos fr Hfr). unfold inside in Hins. lia.
  - intros r' u Hr' [Hu| ->%list_elem_of_singleton]%elem_of_app.
    + apply splitFreeRectangles_elem in Hr' as [[Hr' _]|(fr & Hfr & Hins & _)].
      * by apply Hfree.
      * eapply separated_inside; [done|]. by apply Hfree.
    + by apply splitFreeRectangles_elem in Hr' as [[_ ?]|(fr & _ & _ & ?)].
  - apply pairwiseSeparated_snoc; [done|].
    intros b Hb. apply separated_sym.
    eapply separated_inside; [done|]. by apply Hfree.
Qed.

(** What a successful [placeItem] does. *)
Lemma placeItem_Some p st item st' :
  0 < Image.width item -> 0 < Image.height item -> 0 <= p ->
  placeItem p st item = Some st' ->
  exists r frame,
    r ∈ freeRectangles st
    /\ Frame.x frame = Rect.x r /\ Frame.y frame = Rect.y r
    /\ Frame.width frame + p <= Rect.width r
    /\ Frame.height frame + p <= Rect.height r
    /\ 0 < Frame.width frame /\ 0 < Frame.height frame
    /\ Frame.name frame = Image.name item
    /\ st' = mkState (usedRectangles st ++ [padded p frame])
                     (splitFreeRectangles (freeRectangles st) (padded p frame))
                     (frames st ++ [frame]).
Proof.
  intros Hw Hh Hp. unfold placeItem. cbv zeta.
  destruct (bssf_search (Image.width item + p) (Image.height item + p)
              (freeRectangles st))
    as [[_ ->]|(r & (Hr & [Hfw Hfh] & _) & ->)]; simpl.
  - destruct (bssf_search (Image.height item + p) (Image.width item + p)
                (freeRectangles st))
      as [[_ ->]|(r & (Hr & [Hfw Hfh] & _) & ->)]; simpl; [done|].
    destruct (Image.width item + p =? 0) eqn:Hz; [lia|].
    intros [= <-].
    exists r, (Frame.mk (Image.name item) (Rect.x r) (Rect.y r)
                 (Image.height item) (Image.width item)
                 (Image.width item) (Image.height item) 0 0 true).
    repeat split; simpl; try done; lia.
  - destruct (Image.height item + p =? 0) eqn:Hz; [lia|].
    intros [= <-].
    exists r, (Frame.mk (Image.name item) (Rect.x r) (Rect.y r)
                 (Image.width item) (Image.height item)
                 (Image.width item) (Image.height item) 0 0 false).
    repeat split; simpl; try done; lia.
Qed.

Lemma placeItem_Inv p st item st' :
  0 < Image.width item -> 0 < Image.height item -> 0 <= p ->
  Inv p st -> placeItem p st item = Some st' -> Inv p st'.
Proof.
  intros Hw Hh Hp HI Hplace.
  apply placeItem_Some in Hplace
    as (r & frame & Hr & Hx & Hy & Hfw & Hfh & Hpw & Hph & _ & ->); try done.
  apply Inv_place with (r := r); try done; lia.
Qed.

(** All images have positive width and height. *)
Definition positive (images : list Image.t) : Prop :=
  forall im, im ∈ images -> 0 < Image.width im /\ 0 < Image.height im.


(** Frames have non-negative origins, as they sit at origins of free
    rectangles, and positive sizes. *)
Definition wellPlaced (f : Frame.t Z) : Prop :=
  0 <= Frame.x f /\ 0 <= Frame.y f /\ 0 < Frame.width f /\ 0 < Frame.height f.

Lemma placeAll_origin p images st st' :
  positive images -> 0 <= p -> Inv p st ->
  (forall f, f ∈ frames st -> wellPlaced f) ->
  placeAll p st images = Some st' ->
  forall f, f ∈ frames st' -> wellPlaced f.
Proof.
  revert st. induction images as [|item rest IH]; intros st Hpos Hp HI Hfr; simpl.
  - by intros [= <-].
  - destruct (placeItem p st item) as [st1|] eqn:H1; [|done].
    destruct (Hpos item) as [Hw Hh]; [apply elem_of_cons; by left|].
    apply IH; [intros im Him; apply Hpos, elem_of_cons; by right|done| |].
    + by eapply placeItem_Inv.
    + apply placeItem_Some in H1
        as (r & frame & Hr & Hx & Hy & _ & _ & Hfw & Hfh & _ & ->); try done.
      simpl. intros f [Hf| ->%list_elem_of_singleton]%elem_of_app.
      * by apply Hfr.
      * unfold wellPlaced. rewrite Hx, Hy.
        destruct (inv_free_pos _ _ HI r Hr). done.
Qed.

(** The names of the frames are the names of the images, in order. *)
Lemma placeAll_names p images st st' :
  placeAll p st images = Some st' ->
  map Frame.name (frames st')
  = map Frame.name (frames st) ++ map Image.name images.
Proof.
  revert st. induction images as [|item rest IH]; intros st; simpl.
  - intros [= <-]. by rewrite app_nil_r.
  - destruct (placeItem p st item) as [st1|] eqn:H1; [|done].
    intros Hrest. rewrite (IH _ Hrest).
    assert (map Frame.name (frames st1)
            = map Frame.name (frames st) ++ [Image.name item]) as ->.
    { unfold placeItem in H1. cbv zeta in H1.
      repeat match type of H1 with
             | (if ?c then _ else _) = _ => destruct c
             end; try done; injection H1 as <-; simpl;
        by rewrite map_app. }
    by rewrite <- app_assoc.
Qed.

(** The bounds loop returns an upper bound of its start value and of the
    padded right (bottom) edge of every frame. *)
Lemma fold_max_bound {A : Type} (g : A -> Z) (l : list A) (init : Z) :
  init <= fold_left (fun m a => Z.max m (g a)) l init
  /\ forall a, a ∈ l -> g a <= fold_left (fun m a => Z.max m (g a)) l init.
Proof.
  revert init. induction l as [|b l IH]; intros init; simpl.
  - split; [lia|]. intros a Ha. by apply elem_of_nil in Ha.
  - destruct (IH (Z.max init (g b))) as [H1 H2]. split; [lia|].
    intros a [->|Ha]%elem_of_cons; [lia|by apply H2].
Qed.

Lemma maxRectanglesPack_length images p maxWidth layout :
  maxRectanglesPack images p maxWidth = Some layout ->
  length (Layout.frames layout) = length images.
Proof.
  unfold maxRectanglesPack.
  destruct (placeAll p (initialState maxWidth) images) as [st|] eqn:Hall; [|done].
  intros [= <-]. simpl.
  apply placeAll_names in Hall. simpl in Hall.
  apply (f_equal length) in Hall. by rewrite !length_map in Hall.
Qed.

(** A returned layout contains its frames, padding included. *)
Lemma maxRectanglesPack_contained images p maxWidth layout :
  positive images -> 0 <= p ->
  maxRectanglesPack images p maxWidth = Some layout ->
  p <= Layout.width layout /\ p <= Layout.height layout
  /\ forall f, f ∈ Layout.frames layout ->
       wellPlaced f
       /\ Frame.x f + Frame.width f + p <= Layout.width layout
       /\ Frame.y f + Frame.height f + p <= Layout.height layout.
Proof.
  intros Hpos Hp. unfold maxRectanglesPack.
  destruct (placeAll p (initialState maxWidth) images) as [st|] eqn:Hall; [|done].
  intros [= <-]. simpl.
  destruct (fold_max_bound (fun f => Frame.x f + Frame.width f + p) (frames st) p)
    as [Hr0 Hr].
  destruct (fold_max_bound (fun f => Frame.y f + Frame.height f + p) (frames st) p)
    as [Hb0 Hb].
  split; [exact Hr0|]. split; [exact Hb0|].
  intros f Hf. split; [|split; [by apply Hr|by apply Hb]].
  eapply (placeAll_origin p images (initialState maxWidth) st); try done.
  - apply Inv_initial.
  - simpl. by intros g ?%elem_of_nil.
Qed.

End MaxRectsFacts.

(** ** Shelf packer: the shelf scan *)

Module ShelfFacts.
Import ShelfPacker.
Local Open Scope Q_scope.

(** Linear arithmetic over [Q] that also reads a division by two. *)
Ltac qlra :=
  unfold Qdiv in *; try change (/ 2) with (1 # 2) in *; lra.

Lemma Qltb_true a b : Qltb a b = true <-> a < b.
Proof.
  unfold Qltb. rewrite negb_true_iff.
  destruct (Qle_bool b a) eqn:H.
  - apply Qle_bool_iff in H. split; [done|]. intros ?. lra.
  - split; [|done]. intros _. apply Qnot_le_lt. intros Hle.
    apply Qle_bool_iff in Hle. congruence.
Qed.

Lemma Qltb_false a b : Qltb a b = false <-> b <= a.
Proof.
  unfold Qltb. rewrite negb_false_iff. apply Qle_bool_iff.
Qed.

Lemma Qle_bool_false a b : Qle_bool a b = false <-> b < a.
Proof.
  rewrite <- Qltb_true. unfold Qltb. by rewrite negb_true_iff.
Qed.

(** A candidate of the scan: the position of a shelf, the shelf and the
    orientation. *)
Definition Candidate : Type := nat * ShelfRec.t * bool.

Section Scan.
Variables (padding maxWidth width height : Q).

Definition placedWidth (rot : bool) : Q := if rot then height else width.
Definition placedHeight (rot : bool) : Q := if rot then width else height.

Definition eligible (c : Candidate) : Prop :=
  fitsShelf padding maxWidth c.1.2 (placedWidth c.2) (placedHeight c.2) = true.

(** The score of a candidate as a rational number. *)
Definition scoreOf (c : Candidate) : Q :=
  let shelf := c.1.2 in
  - (ShelfRec.height shelf - placedHeight c.2) * 2
  - (remainingWidth padding maxWidth shelf - placedWidth c.2) * (1 # 10)
  + (ShelfRec.currentX shelf * ShelfRec.height shelf)
    / (maxWidth * ShelfRec.height shelf) * 10
  + ShelfRec.y shelf * (5 # 100).

(** The quotient in the score of the shelf is a finite number. *)
Definition finiteScore (shelf : ShelfRec.t) : Prop :=
  ~ maxWidth * ShelfRec.height shelf == 0.

Lemma shelfScore_finite c :
  finiteScore c.1.2 ->
  shelfScore padding maxWidth c.1.2 (placedWidth c.2) (placedHeight c.2)
  = Finite (scoreOf c).
Proof.
  intros Hfin. unfold shelfScore, scoreOf, jsDiv. cbv zeta.
  destruct (Qeq_bool (maxWidth * ShelfRec.height c.1.2) 0) eqn:Hz.
  - apply Qeq_bool_iff in Hz. by destruct Hfin.
  - reflexivity.
Qed.

(** What holds of a chosen shelf in any case: it is one of the candidates
    tried, and it was eligible. *)
Definition chosenInv (cs : list Candidate) (b : Best) : Prop :=
  forall ks, bestShelf b = Some ks ->
    (ks, bestRotated b) ∈ cs /\ eligible (ks, bestRotated b).

Lemma tryOrientation_chosen cs b k shelf rot :
  chosenInv cs b ->
  chosenInv (cs ++ [(k, shelf, rot)])
    (tryOrientation padding maxWidth k shelf
       (placedWidth rot) (placedHeight rot) rot b).
Proof.
  intros Hb. unfold tryOrientation.
  destruct (fitsShelf padding maxWidth shelf (placedWidth rot) (placedHeight rot))
    eqn:Hfit.
  - destruct (improves _ _ b).
    + intros ks [= <-]. simpl. split; [|done].
      apply elem_of_app. right. by apply list_elem_of_singleton.
    + intros ks Hks. destruct (Hb ks Hks). split; [|done].
      apply elem_of_app. by left.
  - intros ks Hks. destruct (Hb ks Hks). split; [|done].
    apply elem_of_app. by left.
Qed.

(** The running best after the candidates [cs] have been tried, when their
    scores are finite. *)
Definition bestInv (cs : list Candidate) (b : Best) : Prop :=
  (bestShelf b = None /\ bestScore b = NegInfinity
   /\ forall c, c ∈ cs -> ~ eligible c)
  \/ (exists c, c ∈ cs /\ eligible c
        /\ bestShelf b = Some c.1 /\ bestRotated b = c.2
        /\ bestScore b = Finite (scoreOf c)
        /\ forall c', c' ∈ cs -> eligible c' -> scoreOf c' <= scoreOf c).

Lemma tryOrientation_inv cs b k shelf rot :
  finiteScore shelf ->
  bestInv cs b ->
  bestInv (cs ++ [(k, shelf, rot)])
    (tryOrientation padding maxWidth k shelf
       (placedWidth rot) (placedHeight rot) rot b).
Proof.
  intros Hfin Hb. unfold tryOrientation.
  pose proof (shelfScore_finite (k, shelf, rot) Hfin) as Hfinite.
  cbn [fst snd] in Hfinite. rewrite Hfinite.
  destruct (fitsShelf padding maxWidth shelf (placedWidth rot) (placedHeight rot))
    eqn:Hfit.
  - destruct Hb as [(Hn & Hs & Hnone)|(c & Hc & Hec & Hbs & Hbr & Hsc & Hmax)].
    + unfold improves. rewrite Hs. simpl. right. exists (k, shelf, rot).
      split; [set_solver|]. split; [done|]. simpl. repeat split; try done.
      intros c' [Hc'| ->%list_elem_of_singleton]%elem_of_app He.
      * exfalso. by eapply Hnone.
      * lra.
    + destruct (improves _ _ b) eqn:Himp.
      * right. exists (k, shelf, rot).
        split; [set_solver|]. split; [done|]. simpl. repeat split; try done.
        intros c' [Hc'| ->%list_elem_of_singleton]%elem_of_app He; [|lra].
        specialize (Hmax c' Hc' He).
        unfold improves in Himp. rewrite Hsc in Himp. simpl in Himp.
        apply orb_true_iff in Himp as [Hlt|Heq].
        -- apply Qltb_true in Hlt. lra.
        -- apply andb_true_iff in Heq as [Heq _].
           apply Qeq_bool_iff in Heq. lra.
      * right. exists c. split; [set_solver|]. repeat split; try done.
        intros c' [Hc'| ->%list_elem_of_singleton]%elem_of_app He;
          [by apply Hmax|].
        unfold improves in Himp. rewrite Hsc in Himp. simpl in Himp.
        apply orb_false_iff in Himp as [Hlt _].
        apply Qltb_false in Hlt. lra.
  - destruct Hb as [(Hn & Hs & Hnone)|(c & Hc & Hec & Hbs & Hbr & Hsc & Hmax)].
    + left. repeat split; try done.
      intros c' [Hc'| ->%list_elem_of_singleton]%elem_of_app He.
      * by eapply Hnone.
      * unfold eligible in He. simpl in He. congruence.
    + right. exists c. split; [set_solver|]. repeat split; try done.
      intros c' [Hc'| ->%list_elem_of_singleton]%elem_of_app He;
        [by apply Hmax|].
      unfold eligible in He. simpl in He. congruence.
Qed.

(** The candidates of the shelves [shelves], which sit at the positions
    [k, k + 1, ...]: both orientations of every shelf. *)
Fixpoint candidatesFrom (k : nat) (shelves : list ShelfRec.t)
    : list Candidate :=
  match shelves with
  | [] => []
  | shelf :: rest =>
      (k, shelf, false) :: (k, shelf, true) :: candidatesFrom (S k) rest
  end.

Lemma scanShelves_chosen shelves : forall k cs b,
  chosenInv cs b ->
  chosenInv (cs ++ candidatesFrom k shelves)
            (scanShelves padding maxWidth width height k shelves b).
Proof.
  induction shelves as [|shelf rest IH]; intros k cs b Hb; simpl.
  - by rewrite app_nil_r.
  - replace (cs ++ (k, shelf, false) :: (k, shelf, true) :: candidatesFrom (S k) rest)
      with (((cs ++ [(k, shelf, false)]) ++ [(k, shelf, true)])
            ++ candidatesFrom (S k) rest)
      by (by rewrite <- !app_assoc).
    apply IH. unfold tryShelf.
    apply (tryOrientation_chosen _ _ k shelf true).
    apply (tryOrientation_chosen _ _ k shelf false). done.
Qed.

Lemma scanShelves_inv shelves : forall k cs b,
  (forall s, s ∈ shelves -> finiteScore s) ->
  bestInv cs b ->
  bestInv (cs ++ candidatesFrom k shelves)
          (scanShelves padding maxWidth width height k shelves b).
Proof.
  induction shelves as [|shelf rest IH]; intros k cs b Hfin Hb; simpl.
  - by rewrite app_nil_r.
  - replace (cs ++ (k, shelf, false) :: (k, shelf, true) :: candidatesFrom (S k) rest)
      with (((cs ++ [(k, shelf, false)]) ++ [(k, shelf, true)])
            ++ candidatesFrom (S k) rest)
      by (by rewrite <- !app_assoc).
    assert (Hs : finiteScore shelf) by (apply Hfin, elem_of_cons; by left).
    apply IH; [intros s ?; apply Hfin, elem_of_cons; by right|].
    unfold tryShelf.
    apply (tryOrientation_inv _ _ k shelf true Hs).
    apply (tryOrientation_inv _ _ k shelf false Hs). done.
Qed.

Lemma elem_of_candidatesFrom k shelves c :
  c ∈ candidatesFrom k shelves <->
  exists i, c.1.1 = (k + i)%nat /\ shelves !! i = Some c.1.2.
Proof.
  revert k. induction shelves as [|shelf rest IH]; intros k; simpl.
  - split; [by intros ?%elem_of_nil|by intros (i & _ & ?)].
  - rewrite !elem_of_cons, IH. destruct c as [[j s] rot]. simpl. split.
    + intros [[= -> -> ->]|[[= -> -> ->]|(i & -> & Hi)]].
      * exists 0%nat. split; [lia|done].
      * exists 0%nat. split; [lia|done].
      * exists (S i). split; [lia|done].
    + intros ([|i] & -> & Hi); simpl in Hi.
      * injection Hi as ->. replace (k + 0)%nat with k by lia.
        destruct rot; [right; left|left]; done.
      * right. right. exists i. split; [lia|done].
Qed.

(** The scan of all shelves, started as the packer starts it. *)
Lemma scanShelves_best shelves :
  (forall s, s ∈ shelves -> finiteScore s) ->
  bestInv (candidatesFrom 0 shelves)
          (scanShelves padding maxWidth width height 0 shelves initBest).
Proof.
  intros Hfin.
  apply (scanShelves_inv shelves 0%nat [] initBest Hfin).
  left. repeat split; try done. by intros c ?%elem_of_nil.
Qed.

End Scan.

(** *** The height of a new shelf *)

Lemma filter_none {A : Type} (f : A -> bool) (l : list A) :
  (forall a, a ∈ l -> f a = false) -> List.filter f l = [].
Proof.
  induction l as [|a l IH]; intros H; simpl; [done|].
  rewrite (H a) by (apply elem_of_cons; by left).
  apply IH. intros b Hb. apply H, elem_of_cons. by right.
Qed.

Lemma elem_of_List_filter {A : Type} (f : A -> bool) (l : list A) (a : A) :
  a ∈ List.filter f l -> a ∈ l /\ f a = true.
Proof.
  rewrite !list_elem_of_In. apply filter_In.
Qed.

(** With a single queued image no candidate beats a running best of at
    least [100 - placeHeight / 2]. *)
Lemma heightStep_keep item placeHeight cands acc best :
  (forall c, c ∈ cands -> placeHeight <= c.1) ->
  100 - placeHeight * (1 # 2) <= best ->
  fold_left (heightStep [item]) cands (acc, Some best) = (acc, Some best).
Proof.
  induction cands as [|c cands IH]; intros Hge Hbest; simpl; [done|].
  assert (Hc : placeHeight <= c.1) by (apply Hge, elem_of_cons; by left).
  assert (Hkeep : heightStep [item] (acc, Some best) c = (acc, Some best)).
  { unfold heightStep. simpl.
    destruct (Qle_bool (inject_Z (Image.height item)) c.1); simpl;
      match goal with
      | |- (if Qltb ?a ?b then _ else _) = _ =>
          assert (Hf : Qltb a b = false)
            by (apply Qltb_false;
                try change (inject_Z (Z.of_nat 1)) with 1;
                try change (inject_Z (Z.of_nat 0)) with 0; lra);
          by rewrite Hf
      end. }
  rewrite Hkeep. apply IH; [|done].
  intros c' Hc'. apply Hge, elem_of_cons. by right.
Qed.

(** The only image in the queue is the current one, and it is not taller
    than the place height: the shelf gets the place height, a number. *)
Lemma optimalHeight_single item placeHeight :
  inject_Z (Image.height item) <= placeHeight ->
  optimalHeight placeHeight [item] = (placeHeight, false).
Proof.
  intros Hh. unfold optimalHeight, viableHeights.
  set (pred := fun c : Q * bool =>
                 Qle_bool placeHeight c.1 && Qle_bool c.1 (placeHeight * 2)).
  set (others := [mostCommonHeight (map Image.height [item]) placeHeight;
                  (inject_Z (medianHeight (map Image.height [item])), false);
                  (inject_Z (maxHeight (map Image.height [item])), false)]).
  change ((fold_left (heightStep [item])
             (List.filter pred ((placeHeight, false) :: others))
             ((placeHeight, false), None)).1 = (placeHeight, false)).
  assert (Hothers : forall c, c ∈ List.filter pred others ->
                              placeHeight <= c.1 /\ c.1 <= placeHeight * 2).
  { intros c [_ Hc]%elem_of_List_filter. unfold pred in Hc.
    apply andb_true_iff in Hc as [H1 H2].
    split; by apply Qle_bool_iff. }
  clearbody others. simpl List.filter.
  destruct (pred (placeHeight, false)) eqn:Hfirst.
  - simpl fold_left. unfold heightStep at 2. simpl.
    apply Qle_bool_iff in Hh. rewrite Hh. simpl.
    change (inject_Z (Z.of_nat 1)) with 1.
    rewrite (heightStep_keep item placeHeight); [done| |lra].
    intros c Hc. by apply Hothers.
  - rewrite filter_none; [done|].
    intros c Hc. destruct (pred c) eqn:Hp; [|done]. exfalso.
    unfold pred in Hfirst, Hp. simpl in Hfirst.
    apply andb_true_iff in Hp as [H1%Qle_bool_iff H2%Qle_bool_iff].
    apply andb_false_iff in Hfirst as [H|H]; apply Qle_bool_false in H; lra.
Qed.

(** An item that opens a shelf rotated is wider than high. *)
Lemma newShelfRotated_true padding maxWidth width height :
  newShelfRotated padding maxWidth width height = true -> height < width.
Proof.
  unfold newShelfRotated. cbv zeta.
  destruct (Qltb maxWidth (width + padding)) eqn:Hw,
           (Qltb maxWidth (height + padding)) eqn:Hh; simpl; try done.
  - intros _. apply Qltb_true in Hw. apply Qltb_false in Hh. lra.
  - intros H%Qltb_true. lra.
Qed.

(** *** Every item is placed, or the attempt is given up *)

(** No shelf height is an [Object] key, and no item has been put aside. *)
Definition plain (st : State) : Prop :=
  forall s, s ∈ shelves st -> ShelfRec.heightIsKey s = false.

Definition namesOf (st : State) : list string := map Frame.name (frames st).

Lemma last_elem_of {A : Type} (l : list A) (a : A) : last l = Some a -> a ∈ l.
Proof. rewrite last_lookup. apply list_elem_of_lookup_2. Qed.

Lemma elem_of_insert_inv {A : Type} (l : list A) (k : nat) (a b : A) :
  b ∈ <[k := a]> l -> b = a \/ b ∈ l.
Proof.
  intros [i Hi]%list_elem_of_lookup.
  apply list_lookup_insert_Some in Hi as [(-> & -> & _)|[_ Hi]].
  - by left.
  - right. by eapply list_elem_of_lookup_2.
Qed.

Lemma map_name_shift y off fs :
  map Frame.name (map (shiftFrame y off) fs) = map Frame.name fs.
Proof.
  rewrite map_map. apply map_ext. intros f. unfold shiftFrame.
  by destruct (Qeq_bool (Frame.y f) y).
Qed.

Lemma openShelf_plain padding maxWidth p item :
  plain (state p) -> newImages p = [] ->
  openShelf padding maxWidth p item = ReturnNull
  \/ exists st', openShelf padding maxWidth p item = Done (st', true)
                 /\ plain st'
                 /\ namesOf st' = namesOf (state p) ++ [Image.name item].
Proof.
  intros Hplain Hnew. unfold openShelf, newShelfY. cbv zeta.
  destruct (last (shelves (state p))) as [lastShelf|] eqn:Hlast.
  - rewrite (Hplain lastShelf) by (by apply last_elem_of).
    destruct (Qltb 4096 _); [by left|].
    destruct (Qltb maxWidth _); [by left|].
    rewrite Hnew. simpl app.
    rewrite optimalHeight_single.
    2:{ destruct (newShelfRotated _ _ _ _) eqn:Hrot; [|lra].
        apply newShelfRotated_true in Hrot. lra. }
    right. unfold mergeIntoLast. rewrite Hlast. cbv zeta.
    destruct (_ && _).
    + eexists. split; [done|]. split.
      * intros s [->|Hs]%elem_of_insert_inv; [done|by apply Hplain].
      * unfold namesOf. simpl. by rewrite map_app, map_name_shift.
    + eexists. split; [done|]. split.
      * intros s [Hs| ->%list_elem_of_singleton]%elem_of_app;
          [by apply Hplain|done].
      * unfold namesOf. simpl. by rewrite map_app.
  - destruct (Qltb 4096 _); [by left|].
    destruct (Qltb maxWidth _); [by left|].
    rewrite Hnew. simpl app.
    rewrite optimalHeight_single.
    2:{ destruct (newShelfRotated _ _ _ _) eqn:Hrot; [|lra].
        apply newShelfRotated_true in Hrot. lra. }
    right. unfold mergeIntoLast. rewrite Hlast.
    eexists. split; [done|]. split.
    + intros s [Hs| ->%list_elem_of_singleton]%elem_of_app;
        [by apply Hplain|done].
    + unfold namesOf. simpl. by rewrite map_app.
Qed.

Lemma bestShelf_lookup padding maxWidth width height shelves k shelf :
  bestShelf (scanShelves padding maxWidth width height 0 shelves initBest)
  = Some (k, shelf) ->
  shelves !! k = Some shelf
  /\ fitsShelf padding maxWidth shelf
       (placedWidth width height
          (bestRotated (scanShelves padding maxWidth width height 0 shelves initBest)))
       (placedHeight width height
          (bestRotated (scanShelves padding maxWidth width height 0 shelves initBest)))
     = true.
Proof.
  intros Hbest.
  destruct (scanShelves_chosen padding maxWidth width height shelves 0%nat []
              initBest) with (ks := (k, shelf)) as [Hc He]; [done|done|].
  simpl in Hc. apply elem_of_candidatesFrom in Hc as (i & Hi & Hlook).
  simpl in *. subst. split; done.
Qed.

Lemma finiteScore_pos maxWidth shelf :
  0 < maxWidth -> 0 < ShelfRec.height shelf -> finiteScore maxWidth shelf.
Proof.
  intros Hm Hh Hz. unfold finiteScore in *.
  pose proof (Qmult_lt_0_compat _ _ Hm Hh). lra.
Qed.

Lemma bestShelf_none padding maxWidth width height shelves k shelf rot :
  (forall s, s ∈ shelves -> finiteScore maxWidth s) ->
  bestShelf (scanShelves padding maxWidth width height 0 shelves initBest) = None ->
  shelves !! k = Some shelf ->
  fitsShelf padding maxWidth shelf (placedWidth width height rot)
            (placedHeight width height rot) = false.
Proof.
  intros Hfin Hbest Hk.
  destruct (scanShelves_best padding maxWidth width height shelves Hfin)
    as [(_ & _ & Hnone)|(c & _ & _ & Hbs & _)]; [|congruence].
  specialize (Hnone (k, shelf, rot)).
  destruct (fitsShelf _ _ _ _ _) eqn:Hfit; [|done].
  exfalso. apply Hnone; [|done].
  apply elem_of_candidatesFrom. exists k. done.
Qed.

Lemma placeItem_plain padding maxWidth p item :
  plain (state p) -> newImages p = [] ->
  placeItem padding maxWidth p item = ReturnNull
  \/ exists p', placeItem padding maxWidth p item = Done p'
                /\ plain (state p') /\ newImages p' = []
                /\ placedThisRound p' = true
                /\ namesOf (state p') = namesOf (state p) ++ [Image.name item].
Proof.
  intros Hplain Hnew. unfold placeItem. cbv zeta.
  destruct (_ && _); [by left|].
  destruct (bestShelf _) as [[k shelf]|] eqn:Hbest.
  - right. eexists. split; [done|]. simpl.
    apply bestShelf_lookup in Hbest as [Hk _].
    repeat split; try done.
    + intros s [->|Hs]%elem_of_insert_inv; [|by apply Hplain].
      simpl. apply Hplain. by eapply list_elem_of_lookup_2.
    + unfold namesOf. simpl. by rewrite map_app.
  - destruct (openShelf_plain padding maxWidth p item Hplain Hnew)
      as [->|(st' & -> & Hp' & Hnames)]; [by left|].
    right. eexists. split; [done|]. by simpl.
Qed.

Lemma sweepFrom_plain padding maxWidth images : forall p,
  plain (state p) -> newImages p = [] ->
  sweepFrom padding maxWidth p images = ReturnNull
  \/ exists p', sweepFrom padding maxWidth p images = Done p'
                /\ plain (state p') /\ newImages p' = []
                /\ (images <> [] -> placedThisRound p' = true)
                /\ namesOf (state p')
                   = namesOf (state p) ++ map Image.name images.
Proof.
  induction images as [|item rest IH]; intros p Hplain Hnew; simpl.
  - right. exists p. repeat split; try done. by rewrite app_nil_r.
  - destruct (placeItem_plain padding maxWidth p item Hplain Hnew)
      as [->|(p1 & -> & Hp1 & Hn1 & Hplaced & Hnames)]; [by left|].
    destruct (IH p1 Hp1 Hn1) as [->|(p2 & Heq2 & Hp2 & Hn2 & Hpl2 & Hnames2)];
      [by left|].
    right. exists p2. repeat split; try done.
    + intros _. destruct rest as [|item2 rest]; [|by apply Hpl2].
      simpl in Heq2. by injection Heq2 as <-.
    + rewrite Hnames2, Hnames. by rewrite <- app_assoc.
Qed.

(** A sweep over a non-empty list fails, or places every image: it leaves
    nothing for a retry pass. *)
Lemma sweep_total padding maxWidth st images :
  plain st ->
  sweep padding maxWidth st images = ReturnNull
  \/ exists st', sweep padding maxWidth st images
                 = Done (mkPass st' [] (bool_decide (images <> [])))
                 /\ plain st'
                 /\ namesOf st' = namesOf st ++ map Image.name images.
Proof.
  intros Hplain. unfold sweep.
  destruct (sweepFrom_plain padding maxWidth images (mkPass st [] false)
              Hplain eq_refl)
    as [->|(p' & Heq & Hp' & Hn' & Hpl & Hnames)]; [by left|].
  right. exists (state p'). split; [|done].
  rewrite Heq. f_equal. destruct p' as [st' new placed]. simpl in *.
  subst new. f_equal. destruct images as [|item rest].
  - simpl in Heq. by injection Heq as <-.
  - rewrite Hpl by done. symmetry. by apply bool_decide_eq_true.
Qed.

(** *** The geometry of shelves and frames *)

Section Geometry.
Variables (padding maxWidth : Q).
Hypothesis padding_nonneg : 0 <= padding.

(** The frame lies in the horizontal band of the shelf. *)
Definition inBand (f : Frame.t Q) (s : ShelfRec.t) : Prop :=
  ShelfRec.y s <= Frame.y f
  /\ Frame.y f + Frame.height f <= ShelfRec.y s + ShelfRec.height s.

(** The frame sits on the shelf, left of its cursor. *)
Definition onShelf (f : Frame.t Q) (s : ShelfRec.t) : Prop :=
  inBand f s /\ 0 <= Frame.x f
  /\ Frame.x f + Frame.width f + padding <= ShelfRec.currentX s.

Definition xSeparated (f g : Frame.t Q) : Prop :=
  Frame.x f + Frame.width f + padding <= Frame.x g
  \/ Frame.x g + Frame.width g + padding <= Frame.x f.


(** Shelves are stacked downwards, [padding] apart. *)
Definition ordered (shelves : list ShelfRec.t) : Prop :=
  forall k l s s', (k < l)%nat ->
    shelves !! k = Some s -> shelves !! l = Some s' ->
    ShelfRec.y s + ShelfRec.height s + padding <= ShelfRec.y s'.

Record Geo (st : State) : Prop := mkGeo {
  geo_order : ordered (shelves st);
  geo_shelf : forall s, s ∈ shelves st ->
    0 <= ShelfRec.y s /\ 0 < ShelfRec.height s /\ 0 <= ShelfRec.currentX s;
  geo_pos : forall f, f ∈ frames st ->
    0 < Frame.width f /\ 0 < Frame.height f;
  geo_owner : forall f, f ∈ frames st ->
    exists k s, shelves st !! k = Some s /\ onShelf f s;
  geo_xsep : forall i j f g k s, i <> j ->
    frames st !! i = Some f -> frames st !! j = Some g ->
    shelves st !! k = Some s -> inBand f s -> inBand g s ->
    xSeparated f g
}.

Lemma band_unique shelves f k l s s' :
  ordered shelves -> 0 < Frame.height f ->
  shelves !! k = Some s -> shelves !! l = Some s' ->
  inBand f s -> inBand f s' -> k = l.
Proof.
  intros Hord Hf Hk Hl [H1 H2] [H3 H4].
  destruct (lt_eq_lt_dec k l) as [[Hlt|Heq]|Hgt]; [|done|].
  - specialize (Hord k l s s' Hlt Hk Hl). lra.
  - specialize (Hord l k s' s Hgt Hl Hk). lra.
Qed.

Lemma xSeparated_sym f g : xSeparated f g -> xSeparated g f.
Proof. unfold xSeparated. tauto. Qed.


(** Step one: a frame at the cursor of a shelf that can take it. *)
Lemma Geo_placeOnShelf st k shelf g :
  Geo st -> shelves st !! k = Some shelf ->
  fitsShelf padding maxWidth shelf (Frame.width g) (Frame.height g) = true ->
  0 < Frame.width g -> 0 < Frame.height g ->
  Frame.x g = ShelfRec.currentX shelf -> Frame.y g = ShelfRec.y shelf ->
  Geo (mkState (frames st ++ [g])
         (<[k := setCurrentX shelf
                   (ShelfRec.currentX shelf + (Frame.width g + padding))]>
            (shelves st))).
Proof.
  intros [Hord Hsh Hpos Hown Hx] Hk Hfit Hw Hh Hgx Hgy.
  unfold fitsShelf, remainingWidth in Hfit.
  apply andb_true_iff in Hfit as [Hfw%Qle_bool_iff Hfh%Qle_bool_iff].
  assert (Hklt : (k < length (shelves st))%nat) by (by eapply lookup_lt_Some).
  destruct (Hsh shelf) as (Hsy & Hsh0 & Hscx);
    [by eapply list_elem_of_lookup_2|].
  set (shelf' := setCurrentX shelf _).
  (* every shelf keeps its band, and its cursor does not move left *)
  assert (Hold : forall i t', <[k := shelf']> (shelves st) !! i = Some t' ->
            exists t, shelves st !! i = Some t
                      /\ ShelfRec.y t' = ShelfRec.y t
                      /\ ShelfRec.height t' = ShelfRec.height t
                      /\ ShelfRec.currentX t <= ShelfRec.currentX t').
  { intros i t' [(-> & <- & _)|[_ Hi]]%list_lookup_insert_Some.
    - exists shelf. repeat split; try done. simpl. lra.
    - exists t'. repeat split; try done. lra. }
  assert (Hnew : forall i t, shelves st !! i = Some t ->
            exists t', <[k := shelf']> (shelves st) !! i = Some t'
                       /\ ShelfRec.y t' = ShelfRec.y t
                       /\ ShelfRec.height t' = ShelfRec.height t
                       /\ ShelfRec.currentX t <= ShelfRec.currentX t').
  { intros i t Hi. destruct (decide (i = k)) as [->|Hne].
    - exists shelf'. rewrite list_lookup_insert_eq by done.
      assert (t = shelf) as -> by congruence.
      repeat split; try done. simpl. lra.
    - exists t. rewrite list_lookup_insert_ne by done.
      repeat split; try done. lra. }
  assert (Hgband : inBand g shelf) by (unfold inBand; rewrite Hgy; lra).
  split; simpl.
  - intros i l s1' s2' Hil H1 H2.
    apply Hold in H1 as (s1 & H1 & Hy1 & Hh1 & _).
    apply Hold in H2 as (s2 & H2 & Hy2 & Hh2 & _).
    rewrite Hy1, Hh1, Hy2. by eapply Hord.
  - intros s [i Hi]%list_elem_of_lookup.
    apply Hold in Hi as (t & Hi & Hy & Hht & Hcx).
    destruct (Hsh t) as (? & ? & ?); [by eapply list_elem_of_lookup_2|].
    rewrite Hy, Hht. repeat split; try done. lra.
  - intros f [Hf| ->%list_elem_of_singleton]%elem_of_app; [by apply Hpos|done].
  - intros f [Hf| ->%list_elem_of_singleton]%elem_of_app.
    + destruct (Hown f Hf) as (i & t & Hi & [Hb1 Hb2] & Hfx & Hfcx).
      destruct (Hnew i t Hi) as (t' & Hi' & Hy & Hht & Hcx).
      exists i, t'. split; [done|]. unfold onShelf, inBand.
      rewrite Hy, Hht. repeat split; try done. lra.
    + exists k, shelf'. split; [by apply list_lookup_insert_eq|].
      unfold onShelf, inBand. simpl. rewrite Hgx, Hgy.
      repeat split; lra.
  - intros i j f1 f2 l s' Hij H1 H2 Hl Hb1 Hb2.
    apply Hold in Hl as (t & Hl & Hy & Hht & _).
    assert (Hb1' : inBand f1 t)
      by (unfold inBand in *; rewrite <- Hy, <- Hht; done).
    assert (Hb2' : inBand f2 t)
      by (unfold inBand in *; rewrite <- Hy, <- Hht; done).
    (* an old frame in the band of the new one sits left of the cursor *)
    assert (Hleft : forall f, f ∈ frames st -> inBand f t -> inBand g t ->
              Frame.x f + Frame.width f + padding <= Frame.x g).
    { intros f Hf Hbf Hbg.
      assert (l = k) as -> by (by eapply (band_unique _ g)).
      assert (t = shelf) as -> by congruence.
      destruct (Hown f Hf) as (i' & t' & Hi' & Hbt' & _ & Hcx').
      assert (i' = k) as ->
        by (eapply (band_unique _ f); eauto; by apply Hpos).
      assert (t' = shelf) as -> by congruence.
      rewrite Hgx. done. }
    apply lookup_app_Some in H1 as [H1|[Hge1 H1]];
      apply lookup_app_Some in H2 as [H2|[Hge2 H2]].
    + by eapply (Hx i j f1 f2 l t).
    + apply list_lookup_singleton_Some in H2 as [_ <-].
      left. apply Hleft; [by eapply list_elem_of_lookup_2|done..].
    + apply list_lookup_singleton_Some in H1 as [_ <-].
      right. apply Hleft; [by eapply list_elem_of_lookup_2|done..].
    + apply list_lookup_singleton_Some in H1 as [H1 _].
      apply list_lookup_singleton_Some in H2 as [H2 _]. lia.
Qed.

(** Every shelf ends above the place of a new shelf. *)
Lemma newShelfY_below st newY i t :
  Geo st ->
  match last (shelves st) with
  | None => newY == padding
  | Some ls => newY == ShelfRec.y ls + ShelfRec.height ls + padding
  end ->
  shelves st !! i = Some t ->
  ShelfRec.y t + ShelfRec.height t + padding <= newY.
Proof.
  intros [Hord Hsh _ _ _] HnewY Hi.
  destruct (last (shelves st)) as [ls|] eqn:Hlast.
  - rewrite last_lookup in Hlast.
    destruct (decide (i = pred (length (shelves st)))) as [->|Hne].
    + assert (t = ls) as -> by congruence. lra.
    + assert (Hlt : (i < pred (length (shelves st)))%nat)
        by (apply lookup_lt_Some in Hi; lia).
      specialize (Hord _ _ _ _ Hlt Hi Hlast).
      destruct (Hsh ls) as (_ & ? & _); [by eapply list_elem_of_lookup_2|].
      lra.
  - apply last_None in Hlast. rewrite Hlast in Hi. by rewrite lookup_nil in Hi.
Qed.

(** Step two, no merge: the frame opens a shelf below the others. *)
Lemma Geo_newShelf st newY g :
  Geo st ->
  match last (shelves st) with
  | None => newY == padding
  | Some ls => newY == ShelfRec.y ls + ShelfRec.height ls + padding
  end ->
  0 < Frame.width g -> 0 < Frame.height g ->
  Frame.x g = padding -> Frame.y g == newY ->
  Geo (mkState (frames st ++ [g])
         (shelves st
          ++ [ShelfRec.mk newY (Frame.height g) false
                (padding + Frame.width g + padding) maxWidth])).
Proof.
  intros HG HnewY Hw Hh Hgx Hgy.
  pose proof (fun i t => newShelfY_below st newY i t HG HnewY) as Htop.
  destruct HG as [Hord Hsh Hpos Hown Hx].
  set (ns := ShelfRec.mk newY _ _ _ _).
  assert (HnewY0 : 0 <= newY).
  { destruct (last (shelves st)) as [ls|] eqn:Hlast; [|lra].
    destruct (Hsh ls) as (? & ? & _); [by apply last_elem_of|]. lra. }
  (* no old frame lies in the band of the new shelf *)
  assert (Hout : forall f, f ∈ frames st -> ~ inBand f ns).
  { intros f Hf [Hb1 Hb2]. simpl in Hb1.
    destruct (Hown f Hf) as (i & t & Hi & [Ht1 Ht2] & _).
    specialize (Htop i t Hi). destruct (Hpos f Hf). lra. }
  (* the new frame lies in no old band *)
  assert (Hgout : forall i t, shelves st !! i = Some t -> ~ inBand g t).
  { intros i t Hi [Hb1 Hb2]. specialize (Htop i t Hi). lra. }
  split; simpl.
  - intros i l s1 s2 Hil H1 H2.
    apply lookup_app_Some in H1 as [H1|[Hge1 H1]];
      apply lookup_app_Some in H2 as [H2|[Hge2 H2]].
    + by eapply Hord.
    + apply list_lookup_singleton_Some in H2 as [_ <-]. simpl.
      by eapply Htop.
    + apply lookup_lt_Some in H2. lia.
    + apply list_lookup_singleton_Some in H1 as [H1 _].
      apply list_lookup_singleton_Some in H2 as [H2 _]. lia.
  - intros s [Hs| ->%list_elem_of_singleton]%elem_of_app; [by apply Hsh|].
    simpl. repeat split; lra.
  - intros f [Hf| ->%list_elem_of_singleton]%elem_of_app; [by apply Hpos|done].
  - intros f [Hf| ->%list_elem_of_singleton]%elem_of_app.
    + destruct (Hown f Hf) as (i & t & Hi & Hon).
      exists i, t. split; [|done]. by apply lookup_app_l_Some.
    + exists (length (shelves st)), ns. split.
      * rewrite lookup_app_r by done. by rewrite Nat.sub_diag.
      * unfold onShelf, inBand. simpl. rewrite Hgx. repeat split; lra.
  - intros i j f1 f2 l s' Hij H1 H2 Hl Hb1 Hb2.
    apply lookup_app_Some in Hl as [Hl|[_ Hl]].
    + apply lookup_app_Some in H1 as [H1|[_ H1]];
        apply lookup_app_Some in H2 as [H2|[_ H2]].
      * by eapply (Hx i j f1 f2 l s').
      * apply list_lookup_singleton_Some in H2 as [_ <-].
        exfalso. by eapply Hgout.
      * apply list_lookup_singleton_Some in H1 as [_ <-].
        exfalso. by eapply Hgout.
      * apply list_lookup_singleton_Some in H1 as [_ <-].
        exfalso. by eapply Hgout.
    + apply list_lookup_singleton_Some in Hl as [_ <-].
      apply lookup_app_Some in H1 as [H1|[Hge1 H1]];
        apply lookup_app_Some in H2 as [H2|[Hge2 H2]].
      * exfalso. eapply Hout; [|done]. by eapply list_elem_of_lookup_2.
      * exfalso. eapply Hout; [|exact Hb1]. by eapply list_elem_of_lookup_2.
      * exfalso. eapply Hout; [|exact Hb2]. by eapply list_elem_of_lookup_2.
      * apply list_lookup_singleton_Some in H1 as [H1 _].
        apply list_lookup_singleton_Some in H2 as [H2 _]. lia.
Qed.

Lemma shiftFrame_dims y off f :
  Frame.x (shiftFrame y off f) = Frame.x f
  /\ Frame.width (shiftFrame y off f) = Frame.width f
  /\ Frame.height (shiftFrame y off f) = Frame.height f.
Proof. unfold shiftFrame. by destruct (Qeq_bool _ _). Qed.

(** Step two, merge: the last shelf grows to the height of the frame,
    the frames at its top edge move down by half the growth, and the
    frame goes to its cursor. *)
Lemma Geo_merge st ls g merged off :
  Geo st -> last (shelves st) = Some ls ->
  ShelfRec.height ls < Frame.height g ->
  merged == Frame.height g ->
  off == (Frame.height g - ShelfRec.height ls) / 2 ->
  0 < Frame.width g ->
  Frame.x g = ShelfRec.currentX ls -> Frame.y g == ShelfRec.y ls ->
  Geo (mkState
         (map (shiftFrame (ShelfRec.y ls) off) (frames st) ++ [g])
         (<[pred (length (shelves st)) :=
              ShelfRec.mk (ShelfRec.y ls) merged false
                (ShelfRec.currentX ls + (Frame.width g + padding))
                (ShelfRec.maxWidth ls)]> (shelves st))).
Proof.
  intros [Hord Hsh Hpos Hown Hx] Hlast Hgrow Hmerged Hoff Hw Hgx Hgy.
  rewrite last_lookup in Hlast.
  set (n := pred (length (shelves st))) in *.
  set (ls' := ShelfRec.mk _ _ _ _ _).
  set (shift := shiftFrame (ShelfRec.y ls) off).
  assert (Hdims : forall f, Frame.x (shift f) = Frame.x f
                            /\ Frame.width (shift f) = Frame.width f
                            /\ Frame.height (shift f) = Frame.height f)
    by (intros f; apply shiftFrame_dims).
  assert (Hn : (n < length (shelves st))%nat) by (by eapply lookup_lt_Some).
  destruct (Hsh ls) as (Hly & Hlh & Hlcx); [by eapply list_elem_of_lookup_2|].
  assert (Hlook : forall i t', <[n := ls']> (shelves st) !! i = Some t' ->
            (i = n /\ t' = ls') \/ (i <> n /\ shelves st !! i = Some t')).
  { intros i t' [(<- & <- & _)|[? Hi]]%list_lookup_insert_Some; [by left|right; by split]. }
  (* the new shelves are ordered *)
  assert (Hord' : ordered (<[n := ls']> (shelves st))).
  { intros i l s1 s2 Hil H1 H2.
    apply Hlook in H1 as [[-> ->]|[Hne1 H1]].
    - apply Hlook in H2 as [[-> ->]|[Hne2 H2]]; [lia|].
      apply lookup_lt_Some in H2. lia.
    - apply Hlook in H2 as [[-> ->]|[Hne2 H2]].
      + simpl. by eapply Hord.
      + by eapply Hord. }
  (* a frame keeps its shelf *)
  assert (Hkeep : forall f i t, f ∈ frames st ->
            shelves st !! i = Some t -> onShelf f t ->
            exists t', <[n := ls']> (shelves st) !! i = Some t'
                       /\ onShelf (shift f) t').
  { intros f i t Hf Hi ([Hb1 Hb2] & Hfx & Hfcx).
    destruct (Hpos f Hf) as [Hfw Hfh].
    destruct (Hdims f) as (Hsx & Hsw & Hsh').
    destruct (decide (i = n)) as [->|Hne].
    - assert (t = ls) as -> by congruence.
      exists ls'. split; [by apply list_lookup_insert_eq|].
      unfold onShelf, inBand. rewrite Hsx, Hsw, Hsh'. simpl.
      unfold shift, shiftFrame.
      destruct (Qeq_bool _ _); simpl; repeat split; qlra.
    - exists t. split; [by rewrite list_lookup_insert_ne|].
      unfold onShelf, inBand. rewrite Hsx, Hsw, Hsh'.
      unfold shift, shiftFrame.
      destruct (Qeq_bool (Frame.y f) (ShelfRec.y ls)) eqn:Heq; simpl;
        [|repeat split; qlra].
      exfalso. apply Qeq_bool_iff in Heq.
      assert (Hlt : (i < n)%nat) by (apply lookup_lt_Some in Hi; lia).
      specialize (Hord _ _ _ _ Hlt Hi Hlast). qlra. }
  (* a frame in a band after the merge was in that band before *)
  assert (Hback : forall f i t', f ∈ frames st ->
            <[n := ls']> (shelves st) !! i = Some t' -> inBand (shift f) t' ->
            exists t, shelves st !! i = Some t /\ onShelf f t).
  { intros f i t' Hf Hi Hb.
    destruct (Hown f Hf) as (i0 & t0 & Hi0 & Hon0).
    destruct (Hkeep f i0 t0 Hf Hi0 Hon0) as (t0' & Hi0' & [Hb0' _]).
    assert (i = i0) as ->.
    { apply (band_unique (<[n := ls']> (shelves st)) (shift f) i i0 t' t0');
        try done.
      destruct (Hdims f) as (_ & _ & ->). by apply Hpos. }
    by exists t0. }
  assert (Hgband : inBand g ls') by (unfold inBand; simpl; qlra).
  assert (Hn' : <[n := ls']> (shelves st) !! n = Some ls')
    by (by apply list_lookup_insert_eq).
  (* an old frame in the band of the new one sits left of the cursor *)
  assert (Hleft : forall f i t', f ∈ frames st ->
            <[n := ls']> (shelves st) !! i = Some t' ->
            inBand (shift f) t' -> inBand g t' ->
            Frame.x (shift f) + Frame.width (shift f) + padding <= Frame.x g).
  { intros f i t' Hf Hi Hbf Hbg.
    assert (i = n) as ->
      by (apply (band_unique (<[n := ls']> (shelves st)) g i n t' ls');
          try done; qlra).
    destruct (Hback f n t' Hf Hi Hbf) as (t & Ht & _ & _ & Hcx).
    assert (t = ls) as -> by congruence.
    destruct (Hdims f) as (-> & -> & _).
    by rewrite Hgx. }
  split; simpl.
  - done.
  - intros s [i Hi]%list_elem_of_lookup.
    apply Hlook in Hi as [[-> ->]|[_ Hi]].
    + simpl. repeat split; qlra.
    + apply Hsh. by eapply list_elem_of_lookup_2.
  - intros f [Hf| ->%list_elem_of_singleton]%elem_of_app; [|split; qlra].
    apply list_elem_of_fmap in Hf as (f0 & -> & Hf0).
    destruct (Hdims f0) as (_ & -> & ->).
    by apply Hpos.
  - intros f [Hf| ->%list_elem_of_singleton]%elem_of_app.
    + apply list_elem_of_fmap in Hf as (f0 & -> & Hf0).
      destruct (Hown f0 Hf0) as (i & t & Hi & Hon).
      destruct (Hkeep f0 i t Hf0 Hi Hon) as (t' & Hi' & Hon').
      by exists i, t'.
    + exists n, ls'. split; [done|].
      unfold onShelf. split; [done|]. simpl. rewrite Hgx. split; qlra.
  - intros i j f1 f2 l s' Hij H1 H2 Hl Hb1 Hb2.
    apply lookup_app_Some in H1 as [H1|[Hge1 H1]];
      apply lookup_app_Some in H2 as [H2|[Hge2 H2]].
    + apply list_lookup_fmap_Some in H1 as (f1' & -> & H1).
      apply list_lookup_fmap_Some in H2 as (f2' & -> & H2).
      assert (Hf1 : f1' ∈ frames st) by (by eapply list_elem_of_lookup_2).
      assert (Hf2 : f2' ∈ frames st) by (by eapply list_elem_of_lookup_2).
      destruct (Hback f1' l s' Hf1 Hl Hb1) as (t1 & Ht1 & Hon1 & _).
      destruct (Hback f2' l s' Hf2 Hl Hb2) as (t2 & Ht2 & Hon2 & _).
      assert (t2 = t1) as -> by congruence.
      pose proof (Hx i j f1' f2' l t1 Hij H1 H2 Ht1 Hon1 Hon2) as Hsep.
      unfold xSeparated in *.
      destruct (Hdims f1') as (-> & -> & _).
      destruct (Hdims f2') as (-> & -> & _).
      done.
    + apply list_lookup_singleton_Some in H2 as [_ <-].
      apply list_lookup_fmap_Some in H1 as (f1' & -> & H1).
      left. eapply Hleft; eauto. by eapply list_elem_of_lookup_2.
    + apply list_lookup_singleton_Some in H1 as [_ <-].
      apply list_lookup_fmap_Some in H2 as (f2' & -> & H2).
      right. eapply Hleft; eauto. by eapply list_elem_of_lookup_2.
    + apply list_lookup_singleton_Some in H1 as [H1 _].
      apply list_lookup_singleton_Some in H2 as [H2 _].
      rewrite length_map in *. lia.
Qed.

Lemma Done_inj {A : Type} (a b : A) : Done a = Done b -> a = b.
Proof. by intros [= ->]. Qed.

Lemma inject_Z_pos z : (0 < z)%Z -> 0 < inject_Z z.
Proof. intros H. unfold Qlt. simpl. lia. Qed.

(** The loop body keeps the geometry. *)
Lemma placeItem_Geo p item p' :
  Geo (state p) -> plain (state p) -> newImages p = [] ->
  (0 < Image.width item)%Z -> (0 < Image.height item)%Z ->
  placeItem padding maxWidth p item = Done p' ->
  Geo (state p').
Proof.
  intros HG Hplain Hnew Hw%inject_Z_pos Hh%inject_Z_pos.
  unfold placeItem. cbv zeta.
  set (width := inject_Z (Image.width item)) in *.
  set (height := inject_Z (Image.height item)) in *.
  destruct (_ && _) eqn:Hguard; [done|].
  assert (Hmw : 0 < maxWidth).
  { apply andb_false_iff in Hguard as [H|H]; apply Qltb_false in H; lra. }
  clear Hguard.
  assert (Hfin : forall s, s ∈ shelves (state p) -> finiteScore maxWidth s).
  { intros s Hs. apply finiteScore_pos; [done|].
    by destruct (geo_shelf _ HG s Hs) as (_ & ? & _). }
  destruct (bestShelf _) as [[k shelf]|] eqn:Hbest.
  - intros <-%Done_inj. cbn [state].
    apply bestShelf_lookup in Hbest as [Hk Hfit].
    set (rot := bestRotated _) in *.
    unfold placeOnShelf. fold width height.
    apply (Geo_placeOnShelf (state p) k shelf
             (mkFrame item (ShelfRec.currentX shelf) (ShelfRec.y shelf)
                (if rot then height else width)
                (if rot then width else height) rot)); try done.
    + cbn [Frame.width Frame.height mkFrame]. by destruct rot.
    + cbn [Frame.width Frame.height mkFrame]. by destruct rot.
  - unfold openShelf. cbv zeta. fold width height.
    unfold newShelfY.
    set (rot := newShelfRotated padding maxWidth width height).
    assert (Hrot : inject_Z (Image.height item)
                   <= (if rot then width else height)).
    { fold height. destruct rot eqn:Hr; [|lra].
      apply newShelfRotated_true in Hr. lra. }
    assert (Hpw : 0 < (if rot then height else width)) by (by destruct rot).
    assert (Hph : 0 < (if rot then width else height)) by (by destruct rot).
    destruct (last (shelves (state p))) as [ls|] eqn:Hlast.
    + rewrite (Hplain ls) by (by apply last_elem_of).
      destruct (Qltb 4096 _); [done|].
      destruct (Qltb maxWidth _); [done|].
      rewrite Hnew. simpl app. rewrite optimalHeight_single by done.
      unfold mergeIntoLast. rewrite Hlast. cbv zeta. fold width height.
      destruct (_ && _) eqn:Hcond.
      * intros <-%Done_inj. cbn [state].
        apply andb_true_iff in Hcond as [_ Hroom%Qle_bool_iff].
        assert (Hgrow : ShelfRec.height ls < (if rot then width else height)).
        { pose proof (bestShelf_none _ _ _ _ _ (pred (length (shelves (state p))))
                        ls rot Hfin Hbest) as Hno.
          rewrite last_lookup in Hlast. specialize (Hno Hlast).
          unfold fitsShelf, remainingWidth, placedWidth, placedHeight in Hno.
          apply andb_false_iff in Hno as [Hno|Hno];
            apply Qle_bool_false in Hno; [lra|done]. }
        assert (Hm : Qmax (ShelfRec.height ls) (if rot then width else height)
                     == (if rot then width else height))
          by (apply Q.max_r; lra).
        assert (Ha : Qabs (ShelfRec.height ls - (if rot then width else height))
                     == - (ShelfRec.height ls - (if rot then width else height)))
          by (apply Qabs_neg; lra).
        apply (Geo_merge (state p) ls
                 (mkFrame item (ShelfRec.currentX ls) _
                    (if rot then height else width)
                    (if rot then width else height) rot)); try done;
          cbn [Frame.x Frame.y Frame.width Frame.height mkFrame]; qlra.
      * intros <-%Done_inj. cbn [state].
        apply (Geo_newShelf (state p) _
                 (mkFrame item padding _
                    (if rot then height else width)
                    (if rot then width else height) rot)); try done;
          cbn [Frame.x Frame.y Frame.width Frame.height mkFrame].
        -- rewrite Hlast. reflexivity.
        -- qlra.
    + destruct (Qltb 4096 _); [done|].
      destruct (Qltb maxWidth _); [done|].
      rewrite Hnew. simpl app. rewrite optimalHeight_single by done.
      unfold mergeIntoLast. rewrite Hlast.
      intros <-%Done_inj. cbn [state].
      apply (Geo_newShelf (state p) _
               (mkFrame item padding _
                  (if rot then height else width)
                  (if rot then width else height) rot)); try done;
          cbn [Frame.x Frame.y Frame.width Frame.height mkFrame].
      -- rewrite Hlast. reflexivity.
      -- qlra.
Qed.

Lemma sweepFrom_Geo images : forall p p',
  Geo (state p) -> plain (state p) -> newImages p = [] ->
  MaxRectsFacts.positive images ->
  sweepFrom padding maxWidth p images = Done p' ->
  Geo (state p').
Proof.
  induction images as [|item rest IH]; intros p p' HG Hplain Hnew Hpos; simpl.
  - by intros [= <-].
  - destruct (placeItem_plain padding maxWidth p item Hplain Hnew)
      as [->|(p1 & Heq & Hp1 & Hn1 & _)]; [done|].
    rewrite Heq. apply IH; try done.
    + destruct (Hpos item) as [? ?]; [apply elem_of_cons; by left|].
      by eapply placeItem_Geo.
    + intros im Him. apply Hpos, elem_of_cons. by right.
Qed.

Lemma Geo_empty : Geo (mkState [] []).
Proof.
  split; simpl.
  - intros k l s s' _ H. by rewrite lookup_nil in H.
  - by intros s ?%elem_of_nil.
  - by intros f ?%elem_of_nil.
  - by intros f ?%elem_of_nil.
  - intros i j f g k s _ H. by rewrite lookup_nil in H.
Qed.

End Geometry.

(** *** The whole attempt *)

(** The loop makes one sweep: an attempt on a non-empty list fails in its
    first sweep or leaves the loop with every image placed, no image put
    aside and [attempt = 1]. *)
Lemma passLoop_sweep padding maxWidth images :
  passLoop (sweep padding maxWidth) maxAttempts (mkState [] []) images
  = ReturnNull
  \/ exists st',
       passLoop (sweep padding maxWidth) maxAttempts (mkState [] []) images
       = Done (mkExit st' [] (if bool_decide (images <> []) then 1 else 0)%nat)
       /\ plain st'
       /\ namesOf st' = map Image.name images
       /\ (0 <= padding -> MaxRectsFacts.positive images ->
           Geo padding st').
Proof.
  destruct images as [|item rest].
  - right. exists (mkState [] []). simpl.
    split; [done|]. split; [by intros s ?%elem_of_nil|].
    split; [done|]. intros _ _. apply Geo_empty.
  - assert (Hplain0 : plain (mkState [] [])) by (by intros s ?%elem_of_nil).
    destruct (sweep_total padding maxWidth (mkState [] []) (item :: rest) Hplain0)
      as [Hnull|(st' & Heq & Hp' & Hnames)].
    + left. unfold maxAttempts. simpl. by rewrite Hnull.
    + right. exists st'. unfold maxAttempts.
      cbn [passLoop]. rewrite Heq.
      rewrite bool_decide_eq_true_2 by done. simpl.
      split; [done|]. split; [done|]. split; [done|].
      intros Hpad Hpos.
      unfold sweep in Heq.
      apply (sweepFrom_Geo padding maxWidth Hpad (item :: rest)
               (mkPass (mkState [] []) [] false)
               (mkPass st' [] (bool_decide (item :: rest <> []))));
        try done.
      apply Geo_empty.
Qed.

Lemma packImagesInternal_cases padding maxWidth images :
  packImagesInternal images padding maxWidth = ReturnNull
  \/ exists st',
       packImagesInternal images padding maxWidth
       = Done (Layout.mk (frames st') (maxRight padding (frames st'))
                         (maxBottom padding (frames st')))
       /\ namesOf st' = map Image.name images
       /\ (0 <= padding -> MaxRectsFacts.positive images -> Geo padding st').
Proof.
  unfold packImagesInternal, packWith.
  destruct (passLoop_sweep padding maxWidth images)
    as [->|(st' & -> & _ & Hnames & HG)]; [by left|].
  right. by exists st'.
Qed.

(** The bounds loop over rationals. *)
Lemma fold_Qmax_bound {A : Type} (g : A -> Q) (l : list A) (init : Q) :
  init <= fold_left (fun m a => Qmax m (g a)) l init
  /\ forall a, a ∈ l -> g a <= fold_left (fun m a => Qmax m (g a)) l init.
Proof.
  revert init. induction l as [|b l IH]; intros init; simpl.
  - split; [lra|]. intros a Ha. by apply elem_of_nil in Ha.
  - destruct (IH (Qmax init (g b))) as [H1 H2].
    pose proof (Q.le_max_l init (g b)). pose proof (Q.le_max_r init (g b)).
    split; [lra|].
    intros a [->|Ha]%elem_of_cons; [lra|by apply H2].
Qed.

Definition wellPlacedQ (f : Frame.t Q) : Prop :=
  0 <= Frame.x f /\ 0 <= Frame.y f /\ 0 < Frame.width f /\ 0 < Frame.height f.

(** A returned layout contains its frames, padding included. *)
Lemma packImagesInternal_contained images padding maxWidth layout :
  MaxRectsFacts.positive images -> 0 <= padding ->
  packImagesInternal images padding maxWidth = Done layout ->
  padding <= Layout.width layout /\ padding <= Layout.height layout
  /\ forall f, f ∈ Layout.frames layout ->
       wellPlacedQ f
       /\ Frame.x f + Frame.width f + padding <= Layout.width layout
       /\ Frame.y f + Frame.height f + padding <= Layout.height layout.
Proof.
  intros Hpos Hp Hpack.
  destruct (packImagesInternal_cases padding maxWidth images)
    as [Hnull|(st' & Heq & _ & HG)]; [congruence|].
  rewrite Heq in Hpack. apply Done_inj in Hpack as <-. simpl.
  specialize (HG Hp Hpos).
  destruct (fold_Qmax_bound (fun f => Frame.x f + Frame.width f + padding)
              (frames st') padding) as [Hr0 Hr].
  destruct (fold_Qmax_bound (fun f => Frame.y f + Frame.height f + padding)
              (frames st') padding) as [Hb0 Hb].
  split; [exact Hr0|]. split; [exact Hb0|].
  intros f Hf. split; [|split; [by apply Hr|by apply Hb]].
  destruct (geo_owner _ _ HG f Hf) as (k & s & Hk & [Hb1 _] & Hx & _).
  destruct (geo_shelf _ _ HG s) as (Hy & _); [by eapply list_elem_of_lookup_2|].
  destruct (geo_pos _ _ HG f Hf) as [Hw Hh].
  unfold wellPlacedQ. repeat split; try done. lra.
Qed.

End ShelfFacts.

(** ** Binary64: the order of the numbers

    [leb] is a total preorder on the values that are not [NaN]: the
    comparison of the standard library orders sign, exponent and mantissa
    lexicographically. *)

Module DoubleFacts.
Import SpecFloat Double.

Lemma compare_cont_Eq p q : Pos.compare_cont Eq p q = Pos.compare p q.
Proof. reflexivity. Qed.

(** Case analysis on every comparison of exponents and mantissas. *)
Ltac cmp_cases :=
  repeat first
    [ rewrite compare_cont_Eq in *
    | match goal with
      | H : context [Z.compare ?a ?b] |- _ => destruct (Z.compare_spec a b)
      | |- context [Z.compare ?a ?b] => destruct (Z.compare_spec a b)
      | H : context [Pos.compare ?a ?b] |- _ => destruct (Pos.compare_spec a b)
      | |- context [Pos.compare ?a ?b] => destruct (Pos.compare_spec a b)
      end ].

Lemma leb_refl x : isNaN x = false -> leb x x = true.
Proof.
  unfold leb, SFleb.
  destruct x as [s|s| |s m e]; try destruct s; simpl; try done;
    intros _; rewrite Z.compare_refl, compare_cont_Eq, Pos.compare_refl; done.
Qed.

Lemma leb_trans x y z : leb x y = true -> leb y z = true -> leb x z = true.
Proof.
  unfold leb, SFleb.
  destruct x as [sx|sx| |sx mx ex], y as [sy|sy| |sy my ey],
           z as [sz|sz| |sz mz ez];
    try destruct sx; try destruct sy; try destruct sz; simpl; try done;
    intros H1 H2; cmp_cases;
    simpl in *; try done; try lia.
Qed.

Lemma leb_total x y :
  isNaN x = false -> isNaN y = false -> ltb y x = false -> leb x y = true.
Proof.
  unfold leb, ltb, SFleb, SFltb.
  destruct x as [sx|sx| |sx mx ex], y as [sy|sy| |sy my ey];
    try destruct sx; try destruct sy; simpl; try done;
    intros _ _ H; cmp_cases;
    simpl in *; try done; try lia.
Qed.

Lemma ltb_leb x y : ltb x y = true -> leb x y = true.
Proof.
  unfold leb, ltb, SFleb, SFltb. by destruct (SFcompare x y) as [[]|].
Qed.

Lemma eqb_leb x y : eqb x y = true -> leb y x = true.
Proof.
  unfold leb, eqb, SFleb, SFeqb.
  destruct x as [sx|sx| |sx mx ex], y as [sy|sy| |sy my ey];
    try destruct sx; try destruct sy; simpl; try done;
    intros H; cmp_cases;
    simpl in *; try done; try lia.
Qed.

Lemma ltb_not_NaN x y : ltb x y = true -> isNaN x = false /\ isNaN y = false.
Proof.
  unfold ltb, SFltb. destruct x, y; simpl; try done.
Qed.

Lemma eqb_not_NaN x y : eqb x y = true -> isNaN x = false /\ isNaN y = false.
Proof.
  unfold eqb, SFeqb. destruct x, y; simpl; try done.
Qed.

Lemma leb_negInfinity x : isNaN x = false -> leb negInfinity x = true.
Proof. unfold leb, SFleb. by destruct x as [s|[]| |s m e]. Qed.

End DoubleFacts.

Module DoubleArith.
Import SpecFloat Double.

Lemma mul_comm x y : mul x y = mul y x.
Proof.
  unfold mul, SFmul.
  destruct x as [sx|sx| |sx mx ex], y as [sy|sy| |sy my ey];
    try reflexivity; try (by rewrite xorb_comm).
  by rewrite xorb_comm, Pos.mul_comm, Z.add_comm.
Qed.

Lemma ofZ_2 : ofZ 2 = S754_finite false 4503599627370496 (-51).
Proof. reflexivity. Qed.

Lemma ofZ_minus_2 : ofZ (-2) = S754_finite true 4503599627370496 (-51).
Proof. reflexivity. Qed.

(** [-x * 2] and [-2 * x] are the same number. *)
Lemma mul_opp_2 x : mul (opp x) (ofZ 2) = mul (ofZ (-2)) x.
Proof.
  rewrite (mul_comm (ofZ (-2)) x), ofZ_2, ofZ_minus_2.
  unfold mul, SFmul, opp, SFopp.
  destruct x as [s|s| |s m e]; try reflexivity;
    by rewrite ?xorb_false_r, ?xorb_true_r.
Qed.

End DoubleArith.

(** ** Shelf packer: the scan in binary64 *)

Module ShelfScanFacts.
Import ShelfScan.

(** A candidate of the scan: the position of a shelf, the shelf and the
    orientation. *)
Definition Candidate : Type := nat * Shelf * bool.

Section Scan.
Variables (padding maxWidth width height : Double.t).

Definition placedWidth (rot : bool) : Double.t := if rot then height else width.
Definition placedHeight (rot : bool) : Double.t := if rot then width else height.

Definition eligible (c : Candidate) : Prop :=
  fitsShelf padding maxWidth c.1.2 (placedWidth c.2) (placedHeight c.2) = true.

Definition scoreOf (c : Candidate) : Double.t :=
  shelfScore padding maxWidth c.1.2 (placedWidth c.2) (placedHeight c.2).

(** The running best after the candidates [cs] have been tried. *)
Definition scanned (cs : list Candidate) (b : Best) : Prop :=
  Double.isNaN (bestScore b) = false
  /\ (bestShelf b = None -> bestScore b = Double.negInfinity)
  /\ (forall ks, bestShelf b = Some ks ->
        (ks, bestRotated b) ∈ cs /\ eligible (ks, bestRotated b)
        /\ bestScore b = scoreOf (ks, bestRotated b))
  /\ (forall c, c ∈ cs -> eligible c -> Double.isNaN (scoreOf c) = false ->
        Double.leb (scoreOf c) (bestScore b) = true).

Lemma scanned_initial : scanned [] initBest.
Proof.
  split; [done|]. split; [done|]. split; [done|].
  by intros c ?%elem_of_nil.
Qed.

Lemma improves_leb score waste b :
  improves score waste b = true ->
  Double.isNaN score = false /\ Double.leb (bestScore b) score = true.
Proof.
  unfold improves. intros [Hgt|[Heq _]%andb_true_iff]%orb_true_iff.
  - split; [by apply DoubleFacts.ltb_not_NaN in Hgt as [_ ?]|].
    by apply DoubleFacts.ltb_leb.
  - split; [by apply DoubleFacts.eqb_not_NaN in Heq as [? _]|].
    by apply DoubleFacts.eqb_leb.
Qed.

Lemma tryOrientation_scanned cs b k shelf rot :
  scanned cs b ->
  scanned (cs ++ [(k, shelf, rot)])
    (tryOrientation padding maxWidth k shelf
       (placedWidth rot) (placedHeight rot) rot b).
Proof.
  intros (Hnan & Hnone & Hsome & Hmax). unfold tryOrientation.
  destruct (fitsShelf padding maxWidth shelf (placedWidth rot) (placedHeight rot))
    eqn:Hfit.
  - fold (scoreOf (k, shelf, rot)).
    destruct (improves _ _ b) eqn:Himp.
    + apply improves_leb in Himp as [Hnum Hle].
      split; [done|]. split; [done|]. split.
      * intros ks [= <-]. cbn [bestRotated bestScore].
        split; [apply elem_of_app; right; by apply list_elem_of_singleton|done].
      * cbn [bestScore].
        intros c [Hc| ->%list_elem_of_singleton]%elem_of_app He Hc';
          [|by apply DoubleFacts.leb_refl].
        apply (DoubleFacts.leb_trans _ (bestScore b)); [by apply Hmax|done].
    + split; [done|]. split; [done|]. split.
      * intros ks Hks. destruct (Hsome ks Hks) as (Hin & He & Hs).
        split; [apply elem_of_app; by left|done].
      * intros c [Hc| ->%list_elem_of_singleton]%elem_of_app He Hc';
          [by apply Hmax|].
        apply DoubleFacts.leb_total; [done|done|].
        unfold improves in Himp. by apply orb_false_iff in Himp as [? _].
  - split; [done|]. split; [done|]. split.
    + intros ks Hks. destruct (Hsome ks Hks) as (Hin & He & Hs).
      split; [apply elem_of_app; by left|done].
    + intros c [Hc| ->%list_elem_of_singleton]%elem_of_app He Hc';
        [by apply Hmax|].
      unfold eligible in He. cbn [fst snd] in He. congruence.
Qed.

(** The candidates of the shelves [shelves], which sit at the positions
    [k, k + 1, ...]: both orientations of every shelf, in the order of the
    scan. *)
Fixpoint candidatesFrom (k : nat) (shelves : list Shelf) : list Candidate :=
  match shelves with
  | [] => []
  | shelf :: rest =>
      (k, shelf, false) :: (k, shelf, true) :: candidatesFrom (S k) rest
  end.

Lemma scanShelves_scanned shelves : forall k cs b,
  scanned cs b ->
  scanned (cs ++ candidatesFrom k shelves)
          (scanShelves padding maxWidth width height k shelves b).
Proof.
  induction shelves as [|shelf rest IH]; intros k cs b Hb; simpl.
  - by rewrite app_nil_r.
  - replace (cs ++ (k, shelf, false) :: (k, shelf, true) :: candidatesFrom (S k) rest)
      with (((cs ++ [(k, shelf, false)]) ++ [(k, shelf, true)])
            ++ candidatesFrom (S k) rest)
      by (by rewrite <- !app_assoc).
    apply IH. unfold tryShelf.
    apply (tryOrientation_scanned _ _ k shelf true).
    apply (tryOrientation_scanned _ _ k shelf false). done.
Qed.

Lemma elem_of_scan_candidates k shelves c :
  c ∈ candidatesFrom k shelves <->
  exists i, c.1.1 = (k + i)%nat /\ shelves !! i = Some c.1.2.
Proof.
  revert k. induction shelves as [|shelf rest IH]; intros k; simpl.
  - split; [by intros ?%elem_of_nil|by intros (i & _ & ?)].
  - rewrite !elem_of_cons, IH. destruct c as [[j s] rot]. simpl. split.
    + intros [[= -> -> ->]|[[= -> -> ->]|(i & -> & Hi)]].
      * exists 0%nat. split; [lia|done].
      * exists 0%nat. split; [lia|done].
      * exists (S i). split; [lia|done].
    + intros ([|i] & -> & Hi); simpl in Hi.
      * injection Hi as ->. replace (k + 0)%nat with k by lia.
        destruct rot; [right; left|left]; done.
      * right. right. exists i. split; [lia|done].
Qed.

(** The scan of all shelves, started as the packer starts it. *)
Lemma scanShelves_all shelves :
  scanned (candidatesFrom 0 shelves)
          (scanShelves padding maxWidth width height 0 shelves initBest).
Proof. apply (scanShelves_scanned shelves 0%nat [] initBest scanned_initial). Qed.

End Scan.

Lemma leb_negInfinity_inv x :
  Double.leb x Double.negInfinity = true ->
  Double.ltb Double.negInfinity x = false.
Proof. by destruct x as [s|[]| |[] m e]. Qed.

End ShelfScanFacts.

(** ** The grid search *)

Module SearchFacts.
Local Open Scope Q_scope.
Import ShelfFacts.

(** The two nested loops visit the attempts in the order of this list. *)
Lemma fold_left_nested {A B C D : Type} (f : D -> C -> D) (g : A -> B -> C)
    (bs : list B) (ws : list A) (init : D) :
  fold_left (fun acc w => fold_left (fun acc b => f acc (g w b)) bs acc) ws init
  = fold_left f (flat_map (fun w => map (g w) bs) ws) init.
Proof.
  assert (Hin : forall w acc,
             fold_left (fun acc b => f acc (g w b)) bs acc
             = fold_left f (map (g w) bs) acc).
  { intros w. induction bs as [|b bs IHb]; intros acc; simpl; [done|].
    apply IHb. }
  revert init. induction ws as [|w ws IH]; intros init; simpl; [done|].
  by rewrite fold_left_app, IH, Hin.
Qed.

(** [efficiency] as a rational number, for a bounding area that is not
    zero. *)
Definition effQ (images : list Image.t) (area : Q) : Q :=
  inject_Z (totalArea images) / area * 100.

Lemma efficiencyOf_finite images area :
  ~ area == 0 -> efficiencyOf images area = Finite (effQ images area).
Proof.
  intros Hne. unfold efficiencyOf, jsDiv, effQ.
  destruct (Qeq_bool area 0) eqn:Hz; [|done].
  apply Qeq_bool_iff in Hz. by destruct Hne.
Qed.

Section Select.
Context {num : Type}.
Variable images : list Image.t.
Hypothesis used_positive : 0 < inject_Z (totalArea images).

(** The update of the running best by a final layout and its area. *)
Definition pick (acc : Search num) (c : Layout.t num * Q) : Search num :=
  let efficiency := efficiencyOf images c.2 in
  if improvesSearch efficiency c.2 acc
  then mkSearch (Some c.1) (Some c.2) efficiency
  else acc.

(** [c] is at least as good as [c']: more efficient, or as efficient and
    not larger. *)
Definition atLeastAsGood (c c' : Layout.t num * Q) : Prop :=
  effQ images c'.2 < effQ images c.2
  \/ (effQ images c'.2 == effQ images c.2 /\ c.2 <= c'.2).

Definition pickInv (seen : list (Layout.t num * Q)) (acc : Search num) : Prop :=
  (seen = [] /\ acc = initSearch)
  \/ (exists c, c ∈ seen
        /\ acc = mkSearch (Some c.1) (Some c.2) (Finite (effQ images c.2))
        /\ forall c', c' ∈ seen -> atLeastAsGood c c').

Lemma effQ_pos area : 0 < area -> 0 < effQ images area.
Proof.
  intros Ha. unfold effQ.
  assert (0 < inject_Z (totalArea images) / area).
  { apply Qlt_shift_div_l; [done|]. lra. }
  lra.
Qed.

Lemma pick_inv seen acc c :
  0 < c.2 -> pickInv seen acc -> pickInv (seen ++ [c]) (pick acc c).
Proof.
  intros Hpos Hinv. unfold pick. cbv zeta.
  rewrite efficiencyOf_finite by lra.
  pose proof (effQ_pos c.2 Hpos) as Heff.
  destruct Hinv as [[-> ->]|(b & Hb & -> & Hbest)].
  - unfold improvesSearch. simpl.
    assert (Hgt : Qltb 0 (effQ images c.2) = true) by (by apply Qltb_true).
    rewrite Hgt. simpl. right. exists c.
    split; [by apply list_elem_of_singleton|]. split; [done|].
    intros c' ->%list_elem_of_singleton. right. split; [reflexivity|lra].
  - unfold improvesSearch. simpl.
    destruct (Qltb (effQ images b.2) (effQ images c.2)) eqn:Hlt; simpl.
    + apply Qltb_true in Hlt. right. exists c.
      split; [set_solver|]. split; [done|].
      intros c' [Hc'| ->%list_elem_of_singleton]%elem_of_app.
      * destruct (Hbest c' Hc') as [?|[? ?]]; left; lra.
      * right. split; [reflexivity|lra].
    + apply Qltb_false in Hlt.
      destruct (Qeq_bool (effQ images c.2) (effQ images b.2)) eqn:Heq; simpl.
      * apply Qeq_bool_iff in Heq.
        destruct (Qltb c.2 b.2) eqn:Harea.
        -- apply Qltb_true in Harea. right. exists c.
           split; [set_solver|]. split; [done|].
           intros c' [Hc'| ->%list_elem_of_singleton]%elem_of_app.
           ++ destruct (Hbest c' Hc') as [?|[? ?]]; [left; lra|right; split; lra].
           ++ right. split; [reflexivity|lra].
        -- apply Qltb_false in Harea. right. exists b.
           split; [set_solver|]. split; [done|].
           intros c' [Hc'| ->%list_elem_of_singleton]%elem_of_app;
             [by apply Hbest|].
           right. split; lra.
      * assert (Hne : ~ effQ images c.2 == effQ images b.2).
        { intros Heq'. apply Qeq_bool_iff in Heq'. congruence. }
        right. exists b. split; [set_solver|]. split; [done|].
        intros c' [Hc'| ->%list_elem_of_singleton]%elem_of_app;
          [by apply Hbest|].
        left. destruct (Qlt_le_dec (effQ images c.2) (effQ images b.2)); [done|].
        exfalso. apply Hne. lra.
Qed.

Lemma pick_fold finals :
  (forall c, c ∈ finals -> 0 < c.2) ->
  pickInv finals (fold_left pick finals initSearch).
Proof.
  intros Hpos.
  assert (Hgen : forall rest seen acc,
             (forall c, c ∈ rest -> 0 < c.2) ->
             pickInv seen acc -> pickInv (seen ++ rest) (fold_left pick rest acc)).
  { induction rest as [|c rest IH]; intros seen acc Hr Hacc; simpl.
    - by rewrite app_nil_r.
    - replace (seen ++ c :: rest) with ((seen ++ [c]) ++ rest)
        by (by rewrite <- app_assoc).
      apply IH; [intros c' ?; apply Hr, elem_of_cons; by right|].
      apply pick_inv; [apply Hr, elem_of_cons; by left|done]. }
  apply (Hgen finals [] initSearch Hpos). by left.
Qed.

(** The result of the selection over final layouts of positive area. *)
Lemma pick_result finals :
  (forall c, c ∈ finals -> 0 < c.2) ->
  (bestResult (fold_left pick finals initSearch) = None <-> finals = [])
  /\ forall best,
      bestResult (fold_left pick finals initSearch) = Some best ->
      exists area, (best, area) ∈ finals
                   /\ forall c', c' ∈ finals -> atLeastAsGood (best, area) c'.
Proof.
  intros Hpos. destruct (pick_fold finals Hpos) as [[-> ->]|(b & Hb & -> & Hbest)].
  - simpl. split; [done|]. intros best [=].
  - simpl. split.
    + split; [done|]. intros ->. by apply elem_of_nil in Hb.
    + intros best [= <-]. exists b.2. destruct b as [L a]. simpl. split; done.
Qed.

(** Without any assumption: a result is one of the final layouts. *)
Lemma pick_member finals : forall acc best,
  bestResult (fold_left pick finals acc) = Some best ->
  bestResult acc = Some best \/ exists area, (best, area) ∈ finals.
Proof.
  induction finals as [|c finals IH]; intros acc best; simpl; [by left|].
  intros [Hacc|(area & Harea)]%IH.
  - unfold pick in Hacc. destruct (improvesSearch _ _ acc).
    + simpl in Hacc. injection Hacc as <-. right. exists c.2.
      destruct c. apply elem_of_cons. by left.
    + by left.
  - right. exists area. apply elem_of_cons. by right.
Qed.

End Select.

Lemma totalArea_positive images :
  images <> [] -> MaxRectsFacts.positive images -> (0 < totalArea images)%Z.
Proof.
  intros Hne Hpos. unfold totalArea.
  assert (Hgen : forall l init,
             MaxRectsFacts.positive l -> (0 <= init)%Z ->
             (init <= fold_left
                        (fun sum im => sum + Image.width im * Image.height im)%Z
                        l init)%Z
             /\ (l <> [] ->
                 (init < fold_left
                           (fun sum im => sum + Image.width im * Image.height im)%Z
                           l init)%Z)).
  { induction l as [|im l IH]; intros init Hl Hinit; simpl; [split; [lia|done]|].
    destruct (Hl im) as [Hw Hh]; [apply elem_of_cons; by left|].
    destruct (IH (init + Image.width im * Image.height im)%Z) as [H1 _];
      [intros im' ?; apply Hl, elem_of_cons; by right|nia|].
    split; [nia|]. intros _. nia. }
  by apply (Hgen images 0%Z Hpos ltac:(lia)).
Qed.

Lemma positive_stableSort leb images :
  MaxRectsFacts.positive images -> MaxRectsFacts.positive (stableSort leb images).
Proof.
  intros Hpos im Him. apply Hpos.
  by rewrite <- (stableSort_Permutation leb images).
Qed.

Lemma stableSort_not_nil {A : Type} (leb : A -> A -> bool) l :
  l <> [] -> stableSort leb l <> [].
Proof.
  destruct l as [|a l]; [done|]. intros _. apply stableSort_cons_not_nil.
Qed.

(** *** MaxRectangles *)

(** The attempts of the grid, in the order of the two loops. *)
Definition mrRuns (images : list Image.t) (padding maxWidth : Z)
    (usePowerOfTwo : bool) : list (option (Layout.t Z)) :=
  flat_map
    (fun width => map (MaxRects.attempt images padding width)
                      MaxRects.sortStrategies)
    (MaxRects.widthOptions images maxWidth usePowerOfTwo).

(** The final layout of an attempt that succeeds, with its area. *)
Definition mrFinal (usePowerOfTwo : bool) (result : option (Layout.t Z))
    : option (Layout.t Z * Q) :=
  match result with
  | None => None
  | Some layout =>
      match MaxRects.finalSize usePowerOfTwo layout with
      | None => None
      | Some (finalWidth, finalHeight) =>
          Some (Layout.mk (Layout.frames layout) finalWidth finalHeight,
                inject_Z (finalWidth * finalHeight))
      end
  end.

Lemma mr_search_eq images padding maxWidth usePowerOfTwo :
  MaxRects.packImagesWithMaxRectangles images padding maxWidth usePowerOfTwo
  = bestResult
      (fold_left (pick images)
         (omap (mrFinal usePowerOfTwo)
               (mrRuns images padding maxWidth usePowerOfTwo))
         initSearch).
Proof.
  unfold MaxRects.packImagesWithMaxRectangles, mrRuns. f_equal.
  rewrite (fold_left_nested (MaxRects.consider images usePowerOfTwo)
             (MaxRects.attempt images padding)).
  generalize (@initSearch Z).
  induction (flat_map _ _) as [|r runs IH]; intros acc; simpl; [done|].
  rewrite IH. unfold MaxRects.consider, mrFinal, pick.
  destruct r as [layout|]; [|done].
  destruct (MaxRects.finalSize usePowerOfTwo layout) as [[fw fh]|]; done.
Qed.

Lemma elem_of_mrRuns images padding maxWidth usePowerOfTwo r :
  r ∈ mrRuns images padding maxWidth usePowerOfTwo <->
  exists width strategy,
    width ∈ MaxRects.widthOptions images maxWidth usePowerOfTwo
    /\ strategy ∈ MaxRects.sortStrategies
    /\ r = MaxRects.attempt images padding width strategy.
Proof.
  unfold mrRuns. rewrite list_elem_of_In, in_flat_map. split.
  - intros (width & Hw & Hr). apply in_map_iff in Hr as (strategy & <- & Hs).
    exists width, strategy. by rewrite !list_elem_of_In.
  - intros (width & strategy & Hw & Hs & ->). exists width.
    rewrite <- list_elem_of_In. split; [done|].
    apply in_map_iff. exists strategy. by rewrite <- list_elem_of_In.
Qed.

(** A final layout of the MaxRectangles grid contains its frames. *)
Lemma mrFinal_contained images padding width strategy usePowerOfTwo c :
  MaxRectsFacts.positive images -> (0 <= padding)%Z ->
  mrFinal usePowerOfTwo (MaxRects.attempt images padding width strategy) = Some c ->
  c.2 = inject_Z (Layout.width c.1 * Layout.height c.1)
  /\ (forall f, f ∈ Layout.frames c.1 ->
        MaxRectsFacts.wellPlaced f
        /\ (Frame.x f + Frame.width f <= Layout.width c.1)%Z
        /\ (Frame.y f + Frame.height f <= Layout.height c.1)%Z)
  /\ (images <> [] -> 0 < c.2).
Proof.
  intros Hpos Hp. unfold mrFinal, MaxRects.attempt.
  destruct (MaxRects.maxRectanglesPack _ padding width) as [layout|] eqn:Hpack;
    [|done].
  pose proof (MaxRectsFacts.maxRectanglesPack_contained _ _ _ _
                (positive_stableSort strategy images Hpos) Hp Hpack)
    as (Hw0 & Hh0 & Hfr).
  destruct (MaxRects.finalSize usePowerOfTwo layout) as [[fw fh]|] eqn:Hfin;
    [|done].
  intros [= <-]. simpl.
  assert (Hge : (Layout.width layout <= fw /\ Layout.height layout <= fh)%Z).
  { unfold MaxRects.finalSize in Hfin. destruct usePowerOfTwo.
    - destruct (_ || _); [done|]. injection Hfin as <- <-.
      split; apply nextPowerOf2_ge.
    - injection Hfin as <- <-. lia. }
  split; [done|]. split.
  - intros f Hf. destruct (Hfr f Hf) as (Hwp & ? & ?). split; [done|]. lia.
  - intros Hne.
    assert (Hdims : (0 < Layout.width layout /\ 0 < Layout.height layout)%Z).
    { destruct (Layout.frames layout) as [|f fs] eqn:Hfs.
      - exfalso.
        pose proof (MaxRectsFacts.maxRectanglesPack_length
                      (stableSort strategy images) padding width layout Hpack)
          as Hlen.
        rewrite Hfs in Hlen. simpl in Hlen.
        apply (stableSort_not_nil strategy) in Hne.
        destruct (stableSort strategy images); [done|simpl in Hlen; lia].
      - destruct (Hfr f) as ((? & ? & ? & ?) & ? & ?);
          [apply elem_of_cons; by left|].
        lia. }
    apply inject_Z_pos. nia.
Qed.

(** *** Shelf *)

Definition shFinal (usePowerOfTwo : bool) (result : Outcome (Layout.t Q))
    : option (Layout.t Q * Q) :=
  match result with
  | Done layout =>
      match ShelfPacker.finalSize usePowerOfTwo layout with
      | None => None
      | Some (finalWidth, finalHeight) =>
          Some (Layout.mk (Layout.frames layout) finalWidth finalHeight,
                finalWidth * finalHeight)
      end
  | _ => None
  end.

Lemma sh_search_eq images usePowerOfTwo runs : forall acc,
  (forall r, r ∈ runs -> r <> KeyConcat) ->
  ShelfPacker.searchRuns images usePowerOfTwo runs acc
  = Done (fold_left (pick images) (omap (shFinal usePowerOfTwo) runs) acc).
Proof.
  induction runs as [|r runs IH]; intros acc Hno; simpl; [done|].
  assert (Hrest : forall r', r' ∈ runs -> r' <> KeyConcat)
    by (intros r' ?; apply Hno, elem_of_cons; by right).
  destruct r as [layout| |].
  - rewrite IH by done. unfold ShelfPacker.consider, pick. simpl.
    destruct (ShelfPacker.finalSize usePowerOfTwo layout) as [[fw fh]|]; done.
  - by rewrite IH.
  - exfalso. apply (Hno KeyConcat); [apply elem_of_cons; by left|done].
Qed.

Lemma elem_of_runsOf images padding maxWidth usePowerOfTwo r :
  r ∈ ShelfPacker.runsOf images padding maxWidth usePowerOfTwo <->
  exists width strategy,
    width ∈ ShelfPacker.widthOptions images maxWidth usePowerOfTwo
    /\ strategy ∈ ShelfPacker.sortStrategies
    /\ r = ShelfPacker.attempt images padding width strategy.
Proof.
  unfold ShelfPacker.runsOf. rewrite list_elem_of_In, in_flat_map. split.
  - intros (width & Hw & Hr). apply in_map_iff in Hr as (strategy & <- & Hs).
    exists width, strategy. by rewrite !list_elem_of_In.
  - intros (width & strategy & Hw & Hs & ->). exists width.
    rewrite <- list_elem_of_In. split; [done|].
    apply in_map_iff. exists strategy. by rewrite <- list_elem_of_In.
Qed.

Lemma packImages_eq images padding maxWidth usePowerOfTwo :
  ShelfPacker.packImages images padding maxWidth usePowerOfTwo
  = Done (bestResult
            (fold_left (pick images)
               (omap (shFinal usePowerOfTwo)
                     (ShelfPacker.runsOf images padding maxWidth usePowerOfTwo))
               initSearch)).
Proof.
  unfold ShelfPacker.packImages. rewrite sh_search_eq; [done|].
  intros r (width & strategy & _ & _ & ->)%elem_of_runsOf.
  unfold ShelfPacker.attempt.
  destruct (packImagesInternal_cases (inject_Z padding) (inject_Z width)
              (stableSort strategy images)) as [->|(st' & -> & _)]; done.
Qed.

Lemma inject_Z_nonneg z : (0 <= z)%Z -> 0 <= inject_Z z.
Proof. intros H. unfold Qle. simpl. lia. Qed.

(** A final layout of the Shelf grid contains its frames. *)
Lemma shFinal_contained images padding width strategy usePowerOfTwo c :
  MaxRectsFacts.positive images -> (0 <= padding)%Z ->
  shFinal usePowerOfTwo (ShelfPacker.attempt images padding width strategy)
  = Some c ->
  c.2 = Layout.width c.1 * Layout.height c.1
  /\ (forall f, f ∈ Layout.frames c.1 ->
        wellPlacedQ f
        /\ Frame.x f + Frame.width f <= Layout.width c.1
        /\ Frame.y f + Frame.height f <= Layout.height c.1)
  /\ (images <> [] -> 0 < c.2).
Proof.
  intros Hpos Hp%inject_Z_nonneg. unfold shFinal, ShelfPacker.attempt.
  destruct (ShelfPacker.packImagesInternal _ _ _) as [layout| |] eqn:Hpack;
    [|done|done].
  pose proof (packImagesInternal_contained _ _ _ _
                (positive_stableSort strategy images Hpos) Hp Hpack)
    as (Hw0 & Hh0 & Hfr).
  destruct (ShelfPacker.finalSize usePowerOfTwo layout) as [[fw fh]|] eqn:Hfin;
    [|done].
  intros [= <-]. simpl.
  assert (Hge : Layout.width layout <= fw /\ Layout.height layout <= fh).
  { unfold ShelfPacker.finalSize in Hfin. destruct usePowerOfTwo.
    - destruct (_ || _); [done|]. injection Hfin as <- <-.
      split; apply nextPowerOf2Q_ge.
    - injection Hfin as <- <-. split; lra. }
  split; [done|]. split.
  - intros f Hf. destruct (Hfr f Hf) as (Hwp & ? & ?). split; [done|].
    split; lra.
  - intros Hne.
    assert (Hdims : 0 < Layout.width layout /\ 0 < Layout.height layout).
    { destruct (Layout.frames layout) as [|f fs] eqn:Hfs.
      - exfalso.
        destruct (packImagesInternal_cases (inject_Z padding) (inject_Z width)
                    (stableSort strategy images))
          as [Hn|(st' & Heq & Hnames & _)]; [congruence|].
        rewrite Heq in Hpack. apply Done_inj in Hpack.
        apply (f_equal Layout.frames) in Hpack. simpl in Hpack.
        rewrite Hfs in Hpack. unfold namesOf in Hnames. rewrite Hpack in Hnames.
        apply (stableSort_not_nil strategy) in Hne.
        destruct (stableSort strategy images); [done|discriminate Hnames].
      - destruct (Hfr f) as ((? & ? & ? & ?) & ? & ?);
          [apply elem_of_cons; by left|].
        split; lra. }
    apply Qmult_lt_0_compat; lra.
Qed.

End SearchFacts.

(** ** ImageGrouper: conservation of the images *)

Module GrouperFacts.
Import Grouper.

(** All the images of a list of groups, group after group. *)
Definition allItems (groups : list Group) : list Image.t :=
  concat (map items groups).

Lemma allItems_app g1 g2 : allItems (g1 ++ g2) = allItems g1 ++ allItems g2.
Proof. unfold allItems. by rewrite map_app, concat_app. Qed.

Lemma pushTo_Permutation key im groups :
  concat (map snd (pushTo key im groups)) ≡ₚ im :: concat (map snd groups).
Proof.
  induction groups as [|[key' members] rest IH]; simpl; [done|].
  destruct (String.eqb key key'); simpl.
  - rewrite <- app_assoc. simpl. by rewrite <- Permutation_middle.
  - rewrite IH. by rewrite <- Permutation_middle.
Qed.

Lemma fold_pushTo_Permutation (key : Image.t -> string) images : forall groups,
  concat (map snd (fold_left (fun groups im => pushTo (key im) im groups)
                             images groups))
  ≡ₚ concat (map snd groups) ++ images.
Proof.
  induction images as [|im images IH]; intros groups; simpl.
  - by rewrite app_nil_r.
  - rewrite IH, pushTo_Permutation. by rewrite <- Permutation_middle.
Qed.

Lemma allItems_entries (mk : string * list Image.t -> Group) entries :
  (forall e, items (mk e) = e.2) ->
  allItems (map mk entries) = concat (map snd entries).
Proof.
  intros Hmk. unfold allItems. rewrite map_map. f_equal.
  apply map_ext. intros e. apply Hmk.
Qed.

Lemma groupBySize_Permutation cfg images :
  allItems (groupBySize cfg images) ≡ₚ images.
Proof.
  unfold groupBySize.
  rewrite allItems_entries by (by intros [nm members]).
  by rewrite (fold_pushTo_Permutation
                (fun im => getSizeCategory cfg (Image.width im * Image.height im))).
Qed.

Lemma refineGroup_Permutation cfg group :
  allItems (refineGroup cfg group) ≡ₚ items group.
Proof.
  unfold refineGroup.
  rewrite allItems_entries by (by intros [nm members]).
  by rewrite (fold_pushTo_Permutation
                (fun im => name group +:+ "_"
                           +:+ getAspectRatioCategory cfg (Image.width im)
                                                      (Image.height im))).
Qed.

Lemma refineGroups_Permutation cfg groups :
  allItems (refineGroupsByAspectRatio cfg groups) ≡ₚ allItems groups.
Proof.
  unfold refineGroupsByAspectRatio.
  induction groups as [|g groups IH]; simpl; [done|].
  rewrite allItems_app, IH, refineGroup_Permutation. done.
Qed.

Lemma mergePairs_items : forall small,
  (allItems (mergePairs small).1 ++ allItems (mergePairs small).2 = allItems small)
  /\ forall g, allItems (mergePairs (g :: small)).1
               ++ allItems (mergePairs (g :: small)).2
               = allItems (g :: small).
Proof.
  induction small as [|g2 rest [IH1 IH2]]; [split; [done|by intros g]|].
  split; [apply IH2|].
  intros g1. simpl. destruct (mergePairs rest) as [merged leftover] eqn:Hm.
  simpl in *. unfold allItems in *. simpl.
  rewrite <- !app_assoc. by rewrite IH1.
Qed.

Lemma filter_split_Permutation (f : Group -> bool) groups :
  allItems (List.filter f groups)
  ++ allItems (List.filter (fun g => negb (f g)) groups)
  ≡ₚ allItems groups.
Proof.
  induction groups as [|g groups IH]; simpl; [done|].
  destruct (f g); simpl; unfold allItems in *; simpl.
  - by rewrite <- app_assoc, IH.
  - rewrite <- IH. rewrite !app_assoc. apply Permutation_app_tail.
    apply Permutation_app_comm.
Qed.

Lemma mergePairs_leftover : forall small,
  (length (mergePairs small).2 <= 1)%nat
  /\ forall g, (length (mergePairs (g :: small)).2 <= 1)%nat.
Proof.
  induction small as [|g2 rest [IH1 IH2]]; [split; [simpl; lia|intros g; simpl; lia]|].
  split; [apply IH2|].
  intros g1. simpl. destruct (mergePairs rest) as [merged leftover]. simpl in *.
  done.
Qed.

Lemma attachLeftover_Permutation mergedGroups small :
  allItems match mergedGroups with
           | first :: others =>
               mkGroup (name first) (items first ++ items small) (strategy first)
                 :: others
           | [] => [small]
           end
  ≡ₚ allItems mergedGroups ++ items small.
Proof.
  destruct mergedGroups as [|first others]; unfold allItems; simpl.
  - by rewrite app_nil_r.
  - rewrite <- !app_assoc. apply Permutation_app_head.
    apply Permutation_app_comm.
Qed.

Lemma mergeSmallGroups_Permutation groups :
  allItems (mergeSmallGroups groups) ≡ₚ allItems groups.
Proof.
  unfold mergeSmallGroups.
  pose proof (filter_split_Permutation
                (fun g => (length (items g) <? 5)%nat) groups) as Hsplit.
  destruct (mergePairs_items
              (List.filter (fun g => (length (items g) <? 5)%nat) groups))
    as [Hpairs _].
  destruct (mergePairs_leftover
              (List.filter (fun g => (length (items g) <? 5)%nat) groups))
    as [Hleft _].
  destruct (mergePairs _) as [merged leftover].
  simpl in Hpairs, Hleft. rewrite <- Hsplit, <- Hpairs.
  destruct leftover as [|small others].
  - rewrite allItems_app. unfold allItems at 4. simpl. rewrite app_nil_r.
    apply Permutation_app_comm.
  - destruct others as [|? ?]; [|simpl in Hleft; lia].
    rewrite attachLeftover_Permutation, allItems_app.
    change (allItems [small]) with (items small ++ []). rewrite app_nil_r.
    rewrite (Permutation_app_comm (allItems merged ++ items small)).
    by rewrite app_assoc.
Qed.

(** [splitByArea] cuts the list into consecutive pieces. *)
Lemma splitStep_items maxArea acc item :
  allItems (splitStep maxArea acc item).1.1 ++ (splitStep maxArea acc item).1.2
  = (allItems acc.1.1 ++ acc.1.2) ++ [item].
Proof.
  destruct acc as [[groups currentGroup] currentArea]. unfold splitStep.
  destruct (_ && _); simpl.
  - rewrite allItems_app. unfold allItems at 2. simpl. by rewrite app_nil_r.
  - by rewrite app_assoc.
Qed.

Lemma splitByArea_items members maxArea :
  allItems (splitByArea members maxArea) = members.
Proof.
  unfold splitByArea.
  assert (Hfold : forall l acc,
             allItems (fold_left (splitStep maxArea) l acc).1.1
             ++ (fold_left (splitStep maxArea) l acc).1.2
             = (allItems acc.1.1 ++ acc.1.2) ++ l).
  { induction l as [|item l IH]; intros acc; simpl; [by rewrite app_nil_r|].
    rewrite IH, splitStep_items. by rewrite <- app_assoc. }
  specialize (Hfold members ([], [], 0)). simpl in Hfold.
  destruct (fold_left (splitStep maxArea) members ([], [], 0))
    as [[groups currentGroup] area].
  simpl in Hfold. destruct currentGroup as [|im rest]; simpl.
  - by rewrite app_nil_r in Hfold.
  - rewrite allItems_app. unfold allItems at 2. simpl. by rewrite app_nil_r.
Qed.

(** With a positive cap and enough fuel, [limitGroup] cuts the items of the
    group into consecutive pieces. *)
Lemma limitGroup_items cfg group : forall fuel remaining,
  0 < MAX_IMAGES_PER_GROUP cfg ->
  (length remaining <= fuel)%nat ->
  allItems (limitGroup fuel cfg group remaining) = remaining.
Proof.
  induction fuel as [|fuel IH]; intros remaining Hcap Hfuel.
  - destruct remaining; [done|simpl in Hfuel; lia].
  - destruct remaining as [|im rest]; [done|].
    cbn [limitGroup]. set (n := Z.to_nat (MAX_IMAGES_PER_GROUP cfg)).
    assert (Hn : (0 < n)%nat) by lia.
    rewrite allItems_app, IH; [|done|].
    + assert (Hbatch : allItems
                (if MAX_AREA_PER_GROUP cfg <? totalArea (take n (im :: rest))
                 then splitByArea (take n (im :: rest)) (MAX_AREA_PER_GROUP cfg)
                 else [mkGroup (name group) (take n (im :: rest)) (strategy group)])
              = take n (im :: rest)).
      { destruct (_ <? _); [apply splitByArea_items|].
        unfold allItems. simpl. by rewrite app_nil_r. }
      rewrite Hbatch. apply take_drop.
    + rewrite length_drop. simpl in *. lia.
Qed.

Lemma limitGroupSize_items cfg groups :
  0 < MAX_IMAGES_PER_GROUP cfg ->
  allItems (limitGroupSize cfg groups) = allItems groups.
Proof.
  intros Hcap. unfold limitGroupSize.
  induction groups as [|g groups IH]; simpl; [done|].
  rewrite allItems_app, IH, limitGroup_items by done. done.
Qed.

Lemma length_allItems groups :
  length (allItems groups) = sum_list (map (fun g => length (items g)) groups).
Proof.
  unfold allItems. induction groups as [|g groups IH]; simpl; [done|].
  by rewrite length_app, IH.
Qed.

End GrouperFacts.

(** ** AlgorithmSelector: the recorded statistics *)

Module SelectorFacts.
Import Selector.
Local Open Scope Q_scope.

(** The last [n] entries of a list. *)
Definition lastN {A : Type} (n : nat) (l : list A) : list A :=
  drop (length l - n) l.

Lemma pushCapped_lastN {A : Type} (cap : nat) (l : list A) (v : A) :
  (length l <= cap)%nat ->
  pushCapped cap l v = lastN cap (l ++ [v])
  /\ (0 < cap -> length (pushCapped cap l v) <= cap)%nat.
Proof.
  intros Hlen. unfold pushCapped, lastN. rewrite length_app. simpl.
  destruct (cap <? length l + 1)%nat eqn:Hc.
  - apply Nat.ltb_lt in Hc.
    replace (length l + 1 - cap)%nat with 1%nat by lia.
    split; [done|]. intros _. rewrite length_drop, length_app. simpl. lia.
  - apply Nat.ltb_ge in Hc.
    replace (length l + 1 - cap)%nat with 0%nat by lia.
    split; [done|]. intros _. rewrite length_app. simpl. lia.
Qed.

(** The states of a selector: the constructor, then any calls of
    [recordResult]. *)
Inductive reachable : t -> Prop :=
| reachable_initial : reachable initial
| reachable_record sel now alg ok eff :
    reachable sel -> reachable (recordResult now sel alg ok eff).

(** Both ring buffers hold at most 50 entries. *)
Definition bounded (sel : t) : Prop :=
  (length (history sel) <= 50)%nat
  /\ forall alg s, statistics sel !! alg = Some s ->
       (length (efficiencies s) <= 50)%nat.

Lemma updateStats_bounded s ok eff :
  (length (efficiencies s) <= 50)%nat ->
  (length (efficiencies (updateStats s ok eff)) <= 50)%nat.
Proof.
  intros Hlen. unfold updateStats. destruct (ok && Qltb 0 eff); simpl; [|done].
  apply pushCapped_lastN; [done|lia].
Qed.

Lemma reachable_bounded sel : reachable sel -> bounded sel.
Proof.
  induction 1 as [|sel now alg ok eff Hreach [Hhist Hstats]].
  - split; [simpl; lia|]. intros alg s. unfold initial.
    cbn [statistics]. rewrite !lookup_insert_Some, lookup_empty.
    intros [[_ <-]|[_ [[_ <-]|[_ [=]]]]]; simpl; lia.
  - unfold recordResult. destruct (statistics sel !! alg) as [s|] eqn:Hs; [|done].
    split; simpl.
    + apply pushCapped_lastN; [done|unfold maxHistorySize; lia].
    + intros alg' s' [[_ <-]|[_ Hs']]%lookup_insert_Some.
      * apply updateStats_bounded. by eapply Hstats.
      * by eapply Hstats.
Qed.

End SelectorFacts.

(** * The properties of the specification *)

(** ** Layout invariants of a packing attempt *)




(** The images of the first case of the test script. *)
Definition threeImages : list Image.t :=
  [ Image.mk "img_100x100" 100 100;
    Image.mk "img_150x80" 150 80;
    Image.mk "img_120x120" 120 120 ].

Lemma threeImages_positive : MaxRectsFacts.positive threeImages.
Proof.
  intros im Him. unfold threeImages in Him.
  repeat (apply elem_of_cons in Him as [->|Him]; [simpl; lia|]).
  by apply elem_of_nil in Him.
Qed.


(** C2 (completeness or atomic failure).  A single attempt of either packer
    returns [null], or a layout whose frames carry exactly the names of the
    input images, one frame per image and in the order of the input; the
    Shelf attempt never reaches the string concatenation that the numeric
    model leaves out. *)
Theorem attempt_complete_or_null (images : list Image.t) :
  (forall padding maxWidth,
      MaxRects.maxRectanglesPack images padding maxWidth = None
      \/ exists layout,
          MaxRects.maxRectanglesPack images padding maxWidth = Some layout
          /\ map Frame.name (Layout.frames layout) = map Image.name images
          /\ length (Layout.frames layout) = length images)
  /\ (forall padding maxWidth,
        ShelfPacker.packImagesInternal images padding maxWidth = ReturnNull
        \/ exists layout,
            ShelfPacker.packImagesInternal images padding maxWidth = Done layout
            /\ map Frame.name (Layout.frames layout) = map Image.name images
            /\ length (Layout.frames layout) = length images).
Proof.
  split; intros padding maxWidth.
  - unfold MaxRects.maxRectanglesPack.
    destruct (MaxRects.placeAll padding _ images) as [st|] eqn:Hall; [|by left].
    right. eexists. split; [done|]. simpl.
    apply MaxRectsFacts.placeAll_names in Hall. simpl in Hall.
    split; [done|].
    apply (f_equal length) in Hall. by rewrite !length_map in Hall.
  - destruct (ShelfFacts.packImagesInternal_cases padding maxWidth images)
      as [Hnull|(st' & Heq & Hnames & _)]; [by left|].
    right. eexists. split; [done|]. simpl.
    split; [done|].
    apply (f_equal length) in Hnames. unfold ShelfFacts.namesOf in Hnames.
    by rewrite !length_map in Hnames.
Qed.

(** C3 (containment).  For images of positive size and a non-negative
    padding, every frame of a layout returned by a packing attempt, and of the
    layout returned by either grid search (whose dimensions may have been
    rounded up to powers of two), has a non-negative origin and ends within
    the width and the height of the layout. *)
Theorem frames_contained (images : list Image.t) :
  MaxRectsFacts.positive images ->
  (forall padding maxWidth layout f,
      0 <= padding ->
      MaxRects.maxRectanglesPack images padding maxWidth = Some layout ->
      f ∈ Layout.frames layout ->
      0 <= Frame.x f /\ 0 <= Frame.y f
      /\ Frame.x f + Frame.width f <= Layout.width layout
      /\ Frame.y f + Frame.height f <= Layout.height layout)
  /\ (forall padding maxWidth layout f,
        (0 <= padding)%Q ->
        ShelfPacker.packImagesInternal images padding maxWidth = Done layout ->
        f ∈ Layout.frames layout ->
        (0 <= Frame.x f /\ 0 <= Frame.y f
         /\ Frame.x f + Frame.width f <= Layout.width layout
         /\ Frame.y f + Frame.height f <= Layout.height layout)%Q)
  /\ (forall padding maxWidth usePowerOfTwo layout f,
        0 <= padding ->
        MaxRects.packImagesWithMaxRectangles images padding maxWidth usePowerOfTwo
        = Some layout ->
        f ∈ Layout.frames layout ->
        0 <= Frame.x f /\ 0 <= Frame.y f
        /\ Frame.x f + Frame.width f <= Layout.width layout
        /\ Frame.y f + Frame.height f <= Layout.height layout)
  /\ (forall padding maxWidth usePowerOfTwo layout f,
        0 <= padding ->
        ShelfPacker.packImages images padding maxWidth usePowerOfTwo
        = Done (Some layout) ->
        f ∈ Layout.frames layout ->
        (0 <= Frame.x f /\ 0 <= Frame.y f
         /\ Frame.x f + Frame.width f <= Layout.width layout
         /\ Frame.y f + Frame.height f <= Layout.height layout)%Q).
Proof.
  intros Hpos. split; [|split; [|split]].
  - intros padding maxWidth layout f Hp Hpack Hf.
    destruct (MaxRectsFacts.maxRectanglesPack_contained images padding maxWidth
                layout Hpos Hp Hpack) as (_ & _ & Hfr).
    destruct (Hfr f Hf) as ((? & ? & ? & ?) & ? & ?). lia.
  - intros padding maxWidth layout f Hp Hpack Hf.
    destruct (ShelfFacts.packImagesInternal_contained images padding maxWidth
                layout Hpos Hp Hpack) as (_ & _ & Hfr).
    destruct (Hfr f Hf) as ((? & ? & ? & ?) & ? & ?). repeat split; lra.
  - intros padding maxWidth usePowerOfTwo layout f Hp Hpack Hf.
    rewrite SearchFacts.mr_search_eq in Hpack.
    apply SearchFacts.pick_member in Hpack as [Hinit|(area & Hmem)]; [done|].
    apply list_elem_of_omap in Hmem as (r & Hr & Hfin).
    apply SearchFacts.elem_of_mrRuns in Hr as (width & strategy & _ & _ & ->).
    destruct (SearchFacts.mrFinal_contained images padding width strategy
                usePowerOfTwo _ Hpos Hp Hfin) as (_ & Hfr & _).
    destruct (Hfr f Hf) as ((? & ? & ? & ?) & ? & ?). simpl in *. lia.
  - intros padding maxWidth usePowerOfTwo layout f Hp Hpack Hf.
    rewrite SearchFacts.packImages_eq in Hpack.
    apply ShelfFacts.Done_inj in Hpack.
    apply SearchFacts.pick_member in Hpack as [Hinit|(area & Hmem)]; [done|].
    apply list_elem_of_omap in Hmem as (r & Hr & Hfin).
    apply SearchFacts.elem_of_runsOf in Hr as (width & strategy & _ & _ & ->).
    destruct (SearchFacts.shFinal_contained images padding width strategy
                usePowerOfTwo _ Hpos Hp Hfin) as (_ & Hfr & _).
    destruct (Hfr f Hf) as ((? & ? & ? & ?) & ? & ?). simpl in *.
    repeat split; lra.
Qed.

Lemma frames_contained_witness :
  MaxRectsFacts.positive threeImages
  /\ (0 <= 122 /\ 0 <= 0 /\ 122 + 150 <= 512 /\ 0 + 80 <= 128).
Proof.
  split; [exact threeImages_positive|].
  destruct (frames_contained threeImages threeImages_positive)
    as (_ & _ & Hgrid & _).
  refine (Hgrid 2 2048 true
            (Layout.mk
               [Frame.mk "img_120x120" 0 0 120 120 120 120 0 0 false;
                Frame.mk "img_150x80" 122 0 150 80 150 80 0 0 false;
                Frame.mk "img_100x100" 274 0 100 100 100 100 0 0 false]
               512 128)
            (Frame.mk "img_150x80" 122 0 150 80 150 80 0 0 false) _ _ _).
  - lia.
  - vm_compute. reflexivity.
  - apply elem_of_cons. right. apply elem_of_cons. left. reflexivity.
Defined.

(** ** MaxRectangles: the placement step *)

Lemma placeAll_app padding pre : forall st rest,
  MaxRects.placeAll padding st (pre ++ rest)
  = match MaxRects.placeAll padding st pre with
    | Some st' => MaxRects.placeAll padding st' rest
    | None => None
    end.
Proof.
  induction pre as [|item pre IH]; intros st rest; simpl; [done|].
  destruct (MaxRects.placeItem padding st item); [apply IH|done].
Qed.

(** C4 (best short side fit).  One placement step, for an image of positive
    size and a non-negative padding, with [w = width + padding] and
    [h = height + padding]:
    - if some free rectangle can take [w x h], the frame goes unrotated to
      the origin of a free rectangle that fits and that minimises the
      shorter leftover side, ties broken by the longer leftover side;
    - if none can, but some free rectangle can take [h x w], the frame goes
      rotated to the origin of the free rectangle that is best for [h x w];
    - if neither orientation fits, the step fails, and with it every
      attempt that reaches this step. *)
Theorem best_short_side_fit_placement padding st item :
  0 < Image.width item -> 0 < Image.height item -> 0 <= padding ->
  let free := MaxRects.freeRectangles st in
  let w := Image.width item + padding in
  let h := Image.height item + padding in
  let placed (r : Rect.t) (fw fh : Z) (rot : bool) :=
    MaxRects.mkState
      (MaxRects.usedRectangles st
       ++ [Rect.mk (Rect.x r) (Rect.y r) (fw + padding) (fh + padding)])
      (MaxRects.splitFreeRectangles free
         (Rect.mk (Rect.x r) (Rect.y r) (fw + padding) (fh + padding)))
      (MaxRects.frames st
       ++ [Frame.mk (Image.name item) (Rect.x r) (Rect.y r) fw fh
             (Image.width item) (Image.height item) 0 0 rot]) in
  ((exists r, r ∈ free /\ MaxRectsFacts.fits w h r) ->
   exists r, MaxRectsFacts.bssfBest w h free r
             /\ MaxRects.placeItem padding st item
                = Some (placed r (Image.width item) (Image.height item) false))
  /\ ((forall r, r ∈ free -> ~ MaxRectsFacts.fits w h r) ->
      (exists r, r ∈ free /\ MaxRectsFacts.fits h w r) ->
      exists r, MaxRectsFacts.bssfBest h w free r
                /\ MaxRects.placeItem padding st item
                   = Some (placed r (Image.height item) (Image.width item) true))
  /\ ((forall r, r ∈ free -> ~ MaxRectsFacts.fits w h r) ->
      (forall r, r ∈ free -> ~ MaxRectsFacts.fits h w r) ->
      MaxRects.placeItem padding st item = None
      /\ forall st0 pre rest,
          MaxRects.placeAll padding st0 pre = Some st ->
          MaxRects.placeAll padding st0 (pre ++ item :: rest) = None).
Proof.
  intros Hw Hh Hp free w h placed.
  unfold MaxRects.placeItem. cbv zeta. fold free w h.
  destruct (MaxRectsFacts.bssf_search w h free)
    as [[Hnone ->]|(r & Hbest & ->)]; simpl.
  - destruct (MaxRectsFacts.bssf_search h w free)
      as [[Hnone' ->]|(r' & Hbest' & ->)]; simpl.
    + split; [intros (r & Hr & Hfit); exfalso; by eapply Hnone|].
      split; [intros _ (r & Hr & Hfit); exfalso; by eapply Hnone'|].
      intros _ _. split; [done|].
      intros st0 pre rest Hpre. rewrite placeAll_app, Hpre. simpl.
      unfold MaxRects.placeItem. cbv zeta. fold free w h.
      destruct (MaxRectsFacts.bssf_search w h free)
        as [[_ ->]|(r & (Hr & Hfit & _) & _)]; [|exfalso; by eapply Hnone].
      simpl.
      destruct (MaxRectsFacts.bssf_search h w free)
        as [[_ ->]|(r & (Hr & Hfit & _) & _)]; [done|exfalso; by eapply Hnone'].
    + destruct (w =? 0) eqn:Hz; [lia|].
      split; [intros (r & Hr & Hfit); exfalso; by eapply Hnone|].
      split; [intros _ _; by exists r'|].
      intros _ Hno. exfalso. destruct Hbest' as (Hr' & Hfit' & _).
      by eapply Hno.
  - destruct (h =? 0) eqn:Hz; [lia|].
    split; [intros _; by exists r|].
    destruct Hbest as (Hr & Hfit & _).
    split; intros Hno; exfalso; by eapply Hno.
Qed.

Lemma best_short_side_fit_placement_witness :
  exists r,
    MaxRectsFacts.bssfBest 102 102 [Rect.mk 0 0 256 4096] r
    /\ MaxRects.placeItem 2 (MaxRects.initialState 256)
         (Image.mk "img_100x100" 100 100)
       = Some (MaxRects.mkState
                 [Rect.mk (Rect.x r) (Rect.y r) 102 102]
                 (MaxRects.splitFreeRectangles [Rect.mk 0 0 256 4096]
                    (Rect.mk (Rect.x r) (Rect.y r) 102 102))
                 [Frame.mk "img_100x100" (Rect.x r) (Rect.y r) 100 100
                    100 100 0 0 false]).
Proof.
  apply (proj1 (best_short_side_fit_placement 2 (MaxRects.initialState 256)
                  (Image.mk "img_100x100" 100 100)
                  ltac:(simpl; lia) ltac:(simpl; lia) ltac:(lia))).
  exists (Rect.mk 0 0 256 4096). split.
  - apply list_elem_of_singleton. reflexivity.
  - unfold MaxRectsFacts.fits. simpl. lia.
Defined.

(** ** Shelf packer: the choice of an existing shelf *)

(** C6 (shelf scan).  For the scan over the existing shelves, with the
    numbers of the program (binary64) and its rounded operations:
    - a candidate (shelf, orientation) is eligible exactly if the placed
      width is at most [maxWidth - currentX - padding] and the placed height
      is at most the shelf height;
    - the score of a candidate is
      [-2 * verticalWaste - 0.1 * horizontalLeftover + 10 * shelfUtilization + 0.05 * shelfY]
      with [verticalWaste = shelfHeight - placedHeight],
      [horizontalLeftover = maxWidth - currentX - padding - placedWidth] and
      [shelfUtilization = currentX * shelfHeight / (maxWidth * shelfHeight)];
    - a chosen shelf with the chosen orientation is an eligible candidate,
      its score is a number, and no eligible candidate of any shelf in
      either orientation has a score above it;
    - no shelf is chosen when no candidate is eligible, and a shelf is
      chosen as soon as one eligible candidate has a score above
      [-Infinity]. *)
Theorem shelf_scan_best_score (padding maxWidth width height : Double.t)
    (shelves : list ShelfScan.Shelf) :
  let best :=
    ShelfScan.scanShelves padding maxWidth width height 0 shelves
      ShelfScan.initBest in
  let pw := ShelfScanFacts.placedWidth width height in
  let ph := ShelfScanFacts.placedHeight width height in
  let remaining s :=
    Double.sub (Double.sub maxWidth (ShelfScan.currentX s)) padding in
  let eligible := ShelfScanFacts.eligible padding maxWidth width height in
  let score := ShelfScanFacts.scoreOf padding maxWidth width height in
  (forall k s rot,
      eligible (k, s, rot)
      <-> Double.leb (pw rot) (remaining s) = true
          /\ Double.leb (ph rot) (ShelfScan.height s) = true)
  /\ (forall k s rot,
        let verticalWaste := Double.sub (ShelfScan.height s) (ph rot) in
        let horizontalLeftover := Double.sub (remaining s) (pw rot) in
        let shelfUtilization :=
          Double.div (Double.mul (ShelfScan.currentX s) (ShelfScan.height s))
                     (Double.mul maxWidth (ShelfScan.height s)) in
        score (k, s, rot)
        = Double.add
            (Double.add
               (Double.sub (Double.mul (Double.ofZ (-2)) verticalWaste)
                           (Double.mul (Double.decimal 1 10) horizontalLeftover))
               (Double.mul (Double.ofZ 10) shelfUtilization))
            (Double.mul (Double.decimal 5 100) (ShelfScan.y s)))
  /\ (forall k s,
        ShelfScan.bestShelf best = Some (k, s) ->
        shelves !! k = Some s
        /\ eligible (k, s, ShelfScan.bestRotated best)
        /\ ShelfScan.bestScore best = score (k, s, ShelfScan.bestRotated best)
        /\ Double.isNaN (score (k, s, ShelfScan.bestRotated best)) = false
        /\ forall k' s' rot',
            shelves !! k' = Some s' -> eligible (k', s', rot') ->
            Double.isNaN (score (k', s', rot')) = false ->
            Double.leb (score (k', s', rot'))
                       (score (k, s, ShelfScan.bestRotated best)) = true)
  /\ ((forall k s rot, shelves !! k = Some s -> ~ eligible (k, s, rot)) ->
      ShelfScan.bestShelf best = None)
  /\ (forall k s rot,
        shelves !! k = Some s -> eligible (k, s, rot) ->
        Double.ltb Double.negInfinity (score (k, s, rot)) = true ->
        ShelfScan.bestShelf best <> None).
Proof.
  intros best pw ph remaining eligible score.
  pose proof (ShelfScanFacts.scanShelves_all padding maxWidth width height
                shelves) as (Hnan & Hnone & Hsome & Hmax).
  fold best in Hnan, Hnone, Hsome, Hmax.
  split; [|split; [|split; [|split]]].
  - intros k s rot. unfold eligible, ShelfScanFacts.eligible, ShelfScan.fitsShelf,
      ShelfScan.remainingWidth. cbn [fst snd].
    by rewrite andb_true_iff.
  - intros k s rot. unfold score, ShelfScanFacts.scoreOf, ShelfScan.shelfScore,
      ShelfScan.remainingWidth. cbn [fst snd]. cbv zeta.
    fold (pw rot) (ph rot).
    rewrite DoubleArith.mul_opp_2.
    rewrite (DoubleArith.mul_comm (Double.decimal 1 10)).
    rewrite (DoubleArith.mul_comm (Double.ofZ 10)).
    by rewrite (DoubleArith.mul_comm (Double.decimal 5 100)).
  - intros k s Hbest.
    destruct (Hsome (k, s) Hbest) as (Hin & He & Hs).
    apply ShelfScanFacts.elem_of_scan_candidates in Hin as (i & Hi & Hlook).
    cbn [fst snd] in Hi, Hlook. simpl in Hi. subst i.
    split; [done|]. split; [done|]. split; [done|].
    split; [fold score in Hs; by rewrite <- Hs|].
    intros k' s' rot' Hk' He' Hnum. fold score in Hs. rewrite <- Hs.
    apply Hmax; [|done|done].
    apply ShelfScanFacts.elem_of_scan_candidates. by exists k'.
  - intros Hno. destruct (ShelfScan.bestShelf best) as [[k s]|] eqn:Hbest; [|done].
    destruct (Hsome (k, s) eq_refl) as (Hin & He & _).
    apply ShelfScanFacts.elem_of_scan_candidates in Hin as (i & Hi & Hlook).
    cbn [fst snd] in Hi, Hlook. simpl in Hi. subst i.
    by destruct (Hno k s (ShelfScan.bestRotated best) Hlook).
  - intros k s rot Hk He Habove Hbest.
    assert (Hnum : Double.isNaN (score (k, s, rot)) = false)
      by (by apply DoubleFacts.ltb_not_NaN in Habove as [_ ?]).
    assert (Hle : Double.leb (score (k, s, rot)) (ShelfScan.bestScore best) = true).
    { apply Hmax; [|done|done].
      apply ShelfScanFacts.elem_of_scan_candidates. by exists k. }
    rewrite (Hnone Hbest) in Hle.
    apply ShelfScanFacts.leb_negInfinity_inv in Hle. congruence.
Qed.

(** Three shelves in a strip of width 200 with padding 2, and an image of
    18 by 26.  The unrotated image on the second and on the third shelf has
    the score -1207/20 in exact arithmetic; the rounded scores differ in
    their last digit, and the scan keeps the second shelf. *)
Definition threeShelves : list ShelfScan.Shelf :=
  [ ShelfScan.mkShelf (Double.ofZ 2) (Double.ofZ 77) (Double.ofZ 80) (Double.ofZ 200);
    ShelfScan.mkShelf (Double.ofZ 81) (Double.ofZ 54) (Double.ofZ 64) (Double.ofZ 200);
    ShelfScan.mkShelf (Double.ofZ 137) (Double.ofZ 53) (Double.ofZ 32) (Double.ofZ 200) ].

Lemma shelf_scan_follows_rounding :
  let score :=
    ShelfScanFacts.scoreOf (Double.ofZ 2) (Double.ofZ 200) (Double.ofZ 18)
      (Double.ofZ 26) in
  let best :=
    ShelfScan.scanShelves (Double.ofZ 2) (Double.ofZ 200) (Double.ofZ 18)
      (Double.ofZ 26) 0 threeShelves ShelfScan.initBest in
  fst <$> ShelfScan.bestShelf best = Some 1%nat
  /\ ShelfScan.bestRotated best = false
  /\ (exists second third,
        threeShelves !! 1%nat = Some second
        /\ threeShelves !! 2%nat = Some third
        /\ Double.ltb (score (2%nat, third, false))
                      (score (1%nat, second, false)) = true)
  /\ jsEq (ShelfPacker.shelfScore 2 200 (ShelfRec.mk 81 54 false 64 200) 18 26)
          (ShelfPacker.shelfScore 2 200 (ShelfRec.mk 137 53 false 32 200) 18 26)
     = true.
Proof.
  cbv zeta. split; [vm_compute; reflexivity|]. split; [vm_compute; reflexivity|].
  split; [|vm_compute; reflexivity].
  eexists _, _. split; [reflexivity|]. split; [reflexivity|].
  vm_compute. reflexivity.
Qed.

(** ** Shelf packer: the retry passes *)

(** The retry schedule of the [while] loop, written without the loop: at
    most three sweeps; the images left by the first sweep are sorted by
    their smaller edge, the images left by the second by their perimeter; a
    sweep that places nothing, or leaves nothing, ends the schedule. *)
Definition retrySchedule
    (body : ShelfPacker.State -> list Image.t -> Outcome ShelfPacker.Pass)
    (st : ShelfPacker.State) (images : list Image.t)
    : Outcome ShelfPacker.Exit :=
  match images with
  | [] => Done (ShelfPacker.mkExit st [] 0)
  | _ :: _ =>
    match body st images with
    | KeyConcat => KeyConcat
    | ReturnNull => ReturnNull
    | Done p1 =>
      if negb (ShelfPacker.placedThisRound p1)
      then Done (ShelfPacker.mkExit (ShelfPacker.state p1) (ShelfPacker.newImages p1) 0)
      else
        match ShelfPacker.newImages p1 with
        | [] => Done (ShelfPacker.mkExit (ShelfPacker.state p1) [] 1)
        | _ :: _ =>
          match body (ShelfPacker.state p1)
                  (stableSort ShelfPacker.minEdgeLeb (ShelfPacker.newImages p1)) with
          | KeyConcat => KeyConcat
          | ReturnNull => ReturnNull
          | Done p2 =>
            if negb (ShelfPacker.placedThisRound p2)
            then Done (ShelfPacker.mkExit (ShelfPacker.state p2)
                         (ShelfPacker.newImages p2) 1)
            else
              match ShelfPacker.newImages p2 with
              | [] => Done (ShelfPacker.mkExit (ShelfPacker.state p2) [] 2)
              | _ :: _ =>
                match body (ShelfPacker.state p2)
                        (stableSort ShelfPacker.perimeterLeb
                           (ShelfPacker.newImages p2)) with
                | KeyConcat => KeyConcat
                | ReturnNull => ReturnNull
                | Done p3 =>
                  Done (ShelfPacker.mkExit (ShelfPacker.state p3)
                          (ShelfPacker.newImages p3)
                          (if ShelfPacker.placedThisRound p3 then 3 else 2))
                end
              end
          end
        end
    end
  end.

Lemma passLoop_schedule body st images :
  ShelfPacker.passLoop body ShelfPacker.maxAttempts st images
  = retrySchedule body st images.
Proof.
  unfold ShelfPacker.maxAttempts, retrySchedule.
  destruct images as [|i0 r0]; [done|]. cbn [ShelfPacker.passLoop].
  destruct (body st (i0 :: r0)) as [p1| |]; [|done|done].
  destruct (ShelfPacker.placedThisRound p1); [|done]. cbn [negb].
  destruct (ShelfPacker.newImages p1) as [|i1 r1] eqn:H1; [done|].
  cbn [length Nat.eqb negb andb Nat.ltb Nat.leb ShelfPacker.maxAttempts
       Nat.sub ShelfPacker.resort].
  pose proof (stableSort_cons_not_nil ShelfPacker.minEdgeLeb i1 r1) as Hne1.
  destruct (stableSort ShelfPacker.minEdgeLeb (i1 :: r1)) as [|j1 s1] eqn:Hs1;
    [done|].
  destruct (body (ShelfPacker.state p1) (j1 :: s1)) as [p2| |]; [|done|done].
  destruct (ShelfPacker.placedThisRound p2); [|done]. cbn [negb].
  destruct (ShelfPacker.newImages p2) as [|i2 r2] eqn:H2; [done|].
  cbn [length Nat.eqb negb andb Nat.ltb Nat.leb ShelfPacker.maxAttempts
       Nat.sub ShelfPacker.resort].
  pose proof (stableSort_cons_not_nil ShelfPacker.perimeterLeb i2 r2) as Hne2.
  destruct (stableSort ShelfPacker.perimeterLeb (i2 :: r2)) as [|j2 s2] eqn:Hs2;
    [done|].
  destruct (body (ShelfPacker.state p2) (j2 :: s2)) as [p3| |]; [|done|done].
  destruct (ShelfPacker.placedThisRound p3); [|done]. cbn [negb].
  destruct (ShelfPacker.newImages p3) as [|i3 r3]; done.
Qed.




(** ** The grid search *)

(** C5 (grid search).  For a non-empty list of images of positive size and a
    non-negative padding.  An attempt [(width, order)] succeeds when the
    packer returns a layout and, in power-of-two mode, the rounded
    dimensions do not exceed 2048; its final layout has the rounded (or
    used) dimensions and the efficiency [totalItemArea / area * 100].  Each
    grid search returns [null] exactly if no attempt of its grid succeeds;
    otherwise it returns the final layout of an attempt of the grid that is
    at least as good as the final layout of every attempt that succeeds:
    more efficient, or as efficient and of no larger area. *)
Theorem grid_search_best images padding maxWidth usePowerOfTwo :
  images <> [] -> MaxRectsFacts.positive images -> 0 <= padding ->
  ((MaxRects.packImagesWithMaxRectangles images padding maxWidth usePowerOfTwo
    = None
    <-> forall width strategy,
        width ∈ MaxRects.widthOptions images maxWidth usePowerOfTwo ->
        strategy ∈ MaxRects.sortStrategies ->
        SearchFacts.mrFinal usePowerOfTwo
          (MaxRects.attempt images padding width strategy) = None)
   /\ forall best,
      MaxRects.packImagesWithMaxRectangles images padding maxWidth usePowerOfTwo
      = Some best ->
      exists width strategy area,
        width ∈ MaxRects.widthOptions images maxWidth usePowerOfTwo
        /\ strategy ∈ MaxRects.sortStrategies
        /\ SearchFacts.mrFinal usePowerOfTwo
             (MaxRects.attempt images padding width strategy)
           = Some (best, area)
        /\ area = inject_Z (Layout.width best * Layout.height best)
        /\ forall width' strategy' c',
            width' ∈ MaxRects.widthOptions images maxWidth usePowerOfTwo ->
            strategy' ∈ MaxRects.sortStrategies ->
            SearchFacts.mrFinal usePowerOfTwo
              (MaxRects.attempt images padding width' strategy') = Some c' ->
            SearchFacts.atLeastAsGood images (best, area) c')
  /\ exists result,
      ShelfPacker.packImages images padding maxWidth usePowerOfTwo = Done result
      /\ (result = None
          <-> forall width strategy,
              width ∈ ShelfPacker.widthOptions images maxWidth usePowerOfTwo ->
              strategy ∈ ShelfPacker.sortStrategies ->
              SearchFacts.shFinal usePowerOfTwo
                (ShelfPacker.attempt images padding width strategy) = None)
      /\ forall best,
          result = Some best ->
          exists width strategy area,
            width ∈ ShelfPacker.widthOptions images maxWidth usePowerOfTwo
            /\ strategy ∈ ShelfPacker.sortStrategies
            /\ SearchFacts.shFinal usePowerOfTwo
                 (ShelfPacker.attempt images padding width strategy)
               = Some (best, area)
            /\ area = (Layout.width best * Layout.height best)%Q
            /\ forall width' strategy' c',
                width' ∈ ShelfPacker.widthOptions images maxWidth usePowerOfTwo ->
                strategy' ∈ ShelfPacker.sortStrategies ->
                SearchFacts.shFinal usePowerOfTwo
                  (ShelfPacker.attempt images padding width' strategy') = Some c' ->
                SearchFacts.atLeastAsGood images (best, area) c'.
Proof.
  intros Hne Hpos Hp.
  assert (Hused : (0 < inject_Z (totalArea images))%Q)
    by (apply ShelfFacts.inject_Z_pos; by apply SearchFacts.totalArea_positive).
  split.
  - rewrite SearchFacts.mr_search_eq.
    set (runs := SearchFacts.mrRuns images padding maxWidth usePowerOfTwo).
    set (finals := omap (SearchFacts.mrFinal usePowerOfTwo) runs).
    assert (Hareas : forall c, c ∈ finals -> (0 < c.2)%Q).
    { intros c (r & Hr & Hfin)%list_elem_of_omap.
      apply SearchFacts.elem_of_mrRuns in Hr as (width & strategy & _ & _ & ->).
      by apply (SearchFacts.mrFinal_contained images padding width strategy
                  usePowerOfTwo c Hpos Hp Hfin). }
    destruct (SearchFacts.pick_result images Hused finals Hareas) as [Hnone Hsome].
    split.
    + rewrite Hnone. split.
      * intros Hnil width strategy Hw Hs.
        destruct (SearchFacts.mrFinal _ _) as [c|] eqn:Hfin; [|done].
        exfalso. assert (Hc : c ∈ finals).
        { apply list_elem_of_omap. eexists. split; [|exact Hfin].
          apply SearchFacts.elem_of_mrRuns. by exists width, strategy. }
        rewrite Hnil in Hc. by apply elem_of_nil in Hc.
      * intros Hall. apply elem_of_nil_inv.
        intros c (r & Hr & Hfin)%list_elem_of_omap.
        apply SearchFacts.elem_of_mrRuns in Hr as (width & strategy & Hw & Hs & ->).
        rewrite (Hall width strategy Hw Hs) in Hfin. done.
    + intros best Hbest. destruct (Hsome best Hbest) as (area & Hmem & Hgood).
      apply list_elem_of_omap in Hmem as (r & Hr & Hfin).
      apply SearchFacts.elem_of_mrRuns in Hr as (width & strategy & Hw & Hs & ->).
      exists width, strategy, area. repeat split; try done.
      * by destruct (SearchFacts.mrFinal_contained images padding width strategy
                       usePowerOfTwo _ Hpos Hp Hfin) as (? & _).
      * intros width' strategy' c' Hw' Hs' Hfin'. apply Hgood.
        apply list_elem_of_omap. eexists. split; [|exact Hfin'].
        apply SearchFacts.elem_of_mrRuns. by exists width', strategy'.
  - eexists. split; [apply SearchFacts.packImages_eq|].
    set (runs := ShelfPacker.runsOf images padding maxWidth usePowerOfTwo).
    set (finals := omap (SearchFacts.shFinal usePowerOfTwo) runs).
    assert (Hareas : forall c, c ∈ finals -> (0 < c.2)%Q).
    { intros c (r & Hr & Hfin)%list_elem_of_omap.
      apply SearchFacts.elem_of_runsOf in Hr as (width & strategy & _ & _ & ->).
      by apply (SearchFacts.shFinal_contained images padding width strategy
                  usePowerOfTwo c Hpos Hp Hfin). }
    destruct (SearchFacts.pick_result images Hused finals Hareas) as [Hnone Hsome].
    split.
    + rewrite Hnone. split.
      * intros Hnil width strategy Hw Hs.
        destruct (SearchFacts.shFinal _ _) as [c|] eqn:Hfin; [|done].
        exfalso. assert (Hc : c ∈ finals).
        { apply list_elem_of_omap. eexists. split; [|exact Hfin].
          apply SearchFacts.elem_of_runsOf. by exists width, strategy. }
        rewrite Hnil in Hc. by apply elem_of_nil in Hc.
      * intros Hall. apply elem_of_nil_inv.
        intros c (r & Hr & Hfin)%list_elem_of_omap.
        apply SearchFacts.elem_of_runsOf in Hr as (width & strategy & Hw & Hs & ->).
        rewrite (Hall width strategy Hw Hs) in Hfin. done.
    + intros best Hbest. destruct (Hsome best Hbest) as (area & Hmem & Hgood).
      apply list_elem_of_omap in Hmem as (r & Hr & Hfin).
      apply SearchFacts.elem_of_runsOf in Hr as (width & strategy & Hw & Hs & ->).
      exists width, strategy, area. repeat split; try done.
      * by destruct (SearchFacts.shFinal_contained images padding width strategy
                       usePowerOfTwo _ Hpos Hp Hfin) as (? & _).
      * intros width' strategy' c' Hw' Hs' Hfin'. apply Hgood.
        apply list_elem_of_omap. eexists. split; [|exact Hfin'].
        apply SearchFacts.elem_of_runsOf. by exists width', strategy'.
Qed.

(** The layout that the MaxRectangles grid search returns for the three
    images, padding 2, maximal width 2048, power-of-two sizes. *)
Definition bestOfThree : Layout.t Z :=
  Layout.mk
    [ Frame.mk "img_120x120" 0 0 120 120 120 120 0 0 false;
      Frame.mk "img_150x80" 122 0 150 80 150 80 0 0 false;
      Frame.mk "img_100x100" 274 0 100 100 100 100 0 0 false ]
    512 128.

Lemma grid_search_best_witness :
  threeImages <> [] /\ MaxRectsFacts.positive threeImages /\ 0 <= 2
  /\ exists width strategy area,
      width ∈ MaxRects.widthOptions threeImages 2048 true
      /\ strategy ∈ MaxRects.sortStrategies
      /\ SearchFacts.mrFinal true (MaxRects.attempt threeImages 2 width strategy)
         = Some (bestOfThree, area)
      /\ area = inject_Z (512 * 128).
Proof.
  assert (Hne : threeImages <> []) by discriminate.
  assert (Hp : 0 <= 2) by lia.
  split; [exact Hne|]. split; [exact threeImages_positive|]. split; [exact Hp|].
  destruct (grid_search_best threeImages 2 2048 true Hne threeImages_positive Hp)
    as [[_ Hsome] _].
  destruct (Hsome bestOfThree) as (width & strategy & area & Hw & Hs & Hfin & Ha & _).
  - vm_compute. reflexivity.
  - exists width, strategy, area. repeat split; assumption.
Defined.

(** ** ImageGrouper *)

(** C8 (grouping conservation).  For a positive cap on the images of a
    group, the groups returned by [groupImages] hold the input images, each
    one once: the images of all groups are a permutation of the input, the
    sizes of the groups add up to the number of input images, and the empty
    list gives no group. *)
Theorem groupImages_partition cfg images :
  0 < Grouper.MAX_IMAGES_PER_GROUP cfg ->
  GrouperFacts.allItems (Grouper.groupImages cfg images) ≡ₚ images
  /\ sum_list (map (fun g => length (Grouper.items g))
                   (Grouper.groupImages cfg images))
     = length images
  /\ Grouper.groupImages cfg [] = [].
Proof.
  intros Hcap.
  assert (Hperm : GrouperFacts.allItems (Grouper.groupImages cfg images) ≡ₚ images).
  { unfold Grouper.groupImages. destruct images as [|im images]; [done|].
    cbn [length Nat.eqb].
    rewrite GrouperFacts.limitGroupSize_items by done.
    rewrite GrouperFacts.mergeSmallGroups_Permutation.
    rewrite GrouperFacts.refineGroups_Permutation.
    apply GrouperFacts.groupBySize_Permutation. }
  split; [done|]. split; [|done].
  rewrite <- GrouperFacts.length_allItems. by rewrite Hperm.
Qed.

Lemma groupImages_partition_witness :
  0 < Grouper.MAX_IMAGES_PER_GROUP Grouper.GROUPING_CONFIG
  /\ GrouperFacts.allItems (Grouper.groupImages Grouper.GROUPING_CONFIG threeImages)
     ≡ₚ threeImages.
Proof.
  assert (Hcap : 0 < Grouper.MAX_IMAGES_PER_GROUP Grouper.GROUPING_CONFIG)
    by (simpl; lia).
  split; [exact Hcap|].
  exact (proj1 (groupImages_partition Grouper.GROUPING_CONFIG threeImages Hcap)).
Defined.

(** Four images, one in each of four buckets: small and tall, small and
    normal, medium and tall, medium and normal. *)
Definition fourBuckets : list Image.t :=
  [ Image.mk "a" 10 30; Image.mk "b" 10 10;
    Image.mk "c" 100 300; Image.mk "d" 200 200 ].

(** C9 at a failing input.  The four buckets of one image each are merged
    in pairs, and the merge step returns two groups of two images: two
    groups have fewer than five images. *)
Theorem merge_leaves_two_small_groups :
  let refined :=
    Grouper.refineGroupsByAspectRatio Grouper.GROUPING_CONFIG
      (Grouper.groupBySize Grouper.GROUPING_CONFIG fourBuckets) in
  map Grouper.name refined
  = ["small_tall"; "small_normal"; "medium_tall"; "medium_normal"]
  /\ map (fun g => (Grouper.name g, length (Grouper.items g)))
         (Grouper.mergeSmallGroups refined)
     = [("small_tall+small_normal", 2%nat); ("medium_tall+medium_normal", 2%nat)]
  /\ length (List.filter (fun g => (length (Grouper.items g) <? 5)%nat)
                         (Grouper.mergeSmallGroups refined)) = 2%nat
  /\ map (fun g => length (Grouper.items g))
         (Grouper.groupImages Grouper.GROUPING_CONFIG fourBuckets)
     = [2%nat; 2%nat].
Proof. vm_compute. repeat split; reflexivity. Qed.

(** ** AlgorithmSelector *)

(** C10 (state update of [recordResult]): the selector after
    [resetStatistics].  The constructor gives both entries the four
    properties [usage], [successRate], [efficiencies] and [avgEfficiency];
    [resetStatistics] puts entries with [usage] and [successRate] only in
    their place.  On the constructor's state the call
    [recordResult('shelf', true, 80)] does what the specification says: the
    usage becomes 1, the buffer holds 80, the average is 80, the success
    rate is 1 and the history holds the record of the call.  After
    [resetStatistics] the same call raises the usage to 1 and throws a
    [TypeError] at [efficiencies.push]: the entry has no buffer and no
    average, the success rate is still 0 and the history is still empty. *)
Theorem recordResult_throws_after_reset :
  let built := SelectorReset.ofSelector Selector.initial in
  let fresh := SelectorReset.resetStatistics built in
  (exists sel',
      SelectorReset.recordResult 1000 built "shelf" true 80
      = SelectorReset.Returned sel'
      /\ SelectorReset.statistics sel' !! "shelf"
         = Some (SelectorReset.mkStats 1 1 (Some [80%Q]) (Some 80%Q))
      /\ SelectorReset.history sel'
         = [Selector.mkRecord "shelf" true 80 1000])
  /\ SelectorReset.statistics fresh !! "shelf"
     = Some (SelectorReset.mkStats 0 0 None None)
  /\ SelectorReset.history fresh = []
  /\ exists thrown,
      SelectorReset.recordResult 1000 fresh "shelf" true 80
      = SelectorReset.ThrewTypeError thrown
      /\ SelectorReset.statistics thrown !! "shelf"
         = Some (SelectorReset.mkStats 1 0 None None)
      /\ SelectorReset.history thrown = [].
Proof.
  cbv zeta. split.
  { eexists. split; [vm_compute; reflexivity|]. split; reflexivity. }
  split; [reflexivity|]. split; [reflexivity|].
  eexists. split; [vm_compute; reflexivity|]. split; reflexivity.
Qed.

(** * Further parts of the code *)

(*MODEL*)
(*FACTS*)

Module MaxRectsBounds.
Import MaxRects MaxRectsFacts.

(** The frame the packer pushes for an image: name and original size of
    the image, no offset, and the size of the image, swapped when the frame
    is rotated. *)
Definition frameOf (item : Image.t) (f : Frame.t Z) : Prop :=
  Frame.name f = Image.name item
  /\ Frame.originalWidth f = Image.width item
  /\ Frame.originalHeight f = Image.height item
  /\ Frame.offsetX f = 0 /\ Frame.offsetY f = 0
  /\ ((Frame.rotated f = false
       /\ Frame.width f = Image.width item /\ Frame.height f = Image.height item)
      \/ (Frame.rotated f = true
          /\ Frame.width f = Image.height item /\ Frame.height f = Image.width item)).

Lemma placeItem_frameOf p st item st' :
  placeItem p st item = Some st' ->
  exists f, frames st' = frames st ++ [f] /\ frameOf item f.
Proof.
  unfold placeItem. intros H.
  destruct (Rect.height (findPositionForNewNodeBestShortSideFit _ _ _) =? 0).
  - destruct (Rect.height (findPositionForNewNodeBestShortSideFit _ _ _) =? 0);
      [done|].
    injection H as <-. eexists. split; [reflexivity|].
    unfold frameOf. cbn. repeat split; auto.
  - injection H as <-. eexists. split; [reflexivity|].
    unfold frameOf. cbn. repeat split; auto.
Qed.

Lemma placeAll_frameOf p images : forall st st',
  placeAll p st images = Some st' ->
  exists fs, frames st' = frames st ++ fs /\ Forall2 frameOf images fs.
Proof.
  induction images as [|item rest IH]; intros st st' H; simpl in H.
  - injection H as <-. exists []. by rewrite app_nil_r.
  - destruct (placeItem p st item) as [st1|] eqn:H1; [|done].
    apply placeItem_frameOf in H1 as (f & Hf & Hof).
    apply IH in H as (fs & Hfs & Hall).
    exists (f :: fs). split; [|by constructor].
    rewrite Hfs, Hf, <- app_assoc. done.
Qed.

Lemma maxRectanglesPack_frameOf images p maxWidth layout :
  maxRectanglesPack images p maxWidth = Some layout ->
  Forall2 frameOf images (Layout.frames layout).
Proof.
  unfold maxRectanglesPack.
  destruct (placeAll p (initialState maxWidth) images) as [st|] eqn:H; [|done].
  intros [= <-]. apply placeAll_frameOf in H as (fs & Hfs & Hall).
  simpl in *. by rewrite Hfs.
Qed.

(** A rectangle that lies in the bin [maxWidth x 4096]. *)
Definition inBin (maxWidth : Z) (r : Rect.t) : Prop :=
  Rect.x r + Rect.width r <= maxWidth /\ Rect.y r + Rect.height r <= 4096.

Definition freeInBin (maxWidth : Z) (st : State) : Prop :=
  forall r, r ∈ freeRectangles st -> inBin maxWidth r.

Lemma freeInBin_initial maxWidth : freeInBin maxWidth (initialState maxWidth).
Proof.
  intros r ->%list_elem_of_singleton. unfold inBin. simpl. lia.
Qed.

Lemma placeItem_inBin p maxWidth st item st' :
  0 < Image.width item -> 0 < Image.height item -> 0 <= p ->
  freeInBin maxWidth st ->
  placeItem p st item = Some st' ->
  freeInBin maxWidth st'
  /\ exists f, frames st' = frames st ++ [f]
       /\ Frame.x f + Frame.width f + p <= maxWidth
       /\ Frame.y f + Frame.height f + p <= 4096.
Proof.
  intros Hw Hh Hp Hbin H.
  apply placeItem_Some in H
    as (r & frame & Hr & Hx & Hy & Hfw & Hfh & _ & _ & _ & ->); [|done..].
  destruct (Hbin r Hr) as [Hbx Hby].
  split.
  - intros r' Hr'. cbn [freeRectangles] in Hr'.
    apply splitFreeRectangles_elem in Hr'
      as [[Hin _]|(fr & Hfr & Hins & _)]; [by apply Hbin|].
    destruct (Hbin fr Hfr) as [Hfx Hfy].
    destruct Hins as (? & ? & ? & ?). unfold inBin. lia.
  - exists frame. cbn [frames]. split; [done|]. lia.
Qed.

Lemma placeAll_inBin p maxWidth images : forall st st',
  positive images -> 0 <= p ->
  freeInBin maxWidth st ->
  placeAll p st images = Some st' ->
  exists fs, frames st' = frames st ++ fs
    /\ forall f, f ∈ fs ->
         Frame.x f + Frame.width f + p <= maxWidth
         /\ Frame.y f + Frame.height f + p <= 4096.
Proof.
  induction images as [|item rest IH]; intros st st' Hpos Hp Hbin H; simpl in H.
  - injection H as <-. exists []. split; [by rewrite app_nil_r|].
    intros f Hf. by apply elem_of_nil in Hf.
  - destruct (placeItem p st item) as [st1|] eqn:H1; [|done].
    destruct (Hpos item) as [Hw Hh]; [left|].
    apply (placeItem_inBin p maxWidth) in H1 as (Hbin1 & f & Hf & Hfx & Hfy);
      [|done..].
    apply IH in H as (fs & Hfs & Hall); [|by intros im Him; apply Hpos; right|done..].
    exists (f :: fs). split; [by rewrite Hfs, Hf, <- app_assoc|].
    intros g [->|Hg]%elem_of_cons; [done|by apply Hall].
Qed.

Lemma fold_max_le {A : Type} (g : A -> Z) (l : list A) (init bound : Z) :
  init <= bound -> (forall a, a ∈ l -> g a <= bound) ->
  fold_left (fun m a => Z.max m (g a)) l init <= bound.
Proof.
  revert init. induction l as [|a l IH]; intros init Hinit Hall; simpl; [done|].
  apply IH; [|by intros b Hb; apply Hall; right].
  pose proof (Hall a (list_elem_of_here _ _)). lia.
Qed.

Lemma maxRectanglesPack_inBin images p maxWidth layout :
  positive images -> 0 <= p ->
  maxRectanglesPack images p maxWidth = Some layout ->
  (forall f, f ∈ Layout.frames layout ->
     Frame.x f + Frame.width f + p <= maxWidth
     /\ Frame.y f + Frame.height f + p <= 4096)
  /\ Layout.width layout <= Z.max p maxWidth
  /\ Layout.height layout <= Z.max p 4096.
Proof.
  intros Hpos Hp. unfold maxRectanglesPack.
  destruct (placeAll p (initialState maxWidth) images) as [st|] eqn:H; [|done].
  intros [= <-].
  apply (placeAll_inBin p maxWidth) in H as (fs & Hfs & Hall);
    [|done|done|apply freeInBin_initial].
  simpl in Hfs. subst fs. cbn [Layout.frames Layout.width Layout.height].
  split; [done|]. split.
  - apply fold_max_le; [lia|]. intros f Hf. destruct (Hall f Hf). lia.
  - apply fold_max_le; [lia|]. intros f Hf. destruct (Hall f Hf). lia.
Qed.

End MaxRectsBounds.

Module MaxRectsSearch.
Import MaxRects MaxRectsFacts MaxRectsBounds.

(** A result of the grid search is the layout of one of its attempts, with
    the final size of that attempt. *)
Lemma maxRects_search_member images padding maxWidth usePowerOfTwo best :
  packImagesWithMaxRectangles images padding maxWidth usePowerOfTwo = Some best ->
  exists width strategy layout,
    width ∈ widthOptions images maxWidth usePowerOfTwo
    /\ strategy ∈ sortStrategies
    /\ maxRectanglesPack (stableSort strategy images) padding width = Some layout
    /\ finalSize usePowerOfTwo layout
       = Some (Layout.width best, Layout.height best)
    /\ Layout.frames best = Layout.frames layout.
Proof.
  rewrite SearchFacts.mr_search_eq. intros H.
  apply SearchFacts.pick_member in H as [H|[area H]]; [done|].
  apply list_elem_of_omap in H as (r & Hr & Hfinal).
  apply SearchFacts.elem_of_mrRuns in Hr as (width & strategy & Hw & Hs & ->).
  exists width, strategy. unfold SearchFacts.mrFinal, attempt in Hfinal.
  destruct (maxRectanglesPack _ _ _) as [layout|] eqn:Hpack; [|done].
  exists layout. destruct (finalSize usePowerOfTwo layout) as [[fw fh]|] eqn:Hfs;
    [|done].
  injection Hfinal as <- _. done.
Qed.

Lemma elem_of_powerOfTwoWidths w effectiveMaxWidth :
  w ∈ powerOfTwoWidths effectiveMaxWidth ->
  w <= effectiveMaxWidth /\ exists k, 6 <= k <= 11 /\ w = 2 ^ k.
Proof.
  unfold powerOfTwoWidths. intros [Hin Hle]%ShelfFacts.elem_of_List_filter.
  split; [lia|].
  apply list_elem_of_fmap in Hin as (k & -> & Hk).
  exists k. split; [|done].
  repeat (apply elem_of_cons in Hk as [->|Hk]; [lia|]).
  by apply elem_of_nil in Hk.
Qed.

Lemma elem_of_widthOptions images maxWidth usePowerOfTwo w :
  w ∈ widthOptions images maxWidth usePowerOfTwo ->
  w <= Z.min maxWidth 2048
  /\ (usePowerOfTwo = true -> exists k, 6 <= k <= 11 /\ w = 2 ^ k).
Proof.
  unfold widthOptions. rewrite stableSort_Permutation.
  destruct usePowerOfTwo.
  - intros [Hle Hk]%elem_of_powerOfTwoWidths. done.
  - intros Hin. split; [|done].
    set (aligned := Qceiling _ * 16) in *. clearbody aligned.
    destruct ((aligned <=? Z.min maxWidth 2048) && (256 <=? aligned)) eqn:Ha.
    + apply andb_prop in Ha as [Ha _]. apply Z.leb_le in Ha.
      cbn [fold_left] in Hin.
      assert (Hstep : forall opts adj,
                (forall v, v ∈ opts -> v <= Z.min maxWidth 2048) ->
                forall v, v ∈ (if (256 <=? adj) && (adj <=? Z.min maxWidth 2048)
                                  && negb (includes opts adj)
                               then opts ++ [adj] else opts) ->
                          v <= Z.min maxWidth 2048).
      { intros opts adj Hopts v.
        destruct ((256 <=? adj) && (adj <=? Z.min maxWidth 2048)
                  && negb (includes opts adj)) eqn:Hc; [|by apply Hopts].
        apply andb_prop in Hc as [[_ Hc]%andb_prop _]. apply Z.leb_le in Hc.
        intros [Hv| ->%list_elem_of_singleton]%elem_of_app; [by apply Hopts|done]. }
      match type of Hin with
      | w ∈ (if length ?l =? 0 then _ else _)%nat =>
          assert (Hl : forall v, v ∈ l -> v <= Z.min maxWidth 2048)
      end.
      { do 4 apply Hstep. by intros v ->%list_elem_of_singleton. }
      destruct (length _ =? 0)%nat; [|by apply Hl].
      apply list_elem_of_singleton in Hin as ->. done.
    + cbn [length Nat.eqb] in Hin. by apply list_elem_of_singleton in Hin as ->.
Qed.

Lemma nextPowerOf2_le_pow2 n k : 0 <= k -> n <= 2 ^ k -> nextPowerOf2 n <= 2 ^ k.
Proof.
  intros Hk Hn. unfold nextPowerOf2.
  apply Z.pow_le_mono_r; [lia|].
  apply Z.log2_up_le_pow2; [lia|].
  pose proof (Z.pow_pos_nonneg 2 k). lia.
Qed.

End MaxRectsSearch.

Module ShelfSearch.
Import ShelfPacker.

Lemma shelf_search_member images padding maxWidth usePowerOfTwo best :
  packImages images padding maxWidth usePowerOfTwo = Done (Some best) ->
  exists width strategy layout,
    width ∈ widthOptions images maxWidth usePowerOfTwo
    /\ strategy ∈ sortStrategies
    /\ packImagesInternal (stableSort strategy images) (inject_Z padding)
         (inject_Z width) = Done layout
    /\ finalSize usePowerOfTwo layout
       = Some (Layout.width best, Layout.height best)
    /\ Layout.frames best = Layout.frames layout.
Proof.
  rewrite SearchFacts.packImages_eq. intros H%ShelfFacts.Done_inj.
  apply SearchFacts.pick_member in H as [H|[area H]]; [done|].
  apply list_elem_of_omap in H as (r & Hr & Hfinal).
  apply SearchFacts.elem_of_runsOf in Hr as (width & strategy & Hw & Hs & ->).
  exists width, strategy. unfold SearchFacts.shFinal, attempt in Hfinal.
  destruct (packImagesInternal _ _ _) as [layout| |] eqn:Hpack; [|done|done].
  exists layout. destruct (finalSize usePowerOfTwo layout) as [[fw fh]|] eqn:Hfs;
    [|done].
  injection Hfinal as <- _. done.
Qed.

End ShelfSearch.

(** * Further properties of the packers *)

(** A small sprite set for the examples. *)
Definition spriteSet : list Image.t :=
  [ Image.mk "hero" 64 96; Image.mk "coin" 32 32; Image.mk "door" 48 128 ].

Lemma spriteSet_positive : MaxRectsFacts.positive spriteSet.
Proof.
  intros im Him. unfold spriteSet in Him.
  repeat (apply elem_of_cons in Him as [->|Him]; [simpl; lia|]).
  by apply elem_of_nil in Him.
Qed.

(** The atlas the MaxRectangles search returns for the sprite set with
    padding 2, width limit 2048 and power-of-two sizes. *)
Definition spriteAtlas : Layout.t Z :=
  Layout.mk
    [ Frame.mk "hero" 0 0 64 96 64 96 0 0 false;
      Frame.mk "door" 66 0 48 128 48 128 0 0 false;
      Frame.mk "coin" 0 98 32 32 32 32 0 0 false ]
    128 256.

Lemma spriteAtlas_eq :
  MaxRects.packImagesWithMaxRectangles spriteSet 2 2048 true = Some spriteAtlas.
Proof. vm_compute. reflexivity. Qed.

(** X1.  For [n] up to [2 ^ 31], where the logarithm of the program is
    accurate enough for its ceiling to be exact, [nextPowerOf2 n] is a power
    of two that is at least [n]; above 1 it is less than [2 * n], so it is
    the least such power; it is 1 up to [n = 1] and leaves a power of two as
    it is. *)
Theorem nextPowerOf2_least n :
  n <= 2 ^ 31 ->
  (exists k, 0 <= k <= 31 /\ nextPowerOf2 n = 2 ^ k)
  /\ n <= nextPowerOf2 n
  /\ (1 < n -> nextPowerOf2 n < 2 * n)
  /\ (n <= 1 -> nextPowerOf2 n = 1)
  /\ ((exists k, 0 <= k /\ n = 2 ^ k) -> nextPowerOf2 n = n).
Proof.
  intros Hmax. unfold nextPowerOf2. split; [|split; [|split; [|split]]].
  - exists (Z.log2_up (Z.max 1 n)). split; [|done].
    split; [apply Z.log2_up_nonneg|].
    apply Z.log2_up_le_pow2; lia.
  - apply nextPowerOf2_ge.
  - intros Hn. rewrite Z.max_r by lia.
    destruct (Z.log2_up_spec n Hn) as [Hlow _].
    pose proof (Z.log2_up_pos n Hn) as Hpos.
    replace (Z.log2_up n) with (Z.succ (Z.pred (Z.log2_up n))) by lia.
    rewrite Z.pow_succ_r by lia. lia.
  - intros Hn. rewrite Z.max_l by lia. reflexivity.
  - intros (k & Hk & ->). pose proof (Z.pow_pos_nonneg 2 k).
    rewrite Z.max_r by lia. by rewrite Z.log2_up_pow2.
Qed.

Lemma nextPowerOf2_least_witness :
  100 <= 2 ^ 31 /\ 100 <= nextPowerOf2 100 /\ nextPowerOf2 100 < 2 * 100.
Proof.
  assert (H : 100 <= 2 ^ 31) by (vm_compute; discriminate).
  destruct (nextPowerOf2_least 100 H) as (_ & Hge & Hlt & _).
  split; [exact H|]. split; [exact Hge|]. apply Hlt. lia.
Defined.

(** X2.  The frames of an atlas returned by the MaxRectangles search are
    the input images in the order of one of the three sort strategies: the
    frames stand for the images sorted by that strategy, one frame per
    image in that order, with the name and the original size of the image,
    no offset, and the size of the image, width and height swapped exactly
    when the frame is marked rotated. *)
Theorem maxRects_frames_match_images images padding maxWidth usePowerOfTwo best :
  MaxRects.packImagesWithMaxRectangles images padding maxWidth usePowerOfTwo
  = Some best ->
  exists strategy,
    strategy ∈ MaxRects.sortStrategies
    /\ Forall2 MaxRectsBounds.frameOf (stableSort strategy images)
               (Layout.frames best)
    /\ stableSort strategy images ≡ₚ images
    /\ length (Layout.frames best) = length images.
Proof.
  intros (width & strategy & layout & _ & Hs & Hpack & _ & Hframes)
    %MaxRectsSearch.maxRects_search_member.
  exists strategy. split; [done|].
  pose proof (stableSort_Permutation strategy images) as Hperm.
  apply MaxRectsBounds.maxRectanglesPack_frameOf in Hpack.
  rewrite Hframes. split; [done|]. split; [done|].
  rewrite <- (Forall2_length _ _ _ Hpack). by rewrite Hperm.
Qed.

Lemma maxRects_frames_match_images_witness :
  exists strategy,
    strategy ∈ MaxRects.sortStrategies
    /\ Forall2 MaxRectsBounds.frameOf (stableSort strategy spriteSet)
               (Layout.frames spriteAtlas).
Proof.
  destruct (maxRects_frames_match_images spriteSet 2 2048 true spriteAtlas
              spriteAtlas_eq) as (strategy & Hs & Hall & _).
  exists strategy. split; [exact Hs|exact Hall].
Defined.

(** X3.  For a non-empty list of images of positive size and a padding
    that is not negative, the atlas returned by the MaxRectangles search is
    at most [min(maxWidth, 2048)] wide and at most 4096 high, and every
    frame keeps its padding inside that width. *)
Theorem maxRects_atlas_within_limits images padding maxWidth usePowerOfTwo best :
  images <> [] -> MaxRectsFacts.positive images -> 0 <= padding ->
  MaxRects.packImagesWithMaxRectangles images padding maxWidth usePowerOfTwo
  = Some best ->
  Layout.width best <= Z.min maxWidth 2048
  /\ Layout.height best <= 4096
  /\ forall f, f ∈ Layout.frames best ->
       Frame.x f + Frame.width f + padding <= Z.min maxWidth 2048
       /\ Frame.y f + Frame.height f + padding <= 4096.
Proof.
  intros Hne Hpos Hp
    (width & strategy & layout & Hw & _ & Hpack & Hfinal & Hframes)
    %MaxRectsSearch.maxRects_search_member.
  apply MaxRectsSearch.elem_of_widthOptions in Hw as [Hwle Hwpow].
  pose proof (SearchFacts.positive_stableSort strategy images Hpos) as Hpos'.
  pose proof (SearchFacts.stableSort_not_nil strategy images Hne) as Hne'.
  destruct (MaxRectsBounds.maxRectanglesPack_inBin _ _ _ _ Hpos' Hp Hpack)
    as (Hbin & Hlw & Hlh).
  destruct (MaxRectsFacts.maxRectanglesPack_contained _ _ _ _ Hpos' Hp Hpack)
    as (_ & _ & Hplaced).
  pose proof (MaxRectsFacts.maxRectanglesPack_length _ _ _ _ Hpack) as Hlen.
  destruct (Layout.frames layout) as [|f0 fs] eqn:Hfs.
  { destruct (stableSort strategy images); [done|discriminate Hlen]. }
  assert (Hf0 : f0 ∈ f0 :: fs) by left.
  destruct (Hbin f0 Hf0) as [Hx0 Hy0].
  destruct (Hplaced f0 Hf0) as ((? & ? & ? & ?) & _ & _).
  assert (Hlw' : Layout.width layout <= width) by lia.
  assert (Hlh' : Layout.height layout <= 4096) by lia.
  rewrite Hframes.
  assert (Hsize : Layout.width best <= width /\ Layout.height best <= 4096).
  { unfold MaxRects.finalSize in Hfinal. destruct usePowerOfTwo.
    - destruct ((2048 <? _) || (2048 <? _)) eqn:Hbig; [done|].
      apply orb_false_elim in Hbig as [_ Hbh]. apply Z.ltb_ge in Hbh.
      injection Hfinal as <- <-.
      destruct (Hwpow eq_refl) as (k & Hk & ->).
      split; [apply MaxRectsSearch.nextPowerOf2_le_pow2; lia|lia].
    - injection Hfinal as <- <-. done. }
  split; [lia|]. split; [lia|].
  intros f Hf. destruct (Hbin f Hf). lia.
Qed.

Lemma maxRects_atlas_within_limits_witness :
  spriteSet <> [] /\ MaxRectsFacts.positive spriteSet /\ 0 <= 2
  /\ Layout.width spriteAtlas <= Z.min 2048 2048
  /\ Layout.height spriteAtlas <= 4096.
Proof.
  assert (Hne : spriteSet <> []) by discriminate.
  assert (Hp : 0 <= 2) by lia.
  destruct (maxRects_atlas_within_limits spriteSet 2 2048 true spriteAtlas
              Hne spriteSet_positive Hp spriteAtlas_eq) as (Hw & Hh & _).
  split; [exact Hne|]. split; [exact spriteSet_positive|].
  split; [exact Hp|]. split; [exact Hw|exact Hh].
Defined.

(** X4.  With power-of-two sizes the width and the height of the atlas
    returned by the MaxRectangles search are powers of two, 2048 at most. *)
Theorem maxRects_power_of_two_size images padding maxWidth best :
  MaxRects.packImagesWithMaxRectangles images padding maxWidth true = Some best ->
  exists a b,
    0 <= a <= 11 /\ 0 <= b <= 11
    /\ Layout.width best = 2 ^ a /\ Layout.height best = 2 ^ b.
Proof.
  intros (width & strategy & layout & _ & _ & _ & Hfinal & _)
    %MaxRectsSearch.maxRects_search_member.
  unfold MaxRects.finalSize in Hfinal.
  destruct ((2048 <? _) || (2048 <? _)) eqn:Hbig; [done|].
  apply orb_false_elim in Hbig as [Hbw Hbh].
  apply Z.ltb_ge in Hbw, Hbh. injection Hfinal as Hw Hh.
  unfold nextPowerOf2 in *.
  exists (Z.log2_up (Z.max 1 (Layout.width layout))),
         (Z.log2_up (Z.max 1 (Layout.height layout))).
  assert (Hexp : forall e, 0 <= e -> 2 ^ e <= 2048 -> e <= 11).
  { intros e He Hle. apply (Z.pow_le_mono_r_iff 2); [lia|lia|].
    change (2 ^ 11) with 2048. done. }
  pose proof (Z.log2_up_nonneg (Z.max 1 (Layout.width layout))).
  pose proof (Z.log2_up_nonneg (Z.max 1 (Layout.height layout))).
  repeat split; auto.
Qed.

Lemma maxRects_power_of_two_size_witness :
  exists a b, Layout.width spriteAtlas = 2 ^ a /\ Layout.height spriteAtlas = 2 ^ b.
Proof.
  destruct (maxRects_power_of_two_size spriteSet 2 2048 spriteAtlas spriteAtlas_eq)
    as (a & b & _ & _ & Hw & Hh).
  exists a, b. split; [exact Hw|exact Hh].
Defined.

(** X5.  With power-of-two sizes and a width limit below 64 the
    MaxRectangles search has no working width to try and returns [null],
    whatever the images. *)
Theorem maxRects_no_width_below_64 images padding maxWidth :
  maxWidth < 64 ->
  MaxRects.widthOptions images maxWidth true = []
  /\ MaxRects.packImagesWithMaxRectangles images padding maxWidth true = None.
Proof.
  intros Hlt.
  assert (Hopts : MaxRects.widthOptions images maxWidth true = []).
  { unfold MaxRects.widthOptions, MaxRects.powerOfTwoWidths.
    rewrite ShelfFacts.filter_none; [done|].
    intros w Hw. apply Z.leb_gt.
    apply list_elem_of_fmap in Hw as (k & -> & Hk).
    repeat (apply elem_of_cons in Hk as [->|Hk]; [simpl; lia|]).
    by apply elem_of_nil in Hk. }
  split; [done|].
  unfold MaxRects.packImagesWithMaxRectangles. by rewrite Hopts.
Qed.

Lemma maxRects_no_width_below_64_witness :
  32 < 64 /\ MaxRects.packImagesWithMaxRectangles spriteSet 2 32 true = None.
Proof.
  assert (H : 32 < 64) by lia.
  split; [exact H|].
  exact (proj2 (maxRects_no_width_below_64 spriteSet 2 32 H)).
Defined.

Module ShelfBounds.
Import ShelfPacker ShelfFacts.
Local Open Scope Q_scope.

(** The frame the Shelf packer pushes for an image. *)
Definition frameOf (item : Image.t) (f : Frame.t Q) : Prop :=
  Frame.name f = Image.name item
  /\ Frame.originalWidth f = inject_Z (Image.width item)
  /\ Frame.originalHeight f = inject_Z (Image.height item)
  /\ Frame.offsetX f = 0 /\ Frame.offsetY f = 0
  /\ ((Frame.rotated f = false
       /\ Frame.width f = inject_Z (Image.width item)
       /\ Frame.height f = inject_Z (Image.height item))
      \/ (Frame.rotated f = true
          /\ Frame.width f = inject_Z (Image.height item)
          /\ Frame.height f = inject_Z (Image.width item))).

Lemma frameOf_mkFrame (item : Image.t) (x y : Q) (rot : bool) :
  frameOf item
    (mkFrame item x y
       (if rot then inject_Z (Image.height item) else inject_Z (Image.width item))
       (if rot then inject_Z (Image.width item) else inject_Z (Image.height item))
       rot).
Proof. unfold frameOf, mkFrame. destruct rot; cbn; repeat split; auto. Qed.

(** Two frames that differ in [y] at most: what the re-centring loop of the
    merge changes. *)
Definition sameButY (f g : Frame.t Q) : Prop :=
  Frame.name g = Frame.name f /\ Frame.x g = Frame.x f
  /\ Frame.width g = Frame.width f /\ Frame.height g = Frame.height f
  /\ Frame.originalWidth g = Frame.originalWidth f
  /\ Frame.originalHeight g = Frame.originalHeight f
  /\ Frame.offsetX g = Frame.offsetX f /\ Frame.offsetY g = Frame.offsetY f
  /\ Frame.rotated g = Frame.rotated f.

Lemma sameButY_shift (y off : Q) (f : Frame.t Q) : sameButY f (shiftFrame y off f).
Proof.
  unfold sameButY, shiftFrame. destruct (Qeq_bool _ _); cbn; repeat split; auto.
Qed.

Lemma sameButY_refl f : sameButY f f.
Proof. unfold sameButY. repeat split; auto. Qed.

Lemma frameOf_sameButY item f g : frameOf item f -> sameButY f g -> frameOf item g.
Proof.
  unfold frameOf, sameButY.
  intros (? & ? & ? & ? & ? & Hrot) (? & ? & ? & ? & ? & ? & ? & ? & ?).
  do 5 (split; [congruence|]).
  destruct Hrot as [(? & ? & ?)|(? & ? & ?)]; [left|right];
    repeat split; congruence.
Qed.

(** What one iteration of the item loop does to [frames]: the frames that
    were there keep everything but [y], and one frame is pushed for the
    item; it ends left of [maxWidth]. *)
Definition extends (maxWidth : Q) (item : Image.t)
    (before after : list (Frame.t Q)) : Prop :=
  exists kept f,
    after = kept ++ [f]
    /\ Forall2 sameButY before kept
    /\ frameOf item f
    /\ Frame.x f + Frame.width f <= maxWidth.

Lemma Forall2_sameButY_refl fs : Forall2 sameButY fs fs.
Proof. induction fs; constructor; auto using sameButY_refl. Qed.

Lemma Forall2_sameButY_shift y off fs :
  Forall2 sameButY fs (map (shiftFrame y off) fs).
Proof. induction fs; constructor; auto using sameButY_shift. Qed.

Lemma placeItem_extends padding maxWidth p item p' :
  0 <= padding ->
  placeItem padding maxWidth p item = Done p' ->
  extends maxWidth item (frames (state p)) (frames (state p'))
  /\ newImages p' = newImages p.
Proof.
  intros Hpad. unfold placeItem.
  destruct (Qltb maxWidth _ && Qltb maxWidth _); [done|].
  destruct (bestShelf _) as [[k shelf]|] eqn:Hbest.
  - intros <-%Done_inj. cbn [state newImages]. split; [|done].
    apply bestShelf_lookup in Hbest as [_ Hfit].
    set (rot := bestRotated _) in *. clearbody rot.
    unfold placeOnShelf. cbn [frames].
    eexists _, _. split; [reflexivity|].
    split; [apply Forall2_sameButY_refl|].
    split; [apply frameOf_mkFrame|].
    unfold fitsShelf, remainingWidth in Hfit.
    apply andb_prop in Hfit as [Hfit _]. apply Qle_bool_iff in Hfit.
    unfold placedWidth in Hfit. unfold mkFrame. cbn [Frame.x Frame.width].
    destruct rot; lra.
  - unfold openShelf.
    destruct (newShelfY padding (shelves (state p))) as [newY| |]; [|done|done].
    destruct (Qltb 4096 newY); [done|].
    set (rot := newShelfRotated _ _ _ _). clearbody rot.
    destruct (Qltb maxWidth _) eqn:Hwide; [done|].
    apply Qltb_false in Hwide.
    destruct (optimalHeight _ _) as [optimal isKey].
    unfold mergeIntoLast.
    destruct (last (shelves (state p))) as [lastShelf|].
    + destruct (Qle_bool _ _ && Qle_bool _ maxWidth) eqn:Hmerge.
      * intros <-%Done_inj. cbn [state newImages frames]. split; [|done].
        apply andb_prop in Hmerge as [_ Hmerge]. apply Qle_bool_iff in Hmerge.
        eexists _, _. split; [reflexivity|].
        split; [apply Forall2_sameButY_shift|].
        split; [apply frameOf_mkFrame|].
        unfold mkFrame. cbn [Frame.x Frame.width].
        destruct rot; lra.
      * intros <-%Done_inj. cbn [state newImages frames]. split; [|done].
        eexists _, _. split; [reflexivity|].
        split; [apply Forall2_sameButY_refl|].
        split; [apply frameOf_mkFrame|].
        unfold mkFrame. cbn [Frame.x Frame.width].
        destruct rot; lra.
    + intros <-%Done_inj. cbn [state newImages frames]. split; [|done].
      eexists _, _. split; [reflexivity|].
      split; [apply Forall2_sameButY_refl|].
      split; [apply frameOf_mkFrame|].
      unfold mkFrame. cbn [Frame.x Frame.width].
      destruct rot; lra.
Qed.

Lemma sameButY_trans f g h : sameButY f g -> sameButY g h -> sameButY f h.
Proof.
  unfold sameButY.
  intros (? & ? & ? & ? & ? & ? & ? & ? & ?) (? & ? & ? & ? & ? & ? & ? & ? & ?).
  repeat split; congruence.
Qed.

(** The frames after a sweep: those of before, changed in [y] at most, then
    one frame per image of the sweep, in order. *)
Definition sweeps (maxWidth : Q) (images : list Image.t)
    (before after : list (Frame.t Q)) : Prop :=
  exists kept fs,
    after = kept ++ fs
    /\ Forall2 sameButY before kept
    /\ Forall2 frameOf images fs
    /\ forall f, f ∈ fs -> Frame.x f + Frame.width f <= maxWidth.

Lemma sweepFrom_sweeps padding maxWidth images : forall p p',
  0 <= padding ->
  sweepFrom padding maxWidth p images = Done p' ->
  sweeps maxWidth images (frames (state p)) (frames (state p'))
  /\ newImages p' = newImages p.
Proof.
  induction images as [|item rest IH]; intros p p' Hpad H; simpl in H.
  - apply Done_inj in H as <-. split; [|done].
    exists (frames (state p)), []. rewrite app_nil_r.
    split; [done|]. split; [apply Forall2_sameButY_refl|].
    split; [constructor|]. intros f Hf. by apply elem_of_nil in Hf.
  - destruct (placeItem padding maxWidth p item) as [p1| |] eqn:H1; [|done|done].
    apply placeItem_extends in H1 as [(kept1 & f & Hf & Hkept1 & Hof & Hbound) Hnew1];
      [|done].
    apply IH in H as [(kept & fs & Hfs & Hkept & Hall & Hbounds) Hnew]; [|done].
    split; [|congruence].
    rewrite Hf in Hkept.
    apply Forall2_app_inv_l in Hkept as (kept' & fl & Hkept' & Hfl & ->).
    apply Forall2_cons_inv_l in Hfl as (f' & nil' & Hff' & Hnil & ->).
    apply Forall2_nil_inv_l in Hnil as ->.
    exists kept', (f' :: fs). split; [by rewrite Hfs, <- app_assoc|].
    split.
    { clear -Hkept1 Hkept'. revert kept' Hkept'.
      induction Hkept1 as [|a b la lb Hab Hrest IHf]; intros kept' Hk.
      - apply Forall2_nil_inv_l in Hk as ->. constructor.
      - apply Forall2_cons_inv_l in Hk as (c & lc & Hbc & Hlc & ->).
        constructor; [by eapply sameButY_trans|by apply IHf]. }
    split; [constructor; [by eapply frameOf_sameButY|done]|].
    intros g [->|Hg]%elem_of_cons; [|by apply Hbounds].
    destruct Hff' as (_ & Hx & Hw & _). rewrite Hx, Hw. done.
Qed.

Lemma packImagesInternal_frames images padding maxWidth layout :
  0 <= padding ->
  packImagesInternal images padding maxWidth = Done layout ->
  Forall2 frameOf images (Layout.frames layout)
  /\ forall f, f ∈ Layout.frames layout ->
       Frame.x f + Frame.width f <= maxWidth.
Proof.
  intros Hpad. unfold packImagesInternal, packWith.
  destruct images as [|item rest].
  { cbn. intros <-%Done_inj. cbn. split; [constructor|].
    intros f Hf. by apply elem_of_nil in Hf. }
  unfold maxAttempts. cbn [passLoop].
  unfold sweep at 1.
  destruct (sweepFrom padding maxWidth (mkPass (mkState [] []) [] false)
              (item :: rest)) as [p| |] eqn:Hsweep; [|done|done].
  apply sweepFrom_sweeps in Hsweep as [(kept & fs & Hfs & Hkept & Hall & Hbound) Hnew];
    [|done].
  cbn [state frames newImages] in Hkept, Hnew.
  apply Forall2_nil_inv_l in Hkept as ->. simpl in Hfs.
  assert (Hexit : forall e,
            (if negb (placedThisRound p)
             then Done (mkExit (state p) (newImages p) (3 - 3))
             else passLoop (sweep padding maxWidth) 2 (state p)
                    (if negb (length (newImages p) =? 0)%nat
                        && (S (3 - 3) <? 3)%nat
                     then resort (S (3 - 3)) (newImages p)
                     else newImages p)) = Done e ->
            exitState e = state p).
  { intros e. rewrite Hnew. cbn.
    destruct (placedThisRound p); cbn; by intros <-%Done_inj. }
  match goal with
  | |- match ?loop with _ => _ end = _ -> _ => destruct loop as [e| |] eqn:Hloop
  end; [|done|done].
  apply Hexit in Hloop. intros <-%Done_inj.
  unfold layoutOf. cbn [Layout.frames]. rewrite Hloop, Hfs. done.
Qed.

End ShelfBounds.

Module SearchFinal.

Lemma maxRects_final images padding maxWidth usePowerOfTwo best :
  MaxRects.packImagesWithMaxRectangles images padding maxWidth usePowerOfTwo
  = Some best ->
  exists width strategy area,
    SearchFacts.mrFinal usePowerOfTwo
      (MaxRects.attempt images padding width strategy) = Some (best, area).
Proof.
  rewrite SearchFacts.mr_search_eq. intros H.
  apply SearchFacts.pick_member in H as [H|[area H]]; [done|].
  apply list_elem_of_omap in H as (r & Hr & Hfinal).
  apply SearchFacts.elem_of_mrRuns in Hr as (width & strategy & _ & _ & ->).
  by exists width, strategy, area.
Qed.

Lemma shelf_final images padding maxWidth usePowerOfTwo best :
  ShelfPacker.packImages images padding maxWidth usePowerOfTwo = Done (Some best) ->
  exists width strategy area,
    SearchFacts.shFinal usePowerOfTwo
      (ShelfPacker.attempt images padding width strategy) = Some (best, area).
Proof.
  rewrite SearchFacts.packImages_eq. intros H%ShelfFacts.Done_inj.
  apply SearchFacts.pick_member in H as [H|[area H]]; [done|].
  apply list_elem_of_omap in H as (r & Hr & Hfinal).
  apply SearchFacts.elem_of_runsOf in Hr as (width & strategy & _ & _ & ->).
  by exists width, strategy, area.
Qed.

Lemma fold_Qmax_le {A : Type} (g : A -> Q) (l : list A) (init bound : Q) :
  (init <= bound)%Q -> (forall a, a ∈ l -> (g a <= bound)%Q) ->
  (fold_left (fun m a => Qmax m (g a)) l init <= bound)%Q.
Proof.
  revert init. induction l as [|a l IH]; intros init Hinit Hall; simpl; [done|].
  apply IH; [|by intros b Hb; apply Hall; right].
  apply Q.max_lub; [done|]. apply Hall. left.
Qed.

End SearchFinal.

(** The layout of one Shelf attempt on the sprite set: padding 2, working
    width 256. *)
Definition spriteShelves : Layout.t Q :=
  Eval vm_compute in
    match ShelfPacker.packImagesInternal spriteSet 2 256 with
    | Done layout => layout
    | _ => Layout.mk [] 0%Q 0%Q
    end.

Lemma spriteShelves_eq :
  ShelfPacker.packImagesInternal spriteSet 2 256 = Done spriteShelves.
Proof. vm_compute. reflexivity. Qed.

(** The atlas the Shelf search returns for the sprite set with padding 2,
    width limit 2048 and power-of-two sizes. *)
Definition spriteShelfAtlas : Layout.t Q :=
  Eval vm_compute in
    match ShelfPacker.packImages spriteSet 2 2048 true with
    | Done (Some layout) => layout
    | _ => Layout.mk [] 0%Q 0%Q
    end.

Lemma spriteShelfAtlas_eq :
  ShelfPacker.packImages spriteSet 2 2048 true = Done (Some spriteShelfAtlas).
Proof. vm_compute. reflexivity. Qed.

(** X6.  For images of positive size and a padding that is not negative,
    the frames of an atlas returned by the Shelf search are the input images
    in the order of one of the fourteen sort strategies: the frames stand for the images sorted
    by that strategy, one frame per image in that order, with the name and
    the original size of the image, no offset, and the size of the image,
    width and height swapped exactly when the frame is marked rotated. *)
Theorem shelf_frames_match_images images padding maxWidth usePowerOfTwo best :
  MaxRectsFacts.positive images -> 0 <= padding ->
  ShelfPacker.packImages images padding maxWidth usePowerOfTwo = Done (Some best) ->
  exists strategy,
    strategy ∈ ShelfPacker.sortStrategies
    /\ Forall2 ShelfBounds.frameOf (stableSort strategy images)
               (Layout.frames best)
    /\ stableSort strategy images ≡ₚ images
    /\ length (Layout.frames best) = length images.
Proof.
  intros _ Hpad (width & strategy & layout & _ & Hs & Hpack & _ & Hframes)
    %ShelfSearch.shelf_search_member.
  exists strategy. split; [done|].
  pose proof (stableSort_Permutation strategy images) as Hperm.
  apply ShelfBounds.packImagesInternal_frames in Hpack as [Hall _];
    [|by apply SearchFacts.inject_Z_nonneg].
  rewrite Hframes. split; [done|]. split; [done|].
  rewrite <- (Forall2_length _ _ _ Hall). by rewrite Hperm.
Qed.

Lemma shelf_frames_match_images_witness :
  MaxRectsFacts.positive spriteSet /\ 0 <= 2
  /\ exists strategy,
       strategy ∈ ShelfPacker.sortStrategies
       /\ Forall2 ShelfBounds.frameOf (stableSort strategy spriteSet)
                  (Layout.frames spriteShelfAtlas).
Proof.
  assert (Hp : 0 <= 2) by lia.
  split; [exact spriteSet_positive|]. split; [exact Hp|].
  destruct (shelf_frames_match_images spriteSet 2 2048 true spriteShelfAtlas
              spriteSet_positive Hp spriteShelfAtlas_eq) as (strategy & Hs & Hall & _).
  exists strategy. split; [exact Hs|exact Hall].
Defined.

(** X7.  In one attempt of the Shelf packer with images of positive size
    and a padding that is not negative, no frame reaches beyond the working
    width [maxWidth]; the layout, which adds the padding to the right of the
    frames, is at most [maxWidth + padding] wide. *)
Theorem shelf_attempt_within_width images padding maxWidth layout :
  images <> [] -> MaxRectsFacts.positive images -> (0 <= padding)%Q ->
  ShelfPacker.packImagesInternal images padding maxWidth = Done layout ->
  (forall f, f ∈ Layout.frames layout ->
     (0 <= Frame.x f /\ Frame.x f + Frame.width f <= maxWidth)%Q)
  /\ (Layout.width layout <= maxWidth + padding)%Q.
Proof.
  intros Hne Hpos Hpad Hpack.
  destruct (ShelfBounds.packImagesInternal_frames _ _ _ _ Hpad Hpack)
    as [Hall Hbound].
  destruct (ShelfFacts.packImagesInternal_contained _ _ _ _ Hpos Hpad Hpack)
    as (_ & _ & Hplaced).
  assert (Hframes : forall f, f ∈ Layout.frames layout ->
            (0 <= Frame.x f /\ Frame.x f + Frame.width f <= maxWidth)%Q).
  { intros f Hf. destruct (Hplaced f Hf) as ((? & _) & _). split; [done|].
    by apply Hbound. }
  split; [done|].
  assert (Hwidth : Layout.width layout
                   = ShelfPacker.maxRight padding (Layout.frames layout)).
  { unfold ShelfPacker.packImagesInternal, ShelfPacker.packWith in Hpack.
    destruct (ShelfPacker.passLoop _ _ _ _) as [e| |]; [|done|done].
    apply ShelfFacts.Done_inj in Hpack as <-. done. }
  rewrite Hwidth. unfold ShelfPacker.maxRight.
  destruct (Layout.frames layout) as [|f0 fs] eqn:Hfs.
  { apply Forall2_length in Hall. destruct images; [done|discriminate Hall]. }
  destruct (Hframes f0 (list_elem_of_here _ _)) as [Hx0 Hw0].
  destruct (Hplaced f0 (list_elem_of_here _ _)) as ((_ & _ & Hpos0 & _) & _).
  apply SearchFinal.fold_Qmax_le; [lra|].
  intros f Hf. destruct (Hframes f Hf). lra.
Qed.

Lemma shelf_attempt_within_width_witness :
  spriteSet <> [] /\ MaxRectsFacts.positive spriteSet /\ (0 <= 2)%Q
  /\ (Layout.width spriteShelves <= 256 + 2)%Q.
Proof.
  assert (Hne : spriteSet <> []) by discriminate.
  assert (Hp : (0 <= 2)%Q) by (vm_compute; discriminate).
  split; [exact Hne|]. split; [exact spriteSet_positive|]. split; [exact Hp|].
  exact (proj2 (shelf_attempt_within_width spriteSet 2 256 spriteShelves
                  Hne spriteSet_positive Hp spriteShelves_eq)).
Defined.

(** X8.  With power-of-two sizes the width and the height of the atlas
    returned by the Shelf search are powers of two, 2048 at most. *)
Theorem shelf_power_of_two_size images padding maxWidth best :
  ShelfPacker.packImages images padding maxWidth true = Done (Some best) ->
  exists a b,
    0 <= a <= 11 /\ 0 <= b <= 11
    /\ Layout.width best = inject_Z (2 ^ a)
    /\ Layout.height best = inject_Z (2 ^ b).
Proof.
  intros (width & strategy & layout & _ & _ & _ & Hfinal & _)
    %ShelfSearch.shelf_search_member.
  unfold ShelfPacker.finalSize in Hfinal.
  destruct ((2048 <? _) || (2048 <? _)) eqn:Hbig; [done|].
  apply orb_false_elim in Hbig as [Hbw Hbh].
  apply Z.ltb_ge in Hbw, Hbh. injection Hfinal as Hw Hh.
  unfold nextPowerOf2Q in *.
  exists (Z.log2_up (Qceiling (Qmax 1 (Layout.width layout)))),
         (Z.log2_up (Qceiling (Qmax 1 (Layout.height layout)))).
  assert (Hexp : forall e, 0 <= e -> 2 ^ e <= 2048 -> e <= 11).
  { intros e He Hle. apply (Z.pow_le_mono_r_iff 2); [lia|lia|].
    change (2 ^ 11) with 2048. done. }
  pose proof (Z.log2_up_nonneg (Qceiling (Qmax 1 (Layout.width layout)))).
  pose proof (Z.log2_up_nonneg (Qceiling (Qmax 1 (Layout.height layout)))).
  repeat split; auto.
Qed.

Lemma shelf_power_of_two_size_witness :
  exists a b,
    Layout.width spriteShelfAtlas = inject_Z (2 ^ a)
    /\ Layout.height spriteShelfAtlas = inject_Z (2 ^ b).
Proof.
  destruct (shelf_power_of_two_size spriteSet 2 2048 spriteShelfAtlas
              spriteShelfAtlas_eq) as (a & b & _ & _ & Hw & Hh).
  exists a, b. split; [exact Hw|exact Hh].
Defined.

(** X9.  When the width limit leaves the Shelf search without a working
    width, it falls back on one: with power-of-two sizes and a limit below
    64 it packs at width 1024, which is above the limit; with original sizes
    and a limit below 256 it packs at the limit itself. *)
Theorem shelf_fallback_width images maxWidth :
  (maxWidth < 64 -> ShelfPacker.widthOptions images maxWidth true = [1024])
  /\ (maxWidth < 256 -> ShelfPacker.widthOptions images maxWidth false = [maxWidth]).
Proof.
  split; intros Hlt; unfold ShelfPacker.widthOptions.
  - assert (Hpow : MaxRects.powerOfTwoWidths (Z.min maxWidth 2048) = []).
    { unfold MaxRects.powerOfTwoWidths. apply ShelfFacts.filter_none.
      intros w Hw. apply Z.leb_gt.
      apply list_elem_of_fmap in Hw as (k & -> & Hk).
      repeat (apply elem_of_cons in Hk as [->|Hk]; [simpl; lia|]).
      by apply elem_of_nil in Hk. }
    rewrite Hpow.
    set (est := ceilSqrt _). clearbody est.
    assert (Hcond : (est <=? Z.min maxWidth 2048) && (256 <=? est) = false).
    { destruct (est <=? Z.min maxWidth 2048) eqn:H1; [|done].
      apply Z.leb_le in H1. simpl. apply Z.leb_gt. lia. }
    rewrite Hcond. reflexivity.
  - set (est := ceilSqrt _). clearbody est.
    assert (Hcond : (est <=? Z.min maxWidth 2048) && (256 <=? est) = false).
    { destruct (est <=? Z.min maxWidth 2048) eqn:H1; [|done].
      apply Z.leb_le in H1. simpl. apply Z.leb_gt. lia. }
    rewrite Hcond. cbn. f_equal. lia.
Qed.

Module ValidateFacts.
Import Validate.

Definition insideAtlas (atlasWidth atlasHeight : Z) (f : Frame.t Z) : Prop :=
  0 <= Frame.x f /\ 0 <= Frame.y f
  /\ Frame.x f + Frame.width f <= atlasWidth
  /\ Frame.y f + Frame.height f <= atlasHeight.

Definition insideAtlasQ (atlasWidth atlasHeight : Q) (f : Frame.t Q) : Prop :=
  (0 <= Frame.x f /\ 0 <= Frame.y f
   /\ Frame.x f + Frame.width f <= atlasWidth
   /\ Frame.y f + Frame.height f <= atlasHeight)%Q.

Lemma checkFrame_cases w h f :
  (checkFrame Z.ltb Z.add 0 w h f = None /\ insideAtlas w h f)
  \/ (exists err, checkFrame Z.ltb Z.add 0 w h f = Some err
        /\ (forall name, err <> TooLarge name)
        /\ ~ insideAtlas w h f).
Proof.
  unfold checkFrame, insideAtlas.
  destruct (Frame.x f <? 0) eqn:Hx; [right|].
  { apply Z.ltb_lt in Hx. eexists. split; [reflexivity|]. split; [done|lia]. }
  destruct (Frame.y f <? 0) eqn:Hy; [right|].
  { apply Z.ltb_lt in Hy. eexists. split; [reflexivity|]. split; [done|lia]. }
  cbn [orb].
  destruct (w <? Frame.x f + Frame.width f) eqn:Hr; [right|].
  { apply Z.ltb_lt in Hr. eexists. split; [reflexivity|]. split; [done|lia]. }
  destruct (h <? Frame.y f + Frame.height f) eqn:Hb; [right|].
  { apply Z.ltb_lt in Hb. eexists. split; [reflexivity|]. split; [done|lia]. }
  apply Z.ltb_ge in Hx, Hy, Hr, Hb.
  assert (Hw : (w <? Frame.width f) = false) by (apply Z.ltb_ge; lia).
  assert (Hh : (h <? Frame.height f) = false) by (apply Z.ltb_ge; lia).
  rewrite Hw, Hh. left. cbn. split; [done|lia].
Qed.

Lemma checkFrameQ_cases w h f :
  (checkFrame Qltb Qplus 0%Q w h f = None /\ insideAtlasQ w h f)
  \/ (exists err, checkFrame Qltb Qplus 0%Q w h f = Some err
        /\ (forall name, err <> TooLarge name)
        /\ ~ insideAtlasQ w h f).
Proof.
  unfold checkFrame, insideAtlasQ.
  destruct (Qltb (Frame.x f) 0) eqn:Hx; [right|].
  { apply ShelfFacts.Qltb_true in Hx. eexists. split; [reflexivity|].
    split; [done|lra]. }
  destruct (Qltb (Frame.y f) 0) eqn:Hy; [right|].
  { apply ShelfFacts.Qltb_true in Hy. eexists. split; [reflexivity|].
    split; [done|lra]. }
  cbn [orb].
  destruct (Qltb w (Frame.x f + Frame.width f)) eqn:Hr; [right|].
  { apply ShelfFacts.Qltb_true in Hr. eexists. split; [reflexivity|].
    split; [done|lra]. }
  destruct (Qltb h (Frame.y f + Frame.height f)) eqn:Hb; [right|].
  { apply ShelfFacts.Qltb_true in Hb. eexists. split; [reflexivity|].
    split; [done|lra]. }
  apply ShelfFacts.Qltb_false in Hx, Hy, Hr, Hb.
  assert (Hw : Qltb w (Frame.width f) = false)
    by (apply ShelfFacts.Qltb_false; lra).
  assert (Hh : Qltb h (Frame.height f) = false)
    by (apply ShelfFacts.Qltb_false; lra).
  rewrite Hw, Hh. left. cbn. split; [done|lra].
Qed.

Lemma validateFrames_cases frames w h :
  (validateFrames frames w h = None /\ forall f, f ∈ frames -> insideAtlas w h f)
  \/ (exists err, validateFrames frames w h = Some err
        /\ (forall name, err <> TooLarge name)
        /\ exists f, f ∈ frames /\ ~ insideAtlas w h f).
Proof.
  unfold validateFrames.
  induction frames as [|f rest IH]; cbn [validate].
  - left. split; [done|]. intros f Hf. by apply elem_of_nil in Hf.
  - destruct (checkFrame_cases w h f) as [[-> Hin]|(err & -> & Hno & Hout)].
    + destruct IH as [[-> Hall]|(err & -> & Hno & g & Hg & Hout)].
      * left. split; [done|]. intros g [->|Hg]%elem_of_cons; auto.
      * right. exists err. split; [done|]. split; [done|].
        exists g. split; [by right|done].
    + right. exists err. split; [done|]. split; [done|].
      exists f. split; [by left|done].
Qed.

Lemma validateFramesQ_cases frames w h :
  (validateFramesQ frames w h = None
   /\ forall f, f ∈ frames -> insideAtlasQ w h f)
  \/ (exists err, validateFramesQ frames w h = Some err
        /\ (forall name, err <> TooLarge name)
        /\ exists f, f ∈ frames /\ ~ insideAtlasQ w h f).
Proof.
  unfold validateFramesQ.
  induction frames as [|f rest IH]; cbn [validate].
  - left. split; [done|]. intros f Hf. by apply elem_of_nil in Hf.
  - destruct (checkFrameQ_cases w h f) as [[-> Hin]|(err & -> & Hno & Hout)].
    + destruct IH as [[-> Hall]|(err & -> & Hno & g & Hg & Hout)].
      * left. split; [done|]. intros g [->|Hg]%elem_of_cons; auto.
      * right. exists err. split; [done|]. split; [done|].
        exists g. split; [by right|done].
    + right. exists err. split; [done|]. split; [done|].
      exists f. split; [by left|done].
Qed.

End ValidateFacts.

(** X10.  [validateFrames] returns without an error exactly when every
    frame starts at non-negative coordinates and ends inside the atlas, and
    its fourth error, the frame larger than the atlas, is never thrown: a
    frame that passes the first three checks is no larger than the atlas.
    The same holds on the rational frames of the Shelf packer. *)
Theorem validateFrames_accepts_inside :
  (forall frames w h,
      (Validate.validateFrames frames w h = None
       <-> forall f, f ∈ frames -> ValidateFacts.insideAtlas w h f)
      /\ forall name, Validate.validateFrames frames w h
                      <> Some (Validate.TooLarge name))
  /\ (forall frames w h,
        (Validate.validateFramesQ frames w h = None
         <-> forall f, f ∈ frames -> ValidateFacts.insideAtlasQ w h f)
        /\ forall name, Validate.validateFramesQ frames w h
                        <> Some (Validate.TooLarge name)).
Proof.
  split; intros frames w h.
  - destruct (ValidateFacts.validateFrames_cases frames w h)
      as [[Hnone Hall]|(err & Herr & Hno & f & Hf & Hout)].
    + split; [done|]. intros name. by rewrite Hnone.
    + split.
      * split; [by rewrite Herr|]. intros Hall. destruct Hout. by apply Hall.
      * intros name. rewrite Herr. intros [= ->]. by eapply Hno.
  - destruct (ValidateFacts.validateFramesQ_cases frames w h)
      as [[Hnone Hall]|(err & Herr & Hno & f & Hf & Hout)].
    + split; [done|]. intros name. by rewrite Hnone.
    + split.
      * split; [by rewrite Herr|]. intros Hall. destruct Hout. by apply Hall.
      * intros name. rewrite Herr. intros [= ->]. by eapply Hno.
Qed.

(** X11.  For images of positive size and a padding that is not negative,
    the validation step accepts what the packers return: [validateFrames]
    throws nothing on the frames of an atlas of the MaxRectangles search
    with the size of that atlas, and nothing on an atlas of the Shelf search
    with power-of-two sizes. *)
Theorem packed_frames_validate images padding maxWidth :
  MaxRectsFacts.positive images -> 0 <= padding ->
  (forall usePowerOfTwo best,
      MaxRects.packImagesWithMaxRectangles images padding maxWidth usePowerOfTwo
      = Some best ->
      Validate.validateFrames (Layout.frames best) (Layout.width best)
        (Layout.height best) = None)
  /\ (forall best,
        ShelfPacker.packImages images padding maxWidth true = Done (Some best) ->
        Validate.validateFramesQ (Layout.frames best) (Layout.width best)
          (Layout.height best) = None).
Proof.
  intros Hpos Hpad. split.
  - intros usePowerOfTwo best (width & strategy & area & Hfinal)
      %SearchFinal.maxRects_final.
    apply SearchFacts.mrFinal_contained in Hfinal as (_ & Hall & _); [|done..].
    cbn [fst] in Hall.
    destruct (ValidateFacts.validateFrames_cases (Layout.frames best)
                (Layout.width best) (Layout.height best))
      as [[Hnone _]|(err & _ & _ & f & Hf & Hout)]; [done|].
    destruct Hout. destruct (Hall f Hf) as ((? & ? & _) & ? & ?).
    unfold ValidateFacts.insideAtlas. lia.
  - intros best (width & strategy & area & Hfinal)%SearchFinal.shelf_final.
    apply SearchFacts.shFinal_contained in Hfinal as (_ & Hall & _); [|done..].
    cbn [fst] in Hall.
    destruct (ValidateFacts.validateFramesQ_cases (Layout.frames best)
                (Layout.width best) (Layout.height best))
      as [[Hnone _]|(err & _ & _ & f & Hf & Hout)]; [done|].
    destruct Hout. destruct (Hall f Hf) as ((? & ? & _) & ? & ?).
    unfold ValidateFacts.insideAtlasQ. lra.
Qed.

Lemma packed_frames_validate_witness :
  MaxRectsFacts.positive spriteSet /\ 0 <= 2
  /\ Validate.validateFrames (Layout.frames spriteAtlas)
       (Layout.width spriteAtlas) (Layout.height spriteAtlas) = None.
Proof.
  assert (Hp : 0 <= 2) by lia.
  split; [exact spriteSet_positive|]. split; [exact Hp|].
  exact (proj1 (packed_frames_validate spriteSet 2 2048 spriteSet_positive Hp)
           true spriteAtlas spriteAtlas_eq).
Defined.

Module GrouperBuckets.
Import Grouper GrouperFacts.

(** The entries of the object built by [pushTo]: keys are pairwise
    different, no entry is empty, and an entry holds the images of its key. *)
Definition bucketed (key : Image.t -> string)
    (groups : list (string * list Image.t)) : Prop :=
  NoDup (map fst groups)
  /\ forall e, e ∈ groups -> e.2 <> [] /\ forall im, im ∈ e.2 -> key im = e.1.

Lemma pushTo_keys k im groups :
  map fst (pushTo k im groups)
  = if decide (k ∈ map fst groups) then map fst groups else map fst groups ++ [k].
Proof.
  induction groups as [|[k' members] rest IH]; cbn [pushTo map fst].
  - destruct (decide (k ∈ [])) as [H%elem_of_nil|]; done.
  - destruct (String.eqb k k') eqn:Hk; cbn [map fst].
    + apply String.eqb_eq in Hk as ->.
      destruct (decide (k' ∈ k' :: map fst rest)) as [|Hout]; [done|].
      destruct Hout. left.
    + apply String.eqb_neq in Hk. rewrite IH.
      destruct (decide (k ∈ map fst rest)) as [Hin|Hout];
        destruct (decide (k ∈ k' :: map fst rest)) as [Hin'|Hout']; try done.
      * destruct Hout'. by right.
      * by apply elem_of_cons in Hin' as [?|?].
Qed.

Lemma elem_of_pushTo k im groups e :
  e ∈ pushTo k im groups ->
  e ∈ groups
  \/ (e.1 = k /\ exists members, (k, members) ∈ groups /\ e.2 = members ++ [im])
  \/ (e = (k, [im]) /\ k ∉ map fst groups).
Proof.
  induction groups as [|[k' members] rest IH]; simpl.
  - intros ->%list_elem_of_singleton. right. right. split; [done|].
    by intros ?%elem_of_nil.
  - destruct (String.eqb k k') eqn:Hk.
    + apply String.eqb_eq in Hk as ->.
      intros [->|He]%elem_of_cons.
      * right. left. split; [done|]. exists members. split; [left|done].
      * left. by right.
    + apply String.eqb_neq in Hk.
      intros [->|He]%elem_of_cons; [left; left|].
      apply IH in He as [He|[(Hk1 & members' & Hm & He2)|[-> Hout]]].
      * left. by right.
      * right. left. split; [done|]. exists members'. split; [by right|done].
      * right. right. split; [done|]. simpl. by intros [?|?]%elem_of_cons.
Qed.

Lemma pushTo_member k im groups :
  exists members, (k, members) ∈ pushTo k im groups /\ im ∈ members.
Proof.
  induction groups as [|[k' members] rest IH]; simpl.
  - exists [im]. split; left.
  - destruct (String.eqb k k') eqn:Hk.
    + apply String.eqb_eq in Hk as ->. exists (members ++ [im]).
      split; [left|]. apply elem_of_app. right. left.
    + destruct IH as (ms & Hms & Him). exists ms. split; [by right|done].
Qed.

Lemma pushTo_keeps k im groups k' members x :
  (k', members) ∈ groups -> x ∈ members ->
  exists members', (k', members') ∈ pushTo k im groups /\ x ∈ members'.
Proof.
  induction groups as [|[k0 ms] rest IH]; simpl; [by intros ?%elem_of_nil|].
  intros [[= <- <-]|Hin]%elem_of_cons Hx.
  - destruct (String.eqb k k').
    + exists (members ++ [im]). split; [left|]. apply elem_of_app. by left.
    + exists members. split; [left|done].
  - destruct (IH Hin Hx) as (ms' & Hms' & Hx').
    destruct (String.eqb k k0); [|exists ms'; split; [by right|done]].
    exists members. split; [by right|done].
Qed.

Lemma pushTo_bucketed key im groups :
  bucketed key groups -> bucketed key (pushTo (key im) im groups).
Proof.
  intros [Hdup Hall]. split.
  - rewrite pushTo_keys. destruct (decide _); [done|].
    apply NoDup_app. split; [done|]. split; [|apply NoDup_singleton].
    intros k Hk ->%list_elem_of_singleton. done.
  - intros e [He|[(Hk & members & Hm & He2)|[-> _]]]%elem_of_pushTo.
    + by apply Hall.
    + destruct (Hall _ Hm) as [_ Hkeys]. rewrite He2, Hk. split.
      { by destruct members. }
      intros x [Hx| ->%list_elem_of_singleton]%elem_of_app; [by apply Hkeys|done].
    + simpl. split; [done|]. by intros x ->%list_elem_of_singleton.
Qed.

Lemma fold_pushTo_bucketed key images : forall groups,
  bucketed key groups ->
  bucketed key (fold_left (fun groups im => pushTo (key im) im groups)
                          images groups).
Proof.
  induction images as [|im images IH]; intros groups Hb; simpl; [done|].
  by apply IH, pushTo_bucketed.
Qed.

Lemma fold_pushTo_member key images : forall groups x,
  (x ∈ images \/ exists members, (key x, members) ∈ groups /\ x ∈ members) ->
  exists members,
    (key x, members) ∈ fold_left (fun groups im => pushTo (key im) im groups)
                                 images groups
    /\ x ∈ members.
Proof.
  induction images as [|im images IH]; intros groups x; simpl.
  - intros [?%elem_of_nil|H]; done.
  - intros [[->|Hx]%elem_of_cons|(members & Hm & Hx)]; apply IH.
    + right. apply pushTo_member.
    + by left.
    + right. by eapply pushTo_keeps.
Qed.

Lemma bucketed_nil key : bucketed key [].
Proof. split; [constructor|]. by intros e ?%elem_of_nil. Qed.

Lemma bucketed_unique key groups k m1 m2 :
  bucketed key groups -> (k, m1) ∈ groups -> (k, m2) ∈ groups -> m1 = m2.
Proof.
  intros [Hdup _]. revert Hdup.
  induction groups as [|[k0 m0] rest IH]; simpl; [by intros _ ?%elem_of_nil|].
  intros [Hout Hdup]%NoDup_cons [[= -> ->]|H1]%elem_of_cons [[= ?]|H2]%elem_of_cons.
  - done.
  - destruct Hout. apply list_elem_of_fmap. by exists (k0, m2).
  - subst. destruct Hout. apply list_elem_of_fmap. by exists (k0, m1).
  - by apply IH.
Qed.

Definition sizeKey (cfg : Config) (im : Image.t) : string :=
  getSizeCategory cfg (Image.width im * Image.height im).

Definition aspectKey (cfg : Config) (im : Image.t) : string :=
  getAspectRatioCategory cfg (Image.width im) (Image.height im).

Lemma elem_of_groupBySize cfg images g :
  g ∈ groupBySize cfg images <->
  (name g, items g)
    ∈ fold_left (fun groups im => pushTo (sizeKey cfg im) im groups) images []
  /\ strategy g = getStrategyForSize (name g).
Proof.
  unfold groupBySize. rewrite list_elem_of_fmap. split.
  - intros ([nm members] & -> & He). done.
  - intros [He Hs]. exists (name g, items g). split; [|done].
    destruct g. simpl in *. by rewrite Hs.
Qed.

Lemma elem_of_refineGroup cfg group g :
  g ∈ refineGroup cfg group <->
  (name g, items g)
    ∈ fold_left
        (fun groups im =>
           pushTo (name group +:+ "_" +:+ aspectKey cfg im) im groups)
        (items group) []
  /\ strategy g = strategy group.
Proof.
  unfold refineGroup. rewrite list_elem_of_fmap. split.
  - intros ([nm members] & -> & He). done.
  - intros [He Hs]. exists (name g, items g). split; [|done].
    destruct g. simpl in *. by rewrite Hs.
Qed.

Lemma elem_of_refineGroups cfg groups g :
  g ∈ refineGroupsByAspectRatio cfg groups <->
  exists group, group ∈ groups /\ g ∈ refineGroup cfg group.
Proof.
  unfold refineGroupsByAspectRatio.
  rewrite list_elem_of_In, in_flat_map.
  split; intros (group & H1 & H2); exists group;
    by rewrite ?list_elem_of_In in *.
Qed.

(** The refined groups of a list of images. *)
Definition refined (cfg : Config) (images : list Image.t) : list Group :=
  refineGroupsByAspectRatio cfg (groupBySize cfg images).

Lemma refined_spec cfg images g :
  g ∈ refined cfg images ->
  items g <> []
  /\ exists sizeName,
       strategy g = getStrategyForSize sizeName
       /\ forall im, im ∈ items g ->
            im ∈ images
            /\ sizeKey cfg im = sizeName
            /\ name g = sizeName +:+ "_" +:+ aspectKey cfg im.
Proof.
  intros (group & Hgroup & Hg)%elem_of_refineGroups.
  apply elem_of_groupBySize in Hgroup as [Hgroup Hstrat].
  apply elem_of_refineGroup in Hg as [Hg Hstrat'].
  pose proof (fold_pushTo_bucketed (sizeKey cfg) images [] (bucketed_nil _))
    as [_ Hsize].
  pose proof (fold_pushTo_bucketed
                (fun im => name group +:+ "_" +:+ aspectKey cfg im)
                (items group) [] (bucketed_nil _)) as [_ Hasp].
  destruct (Hsize _ Hgroup) as [_ Hsz]. destruct (Hasp _ Hg) as [Hne Has].
  simpl in *. split; [done|]. exists (name group). split; [congruence|].
  intros im Him.
  assert (Him' : im ∈ items group).
  { pose proof (refineGroup_Permutation cfg group) as Hperm.
    rewrite <- Hperm. unfold allItems.
    apply list_elem_of_In, in_concat. exists (items g).
    split; [|by apply list_elem_of_In].
    apply in_map, list_elem_of_In.
    apply elem_of_refineGroup. done. }
  split.
  { pose proof (groupBySize_Permutation cfg images) as Hperm.
    rewrite <- Hperm. unfold allItems.
    apply list_elem_of_In, in_concat. exists (items group).
    split; [|by apply list_elem_of_In].
    apply in_map, list_elem_of_In. by apply elem_of_groupBySize. }
  split; [by apply Hsz|]. symmetry. by apply Has.
Qed.

Lemma refined_together cfg images im1 im2 :
  im1 ∈ images -> im2 ∈ images ->
  sizeKey cfg im1 = sizeKey cfg im2 -> aspectKey cfg im1 = aspectKey cfg im2 ->
  exists g, g ∈ refined cfg images /\ im1 ∈ items g /\ im2 ∈ items g.
Proof.
  intros H1 H2 Hsize Hasp.
  pose proof (fold_pushTo_bucketed (sizeKey cfg) images [] (bucketed_nil _)) as Hb.
  destruct (fold_pushTo_member (sizeKey cfg) images [] im1 (or_introl H1))
    as (m1 & Hm1 & Hin1).
  destruct (fold_pushTo_member (sizeKey cfg) images [] im2 (or_introl H2))
    as (m2 & Hm2 & Hin2).
  rewrite <- Hsize in Hm2.
  pose proof (bucketed_unique _ _ _ _ _ Hb Hm1 Hm2) as <-.
  set (group := mkGroup (sizeKey cfg im1) m1 (getStrategyForSize (sizeKey cfg im1))).
  assert (Hgroup : group ∈ groupBySize cfg images)
    by (by apply elem_of_groupBySize).
  set (key := fun im => name group +:+ "_" +:+ aspectKey cfg im).
  pose proof (fold_pushTo_bucketed key (items group) [] (bucketed_nil _)) as Hb'.
  destruct (fold_pushTo_member key (items group) [] im1 (or_introl Hin1))
    as (n1 & Hn1 & Hi1).
  destruct (fold_pushTo_member key (items group) [] im2 (or_introl Hin2))
    as (n2 & Hn2 & Hi2).
  assert (Hkey : key im2 = key im1) by (unfold key; by rewrite Hasp).
  rewrite Hkey in Hn2.
  pose proof (bucketed_unique _ _ _ _ _ Hb' Hn1 Hn2) as <-.
  exists (mkGroup (key im1) n1 (strategy group)).
  split; [|done].
  apply elem_of_refineGroups. exists group. split; [done|].
  by apply elem_of_refineGroup.
Qed.

End GrouperBuckets.

Module GrouperLimits.
Import Grouper GrouperFacts GrouperBuckets.

Definition areaOf (im : Image.t) : Z := Image.width im * Image.height im.

Lemma totalArea_from (l : list Image.t) : forall init,
  fold_left (fun sum im => sum + Image.width im * Image.height im) l init
  = init + totalArea l.
Proof.
  unfold totalArea. induction l as [|im l IH]; intros init; simpl; [lia|].
  rewrite IH, (IH (0 + _)). lia.
Qed.

Lemma totalArea_cons im l : totalArea (im :: l) = areaOf im + totalArea l.
Proof. unfold totalArea at 1. simpl. rewrite totalArea_from. done. Qed.

Lemma totalArea_app l1 l2 : totalArea (l1 ++ l2) = totalArea l1 + totalArea l2.
Proof.
  induction l1 as [|im l1 IH]; simpl; [done|].
  rewrite !totalArea_cons, IH. lia.
Qed.

Lemma totalArea_Permutation l1 l2 : l1 ≡ₚ l2 -> totalArea l1 = totalArea l2.
Proof.
  induction 1 as [|x l l' _ IH|x y l|l l' l'' _ IH1 _ IH2].
  - done.
  - rewrite !totalArea_cons. lia.
  - rewrite !totalArea_cons. lia.
  - congruence.
Qed.

(** A piece that respects the area limit: one image, or a total area of
    at most [maxArea]. *)
Definition withinArea (maxArea : Z) (l : list Image.t) : Prop :=
  (length l <= 1)%nat \/ totalArea l <= maxArea.

Definition splitInv (maxArea : Z) (acc : list Group * list Image.t * Z) : Prop :=
  acc.2 = totalArea acc.1.2
  /\ withinArea maxArea acc.1.2
  /\ forall g, g ∈ acc.1.1 -> items g <> [] /\ withinArea maxArea (items g).

Lemma splitStep_inv maxArea acc item :
  splitInv maxArea acc -> splitInv maxArea (splitStep maxArea acc item).
Proof.
  destruct acc as [[groups cur] area]. unfold splitInv, splitStep. simpl.
  intros (-> & Hcur & Hgroups).
  destruct ((maxArea <? _) && (0 <? length cur)%nat) eqn:Hc; simpl.
  - apply andb_prop in Hc as [_ Hlen]. apply Nat.ltb_lt in Hlen.
    split; [rewrite totalArea_cons; unfold areaOf, totalArea; simpl; lia|].
    split; [left; simpl; lia|].
    intros g [Hg| ->%list_elem_of_singleton]%elem_of_app; [by apply Hgroups|].
    simpl. split; [|done]. destruct cur; [simpl in Hlen; lia|done].
  - split; [rewrite totalArea_app, totalArea_cons; unfold areaOf, totalArea;
            simpl; lia|].
    split; [|done].
    apply andb_false_iff in Hc as [Hc|Hc].
    + apply Z.ltb_ge in Hc. right.
      rewrite totalArea_app, totalArea_cons. unfold areaOf, totalArea at 2.
      simpl. lia.
    + apply Nat.ltb_ge in Hc. left. rewrite length_app. simpl. lia.
Qed.

Lemma splitByArea_groups members maxArea g :
  g ∈ splitByArea members maxArea ->
  items g <> [] /\ withinArea maxArea (items g).
Proof.
  unfold splitByArea.
  assert (Hinv : splitInv maxArea (fold_left (splitStep maxArea) members ([], [], 0))).
  { apply (fold_left_prefix_inv (splitStep maxArea) (fun _ => splitInv maxArea)).
    - unfold splitInv. simpl. split; [done|]. split; [left; simpl; lia|].
      by intros g' ?%elem_of_nil.
    - intros _ acc a. apply splitStep_inv. }
  destruct (fold_left _ _ _) as [[groups cur] area].
  destruct Hinv as (_ & Hcur & Hgroups). simpl in *.
  destruct (0 <? length cur)%nat eqn:Hlen; [|by apply Hgroups].
  apply Nat.ltb_lt in Hlen.
  intros [Hg| ->%list_elem_of_singleton]%elem_of_app; [by apply Hgroups|].
  simpl. split; [|done]. destruct cur; [simpl in Hlen; lia|done].
Qed.

Lemma elem_of_allItems_length groups g :
  g ∈ groups -> (length (items g) <= length (allItems groups))%nat.
Proof.
  induction groups as [|g0 groups IH]; [by intros ?%elem_of_nil|].
  unfold allItems in *. simpl. rewrite length_app.
  intros [->|Hg]%elem_of_cons; [lia|]. specialize (IH Hg). lia.
Qed.

Lemma limitGroup_groups cfg group : forall fuel remaining g,
  0 < MAX_IMAGES_PER_GROUP cfg ->
  g ∈ limitGroup fuel cfg group remaining ->
  (1 <= length (items g) <= Z.to_nat (MAX_IMAGES_PER_GROUP cfg))%nat
  /\ withinArea (MAX_AREA_PER_GROUP cfg) (items g).
Proof.
  induction fuel as [|fuel IH]; intros remaining g Hcap; simpl;
    [by intros ?%elem_of_nil|].
  destruct remaining as [|im rest]; [by intros ?%elem_of_nil|].
  set (n := Z.to_nat (MAX_IMAGES_PER_GROUP cfg)).
  assert (Hn : (0 < n)%nat) by lia.
  set (batch := take n (im :: rest)).
  assert (Hbatch : (1 <= length batch <= n)%nat).
  { unfold batch. rewrite length_take. simpl. lia. }
  intros [Hg|Hg]%elem_of_app; [|by eapply IH].
  destruct (MAX_AREA_PER_GROUP cfg <? totalArea batch) eqn:Harea.
  - pose proof (elem_of_allItems_length _ _ Hg) as Hlen.
    rewrite splitByArea_items in Hlen.
    apply splitByArea_groups in Hg as [Hne Hwithin].
    split; [|done]. destruct (items g); [done|simpl in *; lia].
  - apply list_elem_of_singleton in Hg as ->. simpl.
    apply Z.ltb_ge in Harea. split; [done|by right].
Qed.

Lemma elem_of_limitGroupSize cfg groups g :
  g ∈ limitGroupSize cfg groups <->
  exists group, group ∈ groups
    /\ g ∈ limitGroup (length (items group)) cfg group (items group).
Proof.
  unfold limitGroupSize. rewrite list_elem_of_In, in_flat_map.
  split; intros (group & H1 & H2); exists group;
    by rewrite ?list_elem_of_In in *.
Qed.

(** *** The merge step *)

Lemma mergePairs_sizes : forall small,
  (forall g, g ∈ small -> items g <> []) ->
  (forall g, g ∈ (mergePairs small).1 -> (2 <= length (items g))%nat)
  /\ (forall g, g ∈ (mergePairs small).2 -> g ∈ small).
Proof.
  fix IH 1. intros [|g1 [|g2 rest]] Hne; simpl.
  - split; [by intros g ?%elem_of_nil|done].
  - split; [by intros g ?%elem_of_nil|done].
  - destruct (IH rest) as [IH1 IH2].
    { intros g Hg. apply Hne. by do 2 right. }
    destruct (mergePairs rest) as [merged leftover]. simpl in *.
    split.
    + intros g [->|Hg]%elem_of_cons; [|by apply IH1].
      simpl. rewrite length_app.
      pose proof (Hne g1 (list_elem_of_here _ _)).
      assert (g2 ∈ g1 :: g2 :: rest) as Hg2 by (right; left).
      pose proof (Hne g2 Hg2).
      destruct (items g1), (items g2); simpl; try done; lia.
    + intros g Hg. do 2 right. by apply IH2.
Qed.

Lemma mergeSmallGroups_sizes groups :
  (forall g, g ∈ groups -> items g <> []) ->
  (length (mergeSmallGroups groups) <= 1)%nat
  \/ forall g, g ∈ mergeSmallGroups groups -> (2 <= length (items g))%nat.
Proof.
  intros Hne. unfold mergeSmallGroups.
  set (small := List.filter (fun g => (length (items g) <? 5)%nat) groups).
  set (large := List.filter (fun g => negb (length (items g) <? 5)%nat) groups).
  assert (Hsmall : forall g, g ∈ small -> items g <> []).
  { intros g [Hg _]%ShelfFacts.elem_of_List_filter. by apply Hne. }
  assert (Hlarge : forall g, g ∈ large -> (2 <= length (items g))%nat).
  { intros g [_ Hg]%ShelfFacts.elem_of_List_filter.
    apply negb_true_iff, Nat.ltb_ge in Hg. lia. }
  destruct (mergePairs_sizes small Hsmall) as [Hmerged Hleft].
  pose proof (mergePairs_leftover small) as [Hone _].
  destruct (mergePairs small) as [merged leftover]. simpl in *.
  assert (Hall : forall g, g ∈ large ++ merged -> (2 <= length (items g))%nat).
  { intros g [?|?]%elem_of_app; auto. }
  destruct leftover as [|s others]; [by right|].
  destruct (large ++ merged) as [|first rest]; [left; simpl; lia|].
  right. intros g [->|Hg]%elem_of_cons.
  - simpl. rewrite length_app. pose proof (Hall first (list_elem_of_here _ _)). lia.
  - apply Hall. by right.
Qed.

End GrouperLimits.

(** ** Further properties of the grouper *)

(** The one group the grouper makes of the sprite set. *)
Definition spriteGroup : Grouper.Group :=
  Grouper.mkGroup "small_normal+small_tall" spriteSet "maxEdge".

(** X12.  With the default configuration every group returned by
    [groupImages] holds at least one image and at most 50 images
    ([MAX_IMAGES_PER_GROUP]), and its total area is at most 2048 * 1024
    ([MAX_AREA_PER_GROUP]) unless it is a single image. *)
Theorem groupImages_group_limits images g :
  g ∈ Grouper.groupImages Grouper.GROUPING_CONFIG images ->
  (1 <= length (Grouper.items g) <= 50)%nat
  /\ (length (Grouper.items g) = 1%nat
      \/ totalArea (Grouper.items g) <= 2048 * 1024).
Proof.
  unfold Grouper.groupImages.
  destruct (length images =? 0)%nat; [by intros ?%elem_of_nil|].
  intros (group & _ & Hg)%GrouperLimits.elem_of_limitGroupSize.
  apply GrouperLimits.limitGroup_groups in Hg as [Hlen [Hone|Harea]];
    [| |simpl; lia].
  - split; [done|]. left. lia.
  - split; [done|]. by right.
Qed.

Lemma groupImages_group_limits_witness :
  spriteGroup ∈ Grouper.groupImages Grouper.GROUPING_CONFIG spriteSet
  /\ (1 <= length (Grouper.items spriteGroup) <= 50)%nat.
Proof.
  assert (Hg : spriteGroup ∈ Grouper.groupImages Grouper.GROUPING_CONFIG spriteSet)
    by (vm_compute; left).
  split; [exact Hg|].
  exact (proj1 (groupImages_group_limits spriteSet spriteGroup Hg)).
Defined.

(** X13.  With the default configuration, after the merge step either a
    single group is left, or every group holds at least two images: a
    bucket of one image never stays on its own beside other groups. *)
Theorem merge_leaves_no_lone_image images :
  let merged :=
    Grouper.mergeSmallGroups
      (Grouper.refineGroupsByAspectRatio Grouper.GROUPING_CONFIG
         (Grouper.groupBySize Grouper.GROUPING_CONFIG images)) in
  (length merged <= 1)%nat
  \/ forall g, g ∈ merged -> (2 <= length (Grouper.items g))%nat.
Proof.
  apply GrouperLimits.mergeSmallGroups_sizes.
  intros g Hg. by apply GrouperBuckets.refined_spec in Hg as [Hne _].
Qed.

(** X14.  With the default configuration the refined groups are the
    buckets of the two tiers: every image of a group is an input image, the
    name of the group is the size tier and the aspect tier of the image
    joined by an underscore, and its strategy is the one of the size tier;
    two images of one group have the same tiers, and two input images with
    the same tiers are in one group. *)
Theorem refined_groups_are_buckets images :
  let sizeKey := GrouperBuckets.sizeKey Grouper.GROUPING_CONFIG in
  let aspectKey := GrouperBuckets.aspectKey Grouper.GROUPING_CONFIG in
  let groups :=
    Grouper.refineGroupsByAspectRatio Grouper.GROUPING_CONFIG
      (Grouper.groupBySize Grouper.GROUPING_CONFIG images) in
  (forall g im, g ∈ groups -> im ∈ Grouper.items g ->
     im ∈ images
     /\ Grouper.name g = sizeKey im +:+ "_" +:+ aspectKey im
     /\ Grouper.strategy g = Grouper.getStrategyForSize (sizeKey im))
  /\ (forall g im1 im2, g ∈ groups ->
        im1 ∈ Grouper.items g -> im2 ∈ Grouper.items g ->
        sizeKey im1 = sizeKey im2 /\ aspectKey im1 = aspectKey im2)
  /\ (forall im1 im2, im1 ∈ images -> im2 ∈ images ->
        sizeKey im1 = sizeKey im2 -> aspectKey im1 = aspectKey im2 ->
        exists g, g ∈ groups
                  /\ im1 ∈ Grouper.items g /\ im2 ∈ Grouper.items g).
Proof.
  intros sizeKey aspectKey groups. split; [|split].
  - intros g im Hg Him.
    apply GrouperBuckets.refined_spec in Hg as (_ & sizeName & Hstrat & Hall).
    destruct (Hall im Him) as (Hin & Hsize & Hname).
    subst sizeKey aspectKey. rewrite Hsize. done.
  - intros g im1 im2 Hg H1 H2.
    apply GrouperBuckets.refined_spec in Hg as (_ & sizeName & _ & Hall).
    destruct (Hall im1 H1) as (_ & Hs1 & Hn1).
    destruct (Hall im2 H2) as (_ & Hs2 & Hn2).
    split; [subst sizeKey; simpl; congruence|].
    rewrite Hn1 in Hn2.
    apply (String.app_inj sizeName) in Hn2.
    by apply (String.app_inj "_") in Hn2.
  - apply GrouperBuckets.refined_together.
Qed.

(** X15.  With the default thresholds an image of positive size is never
    put in the aspect tier wide: the ratio is the shorter side over the
    longer one, so the tier is tall when the longer side is more than twice
    the shorter one, in either direction, and normal otherwise. *)
Theorem aspect_tier_never_wide width height :
  0 < width -> 0 < height ->
  Grouper.getAspectRatioCategory Grouper.GROUPING_CONFIG width height
  = if 2 * Z.min width height <? Z.max width height then "tall" else "normal".
Proof.
  intros Hw Hh. unfold Grouper.getAspectRatioCategory, jsDiv.
  set (a := Z.min width height). set (b := Z.max width height).
  assert (Ha : 0 < a) by lia. assert (Hb : 0 < b) by lia.
  assert (Hab : a <= b) by lia. clearbody a b.
  assert (Hbq : (0 < inject_Z b)%Q) by (by apply ShelfFacts.inject_Z_pos).
  assert (Hnz : Qeq_bool (inject_Z b) 0 = false).
  { apply not_true_is_false. intros Heq%Qeq_bool_iff. lra. }
  rewrite Hnz. cbn [Grouper.ASPECT_RATIO_THRESHOLDS Grouper.GROUPING_CONFIG
                    Grouper.getAspectRatioCategoryFrom Grouper.ratioBelow].
  destruct (2 * a <? b) eqn:Htall.
  - apply Z.ltb_lt in Htall.
    assert (Hlt : Qltb (inject_Z a / inject_Z b) (5 # 10) = true).
    { apply ShelfFacts.Qltb_true. apply Qlt_shift_div_r; [done|].
      assert (inject_Z (2 * a) < inject_Z b)%Q by (by rewrite <- Zlt_Qlt).
      rewrite inject_Z_mult in H. change (inject_Z 2) with 2%Q in H. lra. }
    by rewrite Hlt.
  - apply Z.ltb_ge in Htall.
    assert (Hge : Qltb (inject_Z a / inject_Z b) (5 # 10) = false).
    { apply ShelfFacts.Qltb_false. apply Qle_shift_div_l; [done|].
      assert (inject_Z b <= inject_Z (2 * a))%Q by (by rewrite <- Zle_Qle).
      rewrite inject_Z_mult in H. change (inject_Z 2) with 2%Q in H. lra. }
    assert (Hlt : Qltb (inject_Z a / inject_Z b) (15 # 10) = true).
    { apply ShelfFacts.Qltb_true. apply Qlt_shift_div_r; [done|].
      assert (inject_Z a <= inject_Z b)%Q by (by rewrite <- Zle_Qle). lra. }
    by rewrite Hge, Hlt.
Qed.

Lemma aspect_tier_never_wide_witness :
  0 < 300 /\ 0 < 100
  /\ Grouper.getAspectRatioCategory Grouper.GROUPING_CONFIG 300 100 = "tall".
Proof.
  assert (Hw : 0 < 300) by lia. assert (Hh : 0 < 100) by lia.
  split; [exact Hw|]. split; [exact Hh|].
  exact (aspect_tier_never_wide 300 100 Hw Hh).
Defined.

(** X16.  With the default configuration the rows [getGroupStatistics]
    gives for the groups of [groupImages] account for the input: the counts
    add up to the number of images, the total areas to the total area of the
    images, and every row has a count of at least one, so that its average
    area is the finite quotient of the two. *)
Theorem group_statistics_totals images :
  let rows :=
    GroupStats.getGroupStatistics
      (Grouper.groupImages Grouper.GROUPING_CONFIG images) in
  sum_list (map GroupStats.count rows) = length images
  /\ foldr Z.add 0 (map GroupStats.totalArea rows) = totalArea images
  /\ forall row, row ∈ rows ->
       (1 <= GroupStats.count row)%nat
       /\ GroupStats.avgArea row
          = Finite (inject_Z (GroupStats.totalArea row)
                    / inject_Z (Z.of_nat (GroupStats.count row))).
Proof.
  intros rows. subst rows. unfold GroupStats.getGroupStatistics.
  set (cfg := Grouper.GROUPING_CONFIG).
  assert (Hcap : 0 < Grouper.MAX_IMAGES_PER_GROUP cfg) by (simpl; lia).
  assert (Hperm : GrouperFacts.allItems (Grouper.groupImages cfg images) ≡ₚ images).
  { unfold Grouper.groupImages. destruct images as [|im images]; [done|].
    cbn [length Nat.eqb].
    rewrite GrouperFacts.limitGroupSize_items by done.
    rewrite GrouperFacts.mergeSmallGroups_Permutation.
    rewrite GrouperFacts.refineGroups_Permutation.
    apply GrouperFacts.groupBySize_Permutation. }
  split; [|split].
  - rewrite map_map. cbn [GroupStats.rowOf GroupStats.count].
    rewrite <- GrouperFacts.length_allItems. by rewrite Hperm.
  - rewrite map_map. cbn [GroupStats.rowOf GroupStats.totalArea].
    rewrite <- (GrouperLimits.totalArea_Permutation _ _ Hperm).
    generalize (Grouper.groupImages cfg images). intros groups.
    induction groups as [|g groups IH]; [done|].
    unfold GrouperFacts.allItems in *. simpl.
    rewrite GrouperLimits.totalArea_app, IH. done.
  - intros row (g & -> & Hg)%list_elem_of_fmap.
    unfold Grouper.groupImages in Hg.
    destruct (length images =? 0)%nat; [by apply elem_of_nil in Hg|].
    apply GrouperLimits.elem_of_limitGroupSize in Hg as (group & _ & Hg).
    apply GrouperLimits.limitGroup_groups in Hg as [Hlen _]; [|done].
    cbn [GroupStats.rowOf GroupStats.count GroupStats.totalArea
         GroupStats.avgArea].
    split; [lia|]. unfold jsDiv.
    assert (Hnz : Qeq_bool (inject_Z (Z.of_nat (length (Grouper.items g)))) 0
                  = false).
    { apply not_true_is_false. intros Heq%Qeq_bool_iff.
      assert (0 < inject_Z (Z.of_nat (length (Grouper.items g))))%Q
        by (apply ShelfFacts.inject_Z_pos; lia).
      lra. }
    by rewrite Hnz.
Qed.

Module SelectorRuns.
Import Selector SelectorFacts.
Local Open Scope Q_scope.

(** One call [recordResult(algorithm, success, efficiency)], with the value
    [Date.now()] has during the call. *)
Record Call := mkCall {
  callNow : Z;
  callAlgorithm : string;
  callSuccess : bool;
  callEfficiency : Q
}.

Definition record (sel : t) (c : Call) : t :=
  recordResult (callNow c) sel (callAlgorithm c) (callSuccess c)
               (callEfficiency c).

(** The selector after the constructor and a sequence of calls. *)
Definition replay (calls : list Call) : t := fold_left record calls initial.

Definition callsOf (alg : string) (calls : list Call) : list Call :=
  List.filter (fun c => String.eqb (callAlgorithm c) alg) calls.

Definition successesOf (alg : string) (calls : list Call) : list Call :=
  List.filter callSuccess (callsOf alg calls).

Definition known (c : Call) : bool :=
  String.eqb (callAlgorithm c) "maxRectangles"
  || String.eqb (callAlgorithm c) "shelf".

Definition recordOf (c : Call) : HistoryRecord :=
  mkRecord (callAlgorithm c) (callSuccess c) (callEfficiency c) (callNow c).

(** What holds of an entry in every state. *)
Definition goodStats (s : AlgStats) : Prop :=
  (0 <= successRate s <= 1)
  /\ Forall (fun e => 0 < e) (efficiencies s)
  /\ (length (efficiencies s) <= 50)%nat
  /\ (length (efficiencies s) <= usage s)%nat
  /\ avgEfficiency s
     = match efficiencies s with [] => 0 | _ :: _ => mean (efficiencies s) end.

Lemma of_nat_S_minus u :
  inject_Z (Z.of_nat (S u)) - 1 == inject_Z (Z.of_nat u).
Proof.
  rewrite Nat2Z.inj_succ. unfold Z.succ. rewrite inject_Z_plus.
  change (inject_Z 1) with 1. ring.
Qed.

Lemma of_nat_S_pos u : 0 < inject_Z (Z.of_nat (S u)).
Proof. apply ShelfFacts.inject_Z_pos. lia. Qed.

Lemma rate_bounds r u (b : bool) :
  0 <= r <= 1 ->
  0 <= (if b then (r * (inject_Z (Z.of_nat (S u)) - 1) + 1) / inject_Z (Z.of_nat (S u))
        else (r * (inject_Z (Z.of_nat (S u)) - 1)) / inject_Z (Z.of_nat (S u)))
  <= 1.
Proof.
  intros [Hr0 Hr1].
  pose proof (of_nat_S_pos u) as Hn. pose proof (of_nat_S_minus u) as Hm.
  set (n := inject_Z (Z.of_nat (S u))) in *.
  assert (Hm0 : 0 <= n - 1).
  { rewrite Hm. apply SearchFacts.inject_Z_nonneg. lia. }
  assert (Hlow : 0 <= r * (n - 1)) by (by apply Qmult_le_0_compat).
  assert (Hhigh : r * (n - 1) <= 1 * (n - 1)) by (by apply Qmult_le_compat_r).
  destruct b; split.
  - apply Qle_shift_div_l; [done|]. lra.
  - apply Qle_shift_div_r; [done|]. lra.
  - apply Qle_shift_div_l; [done|]. lra.
  - apply Qle_shift_div_r; [done|]. lra.
Qed.

Lemma pushCapped_not_nil {A : Type} (l : list A) (v : A) :
  pushCapped 50 l v <> [].
Proof.
  unfold pushCapped. destruct (50 <? length (l ++ [v]))%nat eqn:Hc.
  - apply Nat.ltb_lt in Hc. destruct (l ++ [v]) as [|a [|b rest]]; simpl in *;
      [lia|lia|done].
  - by destruct l.
Qed.

Lemma pushCapped_Forall {A : Type} (P : A -> Prop) cap (l : list A) (v : A) :
  Forall P l -> P v -> Forall P (pushCapped cap l v).
Proof.
  intros Hl Hv. unfold pushCapped.
  assert (Forall P (l ++ [v])) by (apply Forall_app; split; [done|by constructor]).
  destruct (_ <? _)%nat; [by apply Forall_drop|done].
Qed.

Lemma pushCapped_length {A : Type} cap (l : list A) (v : A) :
  (length (pushCapped cap l v) <= S (length l))%nat.
Proof.
  unfold pushCapped. destruct (_ <? _)%nat;
    rewrite ?length_drop, length_app; simpl; lia.
Qed.

Lemma updateStats_good s ok eff : goodStats s -> goodStats (updateStats s ok eff).
Proof.
  intros (Hrate & Hpos & Hlen & Huse & Havg). unfold updateStats, goodStats.
  destruct (ok && Qltb 0 eff) eqn:Hc; cbn [successRate efficiencies usage avgEfficiency].
  - apply andb_prop in Hc as [_ Heff]. apply ShelfFacts.Qltb_true in Heff.
    split; [by apply rate_bounds|].
    split; [by apply pushCapped_Forall|].
    split; [apply pushCapped_lastN; [done|lia]|].
    split; [pose proof (pushCapped_length 50 (efficiencies s) eff); lia|].
    pose proof (pushCapped_not_nil (efficiencies s) eff).
    by destruct (pushCapped 50 (efficiencies s) eff).
  - split; [by apply rate_bounds|]. split; [done|]. split; [done|].
    split; [lia|done].
Qed.

Lemma emptyStats_good : goodStats emptyStats.
Proof.
  unfold goodStats, emptyStats. simpl. split; [lra|].
  split; [constructor|]. split; [lia|]. split; [lia|done].
Qed.

Definition knownKeys (sel : t) : Prop :=
  forall alg, is_Some (statistics sel !! alg)
              <-> alg = "maxRectangles" \/ alg = "shelf".

Lemma initial_keys alg :
  is_Some (statistics initial !! alg) <-> alg = "maxRectangles" \/ alg = "shelf".
Proof.
  unfold initial. cbn [statistics].
  rewrite !lookup_insert_is_Some, lookup_empty. split.
  - intros [<-|[_ [<-|[_ [x [=]]]]]]; auto.
  - intros [->| ->]; [by left|]. right. split; [done|by left].
Qed.

Lemma reachable_good sel :
  reachable sel ->
  knownKeys sel /\ forall alg s, statistics sel !! alg = Some s -> goodStats s.
Proof.
  induction 1 as [|sel now alg ok eff Hreach [Hkeys Hgood]].
  - split; [exact initial_keys|].
    intros alg s. unfold initial. cbn [statistics].
    rewrite !lookup_insert_Some, lookup_empty.
    intros [[_ <-]|[_ [[_ <-]|[_ [=]]]]]; apply emptyStats_good.
  - unfold recordResult. destruct (statistics sel !! alg) as [s|] eqn:Hs; [|done].
    split.
    + intros alg'. unfold recordHistory. cbn [statistics].
      rewrite lookup_insert_is_Some, <- (Hkeys alg').
      split; [intros [<-|[_ H]]; [by exists s|done]|].
      intros H. destruct (decide (alg = alg')); [by left|by right].
    + intros alg' s'. unfold recordHistory. cbn [statistics].
      intros [[_ <-]|[_ Hs']]%lookup_insert_Some.
      * apply updateStats_good. by eapply Hgood.
      * by eapply Hgood.
Qed.

Lemma replay_reachable calls : reachable (replay calls).
Proof.
  unfold replay.
  apply (fold_left_prefix_inv record (fun _ sel => reachable sel)).
  - constructor.
  - intros _ sel c Hsel. by constructor.
Qed.

(** The counting invariant of [replay]. *)
Definition counted (seen : list Call) (sel : t) : Prop :=
  forall alg s, statistics sel !! alg = Some s ->
    usage s = length (callsOf alg seen)
    /\ successRate s * inject_Z (Z.of_nat (usage s))
       == inject_Z (Z.of_nat (length (successesOf alg seen))).

Lemma callsOf_snoc alg seen c :
  callsOf alg (seen ++ [c])
  = callsOf alg seen ++ (if String.eqb (callAlgorithm c) alg then [c] else []).
Proof.
  unfold callsOf. rewrite List.filter_app. simpl.
  by destruct (String.eqb _ _).
Qed.

Lemma successesOf_snoc alg seen c :
  successesOf alg (seen ++ [c])
  = successesOf alg seen
    ++ (if String.eqb (callAlgorithm c) alg && callSuccess c then [c] else []).
Proof.
  unfold successesOf. rewrite callsOf_snoc, List.filter_app.
  destruct (String.eqb _ _); simpl; [|done]. by destruct (callSuccess c).
Qed.

Lemma updateStats_usage s ok eff : usage (updateStats s ok eff) = S (usage s).
Proof. unfold updateStats. by destruct (ok && Qltb 0 eff). Qed.

Lemma updateStats_rate s ok eff :
  successRate (updateStats s ok eff)
  = if ok
    then (successRate s * (inject_Z (Z.of_nat (S (usage s))) - 1) + 1)
         / inject_Z (Z.of_nat (S (usage s)))
    else (successRate s * (inject_Z (Z.of_nat (S (usage s))) - 1))
         / inject_Z (Z.of_nat (S (usage s))).
Proof. unfold updateStats. by destruct (ok && Qltb 0 eff). Qed.

Lemma record_counted seen sel c :
  counted seen sel -> counted (seen ++ [c]) (record sel c).
Proof.
  intros Hc alg s. unfold record, recordResult.
  rewrite callsOf_snoc, successesOf_snoc, !length_app.
  destruct (statistics sel !! callAlgorithm c) as [s0|] eqn:Hs0.
  - cbn [recordHistory statistics].
    intros [[<- <-]|[Hne Hs]]%lookup_insert_Some.
    + rewrite String.eqb_refl. cbn [andb length].
      destruct (Hc _ _ Hs0) as [Hu Hr].
      rewrite updateStats_usage, updateStats_rate.
      split; [lia|].
      pose proof (of_nat_S_pos (usage s0)) as Hn.
      pose proof (of_nat_S_minus (usage s0)) as Hm.
      set (n := inject_Z (Z.of_nat (S (usage s0)))) in *.
      assert (Hnz : ~ n == 0) by lra.
      assert (Hdiv : forall x, x / n * n == x) by (intros x; by field).
      destruct (callSuccess c); cbn [length]; rewrite Hdiv, Hm.
      * rewrite Nat2Z.inj_add, inject_Z_plus. change (inject_Z (Z.of_nat 1)) with 1.
        by rewrite <- Hr.
      * by rewrite Nat.add_0_r, <- Hr.
    + apply String.eqb_neq in Hne. rewrite Hne. cbn [andb length].
      rewrite !Nat.add_0_r. by apply Hc.
  - intros Hs. destruct (String.eqb (callAlgorithm c) alg) eqn:Heq.
    + apply String.eqb_eq in Heq. congruence.
    + cbn [andb length]. rewrite !Nat.add_0_r. by apply Hc.
Qed.

Lemma replay_counted calls : counted calls (replay calls).
Proof.
  unfold replay. apply (fold_left_prefix_inv record counted).
  - intros alg s. unfold initial. cbn [statistics].
    rewrite !lookup_insert_Some, lookup_empty.
    intros [[_ <-]|[_ [[_ <-]|[_ [=]]]]]; simpl; split; try done; ring.
  - intros seen sel c. apply record_counted.
Qed.

(** The history of [replay]. *)
Lemma lastN_snoc {A : Type} n (l : list A) (x : A) :
  (0 < n)%nat -> lastN n (lastN n l ++ [x]) = lastN n (l ++ [x]).
Proof.
  intros Hn. unfold lastN. rewrite !length_app, length_drop. simpl.
  destruct (decide (length l <= n)%nat) as [Hle|Hgt].
  - replace (length l - n)%nat with 0%nat by lia. simpl.
    replace (length l - 0)%nat with (length l) by lia. done.
  - replace (length l - (length l - n) + 1 - n)%nat with 1%nat by lia.
    rewrite drop_app_le by (rewrite length_drop; lia).
    rewrite drop_drop.
    replace (length l + 1 - n)%nat with (length l - n + 1)%nat by lia.
    rewrite (drop_app_le l) by lia. done.
Qed.

Lemma record_history seen sel c :
  knownKeys sel -> (length (history sel) <= 50)%nat ->
  history sel = lastN 50 (map recordOf (List.filter known seen)) ->
  history (record sel c)
  = lastN 50 (map recordOf (List.filter known (seen ++ [c]))).
Proof.
  intros Hkeys Hlen Hhist. unfold record, recordResult.
  rewrite List.filter_app. cbn [List.filter].
  destruct (statistics sel !! callAlgorithm c) as [s0|] eqn:Hs0.
  - assert (Hk : known c = true).
    { unfold known. destruct (proj1 (Hkeys (callAlgorithm c))) as [->| ->];
        [by exists s0|done|done]. }
    rewrite Hk. cbn [recordHistory history].
    destruct (pushCapped_lastN maxHistorySize (history sel) (recordOf c) Hlen)
      as [Hpush _].
    unfold recordOf at 1 in Hpush. rewrite Hpush, Hhist.
    rewrite map_app. cbn [map]. apply lastN_snoc. unfold maxHistorySize. lia.
  - assert (Hk : known c = false).
    { unfold known. apply orb_false_iff. split; apply String.eqb_neq;
        intros Heq; destruct (proj2 (Hkeys (callAlgorithm c))) as [x Hx];
        [by left| |by right|]; congruence. }
    rewrite Hk, app_nil_r. done.
Qed.

Lemma replay_history calls :
  history (replay calls) = lastN 50 (map recordOf (List.filter known calls)).
Proof.
  unfold replay.
  apply (fold_left_prefix_inv record
           (fun seen sel =>
              reachable sel
              /\ history sel = lastN 50 (map recordOf (List.filter known seen)))).
  - split; [constructor|done].
  - intros seen sel c [Hreach Hhist]. split; [by constructor|].
    apply record_history; [by apply reachable_good|by apply reachable_bounded|done].
Qed.

End SelectorRuns.

(** ** Further properties of the selector *)

(** Two calls: a success of the Shelf packer at 75 percent, then a failure
    of the MaxRectangles packer as [generateAtlas] records it. *)
Definition twoCalls : list SelectorRuns.Call :=
  [ SelectorRuns.mkCall 1000 "shelf" true (75 # 1);
    SelectorRuns.mkCall 2000 "maxRectangles" false 0%Q ].

(** The calls that name one of the two algorithms. *)
Definition namesAlgorithm (c : SelectorRuns.Call) : Prop :=
  SelectorRuns.callAlgorithm c = "maxRectangles"
  \/ SelectorRuns.callAlgorithm c = "shelf".

Lemma namesAlgorithm_known c :
  namesAlgorithm c -> SelectorRuns.known c = true.
Proof.
  unfold namesAlgorithm, SelectorRuns.known. intros [-> | ->]; reflexivity.
Qed.

Lemma filter_known calls :
  Forall namesAlgorithm calls -> List.filter SelectorRuns.known calls = calls.
Proof.
  induction 1 as [|c calls Hc _ IH]; [done|].
  simpl. rewrite (namesAlgorithm_known c Hc). by rewrite IH.
Qed.

Lemma twoCalls_named : Forall namesAlgorithm twoCalls.
Proof.
  apply Forall_cons; split; [by right|].
  apply Forall_cons; split; [by left|]. apply Forall_nil_2.
Qed.

(** An entry that was never used still has the success rate 0. *)
Lemma replay_unused calls alg s :
  Selector.statistics (SelectorRuns.replay calls) !! alg = Some s ->
  Selector.usage s = 0%nat -> Selector.successRate s = 0%Q.
Proof.
  revert alg s. unfold SelectorRuns.replay.
  apply (fold_left_prefix_inv SelectorRuns.record
           (fun _ sel => forall alg s,
              Selector.statistics sel !! alg = Some s ->
              Selector.usage s = 0%nat -> Selector.successRate s = 0%Q)).
  - intros alg s. unfold Selector.initial. cbn [Selector.statistics].
    rewrite !lookup_insert_Some, lookup_empty.
    by intros [[_ <-]|[_ [[_ <-]|[_ [=]]]]].
  - intros seen sel c IH alg s.
    unfold SelectorRuns.record, Selector.recordResult.
    destruct (Selector.statistics sel !! SelectorRuns.callAlgorithm c)
      as [s0|] eqn:Hs0; [|exact (IH alg s)].
    unfold Selector.recordHistory. cbn [Selector.statistics].
    intros [[_ <-]|[_ Hs]]%lookup_insert_Some.
    + by rewrite SelectorRuns.updateStats_usage.
    + by apply (IH alg s).
Qed.

(** X17.  After the constructor and any sequence of calls of
    [recordResult] that name one of the two algorithms, the entries are
    those of the two algorithms, and in each entry the success rate lies
    between 0 and 1, the efficiency buffer holds positive values only, at
    most 50 of them and no more than the usage count, and the average is 0
    as long as the buffer is empty. *)
Theorem recorded_statistics_sound calls :
  Forall namesAlgorithm calls ->
  let sel := SelectorRuns.replay calls in
  (forall alg, is_Some (Selector.statistics sel !! alg)
               <-> alg = "maxRectangles" \/ alg = "shelf")
  /\ forall alg s, Selector.statistics sel !! alg = Some s ->
       (0 <= Selector.successRate s <= 1)%Q
       /\ Forall (fun e => (0 < e)%Q) (Selector.efficiencies s)
       /\ (length (Selector.efficiencies s) <= 50)%nat
       /\ (length (Selector.efficiencies s) <= Selector.usage s)%nat
       /\ (Selector.efficiencies s = [] -> Selector.avgEfficiency s = 0%Q).
Proof.
  intros _ sel.
  destruct (SelectorRuns.reachable_good sel
              (SelectorRuns.replay_reachable calls)) as [Hkeys Hgood].
  split; [exact Hkeys|].
  intros alg s Hs.
  destruct (Hgood alg s Hs) as (Hrate & Hpos & Hlen & Huse & Havg).
  split; [done|]. split; [done|]. split; [done|]. split; [done|].
  intros Hnil. by rewrite Hnil in Havg.
Qed.

Lemma recorded_statistics_sound_witness :
  Forall namesAlgorithm twoCalls
  /\ forall alg, is_Some (Selector.statistics (SelectorRuns.replay twoCalls) !! alg)
                 <-> alg = "maxRectangles" \/ alg = "shelf".
Proof.
  split; [exact twoCalls_named|].
  exact (proj1 (recorded_statistics_sound twoCalls twoCalls_named)).
Defined.

(** X18.  After the constructor and any sequence of calls of
    [recordResult] that name one of the two algorithms, the usage count of
    an algorithm is the number of calls that named it; its success rate is
    1 when there was such a call and all of them reported success, and 0
    when none of them reported success. *)
Theorem usage_counts_calls calls alg s :
  Forall namesAlgorithm calls ->
  Selector.statistics (SelectorRuns.replay calls) !! alg = Some s ->
  let named := SelectorRuns.callsOf alg calls in
  Selector.usage s = length named
  /\ (named <> [] ->
      Forall (fun c => SelectorRuns.callSuccess c = true) named ->
      (Selector.successRate s == 1)%Q)
  /\ (Forall (fun c => SelectorRuns.callSuccess c = false) named ->
      (Selector.successRate s == 0)%Q).
Proof.
  intros _ Hs named.
  destruct (SelectorRuns.replay_counted calls alg s Hs) as [Husage Hrate].
  fold named in Husage. unfold SelectorRuns.successesOf in Hrate.
  fold named in Hrate.
  split; [done|]. split.
  - intros Hne Hall.
    assert (Hfilter : List.filter SelectorRuns.callSuccess named = named).
    { clear -Hall. induction Hall as [|c l Hc _ IH]; [done|].
      simpl. by rewrite Hc, IH. }
    rewrite Hfilter, <- Husage in Hrate.
    assert (Hpos : (0 < inject_Z (Z.of_nat (Selector.usage s)))%Q).
    { apply ShelfFacts.inject_Z_pos. rewrite Husage.
      destruct named; [done|simpl; lia]. }
    nra.
  - intros Hall.
    assert (Hfilter : List.filter SelectorRuns.callSuccess named = []).
    { clear -Hall. induction Hall as [|c l Hc _ IH]; [done|].
      simpl. by rewrite Hc, IH. }
    rewrite Hfilter in Hrate. cbn [length] in Hrate.
    destruct (Selector.usage s) as [|u] eqn:Hu.
    + by rewrite (replay_unused calls alg s Hs Hu).
    + pose proof (SelectorRuns.of_nat_S_pos u) as Hpos.
      change (inject_Z (Z.of_nat 0)) with 0%Q in Hrate. nra.
Qed.

Lemma usage_counts_calls_witness :
  exists s,
    Selector.statistics (SelectorRuns.replay twoCalls) !! "shelf" = Some s
    /\ Selector.usage s = 1%nat
    /\ (Selector.successRate s == 1)%Q.
Proof.
  assert (H : exists s, Selector.statistics (SelectorRuns.replay twoCalls)
                          !! "shelf" = Some s).
  { eexists. vm_compute. reflexivity. }
  destruct H as [s Hs]. exists s. split; [exact Hs|].
  destruct (usage_counts_calls twoCalls "shelf" s twoCalls_named Hs)
    as (Husage & Hall & _).
  split; [exact Husage|].
  apply Hall; [vm_compute; discriminate|].
  vm_compute. apply Forall_cons. split; [reflexivity|apply Forall_nil_2].
Defined.
(** X19.  After the constructor and any sequence of calls of
    [recordResult] that name one of the two algorithms, the history holds
    the records of the last 50 calls, oldest first, each with the
    algorithm, the success flag, the efficiency and the time of its call. *)
Theorem history_is_last_50_calls calls :
  Forall namesAlgorithm calls ->
  Selector.history (SelectorRuns.replay calls)
  = SelectorFacts.lastN 50 (map SelectorRuns.recordOf calls)
  /\ (length (Selector.history (SelectorRuns.replay calls)) <= 50)%nat.
Proof.
  intros Hcalls. split.
  - rewrite SelectorRuns.replay_history. by rewrite filter_known.
  - apply SelectorFacts.reachable_bounded, SelectorRuns.replay_reachable.
Qed.

Lemma history_is_last_50_calls_witness :
  Forall namesAlgorithm twoCalls
  /\ Selector.history (SelectorRuns.replay twoCalls)
     = map SelectorRuns.recordOf twoCalls.
Proof.
  split; [exact twoCalls_named|].
  exact (proj1 (history_is_last_50_calls twoCalls twoCalls_named)).
Defined.

Module ResetFacts.
Import SelectorReset.

Lemma reset_lookup sel alg :
  alg = "maxRectangles" \/ alg = "shelf" ->
  statistics (resetStatistics sel) !! alg = Some resetStats.
Proof.
  unfold resetStatistics. cbn [statistics].
  intros [->| ->]; [by rewrite lookup_insert_eq|].
  rewrite lookup_insert_ne by done. by rewrite lookup_insert_eq.
Qed.

Lemma ofSelector_record now sel alg ok eff :
  recordResult now (ofSelector sel) alg ok eff
  = Returned (ofSelector (Selector.recordResult now sel alg ok eff)).
Proof.
  unfold recordResult, Selector.recordResult, ofSelector at 1.
  cbn [statistics history]. rewrite lookup_fmap.
  destruct (Selector.statistics sel !! alg) as [s|] eqn:Hs; cbn [fmap option_fmap option_map];
    [|done].
  unfold ofStats at 1 2. cbn [efficiencies usage successRate avgEfficiency].
  unfold recordHistory, Selector.recordHistory, ofSelector.
  cbn [statistics history Selector.statistics Selector.history].
  rewrite fmap_insert.
  unfold Selector.updateStats, withRate, ofStats.
  destruct (ok && Qltb 0 eff); cbn [usage successRate efficiencies avgEfficiency
    Selector.usage Selector.successRate Selector.efficiencies
    Selector.avgEfficiency]; reflexivity.
Qed.

End ResetFacts.

(** X20.  [resetStatistics] leaves entries without an efficiency buffer
    and keeps the history.  On such an entry a call of [recordResult] that
    reports success with an efficiency above 0 throws a [TypeError] at the
    push, after the usage count was raised and before rate and history are
    written; a call that reports failure, or no positive efficiency,
    returns and is recorded.  On the entries of the constructor the call
    always returns. *)
Theorem record_after_reset_throws sel now alg eff :
  alg = "maxRectangles" \/ alg = "shelf" ->
  let fresh := SelectorReset.resetStatistics sel in
  SelectorReset.history fresh = SelectorReset.history sel
  /\ ((0 < eff)%Q ->
      SelectorReset.recordResult now fresh alg true eff
      = SelectorReset.ThrewTypeError
          (SelectorReset.mk
             (<[alg := SelectorReset.mkStats 1 0 None None]>
                (SelectorReset.statistics fresh))
             (SelectorReset.history sel)))
  /\ (forall ok, ok = false \/ (eff <= 0)%Q ->
        exists sel' s',
          SelectorReset.recordResult now fresh alg ok eff
          = SelectorReset.Returned sel'
          /\ SelectorReset.statistics sel' !! alg = Some s'
          /\ SelectorReset.usage s' = 1%nat
          /\ SelectorReset.efficiencies s' = None
          /\ SelectorReset.history sel'
             = Selector.pushCapped 50 (SelectorReset.history sel)
                 (Selector.mkRecord alg ok eff now))
  /\ (forall sel0 ok,
        SelectorReset.recordResult now (SelectorReset.ofSelector sel0) alg ok eff
        = SelectorReset.Returned
            (SelectorReset.ofSelector (Selector.recordResult now sel0 alg ok eff))).
Proof.
  intros Halg fresh. split; [done|].
  pose proof (ResetFacts.reset_lookup sel alg Halg) as Hlook.
  split; [|split].
  - intros Heff. unfold SelectorReset.recordResult. fold fresh in Hlook.
    rewrite Hlook. apply ShelfFacts.Qltb_true in Heff. rewrite Heff. done.
  - intros ok Hcase. unfold SelectorReset.recordResult. fold fresh in Hlook.
    rewrite Hlook.
    assert (Hno : ok && Qltb 0 eff = false).
    { destruct Hcase as [->|Hle]; [done|].
      apply andb_false_iff. right. by apply ShelfFacts.Qltb_false. }
    rewrite Hno. eexists _, _. split; [reflexivity|].
    unfold SelectorReset.recordHistory.
    cbn [SelectorReset.statistics SelectorReset.history].
    split; [apply lookup_insert_eq|]. done.
  - intros sel0 ok. apply ResetFacts.ofSelector_record.
Qed.

Lemma record_after_reset_throws_witness :
  ("shelf" = "maxRectangles" \/ "shelf" = "shelf")
  /\ (0 < 75 # 1)%Q
  /\ exists sel',
       SelectorReset.recordResult 1000
         (SelectorReset.resetStatistics (SelectorReset.ofSelector Selector.initial))
         "shelf" true (75 # 1)
       = SelectorReset.ThrewTypeError sel'.
Proof.
  assert (Halg : "shelf" = "maxRectangles" \/ "shelf" = "shelf") by (right; reflexivity).
  assert (Heff : (0 < 75 # 1)%Q) by reflexivity.
  split; [exact Halg|]. split; [exact Heff|].
  eexists.
  exact (proj1 (proj2 (record_after_reset_throws
                         (SelectorReset.ofSelector Selector.initial)
                         1000 "shelf" (75 # 1) Halg)) Heff).
Defined.

(** ** Sorting with a total order *)

Module SortFacts.

Section Sorted.
Context {A : Type}.
Variable leb : A -> A -> bool.
Hypothesis leb_total : forall a b, leb a b = true \/ leb b a = true.

Definition le (a b : A) : Prop := leb a b = true.

Lemma insertSorted_Sorted a l : Sorted le l -> Sorted le (insertSorted leb a l).
Proof.
  induction l as [|b l IH]; simpl; intros Hl.
  - by repeat constructor.
  - destruct (leb a b) eqn:Hab.
    + constructor; [done|]. by constructor.
    + apply Sorted_inv in Hl as [Hl Hhd].
      constructor; [by apply IH|].
      assert (Hba : le b a) by (destruct (leb_total a b); [congruence|done]).
      destruct l as [|c l]; simpl; [by constructor|].
      destruct (leb a c); constructor; [done|].
      by apply HdRel_inv in Hhd.
Qed.

Lemma stableSort_Sorted l : Sorted le (stableSort leb l).
Proof.
  unfold stableSort. induction l as [|a l IH]; simpl; [constructor|].
  by apply insertSorted_Sorted.
Qed.

Hypothesis leb_trans : forall a b c, le a b -> le b c -> le a c.
Hypothesis leb_antisym : forall a b, le a b -> le b a -> a = b.

Lemma stableSort_Permutation_eq l1 l2 :
  l1 ≡ₚ l2 -> stableSort leb l1 = stableSort leb l2.
Proof.
  intros Hperm.
  assert (Htrans : Transitive le) by exact leb_trans.
  apply (Sorted_unique_strong le).
  - intros a b _ _. apply leb_antisym.
  - apply stableSort_Sorted.
  - apply stableSort_Sorted.
  - by rewrite !stableSort_Permutation.
Qed.

End Sorted.

(** The order of [String.leb] is a total order. *)
Lemma ascii_compare_N a b :
  Ascii.compare a b = (Ascii.N_of_ascii a ?= Ascii.N_of_ascii b)%N.
Proof. reflexivity. Qed.

Lemma string_compare_trans : forall s1 s2 s3 c,
  String.compare s1 s2 <> Gt -> String.compare s2 s3 <> Gt ->
  String.compare s1 s3 = c -> c <> Gt.
Proof.
  induction s1 as [|a s1 IH]; intros [|b s2] [|d s3] c; simpl;
    try congruence.
  rewrite !ascii_compare_N.
  destruct (N.compare_spec (Ascii.N_of_ascii a) (Ascii.N_of_ascii b)) as [Hab|Hab|Hab];
    [|intros _|congruence];
    (destruct (N.compare_spec (Ascii.N_of_ascii b) (Ascii.N_of_ascii d)) as [Hbd|Hbd|Hbd];
     [|intros _|congruence]);
    destruct (N.compare_spec (Ascii.N_of_ascii a) (Ascii.N_of_ascii d)) as [Had|Had|Had];
    try lia; try congruence.
  intros H12 H23 Hc. by eapply IH.
Qed.

Lemma string_leb_trans a b c :
  String.leb a b = true -> String.leb b c = true -> String.leb a c = true.
Proof.
  unfold String.leb. intros Hab Hbc.
  assert (Hab' : String.compare a b <> Gt) by (by destruct (String.compare a b)).
  assert (Hbc' : String.compare b c <> Gt) by (by destruct (String.compare b c)).
  pose proof (string_compare_trans a b c _ Hab' Hbc' eq_refl).
  by destruct (String.compare a c).
Qed.

Lemma sort_strings_Permutation l1 l2 :
  l1 ≡ₚ l2 -> stableSort String.leb l1 = stableSort String.leb l2.
Proof.
  apply stableSort_Permutation_eq.
  - apply String.leb_total.
  - apply string_leb_trans.
  - apply String.leb_antisym.
Qed.

End SortFacts.

(** ** The result cache *)

Module CacheFacts.
Import AlgorithmCache.

Section Facts.
Context {V : Type}.
Variable truthy : V -> bool.
Variable stringify : string -> Z -> Z -> bool -> string.

Implicit Types entries : list (string * V).

Lemma mapGet_mapSet_eq key value entries :
  mapGet key (mapSet key value entries) = Some value.
Proof.
  unfold mapGet. induction entries as [|[k v] rest IH]; simpl.
  - by rewrite String.eqb_refl.
  - destruct (String.eqb k key) eqn:Hk; simpl; rewrite Hk; [done|apply IH].
Qed.

Lemma mapGet_mapSet_ne key key' value entries :
  key <> key' -> mapGet key' (mapSet key value entries) = mapGet key' entries.
Proof.
  intros Hne. unfold mapGet. induction entries as [|[k v] rest IH]; simpl.
  - apply String.eqb_neq in Hne. by rewrite Hne.
  - destruct (String.eqb k key) eqn:Hk; simpl.
    + apply String.eqb_eq in Hk as ->. apply String.eqb_neq in Hne.
      by rewrite Hne.
    + destruct (String.eqb k key'); [done|apply IH].
Qed.

Lemma mapGet_mapDelete_eq key entries : mapGet key (mapDelete key entries) = None.
Proof.
  unfold mapGet, mapDelete. induction entries as [|[k v] rest IH]; simpl; [done|].
  destruct (String.eqb k key) eqn:Hk; simpl; [done|]. by rewrite Hk.
Qed.

Lemma mapGet_mapDelete_ne key key' entries :
  key <> key' -> mapGet key' (mapDelete key entries) = mapGet key' entries.
Proof.
  intros Hne. unfold mapGet, mapDelete.
  induction entries as [|[k v] rest IH]; simpl; [done|].
  destruct (String.eqb k key) eqn:Hk; simpl.
  - apply String.eqb_eq in Hk as ->. apply String.eqb_neq in Hne.
    by rewrite Hne.
  - destruct (String.eqb k key'); [done|apply IH].
Qed.

Lemma mapGet_None key entries :
  mapGet key entries = None <-> key ∉ map fst entries.
Proof.
  unfold mapGet. induction entries as [|[k v] rest IH]; simpl.
  - split; [intros _ ?%elem_of_nil|]; done.
  - destruct (String.eqb k key) eqn:Hk; simpl.
    + apply String.eqb_eq in Hk as ->. split; [done|]. intros []. left.
    + apply String.eqb_neq in Hk. rewrite IH. split.
      * by intros Hout [?|?]%elem_of_cons.
      * intros Hout Hin. apply Hout. by right.
Qed.

Lemma keys_mapSet key value entries :
  map fst (mapSet key value entries)
  = if decide (key ∈ map fst entries) then map fst entries
    else map fst entries ++ [key].
Proof.
  induction entries as [|[k v] rest IH]; cbn [mapSet map fst].
  - destruct (decide (key ∈ [])) as [H%elem_of_nil|]; done.
  - destruct (String.eqb k key) eqn:Hk; cbn [map fst].
    + apply String.eqb_eq in Hk as ->.
      destruct (decide (key ∈ key :: map fst rest)) as [|Hout]; [done|].
      destruct Hout. left.
    + apply String.eqb_neq in Hk. rewrite IH.
      destruct (decide (key ∈ map fst rest)) as [Hin|Hout];
        destruct (decide (key ∈ k :: map fst rest)) as [Hin'|Hout']; try done.
      * destruct Hout'. by right.
      * by apply elem_of_cons in Hin' as [?|?].
Qed.

Lemma mapSet_absent key value entries :
  key ∉ map fst entries -> mapSet key value entries = entries ++ [(key, value)].
Proof.
  induction entries as [|[k v] rest IH]; simpl; [done|].
  intros Hout. destruct (String.eqb k key) eqn:Hk.
  - apply String.eqb_eq in Hk as ->. destruct Hout. left.
  - rewrite IH; [done|]. intros Hin. apply Hout. by right.
Qed.

Lemma keys_mapDelete key entries :
  map fst (mapDelete key entries)
  = List.filter (fun k => negb (String.eqb k key)) (map fst entries).
Proof.
  unfold mapDelete. induction entries as [|[k v] rest IH]; simpl; [done|].
  destruct (String.eqb k key); simpl; by rewrite IH.
Qed.

Lemma mapDelete_absent key entries :
  key ∉ map fst entries -> mapDelete key entries = entries.
Proof.
  unfold mapDelete. induction entries as [|[k v] rest IH]; simpl; [done|].
  intros Hout. destruct (String.eqb k key) eqn:Hk.
  - apply String.eqb_eq in Hk as ->. destruct Hout. left.
  - simpl. rewrite IH; [done|]. intros Hin. apply Hout. by right.
Qed.

Lemma NoDup_filter_keys (f : string -> bool) (keys : list string) :
  NoDup keys -> NoDup (List.filter f keys).
Proof.
  induction 1 as [|k keys Hout Hdup IH]; simpl; [constructor|].
  destruct (f k); [|done]. constructor; [|done].
  intros [Hin _]%ShelfFacts.elem_of_List_filter. done.
Qed.

Lemma length_mapDelete key entries :
  (length (mapDelete key entries) <= length entries)%nat
  /\ (key ∈ map fst entries ->
      (length (mapDelete key entries) < length entries)%nat).
Proof.
  unfold mapDelete. induction entries as [|[k v] rest [IH1 IH2]]; simpl.
  - split; [lia|]. by intros ?%elem_of_nil.
  - destruct (String.eqb k key) eqn:Hk; simpl.
    + split; [lia|]. intros _. lia.
    + apply String.eqb_neq in Hk. split; [lia|].
      intros [?|Hin]%elem_of_cons; [done|]. specialize (IH2 Hin). lia.
Qed.

Lemma length_mapSet key value entries :
  length (mapSet key value entries)
  = if decide (key ∈ map fst entries) then length entries
    else S (length entries).
Proof.
  rewrite <- (length_map fst (mapSet _ _ _)), keys_mapSet.
  destruct (decide _); rewrite ?length_app, length_map; simpl; lia.
Qed.

(** The caches that arise from [new AlgorithmCache(maxSize)] by calls of
    [get], [set] and [clear]. *)
Inductive reachable (limit : option Z) : t V -> Prop :=
| reachable_create : reachable limit (create limit)
| reachable_get c images algorithm options :
    reachable limit c ->
    reachable limit (get truthy stringify c images algorithm options).2
| reachable_set c images algorithm options result :
    reachable limit c ->
    reachable limit (set stringify c images algorithm options result)
| reachable_clear c : reachable limit c -> reachable limit (clear c).

Definition wellFormed (limit : option Z) (c : t V) : Prop :=
  maxSize c = default 100 limit
  /\ NoDup (map fst (cache c))
  /\ Z.of_nat (length (cache c)) <= Z.max 1 (maxSize c).

Lemma NoDup_mapSet key value entries :
  NoDup (map fst entries) -> NoDup (map fst (mapSet key value entries)).
Proof.
  intros Hdup. rewrite keys_mapSet. destruct (decide _) as [|Hout]; [done|].
  apply NoDup_app. split; [done|]. split; [|apply NoDup_singleton].
  by intros k Hk ->%list_elem_of_singleton.
Qed.

Lemma NoDup_mapDelete key entries :
  NoDup (map fst entries) -> NoDup (map fst (mapDelete key entries)).
Proof. rewrite keys_mapDelete. apply NoDup_filter_keys. Qed.

Lemma mapGet_Some_key key entries value :
  mapGet key entries = Some value -> key ∈ map fst entries.
Proof.
  intros Hget. destruct (decide (key ∈ map fst entries)) as [|Hout]; [done|].
  apply mapGet_None in Hout. congruence.
Qed.

Lemma get_wellFormed limit c images algorithm options :
  wellFormed limit c ->
  wellFormed limit (get truthy stringify c images algorithm options).2.
Proof.
  intros (Hmax & Hdup & Hlen). unfold get.
  set (key := generateKey stringify images algorithm options).
  destruct (mapGet key (cache c)) as [result|] eqn:Hget; [|done].
  destruct (truthy result); [|done]. unfold wellFormed. cbn [snd cache maxSize].
  split; [done|]. split; [by apply NoDup_mapSet, NoDup_mapDelete|].
  apply mapGet_Some_key in Hget.
  rewrite length_mapSet.
  destruct (length_mapDelete key (cache c)) as [Hle Hlt]. specialize (Hlt Hget).
  destruct (decide _); lia.
Qed.

Lemma set_wellFormed limit c images algorithm options result :
  wellFormed limit c ->
  wellFormed limit (set stringify c images algorithm options result).
Proof.
  intros (Hmax & Hdup & Hlen). unfold set.
  set (key := generateKey stringify images algorithm options).
  unfold wellFormed. cbn [cache maxSize]. split; [done|].
  destruct (maxSize c <=? Z.of_nat (length (cache c))) eqn:Hfull.
  - apply Z.leb_le in Hfull.
    destruct (cache c) as [|[firstKey v0] rest] eqn:Hcache.
    + split; [by apply NoDup_mapSet|]. simpl. lia.
    + rewrite <- Hcache in *.
      split; [by apply NoDup_mapSet, NoDup_mapDelete|].
      rewrite length_mapSet.
      destruct (length_mapDelete firstKey (cache c)) as [_ Hlt].
      assert (Hin : firstKey ∈ map fst (cache c)) by (rewrite Hcache; left).
      specialize (Hlt Hin). destruct (decide _); lia.
  - apply Z.leb_gt in Hfull. split; [by apply NoDup_mapSet|].
    rewrite length_mapSet. destruct (decide _); lia.
Qed.

Lemma reachable_wellFormed limit c : reachable limit c -> wellFormed limit c.
Proof.
  induction 1 as [|c images algorithm options _ IH
                  |c images algorithm options result _ IH|c _ IH].
  - unfold wellFormed, create. simpl. split; [done|]. split; [constructor|lia].
  - by apply get_wellFormed.
  - by apply set_wellFormed.
  - destruct IH as (Hmax & _ & _). unfold wellFormed, clear. simpl.
    split; [done|]. split; [constructor|lia].
Qed.

(** The sizes of the images, which is all the key keeps of them. *)
Definition sizes (images : list Image.t) : list (Z * Z) :=
  map (fun img => (Image.width img, Image.height img)) images.

Lemma generateKey_sizes images images' algorithm options :
  sizes images ≡ₚ sizes images' ->
  generateKey stringify images algorithm options
  = generateKey stringify images' algorithm options.
Proof.
  intros Hperm. unfold generateKey. do 2 f_equal.
  apply SortFacts.sort_strings_Permutation.
  assert (Hmap : forall l, map imageHash l
                           = map (fun wh => pretty wh.1 +:+ "x" +:+ pretty wh.2)
                                 (sizes l)).
  { intros l. unfold sizes. rewrite map_map. done. }
  rewrite !Hmap. by apply Permutation_map.
Qed.

End Facts.

End CacheFacts.

(** ** Properties of the result cache *)

(** A cache of numbers for the examples: every value is truthy, and the
    options are written as the algorithm name alone. *)
Definition sampleTruthy (v : nat) : bool := true.
Definition sampleStringify (algorithm : string) (padding maxWidth : Z)
    (usePowerOfTwo : bool) : string := algorithm.
Definition sampleOptions : AlgorithmCache.Options :=
  AlgorithmCache.mkOptions 2 2048 true.

(** A cache of size 1 that holds a result for the sprite set. *)
Definition fullCache : AlgorithmCache.t nat :=
  AlgorithmCache.set sampleStringify (AlgorithmCache.create (Some 1))
    spriteSet "shelf" sampleOptions 7%nat.

Lemma fullCache_reachable :
  CacheFacts.reachable sampleTruthy sampleStringify (Some 1) fullCache.
Proof. apply CacheFacts.reachable_set, CacheFacts.reachable_create. Qed.

(** X21.  A cache made by [new AlgorithmCache(maxSize)] and used through
    [get], [set] and [clear] never holds two entries for one key and never
    more than [maxSize] entries (one entry when [maxSize] is below 1);
    [maxSize] itself stays what the constructor set, 100 by default. *)
Theorem cache_never_exceeds_limit {V : Type} (truthy : V -> bool)
    (stringify : string -> Z -> Z -> bool -> string) limit c :
  CacheFacts.reachable truthy stringify limit c ->
  AlgorithmCache.maxSize c = default 100 limit
  /\ NoDup (map fst (AlgorithmCache.cache c))
  /\ Z.of_nat (length (AlgorithmCache.cache c))
     <= Z.max 1 (AlgorithmCache.maxSize c).
Proof. apply CacheFacts.reachable_wellFormed. Qed.

Lemma cache_never_exceeds_limit_witness :
  CacheFacts.reachable sampleTruthy sampleStringify (Some 1) fullCache
  /\ Z.of_nat (length (AlgorithmCache.cache fullCache)) <= 1.
Proof.
  split; [exact fullCache_reachable|].
  exact (proj2 (proj2 (cache_never_exceeds_limit sampleTruthy sampleStringify
                         (Some 1) fullCache fullCache_reachable))).
Defined.

(** X22.  The key of the cache keeps of the images only their sizes, in
    sorted order.  So after [set] stored a truthy result for a list of
    images, [get] with the same algorithm and options returns that result
    for every list of images with the same sizes, whatever their order and
    their names; the hit is counted and the entry becomes the newest. *)
Theorem cache_hit_for_equal_sizes {V : Type} (truthy : V -> bool)
    (stringify : string -> Z -> Z -> bool -> string)
    c images images' algorithm options result :
  truthy result = true ->
  CacheFacts.sizes images ≡ₚ CacheFacts.sizes images' ->
  let stored := AlgorithmCache.set stringify c images algorithm options result in
  let answer :=
    AlgorithmCache.get truthy stringify stored images' algorithm options in
  AlgorithmCache.generateKey stringify images' algorithm options
  = AlgorithmCache.generateKey stringify images algorithm options
  /\ answer.1 = Some result
  /\ AlgorithmCache.hits answer.2 = S (AlgorithmCache.hits c)
  /\ AlgorithmCache.misses answer.2 = AlgorithmCache.misses c
  /\ last (AlgorithmCache.cache answer.2)
     = Some (AlgorithmCache.generateKey stringify images algorithm options,
             result).
Proof.
  intros Htruthy Hsizes stored answer.
  assert (Hkey : AlgorithmCache.generateKey stringify images' algorithm options
                 = AlgorithmCache.generateKey stringify images algorithm options)
    by (symmetry; by apply CacheFacts.generateKey_sizes).
  split; [done|].
  subst answer. unfold AlgorithmCache.get. rewrite Hkey.
  set (key := AlgorithmCache.generateKey stringify images algorithm options).
  assert (Hget : AlgorithmCache.mapGet key (AlgorithmCache.cache stored)
                 = Some result).
  { subst stored. unfold AlgorithmCache.set. cbn [AlgorithmCache.cache].
    apply CacheFacts.mapGet_mapSet_eq. }
  rewrite Hget, Htruthy.
  cbn [fst snd AlgorithmCache.hits AlgorithmCache.misses AlgorithmCache.cache].
  split; [done|]. split; [done|]. split; [done|].
  rewrite CacheFacts.mapSet_absent.
  - by rewrite last_snoc.
  - apply CacheFacts.mapGet_None, CacheFacts.mapGet_mapDelete_eq.
Qed.

(** The sprite set under other names and in another order. *)
Definition renamedSprites : list Image.t :=
  [ Image.mk "gate" 48 128; Image.mk "gem" 32 32; Image.mk "knight" 64 96 ].

Lemma cache_hit_for_equal_sizes_witness :
  sampleTruthy 7%nat = true
  /\ CacheFacts.sizes spriteSet ≡ₚ CacheFacts.sizes renamedSprites
  /\ (AlgorithmCache.get sampleTruthy sampleStringify fullCache renamedSprites
        "shelf" sampleOptions).1 = Some 7%nat.
Proof.
  assert (Ht : sampleTruthy 7%nat = true) by reflexivity.
  assert (Hs : CacheFacts.sizes spriteSet ≡ₚ CacheFacts.sizes renamedSprites).
  { unfold CacheFacts.sizes, spriteSet, renamedSprites. cbn [map Image.width Image.height].
    apply Permutation_sym. etrans; [apply Permutation_swap|].
    etrans; [apply Permutation_skip, Permutation_swap|].
    apply Permutation_swap. }
  split; [exact Ht|]. split; [exact Hs|].
  exact (proj1 (proj2 (cache_hit_for_equal_sizes sampleTruthy sampleStringify
                         (AlgorithmCache.create (Some 1)) spriteSet
                         renamedSprites "shelf" sampleOptions 7%nat Ht Hs))).
Defined.

(** X23.  When the cache is full, [set] first drops its oldest entry,
    whichever key is stored: the entries left are the others with the new
    result put in; the result is found under its key; the oldest key is
    gone unless it is the key stored, which then becomes the newest entry;
    every other key keeps its result. *)
Theorem cache_set_evicts_oldest {V : Type} (truthy : V -> bool)
    (stringify : string -> Z -> Z -> bool -> string)
    limit c oldest value rest images algorithm options result :
  CacheFacts.reachable truthy stringify limit c ->
  AlgorithmCache.cache c = (oldest, value) :: rest ->
  AlgorithmCache.maxSize c <= Z.of_nat (length (AlgorithmCache.cache c)) ->
  let key := AlgorithmCache.generateKey stringify images algorithm options in
  let entries :=
    AlgorithmCache.cache
      (AlgorithmCache.set stringify c images algorithm options result) in
  entries = AlgorithmCache.mapSet key result rest
  /\ AlgorithmCache.mapGet key entries = Some result
  /\ (key <> oldest -> AlgorithmCache.mapGet oldest entries = None)
  /\ (key = oldest -> entries = rest ++ [(oldest, result)])
  /\ (forall other, other <> oldest -> other <> key ->
        AlgorithmCache.mapGet other entries
        = AlgorithmCache.mapGet other (AlgorithmCache.cache c)).
Proof.
  intros (_ & Hdup & _)%CacheFacts.reachable_wellFormed Hcache Hfull key entries.
  assert (Hout : oldest ∉ map fst rest).
  { rewrite Hcache in Hdup. simpl in Hdup. by apply NoDup_cons in Hdup as [? _]. }
  assert (Hentries : entries = AlgorithmCache.mapSet key result rest).
  { subst entries. unfold AlgorithmCache.set. cbn [AlgorithmCache.cache].
    apply Z.leb_le in Hfull. rewrite Hfull, Hcache. fold key. f_equal.
    unfold AlgorithmCache.mapDelete. cbn [List.filter fst].
    rewrite String.eqb_refl. cbn [negb].
    by apply (CacheFacts.mapDelete_absent oldest rest). }
  split; [done|]. rewrite Hentries.
  split; [apply CacheFacts.mapGet_mapSet_eq|].
  split; [|split].
  - intros Hne. rewrite CacheFacts.mapGet_mapSet_ne by done.
    by apply CacheFacts.mapGet_None.
  - intros ->. by apply CacheFacts.mapSet_absent.
  - intros other Hold Hkey. rewrite CacheFacts.mapGet_mapSet_ne by done.
    rewrite Hcache. unfold AlgorithmCache.mapGet. cbn [List.find fst].
    apply String.eqb_neq in Hold. rewrite String.eqb_sym in Hold.
    by rewrite Hold.
Qed.

Lemma cache_set_evicts_oldest_witness :
  CacheFacts.reachable sampleTruthy sampleStringify (Some 1) fullCache
  /\ AlgorithmCache.maxSize fullCache
     <= Z.of_nat (length (AlgorithmCache.cache fullCache))
  /\ AlgorithmCache.mapGet
       (AlgorithmCache.generateKey sampleStringify spriteSet "shelf" sampleOptions)
       (AlgorithmCache.cache
          (AlgorithmCache.set sampleStringify fullCache spriteSet
             "maxRectangles" sampleOptions 9%nat))
     = None.
Proof.
  assert (Hfull : AlgorithmCache.maxSize fullCache
                  <= Z.of_nat (length (AlgorithmCache.cache fullCache)))
    by (vm_compute; discriminate).
  split; [exact fullCache_reachable|]. split; [exact Hfull|].
  refine (proj1 (proj2 (proj2
            (cache_set_evicts_oldest sampleTruthy sampleStringify (Some 1)
               fullCache
               (AlgorithmCache.generateKey sampleStringify spriteSet "shelf"
                  sampleOptions)
               7%nat [] spriteSet "maxRectangles" sampleOptions 9%nat
               fullCache_reachable eq_refl Hfull))) _).
  vm_compute. discriminate.
Defined.

(** ** The multi-atlas packer *)

Module MultiAtlasFacts.
Import MultiAtlas.

(** The names of the frames of an atlas. *)
Definition packedNames (r : Packed) : list string :=
  match r with
  | FromMaxRectangles layout => map Frame.name (Layout.frames layout)
  | FromShelf layout => map Frame.name (Layout.frames layout)
  end.

Definition frameNames (atlas : Atlas) : list string := packedNames (packed atlas).

Definition imageNames (images : list Image.t) : list string :=
  map Image.name images.

Lemma packSingleAtlas_names p images strategy r :
  packSingleAtlas p images strategy = Some r ->
  packedNames r ≡ₚ imageNames images.
Proof.
  unfold packSingleAtlas.
  destruct (String.eqb (packingAlgorithm p) "maxRectangles").
  - destruct (MaxRects.packImagesWithMaxRectangles _ _ _ _) as [best|] eqn:Hpack;
      [|done].
    intros [= <-]. cbn [packedNames].
    apply MaxRectsSearch.maxRects_search_member in Hpack
      as (width & sortBy & layout & _ & _ & Hpack & _ & ->).
    unfold MaxRects.maxRectanglesPack in Hpack.
    destruct (MaxRects.placeAll _ _ _) as [st|] eqn:Hall; [|done].
    injection Hpack as <-. cbn [Layout.frames].
    apply MaxRectsFacts.placeAll_names in Hall. rewrite Hall. simpl.
    unfold imageNames. by rewrite stableSort_Permutation.
  - destruct (ShelfPacker.packImages _ _ _ _) as [[best|]| |] eqn:Hpack;
      try done.
    intros [= <-]. cbn [packedNames].
    apply ShelfSearch.shelf_search_member in Hpack
      as (width & sortBy & layout & _ & _ & Hpack & _ & ->).
    destruct (ShelfFacts.packImagesInternal_cases (inject_Z (padding p))
                (inject_Z width) (stableSort sortBy images))
      as [Hnull|(st' & Heq & Hnames & _)]; [congruence|].
    rewrite Heq in Hpack. apply ShelfFacts.Done_inj in Hpack as <-.
    cbn [Layout.frames]. unfold ShelfFacts.namesOf in Hnames. rewrite Hnames.
    unfold imageNames. by rewrite stableSort_Permutation.
Qed.

Definition packGroup (p : t) (group : Grouper.Group) : option Atlas :=
  match packSingleAtlas p (Grouper.items group) (Grouper.strategy group) with
  | Some result => Some (mkAtlas result (Some (Grouper.name group)))
  | None => None
  end.

Lemma packGroup_names p group atlas :
  packGroup p group = Some atlas ->
  frameNames atlas ≡ₚ imageNames (Grouper.items group).
Proof.
  unfold packGroup.
  destruct (packSingleAtlas p (Grouper.items group) (Grouper.strategy group))
    as [r|] eqn:Hr; [|done].
  intros [= <-]. by apply packSingleAtlas_names in Hr.
Qed.

Lemma packGroups_names p groups :
  concat (map frameNames (omap (packGroup p) groups))
    ⊆+ imageNames (GrouperFacts.allItems groups)
  /\ (length (omap (packGroup p) groups) <= length groups)%nat
  /\ (length (omap (packGroup p) groups) = length groups ->
      concat (map frameNames (omap (packGroup p) groups))
        ≡ₚ imageNames (GrouperFacts.allItems groups)).
Proof.
  unfold imageNames, GrouperFacts.allItems.
  induction groups as [|g groups (IHsub & IHlen & IHall)]; cbn [omap list_omap].
  - split; [done|]. split; [done|]. done.
  - cbn [map concat]. rewrite map_app.
    destruct (packGroup p g) as [atlas|] eqn:Hatlas.
    + apply packGroup_names in Hatlas. unfold imageNames in Hatlas.
      cbn [map concat length].
      split; [apply submseteq_app; [by rewrite Hatlas|done]|].
      split; [lia|]. intros Hlen. rewrite Hatlas, IHall; [done|lia].
    + split; [by apply submseteq_inserts_l|]. split; [simpl; lia|].
      simpl. lia.
Qed.

End MultiAtlasFacts.

(** X24.  The atlases [pack] returns hold frames of the input images only,
    each image at most once: the frame names of all atlases together are
    part of the image names, counted with multiplicity.  A list of at most
    [maxImagesPerAtlas] images gives at most one atlas, without a group
    name, which holds every image.  A longer list gives at most one atlas
    per group of the grouper, a group that does not pack being dropped, and
    when no group is dropped every image is in an atlas. *)
Theorem pack_frames_are_images p images :
  let atlases := MultiAtlas.pack p images in
  let names := concat (map MultiAtlasFacts.frameNames atlases) in
  let groups := Grouper.groupImages Grouper.GROUPING_CONFIG images in
  names ⊆+ map Image.name images
  /\ (Z.of_nat (length images) <= MultiAtlas.maxImagesPerAtlas p ->
      (length atlases <= 1)%nat
      /\ forall atlas, atlas ∈ atlases ->
           MultiAtlas.groupName atlas = None
           /\ MultiAtlasFacts.frameNames atlas ≡ₚ map Image.name images)
  /\ (MultiAtlas.maxImagesPerAtlas p < Z.of_nat (length images) ->
      (length atlases <= length groups)%nat
      /\ (length atlases = length groups -> names ≡ₚ map Image.name images)).
Proof.
  intros atlases names groups. subst atlases names. unfold MultiAtlas.pack.
  destruct images as [|im images].
  { cbn. split; [done|]. split.
    - intros _. split; [lia|]. by intros atlas ?%elem_of_nil.
    - intros _. split; [lia|done]. }
  cbn [length Nat.eqb].
  assert (Hperm : GrouperFacts.allItems groups ≡ₚ im :: images).
  { subst groups. unfold Grouper.groupImages. cbn [length Nat.eqb].
    rewrite GrouperFacts.limitGroupSize_items by (simpl; lia).
    rewrite GrouperFacts.mergeSmallGroups_Permutation.
    rewrite GrouperFacts.refineGroups_Permutation.
    apply GrouperFacts.groupBySize_Permutation. }
  destruct (Z.of_nat (S (length images)) <=? MultiAtlas.maxImagesPerAtlas p)
    eqn:Hfew.
  - apply Z.leb_le in Hfew.
    destruct (MultiAtlas.packSingleAtlas p (im :: images) "area") as [r|] eqn:Hr.
    + apply MultiAtlasFacts.packSingleAtlas_names in Hr.
      cbn [map concat]. rewrite app_nil_r.
      change (MultiAtlasFacts.frameNames (MultiAtlas.mkAtlas r None))
        with (MultiAtlasFacts.packedNames r).
      split; [by rewrite Hr|]. split; [|lia].
      intros _. split; [simpl; lia|].
      by intros atlas ->%list_elem_of_singleton.
    + cbn [map concat]. split; [apply submseteq_nil_l|]. split; [|lia].
      intros _. split; [simpl; lia|]. by intros atlas ?%elem_of_nil.
  - apply Z.leb_gt in Hfew.
    destruct (MultiAtlasFacts.packGroups_names p groups) as (Hsub & Hlen & Hall).
    fold groups. unfold MultiAtlasFacts.imageNames in *.
    change (fun group : Grouper.Group =>
              match MultiAtlas.packSingleAtlas p (Grouper.items group)
                      (Grouper.strategy group) with
              | Some result =>
                  Some (MultiAtlas.mkAtlas result (Some (Grouper.name group)))
              | None => None
              end) with (MultiAtlasFacts.packGroup p).
    rewrite Hperm in Hsub, Hall.
    split; [done|]. split; [lia|]. intros _. split; done.
Qed.

Module Oversized.

Lemma Forall2_elem_of_l {A B : Type} (P : A -> B -> Prop) l k a :
  Forall2 P l k -> a ∈ l -> exists b, b ∈ k /\ P a b.
Proof.
  intros Hall (i & Hi)%list_elem_of_lookup_1.
  destruct (Forall2_lookup_l _ _ _ _ _ Hall Hi) as (b & Hb & Hab).
  exists b. split; [by eapply list_elem_of_lookup_2|done].
Qed.

(** The Shelf sweep refuses an image that is wider and taller than the
    working width. *)
Lemma placeItem_Done_size padding maxWidth p item p' :
  ShelfPacker.placeItem padding maxWidth p item = Done p' ->
  ~ (maxWidth < inject_Z (Image.width item)
     /\ maxWidth < inject_Z (Image.height item))%Q.
Proof.
  unfold ShelfPacker.placeItem.
  destruct (Qltb maxWidth _ && Qltb maxWidth _) eqn:Hbig; [done|].
  intros _ [Hw Hh]. apply ShelfFacts.Qltb_true in Hw, Hh.
  by rewrite Hw, Hh in Hbig.
Qed.

Lemma sweepFrom_Done_size padding maxWidth images : forall p p' item,
  ShelfPacker.sweepFrom padding maxWidth p images = Done p' ->
  item ∈ images ->
  ~ (maxWidth < inject_Z (Image.width item)
     /\ maxWidth < inject_Z (Image.height item))%Q.
Proof.
  induction images as [|im rest IH]; intros p p' item H; simpl in H;
    [by intros ?%elem_of_nil|].
  destruct (ShelfPacker.placeItem padding maxWidth p im) as [p1| |] eqn:H1;
    [|done|done].
  intros [->|Hin]%elem_of_cons; [by eapply placeItem_Done_size|by eapply IH].
Qed.

End Oversized.

(** X25.  An image whose two sides, with the padding added, both exceed
    [min(maxWidth, 2048)] makes the MaxRectangles search fail: for images of
    positive size and a padding that is not negative it returns [null]. *)
Theorem maxRects_oversized_image_fails images padding maxWidth usePowerOfTwo im :
  MaxRectsFacts.positive images -> 0 <= padding ->
  im ∈ images ->
  Z.min maxWidth 2048 < Z.min (Image.width im) (Image.height im) + padding ->
  MaxRects.packImagesWithMaxRectangles images padding maxWidth usePowerOfTwo = None.
Proof.
  intros Hpos Hp Him Hbig.
  destruct (MaxRects.packImagesWithMaxRectangles images padding maxWidth
              usePowerOfTwo) as [best|] eqn:Hpack; [|done].
  exfalso.
  apply MaxRectsSearch.maxRects_search_member in Hpack
    as (width & strategy & layout & Hw & _ & Hpack & _ & _).
  apply MaxRectsSearch.elem_of_widthOptions in Hw as [Hwle _].
  pose proof (SearchFacts.positive_stableSort strategy images Hpos) as Hpos'.
  destruct (MaxRectsBounds.maxRectanglesPack_inBin _ _ _ _ Hpos' Hp Hpack)
    as (Hbin & _ & _).
  destruct (MaxRectsFacts.maxRectanglesPack_contained _ _ _ _ Hpos' Hp Hpack)
    as (_ & _ & Hplaced).
  apply MaxRectsBounds.maxRectanglesPack_frameOf in Hpack.
  assert (Him' : im ∈ stableSort strategy images)
    by (by rewrite stableSort_Permutation).
  destruct (Oversized.Forall2_elem_of_l _ _ _ _ Hpack Him')
    as (f & Hf & _ & _ & _ & _ & _ & Hsize).
  destruct (Hbin f Hf) as [Hx _].
  destruct (Hplaced f Hf) as ((Hx0 & _) & _).
  destruct Hsize as [(_ & Hfw & _)|(_ & Hfw & _)]; lia.
Qed.

Lemma maxRects_oversized_image_fails_witness :
  MaxRectsFacts.positive spriteSet /\ 0 <= 2
  /\ MaxRects.packImagesWithMaxRectangles spriteSet 2 64 true = None.
Proof.
  assert (Hp : 0 <= 2) by lia.
  assert (Him : Image.mk "hero" 64 96 ∈ spriteSet) by left.
  assert (Hbig : Z.min 64 2048 < Z.min 64 96 + 2) by (simpl; lia).
  split; [exact spriteSet_positive|]. split; [exact Hp|].
  exact (maxRects_oversized_image_fails spriteSet 2 64 true
           (Image.mk "hero" 64 96) spriteSet_positive Hp Him Hbig).
Defined.

(** X26.  An attempt of the Shelf packer returns [null] when one of its
    images is both wider and taller than the working width. *)
Theorem shelf_oversized_image_fails images padding maxWidth im :
  im ∈ images ->
  (maxWidth < inject_Z (Image.width im))%Q ->
  (maxWidth < inject_Z (Image.height im))%Q ->
  ShelfPacker.packImagesInternal images padding maxWidth = ReturnNull.
Proof.
  intros Him Hw Hh.
  destruct (ShelfFacts.packImagesInternal_cases padding maxWidth images)
    as [Hnull|(st' & Heq & _ & _)]; [done|].
  exfalso. revert Heq.
  unfold ShelfPacker.packImagesInternal, ShelfPacker.packWith.
  destruct images as [|item rest]; [by apply elem_of_nil in Him|].
  unfold ShelfPacker.maxAttempts. cbn [ShelfPacker.passLoop].
  unfold ShelfPacker.sweep at 1.
  destruct (ShelfPacker.sweepFrom padding maxWidth _ (item :: rest))
    as [p| |] eqn:Hsweep; [|done|done].
  intros _. by eapply Oversized.sweepFrom_Done_size.
Qed.

Lemma shelf_oversized_image_fails_witness :
  ShelfPacker.packImagesInternal spriteSet 2 40 = ReturnNull.
Proof.
  assert (Him : Image.mk "hero" 64 96 ∈ spriteSet) by left.
  assert (Hw : (40 < inject_Z 64)%Q) by reflexivity.
  assert (Hh : (40 < inject_Z 96)%Q) by reflexivity.
  exact (shelf_oversized_image_fails spriteSet 2 40 (Image.mk "hero" 64 96)
           Him Hw Hh).
Defined.

(** ** The free rectangles of the MaxRectangles packer *)

Module PruneFacts.
Import MaxRects.

Definition contained (a b : Rect.t) : Prop := isContainedIn a b = true.

Lemma contained_refl a : contained a a.
Proof.
  unfold contained, isContainedIn.
  repeat (apply andb_true_intro; split); apply Z.leb_le; lia.
Qed.

Lemma contained_trans a b c : contained a b -> contained b c -> contained a c.
Proof.
  unfold contained, isContainedIn.
  intros [[[H1 H2]%andb_prop H3]%andb_prop H4]%andb_prop
         [[[G1 G2]%andb_prop G3]%andb_prop G4]%andb_prop.
  apply Z.leb_le in H1, H2, H3, H4, G1, G2, G3, G4.
  repeat (apply andb_true_intro; split); apply Z.leb_le; lia.
Qed.

(** Neither rectangle lies in the other. *)
Definition apart (a b : Rect.t) : Prop :=
  isContainedIn a b = false /\ isContainedIn b a = false.

(** The rows before [i] are done: none of them contains a later row or lies
    in one. *)
Definition settled (l : list Rect.t) (i : nat) : Prop :=
  forall p q a b, (p < i)%nat -> (p < q)%nat ->
    l !! p = Some a -> l !! q = Some b -> apart a b.

(** Every rectangle of [l0] lies in a rectangle of [l]. *)
Definition covers (l0 l : list Rect.t) : Prop :=
  forall a, a ∈ l0 -> exists b, b ∈ l /\ contained a b.

(** [l'] is [l] with rows at positions from [i] on removed. *)
Definition thinned (i : nat) (l l' : list Rect.t) : Prop :=
  (length l' <= length l)%nat
  /\ (forall p, (p < i)%nat -> l' !! p = l !! p)
  /\ forall q b, (i <= q)%nat -> l' !! q = Some b ->
       exists q', (q <= q')%nat /\ l !! q' = Some b.

Lemma thinned_refl i l : thinned i l l.
Proof. split; [done|]. split; [done|]. intros q b _ Hb. by exists q. Qed.

Lemma thinned_trans i l1 l2 l3 :
  thinned i l1 l2 -> thinned i l2 l3 -> thinned i l1 l3.
Proof.
  intros (Hlen1 & Hpre1 & Hpost1) (Hlen2 & Hpre2 & Hpost2).
  split; [lia|]. split.
  - intros p Hp. by rewrite Hpre2, Hpre1.
  - intros q b Hq Hb. destruct (Hpost2 q b Hq Hb) as (q' & Hq' & Hb').
    assert (Hiq' : (i <= q')%nat) by lia.
    destruct (Hpost1 q' b Hiq' Hb') as (q'' & Hq'' & Hb'').
    exists q''. split; [lia|done].
Qed.

Lemma thinned_delete i j l : (i <= j)%nat -> thinned i l (delete j l).
Proof.
  intros Hij. split.
  { apply sublist_length, sublist_delete. }
  split.
  - intros p Hp. apply list_lookup_delete_lt. lia.
  - intros q b Hq. rewrite list_lookup_delete.
    destruct (decide (q < j)%nat); intros Hb; [exists q|exists (S q)];
      (split; [lia|done]).
Qed.

Lemma settled_thinned i l l' : settled l i -> thinned i l l' -> settled l' i.
Proof.
  intros Hset (_ & Hpre & Hpost) p q a b Hp Hpq Ha Hb.
  rewrite Hpre in Ha by done.
  destruct (decide (q < i)%nat) as [Hq|Hq].
  - rewrite Hpre in Hb by done. by apply (Hset p q).
  - assert (Hiq : (i <= q)%nat) by lia.
    destruct (Hpost q b Hiq Hb) as (q' & Hq' & Hb').
    eapply (Hset p q'); [done|lia|done..].
Qed.

Lemma covers_refl l : covers l l.
Proof. intros a Ha. exists a. split; [done|apply contained_refl]. Qed.

Lemma covers_trans l1 l2 l3 : covers l1 l2 -> covers l2 l3 -> covers l1 l3.
Proof.
  intros H12 H23 a Ha. destruct (H12 a Ha) as (b & Hb & Hab).
  destruct (H23 b Hb) as (c & Hc & Hbc). exists c.
  split; [done|by eapply contained_trans].
Qed.

Lemma covers_delete l i j a b :
  i <> j -> l !! i = Some a -> l !! j = Some b -> contained a b ->
  covers l (delete i l).
Proof.
  intros Hij Ha Hb Hab x (k & Hk)%list_elem_of_lookup_1.
  destruct (decide (k = i)) as [->|Hki].
  - assert (x = a) as -> by congruence. exists b. split; [|done].
    destruct (decide (j < i)%nat).
    + apply (list_elem_of_lookup_2 _ j). by rewrite list_lookup_delete_lt.
    + apply (list_elem_of_lookup_2 _ (pred j)).
      rewrite list_lookup_delete_ge by lia.
      replace (S (pred j)) with j by lia. done.
  - exists x. split; [|apply contained_refl].
    destruct (decide (k < i)%nat).
    + apply (list_elem_of_lookup_2 _ k). by rewrite list_lookup_delete_lt.
    + apply (list_elem_of_lookup_2 _ (pred k)).
      rewrite list_lookup_delete_ge by lia.
      replace (S (pred k)) with k by lia. done.
Qed.

(** The inner loop at row [i], started at column [j]. *)
Lemma pruneInner_spec fuel : forall l i j a,
  (i < j)%nat -> l !! i = Some a -> (length l <= fuel + j)%nat ->
  (forall q b, (i < q < j)%nat -> l !! q = Some b -> apart a b) ->
  thinned i l (pruneInner fuel l i j).1
  /\ covers l (pruneInner fuel l i j).1
  /\ if (pruneInner fuel l i j).2
     then (length (pruneInner fuel l i j).1 < length l)%nat
     else (pruneInner fuel l i j).1 !! i = Some a
          /\ forall q b, (i < q)%nat ->
               (pruneInner fuel l i j).1 !! q = Some b -> apart a b.
Proof.
  induction fuel as [|fuel IH]; intros l i j a Hij Ha Hfuel Hdone.
  - simpl. split; [apply thinned_refl|]. split; [apply covers_refl|].
    split; [done|]. intros q b Hq Hb.
    apply (Hdone q b); [|done]. apply lookup_lt_Some in Hb. lia.
  - cbn [pruneInner]. rewrite Ha.
    destruct (l !! j) as [b|] eqn:Hb.
    + destruct (isContainedIn a b) eqn:Hab.
      * cbn [fst snd]. split; [by apply thinned_delete|].
        split; [eapply (covers_delete l i j); [lia|done..]|].
        rewrite length_delete by done. apply lookup_lt_Some in Ha. lia.
      * destruct (isContainedIn b a) eqn:Hba.
        -- assert (Ha' : delete j l !! i = Some a)
             by (by rewrite list_lookup_delete_lt).
           assert (Hlen : length (delete j l) = (length l - 1)%nat)
             by (by apply length_delete).
           apply lookup_lt_Some in Hb as Hjlt.
           assert (Hfuel' : (length (delete j l) <= fuel + j)%nat) by lia.
           specialize (IH (delete j l) i j a Hij Ha' Hfuel').
           destruct IH as (Hthin & Hcov & Hres).
           { intros q c Hq Hc. rewrite list_lookup_delete_lt in Hc by lia.
             by apply (Hdone q c). }
           split.
           { apply (thinned_trans i l (delete j l)); [|done].
             apply thinned_delete. lia. }
           split.
           { apply (covers_trans l (delete j l)); [|done].
             apply (covers_delete l j i b a); [lia|done..]. }
           destruct (pruneInner fuel (delete j l) i j).2; [lia|done].
        -- apply IH; [lia|done|lia|].
           intros q c Hq Hc. destruct (decide (q = j)) as [->|Hne].
           ++ assert (c = b) as -> by congruence. done.
           ++ apply (Hdone q c); [lia|done].
    + cbn [fst snd]. split; [apply thinned_refl|]. split; [apply covers_refl|].
      split; [done|]. intros q c Hq Hc.
      destruct (decide (q < j)%nat); [by apply (Hdone q c)|].
      apply lookup_ge_None in Hb. apply lookup_lt_Some in Hc. lia.
Qed.

Lemma pruneOuter_spec fuel : forall l i,
  (length l <= fuel + i)%nat -> settled l i ->
  settled (pruneOuter fuel l i) (length (pruneOuter fuel l i))
  /\ covers l (pruneOuter fuel l i).
Proof.
  induction fuel as [|fuel IH]; intros l i Hfuel Hset.
  - simpl. split; [|apply covers_refl].
    intros p q a b Hp Hpq. apply Hset; [lia|done].
  - cbn [pruneOuter]. destruct (decide (i < length l)%nat) as [Hi|Hi].
    + destruct (lookup_lt_is_Some_2 l i Hi) as [a Ha].
      destruct (pruneInner_spec (length l) l i (S i) a) as (Hthin & Hcov & Hres);
        [lia|done|lia|intros q b Hq; lia|].
      destruct (pruneInner (length l) l i (S i)) as [pruned broke].
      cbn [fst snd] in *.
      pose proof (settled_thinned i l pruned Hset Hthin) as Hset'.
      destruct Hthin as (Hlen & _ & _).
      destruct broke.
      * assert (Hfuel' : (length pruned <= fuel + i)%nat) by lia.
        destruct (IH pruned i Hfuel' Hset') as [Hfinal Hcov'].
        split; [done|by eapply covers_trans].
      * destruct Hres as [Hrow Hrest].
        destruct (IH pruned (S i)) as [Hfinal Hcov']; [lia| |].
        { intros p q c d Hp Hpq Hc Hd.
          destruct (decide (p = i)) as [->|Hne].
          - assert (c = a) as -> by congruence. by apply (Hrest q d).
          - apply (Hset' p q); [lia|done..]. }
        split; [done|by eapply covers_trans].
    + split; [|apply covers_refl].
      intros p q a b Hp Hpq. apply Hset; [lia|done].
Qed.

End PruneFacts.

Module SplitFacts.
Import MaxRects MaxRectsFacts.

(** The point [(px, py)] lies in the rectangle, borders on the right and at
    the bottom excluded. *)
Definition holds (r : Rect.t) (px py : Z) : Prop :=
  Rect.x r <= px < Rect.x r + Rect.width r
  /\ Rect.y r <= py < Rect.y r + Rect.height r.

Lemma holds_contained a b px py :
  PruneFacts.contained a b -> holds a px py -> holds b px py.
Proof.
  unfold PruneFacts.contained, isContainedIn, holds.
  intros [[[H1 H2]%andb_prop H3]%andb_prop H4]%andb_prop.
  apply Z.leb_le in H1, H2, H3, H4. lia.
Qed.

(** The residual rectangles of a free rectangle cover what the used
    rectangle leaves of it. *)
Lemma newNodes_cover u fr px py :
  noOverlap u fr = false -> holds fr px py -> ~ holds u px py ->
  exists r, r ∈ newNodes u fr /\ holds r px py.
Proof.
  unfold noOverlap, holds.
  intros [[[H1 H2]%orb_false_elim H3]%orb_false_elim H4]%orb_false_elim.
  apply Z.leb_gt in H1, H2, H3, H4. intros [Hx Hy] Hout.
  unfold newNodes.
  assert (Hxo : (Rect.x u <? Rect.x fr + Rect.width fr)
                && (Rect.x fr <? Rect.x u + Rect.width u) = true)
    by (apply andb_true_intro; split; apply Z.ltb_lt; lia).
  assert (Hyo : (Rect.y u <? Rect.y fr + Rect.height fr)
                && (Rect.y fr <? Rect.y u + Rect.height u) = true)
    by (apply andb_true_intro; split; apply Z.ltb_lt; lia).
  rewrite Hxo, Hyo.
  destruct (decide (py < Rect.y u)) as [Htop|Htop].
  { assert (Hc : (Rect.y fr <? Rect.y u)
                 && (Rect.y u <? Rect.y fr + Rect.height fr) = true)
      by (apply andb_true_intro; split; apply Z.ltb_lt; lia).
    rewrite Hc. eexists. split; [apply elem_of_app; left; apply elem_of_app; left; left|].
    simpl. lia. }
  destruct (decide (Rect.y u + Rect.height u <= py)) as [Hbot|Hbot].
  { assert (Hc : (Rect.y u + Rect.height u <? Rect.y fr + Rect.height fr) = true)
      by (apply Z.ltb_lt; lia).
    rewrite Hc. eexists.
    split; [apply elem_of_app; left; apply elem_of_app; right; left|].
    simpl. lia. }
  destruct (decide (px < Rect.x u)) as [Hleft|Hleft].
  { assert (Hc : (Rect.x fr <? Rect.x u)
                 && (Rect.x u <? Rect.x fr + Rect.width fr) = true)
      by (apply andb_true_intro; split; apply Z.ltb_lt; lia).
    rewrite Hc. eexists.
    split; [apply elem_of_app; right; apply elem_of_app; left; left|].
    simpl. lia. }
  assert (Hc : (Rect.x u + Rect.width u <? Rect.x fr + Rect.width fr) = true)
    by (apply Z.ltb_lt; lia).
  rewrite Hc. eexists.
  split; [apply elem_of_app; right; apply elem_of_app; right; left|].
  simpl. lia.
Qed.

(** What the backward loop keeps: the rows it does not visit, the visited
    rows that do not touch the used rectangle, and the residual rectangles
    of those that do. *)
Lemma splitLoop_keeps u : forall n l,
  (n <= length l)%nat ->
  (forall k r, (n <= k)%nat -> l !! k = Some r -> r ∈ splitLoop n l u)
  /\ (forall i fr, (i < n)%nat -> l !! i = Some fr ->
        if noOverlap u fr then fr ∈ splitLoop n l u
        else forall r, r ∈ newNodes u fr -> r ∈ splitLoop n l u).
Proof.
  induction n as [|i IH]; intros l Hn.
  - simpl. split; [|intros i fr Hi; lia].
    intros k r _ Hr. by apply (list_elem_of_lookup_2 _ k).
  - cbn [splitLoop]. unfold splitFreeRectangle.
    assert (Hi : (i < length l)%nat) by lia.
    destruct (lookup_lt_is_Some_2 l i Hi) as [fr0 Hfr0]. rewrite Hfr0.
    destruct (noOverlap u fr0) eqn:Hno.
    + assert (Hi' : (i <= length l)%nat) by lia.
      destruct (IH l Hi') as [IHrest IHseen]. split.
      * intros k r Hk Hr. apply (IHrest k r); [lia|done].
      * intros k fr Hk Hfr. destruct (decide (k = i)) as [->|Hne].
        -- assert (fr = fr0) as -> by congruence. rewrite Hno.
           by apply (IHrest i fr0).
        -- apply (IHseen k fr); [lia|done].
    + set (pushed := l ++ newNodes u fr0).
      assert (Hlen : (i <= length (delete i pushed))%nat).
      { rewrite length_delete.
        - unfold pushed. rewrite length_app. lia.
        - unfold pushed. rewrite lookup_app_l by lia. by exists fr0. }
      destruct (IH (delete i pushed) Hlen) as [IHrest IHseen]. split.
      * intros k r Hk Hr. apply (IHrest (pred k) r); [lia|].
        rewrite list_lookup_delete_ge by lia.
        replace (S (pred k)) with k by lia.
        unfold pushed. rewrite lookup_app_l; [done|]. by eapply lookup_lt_Some.
      * intros k fr Hk Hfr. destruct (decide (k = i)) as [->|Hne].
        -- assert (fr = fr0) as -> by congruence. rewrite Hno.
           intros r (m & Hm)%list_elem_of_lookup_1.
           apply (IHrest (length l + m - 1)%nat r); [lia|].
           rewrite list_lookup_delete_ge by lia.
           replace (S (length l + m - 1)) with (length l + m)%nat by lia.
           unfold pushed. by rewrite lookup_app_r, Nat.add_comm, Nat.add_sub by lia.
        -- apply (IHseen k fr); [lia|].
           rewrite list_lookup_delete_lt by lia.
           unfold pushed. rewrite lookup_app_l; [done|]. by eapply lookup_lt_Some.
Qed.

Lemma pruneFreeRectangles_spec l :
  PruneFacts.settled (pruneFreeRectangles l) (length (pruneFreeRectangles l))
  /\ PruneFacts.covers l (pruneFreeRectangles l).
Proof.
  unfold pruneFreeRectangles. apply PruneFacts.pruneOuter_spec; [lia|].
  intros p q a b Hp. lia.
Qed.

End SplitFacts.

(** X27.  [pruneFreeRectangles] leaves a list in which no rectangle lies in
    another one; it only removes rectangles, and every rectangle it removes
    lies in one that stays, so that no free space is given up. *)
Theorem prune_leaves_no_contained_rectangle l :
  let pruned := MaxRects.pruneFreeRectangles l in
  (forall p q a b, p <> q -> pruned !! p = Some a -> pruned !! q = Some b ->
     MaxRects.isContainedIn a b = false)
  /\ pruned ⊆ l
  /\ (forall a, a ∈ l ->
        exists b, b ∈ pruned /\ MaxRects.isContainedIn a b = true).
Proof.
  intros pruned. destruct (SplitFacts.pruneFreeRectangles_spec l) as [Hset Hcov].
  fold pruned in Hset, Hcov. split; [|split].
  - intros p q a b Hpq Ha Hb.
    destruct (decide (p < q)%nat) as [Hlt|Hge].
    + apply lookup_lt_Some in Ha as Hp.
      destruct (Hset p q a b) as [H _]; [lia|done..].
    + apply lookup_lt_Some in Hb as Hq.
      destruct (Hset q p b a) as [_ H]; [lia|lia|done..].
  - apply MaxRectsFacts.pruneOuter_subseteq.
  - exact Hcov.
Qed.

(** X28.  [splitFreeRectangles] takes the used rectangle out of the free
    space and nothing else: afterwards no free rectangle overlaps the used
    rectangle, every free rectangle lies in one that was free before, and
    every point that was in a free rectangle and is not in the used
    rectangle is still in a free rectangle. *)
Theorem split_keeps_free_space free used :
  let free' := MaxRects.splitFreeRectangles free used in
  (forall r, r ∈ free' ->
     MaxRectsFacts.separated r used
     /\ exists fr, fr ∈ free /\ MaxRectsFacts.inside r fr)
  /\ (forall fr px py, fr ∈ free ->
        SplitFacts.holds fr px py -> ~ SplitFacts.holds used px py ->
        exists r, r ∈ free' /\ SplitFacts.holds r px py).
Proof.
  intros free'. split.
  - intros r [[Hr Hsep]|(fr & Hfr & Hin & Hsep)]%MaxRectsFacts.splitFreeRectangles_elem.
    + split; [done|]. exists r. split; [done|]. unfold MaxRectsFacts.inside. lia.
    + split; [done|]. by exists fr.
  - intros fr px py (i & Hi)%list_elem_of_lookup_1 Hin Hout.
    subst free'. unfold MaxRects.splitFreeRectangles.
    destruct (SplitFacts.splitLoop_keeps used (length free) free (le_n _))
      as [_ Hseen].
    specialize (Hseen i fr (lookup_lt_Some _ _ _ Hi) Hi).
    destruct (SplitFacts.pruneFreeRectangles_spec
                (MaxRects.splitLoop (length free) free used)) as [_ Hcov].
    assert (Hsplit : exists r, r ∈ MaxRects.splitLoop (length free) free used
                               /\ SplitFacts.holds r px py).
    { destruct (MaxRects.noOverlap used fr) eqn:Hno; [by exists fr|].
      destruct (SplitFacts.newNodes_cover used fr px py Hno Hin Hout)
        as (r & Hr & Hhold).
      exists r. split; [by apply Hseen|done]. }
    destruct Hsplit as (r & Hr & Hhold).
    destruct (Hcov r Hr) as (b & Hb & Hrb).
    exists b. split; [done|]. by eapply SplitFacts.holds_contained.
Qed.

(** X29.  An image that opens a shelf is rotated exactly when its width
    with the padding exceeds the working width and its height with the
    padding does not; the comparison of the two areas that follows in the
    code never rotates, the areas being equal. *)
Theorem new_shelf_rotates_only_when_too_wide padding maxWidth width height :
  ShelfPacker.newShelfRotated padding maxWidth width height = true
  <-> (maxWidth < width + padding /\ height + padding <= maxWidth)%Q.
Proof.
  unfold ShelfPacker.newShelfRotated.
  destruct (Qltb maxWidth (width + padding)) eqn:Hw;
    destruct (Qltb maxWidth (height + padding)) eqn:Hh; cbn [andb negb].
  - apply ShelfFacts.Qltb_true in Hw, Hh. split; [done|]. intros [_ H]. lra.
  - apply ShelfFacts.Qltb_true in Hw. apply ShelfFacts.Qltb_false in Hh. done.
  - apply ShelfFacts.Qltb_false in Hw. split; [done|]. intros [H _]. lra.
  - apply ShelfFacts.Qltb_false in Hw.
    assert (Hsame : Qltb (height * width) (width * height) = false).
    { apply ShelfFacts.Qltb_false. rewrite Qmult_comm. apply Qle_refl. }
    rewrite Hsame. split; [done|]. intros [H _]. lra.
Qed.
